(* ===== verification/_CoqProject ===== *)
-Q . S2P
Prelude.v
GoString.v
Log.v
Slices.v
Serialize.v
Json.v
Parser.v
ParseLines.v
TokenMachine.v
RoundTrip.v
Pipeline.v
DirReader.v
LuaValue.v
Builtins.v
Kafka.v
HttpClient.v
HttpOverlap.v
Sandbox.v
SandboxConfig.v
HttpGet.v
Lifecycle.v
Ticker.v
Restarts.v
LuaLock.v
Main.v
