(* ===== verification/Prelude.v ===== *)
(** * logd: a verified model of the log processor

    logd reads log lines from files, directories or standard input, parses them into
    structured logs and hands each of them to a Lua script, whose hooks transform and
    forward them over HTTP or to Kafka.  This library models the Go program, shows what
    its parts guarantee, and pins down where they do not do what they mean to do.

    ** The program and the files

    - [logging/logging.go]: the structured log.  Log.v has [Log], [Set], [Get], [Remove],
      [Reset] on lists of properties; Slices.v has the same operations on slices in a
      store of arrays, and relates the two; Serialize.v has the two text formats, and
      Json.v a reader for the second.
    - [logging/parse.go]: the streaming parser.  Parser.v translates it handler by
      handler; ParseLines.v and TokenMachine.v are two specifications it implements, and
      RoundTrip.v reads back what Serialize.v writes.
    - [cmd/logd/main.go], [cmd/logd/bench.go]: Main.v has the command line, the choice of
      mode and reader, the signals and the formatter of logd's own log; Pipeline.v has
      the loop from the reader through the parser to the script, and the benchmarks.
    - [cmd/logd/watcher.go]: DirReader.v, the reader of watched directories.
    - [lua/builtin.go]: LuaValue.v has the values and arguments of the builtins,
      Builtins.v those on logs, over the store of Slices.v, SandboxConfig.v [config_set]
      and [http_post].
    - [lua/http.go], [lua/kafka.go]: HttpGet.v, SandboxConfig.v, Kafka.v, Lifecycle.v.
    - [lua/lua.go]: Sandbox.v has the calls of the hooks with the Lua stack they leave,
      Lifecycle.v the creation, reload and shutdown of the script's resources, and
      Ticker.v the goroutines: [main], the signal handler, the pipeline, the tickers, the
      restarts of the ticker, the pollers of the reports, the lock they share and how the
      process ends.  Restarts.v and LuaLock.v have the theorems on it.
    - [http/http.go]: HttpClient.v is the asynchronous client with its workers, and
      HttpOverlap.v the calls that overlap.
    - GoString.v has the meaning of Go's strings, runes and buffers; this file the
      outcomes of Go calls, the state monad and the shared tactics and lemmas.

    They meet at interfaces.  The pipeline sees the sandbox as a [Collector], of which
    Sandbox.v gives the instance; the sandbox sees the script as a [Script]; the program
    sees both as a [Host]; DirReader.v sees the system as an [OS], whose files
    and offsets obey the [OSLaws]; Lifecycle.v sees Kafka as a [Producer], and what the workers
    and servers do while a call of the HTTP client waits as a schedule, which is [adequate]
    when it ends the call; the numbers of the Lua machine are [LuaNumbers].  Laws are
    hypotheses of the theorems that need them, and witnesses instantiate them: [mem_laws]
    for a disk in memory, [greedy_adequate] for the schedule that lets everybody work.

    ** How the code is represented

    A function that may panic returns [go A], one that also changes a state [stgo S A];
    Go's [error] is [option error].  Loops are folds or structural recursion; where the
    code recurses on something else there is fuel: 256 levels in [Parser.next], where
    a transition can hand the rune on at most once per state code, a [uint8]
    ([next_total]); and one more than the entries of the table in the loops over a Lua
    table ([debug_fields_ok], [get_headers_ok]).  Running out of it is the panic
    [OutOfFuel], which the theorems exclude.  Machine integers are wrapped where the code
    can overflow: the ticker's interval, the partitions and offsets of Kafka, Lua numbers.
    Goroutines are transition systems: [step s e] is [None] when the event cannot happen,
    and a panic ends the process.

    ** What is shown

    - Parser: for all bytes, [Parse] is a line-by-line function, returns one log per
      newline and does not panic in one call ([parse_line_by_line], [parse_total],
      [parse_safe]); on clean text it is a machine without buffer or offsets, so the
      boundaries of the chunks do not matter ([parse_implements_machine],
      [parse_chunks_irrelevant]).  It panics exactly when a chunk starts with a space where
      the call before waits for what follows a colon, which the value after a key of
      two words can make it do ([parse_chunk_boundary_panics]), and text that is not ASCII is
      cut short ([parse_message]).
    - Logs: [parse_reads_String] and [json_reads_back] are the round trips, each with the
      logs it gives back ([reads_back], [json_ok]); [debug_line_reads_back] is that of
      logd's own log;
      [set_then_get], [built_logs_well_formed] and their neighbours specify the methods;
      [own_arrays_refine_lists] justifies the lists, [copy_shares_properties],
      [log_set_then_log_get] and [bench_passes_rewrite_logs] say what happens to copies.
    - Pipeline: the logs reach the script in order, however the reads cut the text
      ([pipeline_delivers_in_order], [pipeline_end_to_end]).
    - Directory reader: the scan adds every file once ([scan_adds_each_file_once]), the
      write events yield what is appended to a file since, all of it and in order
      ([read_returns_appended]), removal breaks the reader.
    - HTTP client: no panic, bounded queues in order, [Close] and [Flush] return when every
      request has been handled, calls return ([http_client_safe], [http_fifo_bounded],
      [http_stop_flushes], [http_call_returns]) as long as calls come one at a time and
      without the script's lock; [http_init_deadlock] and [close_during_post_panics] are
      what happens otherwise.
    - Goroutines: restarts of the ticker that do not overlap are safe
      ([serial_restarts_safe], [restart_replaces_ticker]); those that overlap can end in
      a panic, in two tickers or in a deadlock ([concurrent_restarts_doomed],
      [load_race_two_tickers], [load_restart_deadlock]).  One goroutine at a time runs
      Lua code with the lock held, but on_signal takes no lock ([hooks_exclusive]), a hook
      that waits in a builtin lets others in ([hooks_overlap]), and a reload leaves no Lua
      state for a while ([reload_drops_state]).  A signal during the shutdown is a panic
      ([late_signal_panics]).
    - Sandbox: the outcomes of every hook call, what protected mode handles and what it
      does not, what it leaves on the stack; what a reload keeps and releases
      ([reload_keeps_mode], [close_returns]).

    ** Not modelled

    - The Lua machine, librdkafka, net/http, fsnotify and logrus are interfaces or
      parameters; the two accessors of [kafka.ConfigMap] are translated.
    - [createProfileFile], [enableCPUProfile], [memProfile], [runPprofServer],
      [initLogging] and [printRes]: calls of the runtime and output.  So the pprof server is no
      sender on [exit] in Ticker.v, nor is the [Close] of the reader a step of [main].
    - The debug messages and trace ids of the HTTP client; opening the Lua libraries and
      setting the package path; [getStateSandbox], which fetches the sandbox that the
      models of the builtins take as an argument.
    - Sharing of properties in the parser, on lists in Parser.v: it appends to the log it
      is building, whose array no other log has, and starts the next one with a new array.
    - In Ticker.v, what the Lua code does between two builtins, the clock, and the other
      ends of the channels of reports; in SandboxConfig.v, the wait of a [Post] on a full
      channel, which HttpClient.v and HttpOverlap.v have.

    ** Plan

    The parser on the store of Slices.v; Ticker.v and HttpClient.v in one transition
    system, with the waits of a reload; the overlap of two events of one directory. *)

From Stdlib Require Export ZArith Lia Init.Byte.
From Stdlib Require Import Strings.String.
From stdpp Require Export prelude countable sets.
Export StringSyntax.

#[global] Set Default Goal Selector "!".
Global Open Scope Z_scope.

(** ** Go values shared by every component *)

(** A Go [string] is an immutable sequence of bytes; a [rune] is an [int32]. *)
Abbreviation gostring := (list byte).
Abbreviation rune := Z (only parsing).

Declare Scope go_scope.
Delimit Scope go_scope with go.
Global Open Scope go_scope.

(** A Go string literal (the text must be given in UTF-8). *)
Abbreviation literal := Stdlib.Strings.String.string.
Definition str (s : string) : gostring := list_byte_of_string s.
Arguments str _%_string.

(** The value of a byte, and the byte of a value in [0, 256). *)
Definition b2z (b : byte) : Z := Z.of_N (Byte.to_N b).
Definition z2b (z : Z) : byte := default x00 (Byte.of_N (Z.to_N z)).

(** Go's ['x'] rune literal, for ASCII characters. *)
Notation "# b" := (b2z b%byte) (at level 1, b at level 0, format "# b") : go_scope.

#[global] Instance byte_eq_dec : EqDecision byte := Byte.byte_eq_dec.

(** ** Run-time panics *)

Inductive gopanic : Type :=
  | SliceOutOfRange
  | IndexOutOfRange
  | NilDereference
  | CloseOfClosedChannel
  | CloseOfNilChannel
  | SendOnClosedChannel
  | UnlockOfUnlockedMutex
  | NonPositiveTicker
  | NilMapWrite
  | TypeAssertion
  | UserPanic (msg : gostring)
  (** Not a Go panic, but it ends the process as well: [os.Exit], or the return of [main]. *)
  | Exit (status : Z)
  (** Not a Go panic: the fuel of a bounded recursion of the model ran out. The
      lemmas about such recursions show that it does not happen. *)
  | OutOfFuel.

(** The outcome of a Go call: a value, or a panic that unwinds the goroutine. *)
Inductive go (A : Type) : Type :=
  | Ret (a : A)
  | Panic (e : gopanic).
Arguments Ret {A} _.
Arguments Panic {A} _.

#[global] Instance go_ret : MRet go := @Ret.
#[global] Instance go_bind : MBind go := λ A B f m,
  match m with Ret a => f a | Panic e => Panic e end.
#[global] Instance go_fmap : FMap go := λ A B f m,
  match m with Ret a => Ret (f a) | Panic e => Panic e end.

(** A loop whose body may panic. *)
Fixpoint foldM {A B} (f : B → A → go B) (b : B) (l : list A) : go B :=
  match l with
  | [] => Ret b
  | x :: l' => b' ← f b x; foldM f b' l'
  end.

Lemma foldM_app {A B} (f : B → A → go B) b l k :
  foldM f b (l ++ k) = b' ← foldM f b l; foldM f b' k.
Proof.
  revert b. induction l as [|x l IH]; intros b; [done|].
  cbn. destruct (f b x); [apply IH|done].
Qed.

Definition panics {A} (m : go A) : bool :=
  match m with Ret _ => false | Panic _ => true end.

#[global] Instance gopanic_eq_dec : EqDecision gopanic.
Proof. solve_decision. Defined.
#[global] Instance go_eq_dec {A} `{EqDecision A} : EqDecision (go A).
Proof. solve_decision. Defined.

Lemma go_bind_Ret {A B} (f : A → go B) (a : A) : (Ret a ≫= f) = f a.
Proof. reflexivity. Qed.

Lemma go_bind_inv {A B} (f : A → go B) (m : go A) (b : B) :
  m ≫= f = Ret b → ∃ a, m = Ret a ∧ f a = Ret b.
Proof. destruct m as [a|]; [eauto|done]. Qed.

(** A value of Go's [error] type other than [nil]: the [io.EOF] sentinel, or an
    error with a message. [option error] is the type [error] itself. *)
Inductive error : Type :=
  | EOF
  | Err (msg : gostring).

#[global] Instance error_eq_dec : EqDecision error.
Proof. solve_decision. Defined.

(** Stateful Go code: a state is passed along, and lost when the code panics. *)
Definition stgo (S A : Type) : Type := S → go (A * S).

#[global] Instance stgo_ret {S} : MRet (stgo S) := λ A a s, Ret (a, s).
#[global] Instance stgo_bind {S} : MBind (stgo S) := λ A B f m s,
  '(a, s') ← m s; f a s'.

Definition get {S} : stgo S S := λ s, Ret (s, s).
Definition modify {S} (f : S → S) : stgo S () := λ s, Ret (tt, f s).
Definition gopanics {S A} (e : gopanic) : stgo S A := λ _, Panic e.

Lemma stgo_bind_Ret {S A B} (m : stgo S A) (f : A → stgo S B) s a s' :
  m s = Ret (a, s') → (m ≫= f) s = f a s'.
Proof. intros H. unfold mbind, stgo_bind. by rewrite H. Qed.

Lemma stgo_bind_inv {S A B} (m : stgo S A) (f : A → stgo S B) s r :
  (m ≫= f) s = Ret r → ∃ a s', m s = Ret (a, s') ∧ f a s' = Ret r.
Proof. intros ([a s'] & ? & ?)%go_bind_inv. eauto. Qed.

(** Calls that return an error: the first one that fails ends the block. *)
Definition and_then {S} (m k : stgo S (option error)) : stgo S (option error) :=
  e ← m; match e with Some _ => mret e | None => k end.
Notation "m ;? k" := (and_then m k) (at level 100, right associativity) : go_scope.

(** ** Automation *)

Create HintDb logd discriminated.
Create Rewrite HintDb logd.

(** Split conjunctions and existentials of the context, and simplify equations. *)
Ltac inv_go :=
  repeat match goal with
  | H : Ret _ = Ret _ |- _ => injection H as H; subst
  | H : Panic _ = Ret _ |- _ => discriminate H
  | H : Ret _ = Panic _ |- _ => discriminate H
  | H : (_ ≫= _) = Ret _ |- _ => apply go_bind_inv in H as (? & ? & ?)
  | H : _ ∧ _ |- _ => destruct H
  | H : ∃ _, _ |- _ => destruct H
  end; simplify_eq.

(** Case analysis on the boolean integer tests of the context and the goal. *)
Ltac case_Z :=
  repeat match goal with
  | H : context [Z.eqb ?a ?b] |- _ => destruct (Z.eqb_spec a b)
  | H : context [Z.ltb ?a ?b] |- _ => destruct (Z.ltb_spec a b)
  | H : context [Z.leb ?a ?b] |- _ => destruct (Z.leb_spec a b)
  | |- context [Z.eqb ?a ?b] => destruct (Z.eqb_spec a b)
  | |- context [Z.ltb ?a ?b] => destruct (Z.ltb_spec a b)
  | |- context [Z.leb ?a ?b] => destruct (Z.leb_spec a b)
  end.

(** Evaluate the integer tests of the goal that the context decides. *)
Ltac decide_Z :=
  repeat match goal with
  | |- context [Z.eqb ?a ?b] =>
      first [rewrite (proj2 (Z.eqb_eq a b)) by lia
            |rewrite (proj2 (Z.eqb_neq a b)) by lia]
  | |- context [Z.ltb ?a ?b] =>
      first [rewrite (proj2 (Z.ltb_lt a b)) by lia
            |rewrite (proj2 (Z.ltb_ge a b)) by lia]
  | |- context [Z.leb ?a ?b] =>
      first [rewrite (proj2 (Z.leb_le a b)) by lia
            |rewrite (proj2 (Z.leb_gt a b)) by lia]
  end; cbn [andb orb negb].

(** ** Bytes *)

Lemma b2z_range b : 0 <= b2z b < 256.
Proof. unfold b2z. pose proof (Byte.to_N_bounded b). lia. Qed.

Lemma b2z_inj b c : b2z b = b2z c → b = c.
Proof.
  unfold b2z. intros H%N2Z.inj.
  pose proof (Byte.of_to_N b) as Hb. pose proof (Byte.of_to_N c) as Hc.
  congruence.
Qed.

Lemma b2z_z2b z : 0 <= z < 256 → b2z (z2b z) = z.
Proof.
  intros Hz. unfold b2z, z2b.
  destruct (Byte.of_N (Z.to_N z)) as [b|] eqn:E; simpl.
  - apply Byte.to_of_N in E. lia.
  - apply Byte.of_N_None_iff in E. lia.
Qed.

Lemma z2b_b2z b : z2b (b2z b) = b.
Proof. apply b2z_inj, b2z_z2b, b2z_range. Qed.

Lemma b2z_eqb b c : (b2z b =? b2z c) = bool_decide (b = c).
Proof.
  case_bool_decide as E; [subst; apply Z.eqb_refl|].
  apply Z.eqb_neq. intros H. by apply E, b2z_inj.
Qed.

#[global] Instance byte_countable : Countable byte.
Proof.
  refine (inj_countable' (λ b, Byte.to_N b) (λ n, default x00 (Byte.of_N n)) _).
  intros b. by rewrite Byte.of_to_N.
Defined.

#[export] Hint Rewrite b2z_z2b z2b_b2z : logd.

(** ** Lists *)

Section lists.
Context {A : Type}.
Implicit Types l k : list A.

Lemma take_drop_mid l k m :
  take (length k) (drop (length l) (l ++ k ++ m)) = k.
Proof. by rewrite drop_app_length, take_app_length. Qed.

(** Deciding a boolean predicate on every element by computation. *)
Lemma forallb_Forall (f : A → bool) l : forallb f l = true → Forall (λ x, f x = true) l.
Proof.
  induction l as [|x l IH]; cbn; [constructor|]. intros [? ?]%andb_true_iff.
  constructor; auto.
Qed.

Lemma forallb_impl (f g : A → bool) l :
  (∀ x, f x = true → g x = true) → forallb f l = true → forallb g l = true.
Proof.
  intros Hfg. induction l as [|x l IH]; [done|]. cbn. rewrite !andb_true_iff.
  intros [? ?]. auto.
Qed.

Lemma flat_map_app {B} (f : A → list B) l k :
  flat_map f (l ++ k) = flat_map f l ++ flat_map f k.
Proof. induction l as [|x l IH]; [done|]. cbn. by rewrite IH, app_assoc. Qed.

Lemma Forall_flat_map {B} (f : A → list B) (P : B → Prop) l :
  Forall (λ x, Forall P (f x)) l → Forall P (flat_map f l).
Proof. induction 1; cbn; [constructor|]. by apply Forall_app. Qed.

Lemma fold_left_app_list {B} (f : A → list B) l (b : list B) :
  fold_left (λ acc x, acc ++ f x) l b = b ++ flat_map f l.
Proof.
  revert b. induction l as [|x l IH]; intros b; cbn; [by rewrite app_nil_r|].
  by rewrite IH, <- app_assoc.
Qed.
End lists.
