(* ===== verification/GoString.v ===== *)
(** * Go strings: the language and library operations logd relies on

    Slicing with its bounds checks, UTF-8 encoding and the [range] loop over
    a string, the [bytes.Buffer] writers, and the functions of package
    [strings] that logd calls.  Nothing here is logd's own code: these are the
    meanings the Go language and its standard library give to the operations
    the other files use. *)

From S2P Require Import Prelude.

(** ** Length and slicing *)

Definition len {A} (s : list A) : Z := Z.of_nat (length s).

(** [s[lo:hi]], which panics when the bounds are out of range. *)
Definition slice (s : gostring) (lo hi : Z) : go gostring :=
  if (0 <=? lo) && (lo <=? hi) && (hi <=? len s)
  then Ret (take (Z.to_nat (hi - lo)) (drop (Z.to_nat lo) s))
  else Panic SliceOutOfRange.

(** [s[lo:]]. *)
Definition slice_from (s : gostring) (lo : Z) : go gostring := slice s lo (len s).

Lemma len_nonneg {A} (s : list A) : 0 <= len s.
Proof. unfold len. lia. Qed.

Lemma len_app {A} (s t : list A) : len (s ++ t) = len s + len t.
Proof. unfold len. rewrite length_app. lia. Qed.

Lemma len_cons {A} (x : A) s : len (x :: s) = 1 + len s.
Proof. unfold len. cbn [length]. lia. Qed.

Lemma len_nil {A} : len (@nil A) = 0.
Proof. reflexivity. Qed.

Lemma len_zero_inv {A} (s : list A) : len s = 0 → s = [].
Proof. unfold len. destruct s; cbn [length]; [done|lia]. Qed.

Lemma slice_ok s lo hi :
  0 <= lo → lo <= hi → hi <= len s → ∃ t, slice s lo hi = Ret t ∧ len t = hi - lo.
Proof.
  intros ???. unfold slice.
  rewrite !(proj2 (Z.leb_le _ _)) by lia. eexists; split; [done|].
  unfold len in *. rewrite length_take, length_drop. lia.
Qed.

Lemma slice_panics s lo hi : hi < lo → slice s lo hi = Panic SliceOutOfRange.
Proof. intros. unfold slice. by rewrite (proj2 (Z.leb_gt lo hi)), andb_false_r by lia. Qed.

(** The text between two markers is what a slice returns. *)
Lemma slice_mid pre tok post :
  slice (pre ++ tok ++ post) (len pre) (len pre + len tok) = Ret tok.
Proof.
  unfold slice. pose proof (len_nonneg pre). pose proof (len_nonneg tok).
  pose proof (len_nonneg post).
  rewrite !(proj2 (Z.leb_le _ _)) by (rewrite ?len_app; lia). cbn.
  replace (Z.to_nat (len pre + len tok - len pre)) with (length tok)
    by (unfold len; lia).
  replace (Z.to_nat (len pre)) with (length pre) by (unfold len; lia).
  by rewrite take_drop_mid.
Qed.

Lemma slice_from_app pre post : slice_from (pre ++ post) (len pre) = Ret post.
Proof.
  unfold slice_from. rewrite len_app.
  pose proof (slice_mid pre post []) as H. by rewrite app_nil_r in H.
Qed.

#[export] Hint Resolve len_nonneg : logd.

(** ** UTF-8 *)

(** [utf8.RuneError]. *)
Definition RuneError : rune := 65533.

(** Unicode scalar values: what [utf8.ValidRune] accepts. *)
Definition ValidRune (r : rune) : bool :=
  ((0 <=? r) && (r <? 55296)) || ((57343 <? r) && (r <=? 1114111)).

(** The bytes [utf8.EncodeRune] writes. *)
Definition encode_rune (r : rune) : gostring :=
  let r := if ValidRune r then r else RuneError in
  if r <? 128 then [z2b r]
  else if r <? 2048 then [z2b (192 + r / 64); z2b (128 + r mod 64)]
  else if r <? 65536 then
    [z2b (224 + r / 4096); z2b (128 + (r / 64) mod 64); z2b (128 + r mod 64)]
  else
    [z2b (240 + r / 262144); z2b (128 + (r / 4096) mod 64);
     z2b (128 + (r / 64) mod 64); z2b (128 + r mod 64)].

Definition in_range (lo hi : Z) (b : byte) : bool := (lo <=? b2z b) && (b2z b <=? hi).

(** The payload of a continuation byte. *)
Definition cont (b : byte) : bool := in_range 128 191 b.
Definition low6 (b : byte) : Z := b2z b - 128.

(** [utf8.DecodeRuneInString] on a nonempty string: the first rune and its
    width; an invalid or truncated encoding gives [RuneError] with width 1. *)
Definition decode_rune (s : gostring) : rune * nat :=
  let bad := (RuneError, 1%nat) in
  match s with
  | [] => (RuneError, 0%nat)
  | b0 :: t =>
    if b2z b0 <? 128 then (b2z b0, 1%nat)
    else if in_range 194 223 b0 then
      match t with
      | b1 :: _ =>
        if cont b1 then ((b2z b0 - 192) * 64 + low6 b1, 2%nat) else bad
      | _ => bad
      end
    else if in_range 224 239 b0 then
      match t with
      | b1 :: b2 :: _ =>
        let lo := if b2z b0 =? 224 then 160 else 128 in
        let hi := if b2z b0 =? 237 then 159 else 191 in
        if in_range lo hi b1 && cont b2
        then ((b2z b0 - 224) * 4096 + low6 b1 * 64 + low6 b2, 3%nat) else bad
      | _ => bad
      end
    else if in_range 240 244 b0 then
      match t with
      | b1 :: b2 :: b3 :: _ =>
        let lo := if b2z b0 =? 240 then 144 else 128 in
        let hi := if b2z b0 =? 244 then 143 else 191 in
        if in_range lo hi b1 && cont b2 && cont b3
        then ((b2z b0 - 240) * 262144 + low6 b1 * 4096 + low6 b2 * 64 + low6 b3, 4%nat)
        else bad
      | _ => bad
      end
    else bad
  end.

(** [for i, r := range s]: the pairs the loop visits, in order. [skip] is the
    number of bytes left of the rune being stepped over. *)
Fixpoint range_from (skip : nat) (i : Z) (s : gostring) : list (Z * rune) :=
  match s with
  | [] => []
  | b :: s' =>
    match skip with
    | S k => range_from k (i + 1) s'
    | O => let '(r, w) := decode_rune s in
           (i, r) :: range_from (Nat.pred w) (i + 1) s'
    end
  end.

Definition range (s : gostring) : list (Z * rune) := range_from 0 0 s.

(** The runes of a string, without their offsets. *)
Definition runes (s : gostring) : list rune := (range s).*2.

(** A string is ASCII when each of its bytes is below 128. *)
Definition ascii (b : byte) : bool := b2z b <? 128.
Definition is_ascii (s : gostring) : Prop := Forall (λ b, ascii b = true) s.

(** A string is valid UTF-8 when it encodes a sequence of scalar values. *)
Definition valid_utf8 (s : gostring) : Prop :=
  ∃ rs, Forall (λ r, ValidRune r = true) rs ∧ s = flat_map encode_rune rs.

Lemma decode_ascii b s : ascii b = true → decode_rune (b :: s) = (b2z b, 1%nat).
Proof. unfold ascii. intros H. cbn. by rewrite H. Qed.

Lemma cont_not_ascii b lo : 128 <= lo → ascii b = true → ∀ hi, in_range lo hi b = false.
Proof.
  unfold ascii, in_range. intros ? ?%Z.ltb_lt hi.
  by rewrite (proj2 (Z.leb_gt lo (b2z b))) by lia.
Qed.

(** The width of a decoded rune lies within the string. *)
Lemma decode_width s : s ≠ [] → (1 <= (decode_rune s).2 <= length s)%nat.
Proof.
  destruct s as [|b0 [|b1 [|b2 [|b3 s]]]]; [done|..]; intros _; cbn;
    repeat case_match; cbn; lia.
Qed.

(** What follows an ASCII byte does not change how the text before it decodes. *)
Lemma decode_app_ascii t b u :
  t ≠ [] → ascii b = true → decode_rune (t ++ b :: u) = decode_rune t.
Proof.
  intros Ht Hb.
  assert (cont b = false) as Hc by (by apply cont_not_ascii).
  assert (∀ lo hi, 128 <= lo → in_range lo hi b = false) as Hr
    by (intros; by apply cont_not_ascii).
  destruct t as [|b0 [|b1 [|b2 [|b3 t]]]]; [done|..]; cbn;
    rewrite ?Hc, ?Hr, ?andb_false_r by (repeat case_match; lia);
    repeat case_match; try done.
Qed.

Lemma range_from_skip k i s t :
  length s = k → range_from k i (s ++ t) = range_from 0 (i + len s) t.
Proof.
  revert i k. induction s as [|b s IH]; intros i k <-; cbn.
  - by rewrite len_nil, Z.add_0_r.
  - rewrite IH by done. f_equal. rewrite len_cons. lia.
Qed.

Lemma range_from_shift k i s :
  range_from k i s = (λ '(j, r), (i + j, r)) <$> range_from k 0 s.
Proof.
  revert k i. induction s as [|b s IH]; intros k i; [done|].
  cbn [range_from]. destruct k as [|k].
  - destruct (decode_rune (b :: s)) as [r w]. cbn. f_equal; [f_equal; lia|].
    rewrite (IH _ (i + 1)), (IH _ 1), <- list_fmap_compose.
    apply list_fmap_ext. intros _ [j r'] _. cbn. f_equal. lia.
  - rewrite (IH _ (i + 1)), (IH _ (0 + 1)), <- list_fmap_compose.
    apply list_fmap_ext. intros _ [j r'] _. cbn. f_equal. lia.
Qed.

(** [range] can be split at an ASCII byte. *)
Lemma range_app_ascii k i s b u :
  (k <= length s)%nat → ascii b = true →
  range_from k i (s ++ b :: u) =
    range_from k i s ++ (i + len s, b2z b) :: range_from 0 (i + len s + 1) u.
Proof.
  intros Hk Hb. revert k i Hk. induction s as [|c s IH]; intros k i Hk.
  - destruct k; [|cbn in Hk; lia]. cbn [app range_from].
    rewrite decode_ascii by done. cbn. by rewrite len_nil, Z.add_0_r.
  - cbn [app range_from]. destruct k as [|k].
    + change (c :: s ++ b :: u) with ((c :: s) ++ b :: u).
      rewrite decode_app_ascii by done.
      pose proof (decode_width (c :: s) ltac:(done)) as Hw.
      destruct (decode_rune (c :: s)) as [r w]. cbn in Hw |- *.
      rewrite IH by lia. rewrite len_cons.
      by replace (i + (1 + len s)) with (i + 1 + len s) by lia.
    + rewrite IH by (cbn in Hk; lia). rewrite len_cons.
      by replace (i + (1 + len s)) with (i + 1 + len s) by lia.
Qed.

Lemma range_from_ascii i s : is_ascii s →
  range_from 0 i s = imap (λ n b, (i + Z.of_nat n, b2z b)) s.
Proof.
  intros Hs. revert i. induction Hs as [|b s Hb Hs IH]; intros i; [done|].
  cbn [range_from]. rewrite decode_ascii by done. cbn. f_equal; [f_equal; lia|].
  rewrite IH. apply imap_ext. intros. cbn. f_equal. lia.
Qed.

(** Offsets visited by [range] are increasing positions of the string. *)
Lemma range_from_bounds k i s j r :
  (j, r) ∈ range_from k i s → i <= j < i + len s.
Proof.
  revert k i. induction s as [|b s IH]; intros k i; cbn [range_from];
    [by intros ?%elem_of_nil|].
  rewrite len_cons. destruct k as [|k].
  - destruct (decode_rune (b :: s)) as [r' w]. intros [[= -> ->]|H]%elem_of_cons.
    + pose proof (len_nonneg s). lia.
    + apply IH in H. lia.
  - intros H%IH. lia.
Qed.

(** *** Encoding then decoding *)

(** The base-64 digits of a rune. *)
Lemma digits2 r : 0 <= r < 2048 →
  ∃ a c, r / 64 = a ∧ r mod 64 = c ∧ r = a * 64 + c ∧ 0 <= c < 64 ∧ 0 <= a.
Proof.
  intros. exists (r / 64), (r mod 64).
  pose proof (Z.div_mod r 64). pose proof (Z.mod_pos_bound r 64).
  pose proof (Z.div_pos r 64). lia.
Qed.

Lemma digits3 r : 0 <= r →
  ∃ a b c, r / 4096 = a ∧ (r / 64) mod 64 = b ∧ r mod 64 = c ∧
    r = a * 4096 + b * 64 + c ∧ 0 <= c < 64 ∧ 0 <= b < 64 ∧ 0 <= a.
Proof.
  intros. exists (r / 4096), ((r / 64) mod 64), (r mod 64).
  pose proof (Z.div_mod r 64). pose proof (Z.mod_pos_bound r 64).
  pose proof (Z.div_mod (r / 64) 64). pose proof (Z.mod_pos_bound (r / 64) 64).
  pose proof (Z.div_pos r 4096).
  change 4096 with (64 * 64) in *. rewrite <- Z.div_div in * by lia. lia.
Qed.

Lemma digits4 r : 0 <= r →
  ∃ a b c d, r / 262144 = a ∧ (r / 4096) mod 64 = b ∧ (r / 64) mod 64 = c ∧
    r mod 64 = d ∧ r = a * 262144 + b * 4096 + c * 64 + d ∧
    0 <= d < 64 ∧ 0 <= c < 64 ∧ 0 <= b < 64 ∧ 0 <= a.
Proof.
  intros. destruct (digits3 r) as (q & c & d & <- & <- & <- & Hr & Hd & Hc & Hq);
    [done|].
  exists (r / 262144), ((r / 4096) mod 64), ((r / 64) mod 64), (r mod 64).
  pose proof (Z.div_mod (r / 4096) 64). pose proof (Z.mod_pos_bound (r / 4096) 64).
  pose proof (Z.div_pos r 262144).
  change 262144 with (4096 * 64) in *. rewrite <- Z.div_div in * by lia. lia.
Qed.

Lemma ValidRune_bounds r : ValidRune r = true ↔ 0 <= r < 55296 ∨ 57343 < r <= 1114111.
Proof. unfold ValidRune. lia. Qed.

Lemma decode_encode r s : ValidRune r = true →
  decode_rune (encode_rune r ++ s) = (r, length (encode_rune r)).
Proof.
  intros Hv. unfold encode_rune. rewrite Hv. apply ValidRune_bounds in Hv.
  unfold decode_rune, cont, in_range, low6.
  destruct (Z.ltb_spec r 128); [|destruct (Z.ltb_spec r 2048);
    [|destruct (Z.ltb_spec r 65536)]]; cbn [app length].
  - rewrite b2z_z2b by lia. by rewrite (proj2 (Z.ltb_lt _ _)) by lia.
  - destruct (digits2 r) as (a & c & -> & -> & Hr); [lia|].
    rewrite !b2z_z2b by lia. decide_Z. f_equal. lia.
  - destruct (digits3 r) as (a & b & c & -> & -> & -> & Hr); [lia|].
    rewrite !b2z_z2b by lia.
    destruct (Z.eqb_spec (224 + a) 224), (Z.eqb_spec (224 + a) 237);
      decide_Z; f_equal; lia.
  - destruct (digits4 r) as (a & b & c & d & -> & -> & -> & -> & Hr); [lia|].
    rewrite !b2z_z2b by lia.
    destruct (Z.eqb_spec (240 + a) 240), (Z.eqb_spec (240 + a) 244);
      decide_Z; f_equal; lia.
Qed.

Lemma encode_rune_nonempty r : (1 <= length (encode_rune r))%nat.
Proof. unfold encode_rune. repeat case_match; cbn; lia. Qed.

Lemma range_encode_cons r i s : ValidRune r = true →
  range_from 0 i (encode_rune r ++ s) =
    (i, r) :: range_from 0 (i + len (encode_rune r)) s.
Proof.
  intros Hv. pose proof (decode_encode r s Hv) as Hd.
  pose proof (encode_rune_nonempty r) as Hn.
  destruct (encode_rune r) as [|b t] eqn:E; [cbn in Hn; lia|].
  cbn [app range_from]. cbn [app] in Hd. rewrite Hd. cbn [length Nat.pred].
  rewrite range_from_skip by done. by rewrite len_cons, Z.add_assoc.
Qed.

Lemma range_encode i rs : Forall (λ r, ValidRune r = true) rs →
  (range_from 0 i (flat_map encode_rune rs)).*2 = rs.
Proof.
  intros Hrs. revert i. induction Hrs as [|r rs Hr Hrs IH]; intros i; [done|].
  cbn [flat_map]. rewrite range_encode_cons by done. cbn. by rewrite IH.
Qed.

Lemma runes_encode rs : Forall (λ r, ValidRune r = true) rs →
  runes (flat_map encode_rune rs) = rs.
Proof. apply range_encode. Qed.

(** Writing back the runes of a string: the identity on valid UTF-8. *)
Definition sanitize (s : gostring) : gostring := flat_map encode_rune (runes s).

Lemma sanitize_valid s : valid_utf8 s → sanitize s = s.
Proof. intros (rs & Hrs & ->). unfold sanitize. by rewrite runes_encode. Qed.

Lemma encode_ascii b : ascii b = true → encode_rune (b2z b) = [b].
Proof.
  unfold ascii. intros H%Z.ltb_lt. pose proof (b2z_range b).
  unfold encode_rune. rewrite (proj2 (ValidRune_bounds _)) by lia.
  rewrite (proj2 (Z.ltb_lt _ _)) by lia. by rewrite z2b_b2z.
Qed.

Lemma runes_ascii s : is_ascii s → runes s = b2z <$> s.
Proof.
  intros Hs. unfold runes, range. rewrite range_from_ascii by done.
  rewrite fmap_imap. generalize (λ n : nat, 0 + Z.of_nat n). intros _.
  clear Hs. induction s as [|b s IH]; [done|]. cbn. f_equal. exact IH.
Qed.

(** Only an ASCII rune is encoded with bytes below 128. *)
Lemma encode_rune_bytes r : Forall (λ b, b2z b = r ∨ 128 <= b2z b) (encode_rune r).
Proof.
  unfold encode_rune. set (r' := if ValidRune r then r else RuneError).
  assert (0 <= r' <= 1114111 ∧ (r' < 128 → r' = r)) as [Hb Hr].
  { unfold r', RuneError. destruct (ValidRune r) eqn:E; [|lia].
    apply ValidRune_bounds in E. lia. }
  clearbody r'.
  destruct (Z.ltb_spec r' 128); [|destruct (Z.ltb_spec r' 2048);
    [|destruct (Z.ltb_spec r' 65536)]].
  - repeat constructor. rewrite b2z_z2b; lia.
  - destruct (digits2 r') as (a & c & -> & -> & ?); [lia|].
    repeat constructor; rewrite b2z_z2b; lia.
  - destruct (digits3 r') as (a & b & c & -> & -> & -> & ?); [lia|].
    repeat constructor; rewrite b2z_z2b; lia.
  - destruct (digits4 r') as (a & b & c & d & -> & -> & -> & -> & ?); [lia|].
    repeat constructor; rewrite b2z_z2b; lia.
Qed.

(** The runes a [range] loop yields are valid. *)
Lemma decode_rune_valid s : ValidRune (decode_rune s).1 = true.
Proof.
  destruct s as [|b0 t]; [done|]. unfold decode_rune.
  pose proof (b2z_range b0). destruct (Z.ltb_spec (b2z b0) 128).
  { cbn. apply ValidRune_bounds. lia. }
  unfold cont, in_range, low6.
  destruct (b2z b0 =? 224) eqn:?, (b2z b0 =? 237) eqn:?,
    (b2z b0 =? 240) eqn:?, (b2z b0 =? 244) eqn:?; try lia;
  destruct t as [|b1 [|b2 [|b3 t]]];
    repeat match goal with
    | |- context [if ?c then _ else _] => destruct c eqn:?
    end; try done; cbn [fst]; apply ValidRune_bounds; lia.
Qed.

Lemma range_from_valid k i s : Forall (λ r, ValidRune r = true) (range_from k i s).*2.
Proof.
  revert k i. induction s as [|b s IH]; intros k i; [by constructor|].
  cbn [range_from]. destruct k as [|k]; [|apply IH].
  pose proof (decode_rune_valid (b :: s)) as Hv.
  destruct (decode_rune (b :: s)) as [r w]. by constructor.
Qed.

Lemma runes_valid s : Forall (λ r, ValidRune r = true) (runes s).
Proof. apply range_from_valid. Qed.

(** ** [bytes.Buffer] *)

Abbreviation buffer := (list byte) (only parsing).

Definition WriteByte (b : byte) (buf : buffer) : buffer := buf ++ [b].
Definition WriteString (s : gostring) (buf : buffer) : buffer := buf ++ s.
Definition WriteRune (r : rune) (buf : buffer) : buffer := buf ++ encode_rune r.

(** ** Package [strings] *)

(** [strings.Split(s, sep)] for a one-byte separator. *)
Fixpoint Split (s : gostring) (sep : byte) : list gostring :=
  match s with
  | [] => [[]]
  | b :: s' =>
    match Split s' sep with
    | [] => [[b]]
    | f :: fs => if bool_decide (b = sep) then [] :: f :: fs else (b :: f) :: fs
    end
  end.

(** [strings.HasPrefix(s, prefix)]. *)
Fixpoint HasPrefix (s prefix : gostring) : bool :=
  match prefix, s with
  | [], _ => true
  | p :: prefix', b :: s' => bool_decide (p = b) && HasPrefix s' prefix'
  | _ :: _, [] => false
  end.

(** [strings.TrimLeft(s, cutset)] for an ASCII cutset: drops the longest prefix
    made of characters of the cutset. *)
Fixpoint TrimLeft (s cutset : gostring) : gostring :=
  match s with
  | [] => []
  | b :: s' => if bool_decide (b ∈ cutset) then TrimLeft s' cutset else s
  end.

(** [strings.TrimPrefix(s, prefix)]. *)
Definition TrimPrefix (s prefix : gostring) : gostring :=
  if HasPrefix s prefix then drop (length prefix) s else s.

(** Joining with the separator undoes [Split]. *)
Fixpoint Join (fs : list gostring) (sep : byte) : gostring :=
  match fs with
  | [] => []
  | [f] => f
  | f :: fs' => f ++ sep :: Join fs' sep
  end.

Lemma Split_nonempty s sep : Split s sep ≠ [].
Proof. destruct s; cbn; [done|]. repeat case_match; done. Qed.

Lemma Join_Split s sep : Join (Split s sep) sep = s.
Proof.
  induction s as [|b s IH]; [done|]. cbn.
  pose proof (Split_nonempty s sep) as Hne.
  destruct (Split s sep) as [|f fs]; [done|].
  case_bool_decide; [subst b|]; cbn in *; destruct fs; cbn in *; by rewrite IH.
Qed.

Lemma Split_pieces s sep : Forall (λ f, sep ∉ f) (Split s sep).
Proof.
  induction s as [|b s IH]; cbn.
  - by repeat constructor; apply not_elem_of_nil.
  - pose proof (Split_nonempty s sep). destruct (Split s sep) as [|f fs]; [done|].
    apply Forall_cons in IH as [Hf Hfs]. case_bool_decide.
    + constructor; [apply not_elem_of_nil|by constructor].
    + constructor; [by apply not_elem_of_cons|done].
Qed.

Lemma Split_single s sep : sep ∉ s → Split s sep = [s].
Proof.
  induction s as [|b s IH]; cbn; [done|]. intros [? ?]%not_elem_of_cons.
  rewrite IH by done. by rewrite bool_decide_eq_false_2 by done.
Qed.

Lemma Split_app s t sep : sep ∉ s → Split (s ++ sep :: t) sep = s :: Split t sep.
Proof.
  induction s as [|b s IH]; cbn; intros H.
  - pose proof (Split_nonempty t sep). destruct (Split t sep); [done|].
    by rewrite bool_decide_eq_true_2.
  - apply not_elem_of_cons in H as [? ?]. rewrite IH by done.
    by rewrite bool_decide_eq_false_2 by done.
Qed.

Lemma HasPrefix_spec s p : HasPrefix s p = true ↔ ∃ t, s = p ++ t.
Proof.
  revert s. induction p as [|b p IH]; intros [|c s]; cbn; split; try done; eauto.
  - by intros [t ?].
  - intros [Hb Ht]%andb_true_iff. apply bool_decide_eq_true in Hb as ->.
    apply IH in Ht as [t ->]. eauto.
  - intros [t [= -> ->]]. rewrite bool_decide_eq_true_2 by done. apply IH. eauto.
Qed.

Lemma TrimPrefix_app p t : TrimPrefix (p ++ t) p = t.
Proof.
  unfold TrimPrefix. rewrite (proj2 (HasPrefix_spec _ _)) by eauto.
  apply drop_app_length.
Qed.

Lemma TrimLeft_app s t cutset :
  Forall (.∈ cutset) s → TrimLeft (s ++ t) cutset = TrimLeft t cutset.
Proof. induction 1; cbn; [done|]. by rewrite bool_decide_eq_true_2. Qed.

Lemma TrimLeft_stop b s cutset : b ∉ cutset → TrimLeft (b :: s) cutset = b :: s.
Proof. intros. cbn. by rewrite bool_decide_eq_false_2. Qed.
