(* ===== verification/Log.v ===== *)
(** * The structured log (logging/logging.go)

    The [Log] record with its five header fields, its message and its ordered
    list of key-value properties, and the methods [Set], [Get], [Remove],
    [Reset], [Timestamp] and [Props].  A log is specified as a finite view from
    keys to values ([Get]); the lemmas relate every method to that view. *)

From S2P Require Import Prelude GoString.

(** ** Data *)

(** Reserved keys: the names under which the header fields are reached. *)
Definition KeyThread : gostring := str "thread".
Definition KeyClass : gostring := str "class".
Definition KeyLevel : gostring := str "level".
Definition KeyTime : gostring := str "time".
Definition KeyDate : gostring := str "date".
Definition KeyTimestamp : gostring := str "timestamp".
Definition KeyMessage : gostring := str "msg".

Record Property : Type := mkProperty { key : gostring; value : gostring }.

Record Log : Type := mkLog {
  date : gostring;
  time : gostring;
  Level : gostring;
  Thread : gostring;
  Class : gostring;
  Message : gostring;
  props : list Property
}.

(** Go's zero value [Log{}]; a nil and an empty [props] slice have the same
    contents, so both are the empty list. *)
Definition zeroLog : Log := mkLog [] [] [] [] [] [] [].

#[global] Instance Property_eq_dec : EqDecision Property.
Proof. solve_decision. Defined.
#[global] Instance Log_eq_dec : EqDecision Log.
Proof. solve_decision. Defined.

(** Field assignments. *)
Definition set_date v l :=
  mkLog v (time l) (Level l) (Thread l) (Class l) (Message l) (props l).
Definition set_time v l :=
  mkLog (date l) v (Level l) (Thread l) (Class l) (Message l) (props l).
Definition set_Level v l :=
  mkLog (date l) (time l) v (Thread l) (Class l) (Message l) (props l).
Definition set_Thread v l :=
  mkLog (date l) (time l) (Level l) v (Class l) (Message l) (props l).
Definition set_Class v l :=
  mkLog (date l) (time l) (Level l) (Thread l) v (Message l) (props l).
Definition set_Message v l :=
  mkLog (date l) (time l) (Level l) (Thread l) (Class l) v (props l).
Definition set_props v l :=
  mkLog (date l) (time l) (Level l) (Thread l) (Class l) (Message l) v.

(** [s != ""]. *)
Definition nonempty (s : gostring) : bool := negb (bool_decide (s = [])).

(** ** Operations *)

Definition NewLog : Log := zeroLog.

(** [*l = Log{props: l.props[:0]}]. *)
Definition Reset (l : Log) : Log := set_props (take 0 (props l)) zeroLog.

(** [fmt.Sprintf("%s %s", l.date, l.time)]. *)
Definition Timestamp (l : Log) : gostring := date l ++ str " " ++ time l.

(** The loops [for i, p := range l.props { if p.key == key { ... } }]: the index
    of the first property with the given key. *)
Fixpoint find_key (i : nat) (ps : list Property) (k : gostring) : option nat :=
  match ps with
  | [] => None
  | p :: ps' => if bool_decide (key p = k) then Some i else find_key (S i) ps' k
  end.

Definition set_value (v : gostring) (p : Property) : Property := mkProperty (key p) v.

(** [copy(l[dst:], l[src:])] on one slice: overwrites as many elements as both
    sides have. *)
Definition copy_within {A} (dst src : nat) (l : list A) : list A :=
  let n := Nat.min (length l - dst) (length l - src) in
  take dst l ++ take n (drop src l) ++ drop (dst + n) l.

(** [l.Set(key, value)]: the updated log and whether a value was replaced. *)
Definition Set_ (k v : gostring) (l : Log) : go (Log * bool) :=
  if decide (k = KeyTimestamp) then
    let upsert := nonempty (date l) || nonempty (time l) in
    if decide (v = []) then Ret (set_time [] (set_date [] l), upsert)
    else
      match Split v " "%byte with
      | [o0; o1] => Ret (set_time o1 (set_date o0 l), upsert)
      | _ => Panic (UserPanic (str "invalid timestamp format: " ++ v))
      end
  else if decide (k = KeyLevel) then Ret (set_Level v l, nonempty (Level l))
  else if decide (k = KeyMessage) then Ret (set_Message v l, nonempty (Message l))
  else if decide (k = KeyThread) then Ret (set_Thread v l, nonempty (Thread l))
  else if decide (k = KeyClass) then Ret (set_Class v l, nonempty (Class l))
  else if decide (k = KeyTime) then Ret (set_time v l, nonempty (time l))
  else if decide (k = KeyDate) then Ret (set_date v l, nonempty (date l))
  else
    match find_key 0 (props l) k with
    | Some i => Ret (set_props (alter (set_value v) i (props l)) l, true)
    | None => Ret (set_props (props l ++ [mkProperty k v]) l, false)
    end.

(** [l.Get(key)]: the value and whether the key has one. *)
Definition Get (k : gostring) (l : Log) : gostring * bool :=
  if decide (k = KeyTimestamp) then
    let value := Timestamp l in (value, nonempty value)
  else if decide (k = KeyThread) then (Thread l, nonempty (Thread l))
  else if decide (k = KeyMessage) then (Message l, nonempty (Message l))
  else if decide (k = KeyLevel) then (Level l, nonempty (Level l))
  else if decide (k = KeyClass) then (Class l, nonempty (Class l))
  else if decide (k = KeyTime) then (time l, nonempty (time l))
  else if decide (k = KeyDate) then (date l, nonempty (date l))
  else
    match find_key 0 (props l) k with
    | Some i => match props l !! i with Some p => (value p, true) | None => ([], false) end
    | None => ([], false)
    end.

(** The keys of the [switch] in [Remove]. *)
Definition reserved : list gostring :=
  [KeyThread; KeyLevel; KeyClass; KeyTime; KeyDate; KeyTimestamp; KeyMessage].

(** [l.Remove(key)]: the updated log and whether a property was removed. *)
Definition Remove (k : gostring) (l : Log) : go (Log * bool) :=
  if decide (k ∈ reserved) then Set_ k [] l
  else
    match length (props l) with
    | O => Ret (l, false)
    | S last =>
      match find_key 0 (props l) k with
      | Some i =>
        if decide (i = last) then Ret (set_props (take i (props l)) l, true)
        else
          let moved := copy_within i (S i) (props l) in
          Ret (set_props (take last moved) l, true)
      | None => Ret (l, false)
      end
    end.

(** [l.Props()]. *)
Definition Props (l : Log) : list Property := props l.

(** ** Lemmas on the property loops *)

(** The reference meaning of the loops: the first value stored under a key. *)
Fixpoint assoc (k : gostring) (ps : list Property) : option gostring :=
  match ps with
  | [] => None
  | p :: ps' => if decide (key p = k) then Some (value p) else assoc k ps'
  end.

(** Removing the first property with a key. *)
Fixpoint remove_first (k : gostring) (ps : list Property) : list Property :=
  match ps with
  | [] => []
  | p :: ps' => if decide (key p = k) then ps' else p :: remove_first k ps'
  end.

Lemma find_key_shift i ps k : find_key i ps k = (λ n, (i + n)%nat) <$> find_key 0 ps k.
Proof.
  revert i. induction ps as [|p ps IH]; intros i; cbn; [done|].
  case_bool_decide; cbn; [f_equal; lia|].
  rewrite (IH (S i)), (IH 1%nat), <- option_fmap_compose.
  apply option_fmap_ext. intros n. cbn. lia.
Qed.

Lemma find_key_Some ps k i :
  find_key 0 ps k = Some i →
  ∃ pre p post, ps = pre ++ p :: post ∧ length pre = i ∧ key p = k ∧ k ∉ key <$> pre.
Proof.
  revert i. induction ps as [|p ps IH]; cbn; intros i; [done|].
  case_bool_decide as E.
  - intros [= <-]. exists [], p, ps. split_and!; [done..|]. apply not_elem_of_nil.
  - rewrite find_key_shift. destruct (find_key 0 ps k) as [n|]; [|done].
    intros [= <-]. destruct (IH n) as (pre & q & post & -> & <- & ? & ?); [done|].
    exists (p :: pre), q, post. split_and!; [done..|].
    cbn. apply not_elem_of_cons. naive_solver.
Qed.

Lemma find_key_None ps k : find_key 0 ps k = None ↔ k ∉ key <$> ps.
Proof.
  induction ps as [|p ps IH]; cbn.
  - split; [intros _; apply not_elem_of_nil|done].
  - rewrite not_elem_of_cons. case_bool_decide as E; [naive_solver|].
    rewrite find_key_shift, fmap_None, IH. naive_solver.
Qed.

Lemma assoc_app k ps qs :
  assoc k (ps ++ qs) = match assoc k ps with Some v => Some v | None => assoc k qs end.
Proof. induction ps as [|p ps IH]; cbn; [done|]. by case_decide. Qed.

Lemma assoc_None k ps : assoc k ps = None ↔ k ∉ key <$> ps.
Proof.
  induction ps as [|p ps IH]; cbn.
  - split; [intros _; apply not_elem_of_nil|done].
  - rewrite not_elem_of_cons. case_decide; naive_solver.
Qed.

Lemma assoc_mid k pre p post :
  k ∉ key <$> pre → key p = k → assoc k (pre ++ p :: post) = Some (value p).
Proof.
  intros Hpre Hk. rewrite assoc_app, (proj2 (assoc_None _ _) Hpre). cbn.
  by rewrite decide_True.
Qed.

(** The loop of [Get] computes [assoc]. *)
Lemma find_key_assoc ps k :
  match find_key 0 ps k with
  | Some i => match ps !! i with Some p => (value p, true) | None => ([], false) end
  | None => ([], false)
  end = match assoc k ps with Some v => (v, true) | None => ([], false) end.
Proof.
  destruct (find_key 0 ps k) as [i|] eqn:E.
  - apply find_key_Some in E as (pre & p & post & -> & <- & Hk & Hpre).
    rewrite list_lookup_middle, assoc_mid by done. done.
  - apply find_key_None in E. by rewrite (proj2 (assoc_None _ _) E).
Qed.

Lemma alter_mid {A} (f : A → A) pre x post :
  alter f (length pre) (pre ++ x :: post) = pre ++ f x :: post.
Proof. induction pre; cbn; [done|]. by f_equal. Qed.

(** Moving the tail down by one and dropping the last slot deletes an element. *)
Lemma copy_within_delete {A} (pre : list A) x post :
  take (length (pre ++ post)) (copy_within (length pre) (S (length pre)) (pre ++ x :: post))
    = pre ++ post.
Proof.
  unfold copy_within. rewrite !length_app. cbn [length].
  replace (Nat.min _ _) with (length post) by lia.
  rewrite take_app_length.
  replace (S (length pre)) with (length (pre ++ [x])) by (rewrite length_app; cbn; lia).
  replace (pre ++ x :: post) with ((pre ++ [x]) ++ post) by (by rewrite <- app_assoc).
  rewrite drop_app_length, firstn_all, app_assoc, <- length_app.
  apply take_app_length.
Qed.

Lemma remove_first_mid k pre p post :
  k ∉ key <$> pre → key p = k → remove_first k (pre ++ p :: post) = pre ++ post.
Proof.
  intros Hpre Hk. induction pre as [|q pre IH]; cbn in *; [by rewrite decide_True|].
  apply not_elem_of_cons in Hpre as [? ?]. rewrite decide_False by done.
  by rewrite IH.
Qed.

Lemma remove_first_None k ps : k ∉ key <$> ps → remove_first k ps = ps.
Proof.
  induction ps as [|p ps IH]; cbn; [done|]. intros [? ?]%not_elem_of_cons.
  rewrite decide_False by done. by rewrite IH.
Qed.

(** ** The view of a log *)

(** The reserved keys are pairwise different. *)
Ltac key_cases :=
  repeat case_decide; subst; try done;
  try match goal with H : _ = _ :> gostring |- _ => vm_compute in H; discriminate H end.

Lemma find_key_is_Some ps k :
  find_key 0 ps k ≠ None → k ∈ key <$> ps.
Proof.
  intros H. destruct (decide (k ∈ key <$> ps)) as [|Hn]; [done|].
  by apply find_key_None in Hn.
Qed.

(** Every key that is not reserved is looked up in the properties. *)
Lemma Get_prop k l : k ∉ reserved →
  Get k l = match assoc k (props l) with Some v => (v, true) | None => ([], false) end.
Proof.
  unfold reserved. rewrite !not_elem_of_cons. intros H. destruct_and!. unfold Get.
  rewrite !decide_False by done. apply find_key_assoc.
Qed.

Lemma Get_found k l : k ∉ reserved → (Get k l).2 = bool_decide (k ∈ key <$> props l).
Proof.
  intros Hk. rewrite Get_prop by done. pose proof (assoc_None k (props l)) as HN.
  case_bool_decide as E; destruct (assoc k (props l)); try done; exfalso; naive_solver.
Qed.

(** The reserved keys do not depend on the properties. *)
Lemma Get_set_props k ps l : k ∈ reserved → Get k (set_props ps l) = Get k l.
Proof.
  unfold reserved. rewrite !elem_of_cons. intros Hk.
  destruct_or!; subst; try reflexivity. by apply elem_of_nil in Hk.
Qed.

(** Writing a property: the first one with the key is updated, or a new one is
    added at the end. *)
Fixpoint upsert_first (k v : gostring) (ps : list Property) : list Property :=
  match ps with
  | [] => [mkProperty k v]
  | p :: ps' => if decide (key p = k) then set_value v p :: ps'
                else p :: upsert_first k v ps'
  end.

Lemma upsert_first_mid k v pre p post :
  k ∉ key <$> pre → key p = k →
  upsert_first k v (pre ++ p :: post) = pre ++ set_value v p :: post.
Proof.
  intros Hpre Hk. induction pre as [|q pre IH]; cbn in *; [by rewrite decide_True|].
  apply not_elem_of_cons in Hpre as [? ?]. rewrite decide_False by done.
  by rewrite IH.
Qed.

Lemma upsert_alter k v i ps :
  find_key 0 ps k = Some i → upsert_first k v ps = alter (set_value v) i ps.
Proof.
  intros (pre & p & post & -> & <- & Hp & Hpre)%find_key_Some.
  by rewrite alter_mid, upsert_first_mid.
Qed.

Lemma upsert_first_None k v ps :
  k ∉ key <$> ps → upsert_first k v ps = ps ++ [mkProperty k v].
Proof.
  induction ps as [|p ps IH]; cbn; [done|]. intros [? ?]%not_elem_of_cons.
  rewrite decide_False by done. by rewrite IH.
Qed.

Lemma Set_prop k v l : k ∉ reserved →
  Set_ k v l = Ret (set_props (upsert_first k v (props l)) l,
                    bool_decide (k ∈ key <$> props l)).
Proof.
  unfold reserved. rewrite !not_elem_of_cons. intros H. destruct_and!. unfold Set_.
  rewrite !decide_False by done.
  destruct (find_key 0 (props l) k) as [i|] eqn:E.
  - pose proof E as E'. apply find_key_Some in E as (pre & p & post & Hp & <- & Hk & Hpre).
    rewrite <- (upsert_alter k v _ _ E'), Hp, bool_decide_eq_true_2; try done.
    rewrite fmap_app, elem_of_app, fmap_cons, elem_of_cons. naive_solver.
  - apply find_key_None in E.
    by rewrite upsert_first_None, bool_decide_eq_false_2.
Qed.

Lemma Remove_prop k l : k ∉ reserved →
  Remove k l = Ret (set_props (remove_first k (props l)) l,
                    bool_decide (k ∈ key <$> props l)).
Proof.
  intros Hk. unfold Remove. rewrite decide_False by done.
  destruct (length (props l)) as [|last] eqn:Hlen.
  - apply nil_length_inv in Hlen. rewrite Hlen. cbn.
    rewrite bool_decide_eq_false_2 by apply not_elem_of_nil.
    rewrite <- Hlen. by destruct l.
  - destruct (find_key 0 (props l) k) as [i|] eqn:E.
    + apply find_key_Some in E as (pre & p & post & Hp & <- & Hkey & Hpre).
      rewrite Hp in *. rewrite length_app in Hlen. cbn in Hlen.
      rewrite remove_first_mid by done.
      rewrite bool_decide_eq_true_2
        by (rewrite fmap_app, elem_of_app, fmap_cons, elem_of_cons; naive_solver).
      case_decide as Hl.
      * destruct post; [|cbn in Hlen; lia].
        by rewrite take_app_length, app_nil_r.
      * replace last with (length (pre ++ post)) by (rewrite length_app; lia).
        by rewrite copy_within_delete.
    + apply find_key_None in E.
      rewrite remove_first_None, bool_decide_eq_false_2 by done. by destruct l.
Qed.

Lemma assoc_upsert k v ps : assoc k (upsert_first k v ps) = Some v.
Proof.
  induction ps as [|p ps IH]; cbn; [by rewrite decide_True|].
  case_decide; cbn; [by rewrite decide_True|by rewrite decide_False].
Qed.

Lemma assoc_upsert_ne k k' v ps : k' ≠ k → assoc k' (upsert_first k v ps) = assoc k' ps.
Proof.
  intros Hne. induction ps as [|p ps IH]; cbn; [by rewrite decide_False|].
  case_decide; cbn; case_decide; congruence.
Qed.

Lemma assoc_remove_ne k k' ps : k' ≠ k → assoc k' (remove_first k ps) = assoc k' ps.
Proof.
  intros Hne. induction ps as [|p ps IH]; cbn; [done|].
  repeat (case_decide; cbn); congruence.
Qed.

Lemma upsert_first_keys k v ps :
  key <$> upsert_first k v ps =
    if decide (k ∈ key <$> ps) then key <$> ps else (key <$> ps) ++ [k].
Proof.
  case_decide as E.
  - induction ps as [|p ps IH]; cbn in *; [by apply elem_of_nil in E|].
    case_decide; cbn; [done|]. f_equal. apply IH.
    apply elem_of_cons in E as [|]; congruence.
  - by rewrite upsert_first_None, fmap_app.
Qed.

Lemma remove_first_sublist k ps : remove_first k ps `sublist_of` ps.
Proof.
  induction ps as [|p ps IH]; cbn; [done|].
  case_decide; [by apply sublist_cons|by apply sublist_skip].
Qed.

Lemma remove_first_gone k ps : NoDup (key <$> ps) → k ∉ key <$> remove_first k ps.
Proof.
  induction ps as [|p ps IH]; cbn; [intros _; apply not_elem_of_nil|].
  intros [? ?]%list.NoDup_cons. case_decide; subst; [done|]. cbn.
  apply not_elem_of_cons. split; [done|by apply IH].
Qed.

(** ** Well-formed logs *)

(** The invariant of logs built through the API: no key is stored twice, and no
    reserved key is stored as a property. *)
Record wf_log (l : Log) : Prop := {
  wf_keys : NoDup (key <$> props l);
  wf_reserved : Forall (λ p, key p ∉ reserved) (props l)
}.

(** The logs a Lua script can build with [log_set], [log_remove] and
    [log_reset] from a new one. *)
Inductive built : Log → Prop :=
  | built_new : built NewLog
  | built_set k v l l' up : built l → Set_ k v l = Ret (l', up) → built l'
  | built_remove k l l' found : built l → Remove k l = Ret (l', found) → built l'
  | built_reset l : built l → built (Reset l).

Lemma Set_reserved_props k v l l' up :
  k ∈ reserved → Set_ k v l = Ret (l', up) → props l' = props l.
Proof.
  intros Hk. unfold Set_. repeat case_decide; intros; inv_go; try done.
  - repeat case_match; inv_go; done.
  - exfalso. unfold reserved in Hk. rewrite !elem_of_cons in Hk.
    destruct_or!; try congruence. by apply elem_of_nil in Hk.
Qed.

Lemma wf_props l l' : props l' = props l → wf_log l → wf_log l'.
Proof. intros H [? ?]. by split; rewrite H. Qed.

Lemma wf_log_new : wf_log NewLog.
Proof. split; constructor. Qed.

Lemma wf_log_Set k v l l' up : wf_log l → Set_ k v l = Ret (l', up) → wf_log l'.
Proof.
  intros [Hk Hr] HS. destruct (decide (k ∈ reserved)) as [E|E].
  - apply Set_reserved_props in HS; [|done]. by eapply wf_props.
  - rewrite Set_prop in HS by done. inv_go. split; cbn.
    + rewrite upsert_first_keys. case_decide; [done|].
      apply list.NoDup_app. split_and!; [done|set_solver|apply NoDup_singleton].
    + clear Hk. induction Hr as [|p ps Hp Hr IH]; cbn.
      * by constructor.
      * case_decide; constructor; try done.
Qed.

Lemma wf_log_Remove k l l' found : wf_log l → Remove k l = Ret (l', found) → wf_log l'.
Proof.
  intros Hwf HR. destruct (decide (k ∈ reserved)) as [E|E].
  - unfold Remove in HR. rewrite decide_True in HR by done. by eapply wf_log_Set.
  - rewrite Remove_prop in HR by done. inv_go. destruct Hwf as [Hk Hr]. split; cbn.
    + eapply sublist_NoDup; [exact Hk|]. apply fmap_sublist, remove_first_sublist.
    + rewrite Forall_forall in *. intros p Hp. apply Hr.
      eapply elem_of_submseteq; [exact Hp|].
      apply sublist_submseteq, remove_first_sublist.
Qed.

Lemma wf_log_Reset l : wf_log (Reset l).
Proof. split; constructor. Qed.

#[export] Hint Resolve wf_log_new wf_log_Set wf_log_Remove wf_log_Reset : logd.

(** *** Reserved keys *)

(** What [Set] and [Get] do on a reserved key other than the timestamp. *)
Lemma Set_reserved k v l :
  k ∈ reserved → k ≠ KeyTimestamp →
  ∃ l', Set_ k v l = Ret (l', (Get k l).2) ∧ Get k l' = (v, nonempty v) ∧
        ∀ k', k' ≠ k → k' ≠ KeyTimestamp → Get k' l' = Get k' l.
Proof.
  unfold reserved. rewrite !elem_of_cons. intros Hk Hne.
  destruct_or!; subst; try done; [..|by apply elem_of_nil in Hk];
    unfold Set_, Get; key_cases; eexists; (split_and!; [done|done|]);
    intros k' ??; repeat case_decide; first [reflexivity|congruence].
Qed.

(** The timestamp must consist of two fields separated by one space. *)
Definition timestamp_ok (v : gostring) : bool :=
  bool_decide (v = []) || bool_decide (length (Split v " "%byte) = 2%nat).

Lemma Split_two v sep :
  length (Split v sep) = 2%nat ↔ ∃ d t, v = d ++ sep :: t ∧ sep ∉ d ∧ sep ∉ t.
Proof.
  split.
  - pose proof (Join_Split v sep) as HJ. pose proof (Split_pieces v sep) as Hp.
    destruct (Split v sep) as [|d [|t [|]]]; try done. intros _.
    exists d, t. split_and!; [done|..]; rewrite !Forall_cons in Hp; tauto.
  - intros (d & t & -> & ? & ?). by rewrite Split_app, Split_single.
Qed.

Lemma Get_timestamp l : Get KeyTimestamp l = (date l ++ str " " ++ time l, true).
Proof.
  unfold Get, Timestamp, nonempty. key_cases. f_equal.
  rewrite bool_decide_eq_false_2; [done|]. by destruct (date l).
Qed.

(** ** Properties *)

(** C31: [Set] on any key but the timestamp never panics, reports whether the key
    already had a value, makes [Get] return the new value, and leaves every
    other key alone. *)
Theorem set_then_get (k v : gostring) (l : Log) (Hk : k ≠ KeyTimestamp) :
  ∃ l', Set_ k v l = Ret (l', (Get k l).2) ∧
        Get k l' = (v, bool_decide (k ∉ reserved) || nonempty v) ∧
        ∀ k', k' ≠ k → k' ≠ KeyTimestamp → Get k' l' = Get k' l.
Proof.
  destruct (decide (k ∈ reserved)) as [Hr|Hr].
  - rewrite bool_decide_eq_false_2 by auto. by apply Set_reserved.
  - rewrite bool_decide_eq_true_2, Set_prop by done. eexists. split_and!.
    + by rewrite Get_found.
    + rewrite Get_prop by done. cbn. by rewrite assoc_upsert.
    + intros k' Hne Hts. destruct (decide (k' ∈ reserved)) as [Hr'|Hr'].
      * by apply Get_set_props.
      * rewrite !Get_prop by done. cbn. by rewrite assoc_upsert_ne.
Qed.

Lemma set_then_get_witness :
  ∃ l', Set_ (str "flow") (str "xxx") NewLog = Ret (l', false) ∧
        Get (str "flow") l' = (str "xxx", true).
Proof.
  destruct (set_then_get (str "flow") (str "xxx") NewLog) as (l' & HS & HG & _).
  - intros H. vm_compute in H. discriminate H.
  - exists l'. split; [exact HS|exact HG].
Defined.

(** Setting the timestamp: the empty string clears date and time, two fields
    separated by one space become date and time and are read back by [Get], and
    any other value panics with the source's message. *)
Theorem set_timestamp (l : Log) :
  let up := nonempty (date l) || nonempty (time l) in
  Set_ KeyTimestamp [] l = Ret (set_time [] (set_date [] l), up) ∧
  (∀ d t, " "%byte ∉ d → " "%byte ∉ t →
     ∃ l', Set_ KeyTimestamp (d ++ str " " ++ t) l = Ret (l', up) ∧
           date l' = d ∧ time l' = t ∧ Get KeyTimestamp l' = (d ++ str " " ++ t, true)) ∧
  (∀ v, timestamp_ok v = false →
     Set_ KeyTimestamp v l = Panic (UserPanic (str "invalid timestamp format: " ++ v))).
Proof.
  intros up. unfold Set_. split_and!.
  - by rewrite !decide_True.
  - intros d t Hd Ht. change (d ++ str " " ++ t) with (d ++ " "%byte :: t).
    rewrite decide_True, decide_False by (done || by destruct d).
    rewrite Split_app, Split_single by done. eexists; split_and!; [done..|].
    by rewrite Get_timestamp.
  - unfold timestamp_ok. intros v Hv. apply orb_false_iff in Hv as [Hv Hl].
    apply bool_decide_eq_false in Hv, Hl. rewrite decide_True, decide_False by done.
    destruct (Split v " "%byte) as [|? [|? [|]]]; cbn in *; congruence.
Qed.

(** C32: On a log without duplicate keys, [Remove] of any key but the timestamp
    reports whether the key had a value, makes it absent and leaves every other
    key alone. *)
Theorem remove_then_get (k : gostring) (l : Log) (Hwf : wf_log l) (Hk : k ≠ KeyTimestamp) :
  ∃ l', Remove k l = Ret (l', (Get k l).2) ∧ Get k l' = ([], false) ∧
        ∀ k', k' ≠ k → k' ≠ KeyTimestamp → Get k' l' = Get k' l.
Proof.
  destruct (decide (k ∈ reserved)) as [Hr|Hr].
  - unfold Remove. rewrite decide_True by done.
    destruct (Set_reserved k [] l) as (l' & -> & HG & Hother); [done..|].
    exists l'. by rewrite HG.
  - rewrite Remove_prop by done. eexists. split_and!.
    + by rewrite Get_found.
    + rewrite Get_prop by done. cbn.
      rewrite (proj2 (assoc_None _ _)); [done|]. apply remove_first_gone, Hwf.
    + intros k' Hne Hts. destruct (decide (k' ∈ reserved)) as [Hr'|Hr'].
      * by apply Get_set_props.
      * rewrite !Get_prop by done. cbn. by rewrite assoc_remove_ne.
Qed.

Lemma remove_then_get_witness :
  ∃ l', Remove (str "a") (set_props [mkProperty (str "a") (str "1")] zeroLog) = Ret (l', true) ∧
        Get (str "a") l' = ([], false).
Proof.
  destruct (remove_then_get (str "a") (set_props [mkProperty (str "a") (str "1")] zeroLog))
    as (l' & HR & HG & _).
  - split; cbn.
    + apply NoDup_singleton.
    + constructor; [|constructor]. vm_compute. intros H.
      repeat (apply elem_of_cons in H as [H|H]; [discriminate H|]).
      by apply elem_of_nil in H.
  - intros H. vm_compute in H. discriminate H.
  - exists l'. split; [exact HR|exact HG].
Defined.

(** The search, shift and truncate loop of [Remove] deletes exactly the first
    property with the key and keeps the order of the others, on every log. *)
Theorem remove_deletes_first (k : gostring) (l : Log) (Hk : k ∉ reserved) :
  Remove k l = Ret (set_props (remove_first k (props l)) l,
                    bool_decide (k ∈ key <$> props l)).
Proof. by apply Remove_prop. Qed.

Lemma remove_deletes_first_witness :
  Remove (str "a") (set_props [mkProperty (str "b") []; mkProperty (str "a") (str "1");
                               mkProperty (str "a") (str "2")] zeroLog)
  = Ret (set_props [mkProperty (str "b") []; mkProperty (str "a") (str "2")] zeroLog, true).
Proof.
  rewrite (remove_deletes_first (str "a")); [reflexivity|].
  intros H. unfold reserved in H. vm_compute in H.
  repeat (apply elem_of_cons in H as [H|H]; [discriminate H|]). by apply elem_of_nil in H.
Defined.

(** C30: Every log built through the Lua API stores no key twice and never stores
    a reserved key among its properties. *)
Theorem built_logs_well_formed (l : Log) (Hl : built l) : wf_log l.
Proof. induction Hl; eauto with logd. Qed.

Lemma built_logs_well_formed_witness :
  wf_log (set_props [mkProperty (str "a") (str "1")] zeroLog).
Proof.
  apply built_logs_well_formed.
  eapply (built_set (str "a") (str "1") NewLog); [apply built_new|reflexivity].
Defined.

(** [Get] always reports a value for the timestamp, even on an empty log. *)
Theorem get_timestamp_always_ok (l : Log) :
  Get KeyTimestamp l = (Timestamp l, true) ∧
  Get KeyTimestamp NewLog = (str " ", true) ∧
  Set_ KeyTimestamp [] l = Ret (set_time [] (set_date [] l), nonempty (date l) || nonempty (time l)).
Proof. split_and!; [by rewrite Get_timestamp|reflexivity|reflexivity]. Qed.
