(* ===== verification/Slices.v ===== *)
(** * Logs that share their properties (logging/logging.go, cmd/logd/bench.go)

    Log.v has the properties of a log as a list.  In the program they are a slice: a
    piece of an array that assignments of the log do not copy.  Here the arrays are in a
    store, [Set], [Remove] and [Reset] write to it the way the code does, in place where
    they can, and it is shown when the lists of Log.v are the right picture: as long as
    every log has an array of its own.  The loops over parsed logs give the hooks a copy
    of each log, which shares the array of the original; what the hooks do to it is what
    the next pass of the benchmark sees. *)

From S2P Require Import Prelude GoString Log.

(** ** Slices *)

(** Every slice of properties starts at the beginning of its array; the slice [nil]
    has none. The capacity of a slice is the length of its array. *)
Record slice : Type := mkSlice { array : option nat; slen : nat }.

Abbreviation heap := (list (list Property)).

(** The zero value of the cells that are not in use yet. *)
Definition zeroProperty : Property := mkProperty [] [].

Definition cells (h : heap) (s : slice) : list Property :=
  default [] (array s ≫= λ a, h !! a).

(** What a loop over the slice sees. *)
Definition contents (h : heap) (s : slice) : list Property := take (slen s) (cells h s).

(** An assignment to the cells of the slice. *)
Definition write (f : list Property → list Property) (s : slice) (h : heap) : heap :=
  match array s with Some a => alter f a h | None => h end.

(** [s[:n]], for [n] at most the length. *)
Definition reslice (n : nat) (s : slice) : slice := mkSlice (array s) n.

(** A log variable: the fields other than [props], and the slice. *)
Record slog : Type := mkSLog { header : Log; sprops : slice }.

(** The log it stands for. *)
Definition abs (h : heap) (l : slog) : Log := set_props (contents h (sprops l)) (header l).

(** ** Operations *)

Section operations.
(** How many spare cells [append] allocates along with [n] used ones: the language
    leaves it open. *)
Context (spare : nat → nat).

(** [append(s, p)] *)
Definition append (s : slice) (p : Property) (h : heap) : slice * heap :=
  if (slen s <? length (cells h s))%nat
  then (mkSlice (array s) (S (slen s)), write <[slen s := p]> s h)
  else (mkSlice (Some (length h)) (S (slen s)),
        h ++ [contents h s ++ p :: replicate (spare (S (slen s))) zeroProperty]).

(** [l.Set(key, value)] *)
Definition sSet (k v : gostring) (l : slog) : stgo heap (slog * bool) := λ h,
  if decide (k ∈ reserved) then
    '(hd, upsert) ← Set_ k v (header l); Ret ((mkSLog hd (sprops l), upsert), h)
  else
    match find_key 0 (contents h (sprops l)) k with
    | Some i => Ret ((l, true), write (alter (set_value v) i) (sprops l) h)
    | None =>
      let '(s, h) := append (sprops l) (mkProperty k v) h in
      Ret ((mkSLog (header l) s, false), h)
    end.

(** [l.Remove(key)] *)
Definition sRemove (k : gostring) (l : slog) : stgo heap (slog * bool) := λ h,
  if decide (k ∈ reserved) then sSet k [] l h
  else
    match slen (sprops l) with
    | O => Ret ((l, false), h)
    | S last =>
      match find_key 0 (contents h (sprops l)) k with
      | Some i =>
        if decide (i = last) then Ret ((mkSLog (header l) (reslice i (sprops l)), true), h)
        else
          let move cs := copy_within i (S i) (take (S last) cs) ++ drop (S last) cs in
          Ret ((mkSLog (header l) (reslice last (sprops l)), true), write move (sprops l) h)
      | None => Ret ((l, false), h)
      end
    end.

(** [l.Reset()] *)
Definition sReset (l : slog) : slog := mkSLog zeroLog (reslice 0 (sprops l)).

(** A call of a method, as a value. *)
Inductive op : Type := OSet (k v : gostring) | ORemove (k : gostring) | OReset.

Definition sapply (o : op) (l : slog) : stgo heap (slog * bool) :=
  match o with
  | OSet k v => sSet k v l
  | ORemove k => sRemove k l
  | OReset => mret (sReset l, false)
  end.

(** The method of Log.v. *)
Definition apply_log (o : op) (l : Log) : go (Log * bool) :=
  match o with
  | OSet k v => Set_ k v l
  | ORemove k => Remove k l
  | OReset => Ret (Reset l, false)
  end.

(** Calls on variables, with the results they return. *)
Fixpoint srun (os : list (nat * op)) (vars : list slog) : stgo heap (list slog * list bool) := λ h,
  match os with
  | [] => Ret ((vars, []), h)
  | (i, o) :: os' =>
    match vars !! i with
    | None => Panic NilDereference
    | Some l =>
      '((l', b), h') ← sapply o l h;
      '((vars', bs), h'') ← srun os' (<[i := l']> vars) h';
      Ret ((vars', b :: bs), h'')
    end
  end.

Fixpoint run_logs (os : list (nat * op)) (vars : list Log) : go (list Log * list bool) :=
  match os with
  | [] => Ret (vars, [])
  | (i, o) :: os' =>
    match vars !! i with
    | None => Panic NilDereference
    | Some l =>
      '(l', b) ← apply_log o l;
      '(vars', bs) ← run_logs os' (<[i := l']> vars);
      Ret (vars', b :: bs)
    end
  end.

(** [for _, log := range logs { call(&log) }]: the hook makes its calls on the loop
    variable, which the next iteration overwrites. *)
Fixpoint hook_calls (os : list op) (log : slog) : stgo heap () :=
  match os with
  | [] => mret tt
  | o :: os' => '(log, _) ← sapply o log; hook_calls os' log
  end.

Fixpoint range_logs (hook : list op) (logs : list slog) : stgo heap () :=
  match logs with
  | [] => mret tt
  | log :: logs' => _ ← hook_calls hook log; range_logs hook logs'
  end.

(** [benchLuaScriptOnly] makes [n] passes over the same logs. *)
Fixpoint bench_passes (n : nat) (hook : list op) (logs : list slog) : stgo heap () :=
  match n with
  | O => mret tt
  | S n' => _ ← range_logs hook logs; bench_passes n' hook logs
  end.
End operations.

(** ** Well-formed slices *)

Definition wf_slice (h : heap) (s : slice) : Prop :=
  match array s with
  | None => slen s = O
  | Some a => ∃ cs, h !! a = Some cs ∧ (slen s <= length cs)%nat
  end.

Definition apart (s s' : slice) : Prop :=
  match array s, array s' with Some a, Some a' => a ≠ a' | _, _ => True end.

(** Every variable has an array of its own. *)
Definition owned (h : heap) (vars : list slog) : Prop :=
  (∀ i l, vars !! i = Some l → wf_slice h (sprops l)) ∧
  (∀ i j l l', i ≠ j → vars !! i = Some l → vars !! j = Some l' → apart (sprops l) (sprops l')).

(** What an operation on a slice may change: its own array. *)
Definition touches (s : slice) (h h' : heap) : Prop :=
  ∀ s', wf_slice h s' → apart s s' → cells h' s' = cells h s' ∧ wf_slice h' s'.

(** The slice an operation leaves is on the same array or on a new one. *)
Definition same_or_new (h : heap) (s s' : slice) : Prop :=
  array s' = array s ∨ array s' = Some (length h).

(** ** Reading and writing *)

Lemma cells_wf h s a cs : array s = Some a → h !! a = Some cs → cells h s = cs.
Proof. unfold cells. intros -> Ha. cbn. by rewrite Ha. Qed.

Lemma wf_cells h s : wf_slice h s → (slen s <= length (cells h s))%nat.
Proof.
  unfold wf_slice, cells. destruct (array s) as [a|]; cbn; [|lia].
  intros (cs & -> & ?). done.
Qed.

Lemma length_contents h s : wf_slice h s → length (contents h s) = slen s.
Proof. intros H%wf_cells. unfold contents. rewrite length_take. lia. Qed.

Lemma contents_nil h s : wf_slice h s → slen s = O → contents h s = [].
Proof. unfold contents. intros _ ->. done. Qed.

Lemma cells_write f h s : wf_slice h s → array s ≠ None → cells (write f s h) s = f (cells h s).
Proof.
  unfold wf_slice, cells, write. destruct (array s) as [a|]; [|done]. intros (cs & Ha & _) _.
  cbn. by rewrite list_lookup_alter_eq, Ha.
Qed.

Lemma wf_write f h s s' :
  wf_slice h s → array s' = array s → (array s = None → slen s' = O) →
  (array s ≠ None → (slen s' <= length (f (cells h s)))%nat) → wf_slice (write f s h) s'.
Proof.
  unfold wf_slice, write, cells. intros Hs -> Hn Hl. destruct (array s) as [a|]; [|by apply Hn].
  destruct Hs as (cs & Ha & _). cbn in Hl. rewrite Ha in Hl. exists (f cs).
  rewrite list_lookup_alter_eq, Ha. split; [done|]. by apply Hl.
Qed.

Lemma length_write f h s : length (write f s h) = length h.
Proof. unfold write. destruct (array s); [apply length_alter|done]. Qed.

Lemma touches_write f h s : touches s h (write f s h).
Proof.
  intros s' Hs' Hap. unfold apart, write, cells, wf_slice in *.
  destruct (array s) as [a|], (array s') as [a'|]; try done.
  cbn. by rewrite list_lookup_alter_ne.
Qed.

Lemma touches_new h s cs : touches s h (h ++ [cs]).
Proof.
  intros s' Hs' _. unfold cells, wf_slice in *. destruct (array s') as [a'|]; [|done].
  destruct Hs' as (cs' & Ha & Hl). cbn. rewrite (lookup_app_l_Some _ _ _ _ Ha), Ha. eauto.
Qed.

Lemma touches_refl h s : touches s h h.
Proof. by intros s'. Qed.

Lemma touches_contents s h h' s' :
  touches s h h' → wf_slice h s' → apart s s' → contents h' s' = contents h s'.
Proof. intros Ht Hs Hap. unfold contents. by destruct (Ht s' Hs Hap) as [-> _]. Qed.

(** ** One call *)

(** Reserved keys do not touch the properties. *)
Lemma Set_reserved_frame k v l ps :
  k ∈ reserved →
  Set_ k v (set_props ps l) = '(l', b) ← Set_ k v l; Ret (set_props ps l', b).
Proof.
  intros Hk. unfold Set_. repeat case_decide; try done.
  - by repeat case_match.
  - exfalso. unfold reserved in Hk. rewrite !elem_of_cons in Hk.
    destruct_or!; try congruence. by apply elem_of_nil in Hk.
Qed.

Lemma Set_loop k v l :
  k ∉ reserved →
  Set_ k v l =
    match find_key 0 (props l) k with
    | Some i => Ret (set_props (alter (set_value v) i (props l)) l, true)
    | None => Ret (set_props (props l ++ [mkProperty k v]) l, false)
    end.
Proof.
  unfold reserved. rewrite !not_elem_of_cons. intros H. destruct_and!. unfold Set_.
  by rewrite !decide_False by done.
Qed.

Section calls.
Context (spare : nat → nat).

(** The call does to the log what the method of Log.v does, and nothing to others. *)
Definition call_ok (h : heap) (l : slog) (m : go (slog * bool * heap)) (r : go (Log * bool)) : Prop :=
  match r with
  | Panic e => m = Panic e
  | Ret (l', b) => ∃ sl h', m = Ret ((sl, b), h') ∧ abs h' sl = l' ∧
      wf_slice h' (sprops sl) ∧ same_or_new h (sprops l) (sprops sl) ∧
      touches (sprops l) h h'
  end.

Lemma call_ok_header h l m r :
  wf_slice h (sprops l) →
  (∀ hd b, r = Ret (hd, b) → m = Ret ((mkSLog hd (sprops l), b), h)) →
  (∀ e, r = Panic e → m = Panic e) →
  call_ok h l m ('(hd, b) ← r; Ret (set_props (contents h (sprops l)) hd, b)).
Proof.
  intros Hwf Hr He. destruct r as [[hd b]|e]; [|by apply He]. cbn.
  exists (mkSLog hd (sprops l)), h. split; [by apply Hr|]. split; [done|]. split; [done|].
  split; [by left|]. apply touches_refl.
Qed.

Lemma append_ok h s p :
  wf_slice h s →
  let '(s', h') := append spare s p h in
  contents h' s' = contents h s ++ [p] ∧ wf_slice h' s' ∧ same_or_new h s s' ∧ touches s h h'.
Proof.
  intros Hwf. pose proof (wf_cells h s Hwf) as Hlen. pose proof (length_contents h s Hwf) as Hc.
  unfold append. destruct (Nat.ltb_spec (slen s) (length (cells h s))) as [H|H].
  - assert (array s ≠ None) as Ha by (intros E; unfold cells in H; rewrite E in H; cbn in H; lia).
    split; [|split; [|split; [by left|apply touches_write]]].
    + unfold contents. cbn [slen]. change (cells ?h (mkSlice (array s) _)) with (cells h s).
      rewrite cells_write by done. rewrite (take_S_r _ _ p).
      * by rewrite take_insert_ge by lia.
      * by apply list_lookup_insert_eq.
    + apply wf_write; [done|done|done|]. intros _. rewrite length_insert. cbn. lia.
  - split; [|split; [|split; [by right|apply touches_new]]].
    + unfold contents at 1, cells at 1. cbn [array slen mbind option_bind].
      rewrite lookup_app_r, Nat.sub_diag by done. cbn [lookup list_lookup default from_option id].
      rewrite cons_middle, app_assoc.
      replace (S (slen s)) with (length (contents h s ++ [p])) by (rewrite length_app, Hc; cbn; lia).
      apply take_app_length.
    + eexists. cbn. rewrite lookup_app_r, Nat.sub_diag by done. split; [done|].
      rewrite length_app, Hc. cbn. lia.
Qed.

(** Writing in place. *)
Lemma call_ok_write h l f s b ps :
  wf_slice h (sprops l) → array s = array (sprops l) → array s ≠ None →
  (slen s <= length (f (cells h (sprops l))))%nat →
  take (slen s) (f (cells h (sprops l))) = ps →
  call_ok h l (Ret ((mkSLog (header l) s, b), write f (sprops l) h))
    (Ret (set_props ps (abs h l), b)).
Proof.
  intros Hwf Ha Hn Hl <-. eexists _, _. split; [done|]. rewrite Ha in Hn. split.
  - refine (f_equal (λ ps, set_props ps (header l)) _). unfold contents. cbn [sprops].
    replace (cells (write f (sprops l) h) s) with (cells (write f (sprops l) h) (sprops l))
      by (unfold cells; by rewrite Ha).
    by rewrite cells_write.
  - split; [|split; [by left|apply touches_write]]. by apply wf_write.
Qed.

Lemma found_array h s k i :
  find_key 0 (contents h s) k = Some i → array s ≠ None ∧ (i < length (contents h s))%nat.
Proof.
  intros H. pose proof H as H'. apply find_key_Some in H as (pre & p & post & Hc & <- & _).
  split; [|rewrite Hc, length_app; cbn; lia].
  intros E. unfold contents, cells in Hc. rewrite E in Hc. cbn in Hc. rewrite take_nil in Hc.
  by destruct pre.
Qed.

Lemma sSet_ok k v h l :
  wf_slice h (sprops l) → call_ok h l (sSet spare k v l h) (Set_ k v (abs h l)).
Proof.
  intros Hwf. unfold sSet. case_decide as Hk.
  - unfold abs. rewrite Set_reserved_frame by done. apply call_ok_header; [done|..].
    + intros hd b ->. done.
    + intros e ->. done.
  - rewrite Set_loop by done. change (props (abs h l)) with (contents h (sprops l)).
    destruct (find_key 0 (contents h (sprops l)) k) as [i|] eqn:E.
    + destruct (found_array _ _ _ _ E) as [Ha Hi]. rewrite length_contents in Hi by done.
      pose proof (wf_cells _ _ Hwf) as Hlen. destruct l as [hd s]. cbn [sprops header] in *.
      apply (call_ok_write h (mkSLog hd s)); [done|done|done|by rewrite length_alter|].
      cbn [sprops]. unfold contents.
      rewrite <- (take_drop (slen s) (cells h s)) at 1.
      rewrite alter_app_l by (rewrite length_take; lia).
      apply take_app_length'. rewrite length_alter, length_take. lia.
    + pose proof (append_ok h (sprops l) (mkProperty k v) Hwf) as Happ.
      destruct (append spare (sprops l) (mkProperty k v) h) as [s h'].
      destruct Happ as (Hc & ? & ? & ?). eexists _, _. split; [done|]. split; [|done].
      unfold abs at 1. cbn [sprops header]. by rewrite Hc.
Qed.

Lemma sRemove_ok k h l :
  wf_slice h (sprops l) → call_ok h l (sRemove spare k l h) (Remove k (abs h l)).
Proof.
  intros Hwf. unfold sRemove, Remove. case_decide as Hk; [by apply sSet_ok|].
  change (props (abs h l)) with (contents h (sprops l)). rewrite length_contents by done.
  assert (call_ok h l (Ret ((l, false), h)) (Ret (abs h l, false))) as Hsame.
  { exists l, h. split; [done|]. split; [done|]. split; [done|]. split; [by left|apply touches_refl]. }
  destruct (slen (sprops l)) as [|last] eqn:Hs; [done|].
  destruct (find_key 0 (contents h (sprops l)) k) as [i|] eqn:E; [|done].
  destruct (found_array _ _ _ _ E) as [Ha Hi]. rewrite length_contents in Hi by done.
  pose proof (wf_cells _ _ Hwf) as Hlen. rewrite Hs in *. case_decide as Hlast.
  - exists (mkSLog (header l) (reslice i (sprops l))), h. split; [done|]. split.
    + unfold abs, contents. cbn [sprops header reslice slen]. rewrite take_take, Hs.
      by replace (Nat.min i (S last)) with i by lia.
    + split; [|split; [by left|apply touches_refl]]. unfold wf_slice in *. cbn.
      destruct (array (sprops l)); [|done]. destruct Hwf as (cs & ? & ?). exists cs.
      split; [done|lia].
  - assert (length (copy_within i (S i) (take (S last) (cells h (sprops l)))) = S last) as Hmove.
    { unfold copy_within. rewrite !length_app, !length_take, !length_drop, !length_take. lia. }
    apply call_ok_write; [done|done|done|rewrite length_app, Hmove; cbn; lia|].
    cbn [reslice slen]. unfold contents. rewrite Hs. apply take_app_le. lia.
Qed.

Lemma sapply_ok o h l :
  wf_slice h (sprops l) → call_ok h l (sapply spare o l h) (apply_log o (abs h l)).
Proof.
  intros Hwf. destruct o as [k v|k|]; cbn [sapply apply_log].
  - by apply sSet_ok.
  - by apply sRemove_ok.
  - exists (sReset l), h. split; [done|]. split; [done|].
    split; [|split; [by left|apply touches_refl]]. unfold wf_slice in *. cbn.
    destruct (array (sprops l)); [|done]. destruct Hwf as (cs & ? & _). exists cs. split; [done|lia].
Qed.

(** ** What other variables see *)

Lemma take_alter {A} (f : A → A) n i (l : list A) : take n (alter f i l) = alter f i (take n l).
Proof.
  revert i l. induction n as [|n IH]; intros i [|x l]; destruct i; cbn; try done. by rewrite IH.
Qed.

(** [Set] writes to the arrays in one of three ways. *)
Lemma sSet_heap k v h l c b h' :
  k ∉ reserved → sSet spare k v l h = Ret ((c, b), h') →
  match find_key 0 (contents h (sprops l)) k with
  | Some i => h' = write (alter (set_value v) i) (sprops l) h
  | None => h' = write <[slen (sprops l) := mkProperty k v]> (sprops l) h ∨ ∃ cs, h' = h ++ [cs]
  end.
Proof.
  intros Hk. unfold sSet. rewrite decide_False by done.
  destruct (find_key 0 _ k) as [i|]; [by intros [= <- _ <-]|].
  unfold append. destruct (_ <? _)%nat; intros H; injection H as _ _ <-; eauto.
Qed.

(** What a call of [Set] on one log does to any other one: nothing when their arrays are apart;
    on the same array it replaces the value where the key is, and a property added at the end
    is not seen by a log that is not longer. *)
Lemma sSet_others k v h l c b h' s :
  k ∉ reserved → sSet spare k v l h = Ret ((c, b), h') → wf_slice h s →
  wf_slice h' s ∧
  (apart (sprops l) s → contents h' s = contents h s) ∧
  (∀ i, find_key 0 (contents h (sprops l)) k = Some i → array s = array (sprops l) →
     contents h' s = alter (set_value v) i (contents h s)) ∧
  (find_key 0 (contents h (sprops l)) k = None → (slen s <= slen (sprops l))%nat →
     contents h' s = contents h s).
Proof.
  intros Hk HS Hwf. apply sSet_heap in HS; [|done].
  assert (∀ f, (∀ cs, length (f cs) = length cs) →
    wf_slice (write f (sprops l) h) s ∧
    (apart (sprops l) s → contents (write f (sprops l) h) s = contents h s) ∧
    (array s = array (sprops l) → contents (write f (sprops l) h) s = take (slen s) (f (cells h s)) ∨
                                  array s = None)) as Hwrite.
  { intros f Hf. split; [|split].
    - destruct (decide (array s = array (sprops l))) as [E|E].
      + unfold wf_slice, write in *. rewrite <- E. destruct (array s) as [a|]; [|done].
        destruct Hwf as (cs & Ha & ?). exists (f cs). rewrite list_lookup_alter_eq, Ha, Hf. done.
      + apply touches_write; [done|]. unfold apart.
        destruct (array (sprops l)), (array s); naive_solver.
    - intros Ha. by apply (touches_contents _ _ _ _ (touches_write f h (sprops l))).
    - intros E. destruct (array s) as [a|] eqn:Ha; [left|by right]. unfold contents.
      f_equal. unfold write, cells in *. unfold wf_slice in Hwf. rewrite Ha in Hwf.
      destruct Hwf as (cs & Hcs & _). rewrite <- E, Ha. cbn.
      by rewrite list_lookup_alter_eq, Hcs. }
  assert (∀ f : list Property → list Property, array s = None → contents (write f (sprops l) h) s = contents h s) as Hnone.
  { intros f E. unfold contents, cells. by rewrite E. }
  destruct (find_key 0 (contents h (sprops l)) k) as [i|] eqn:E.
  - subst h'. destruct (Hwrite (alter (set_value v) i)) as (? & ? & Hsame); [intros; apply length_alter|].
    split_and!; [done|done| |done]. intros i' [= <-] Ha. destruct (Hsame Ha) as [->|HN].
    + by rewrite take_alter.
    + rewrite Hnone by done. unfold contents, cells. rewrite HN. cbn. by rewrite take_nil.
  - destruct HS as [-> | [cs ->]].
    + destruct (Hwrite <[slen (sprops l) := mkProperty k v]>) as (? & ? & Hsame);
        [intros; apply length_insert|].
      split_and!; [done|done|done|]. intros _ Hle.
      destruct (decide (array s = array (sprops l))) as [Ha|Ha].
      * destruct (Hsame Ha) as [->|HN]; [by apply take_insert_ge|by apply Hnone].
      * apply (touches_contents _ _ _ _ (touches_write _ h (sprops l))); [done|].
        unfold apart. destruct (array (sprops l)), (array s); naive_solver.
    + assert (touches (mkSlice None 0) h (h ++ [cs])) as Ht by apply touches_new.
      destruct (Ht s Hwf I) as [Hc Hw]. unfold contents. rewrite Hc. done.
Qed.

(** ** Variables that own their arrays *)

Lemma owned_step h h' vars i l sl :
  owned h vars → vars !! i = Some l → wf_slice h' (sprops sl) →
  same_or_new h (sprops l) (sprops sl) → touches (sprops l) h h' →
  owned h' (<[i := sl]> vars) ∧ abs h' <$> <[i := sl]> vars = <[i := abs h' sl]> (abs h <$> vars).
Proof.
  intros [Hwf Hap] Hi Hsl Hnew Ht.
  assert (∀ j l', i ≠ j → vars !! j = Some l' → wf_slice h' (sprops l') ∧
    contents h' (sprops l') = contents h (sprops l') ∧ apart (sprops sl) (sprops l')) as Hother.
  { intros j l' Hne Hj. pose proof (Hap i j l l' Hne Hi Hj) as Ha.
    split; [by apply (Ht _ (Hwf j l' Hj))|]. split; [by eapply touches_contents; eauto|].
    unfold apart in *. destruct Hnew as [->| ->]; [done|].
    pose proof (Hwf j l' Hj) as Hl'. unfold wf_slice in Hl'.
    destruct (array (sprops l')) as [a|]; [|done]. destruct Hl' as (cs & Hcs & _).
    apply lookup_lt_Some in Hcs. lia. }
  assert (∀ s s', apart s s' → apart s' s) as Hsym.
  { intros s s'. unfold apart. destruct (array s), (array s'); auto. }
  split.
  - split.
    + intros j l' Hj. destruct (decide (i = j)) as [<-|Hne].
      * rewrite list_lookup_insert_eq in Hj by by eapply lookup_lt_Some. by simplify_eq.
      * rewrite list_lookup_insert_ne in Hj by done. by apply (Hother j).
    + intros j k lj lk Hne Hj Hk. pose proof (lookup_lt_Some _ _ _ Hi) as Hlt.
      destruct (decide (i = j)) as [<-|Hij], (decide (i = k)) as [<-|Hik]; [done|..].
      * rewrite list_lookup_insert_eq in Hj by done. rewrite list_lookup_insert_ne in Hk by done.
        simplify_eq. by apply (Hother k).
      * rewrite list_lookup_insert_eq in Hk by done. rewrite list_lookup_insert_ne in Hj by done.
        simplify_eq. apply Hsym. by apply (Hother j).
      * rewrite list_lookup_insert_ne in Hj, Hk by done. by apply (Hap j k).
  - rewrite list_fmap_insert. apply list_eq. intros j. destruct (decide (i = j)) as [<-|Hne].
    + rewrite !list_lookup_insert_eq; [done|rewrite length_fmap; by eapply lookup_lt_Some..].
    + rewrite !list_lookup_insert_ne, !list_lookup_fmap by done.
      destruct (vars !! j) as [l'|] eqn:Hj; [|done]. cbn. unfold abs.
      by destruct (Hother j l' Hne Hj) as (_ & -> & _).
Qed.
End calls.

(** ** Copies *)

Section copies.
Context (spare : nat → nat).

(** The log that is left when a copy of it has set a property. *)
Definition set_through_copy (k v : gostring) (l : Log) : Log :=
  if decide (k ∈ key <$> props l) then set_props (upsert_first k v (props l)) l else l.

Lemma set_through_copy_twice k v l :
  set_through_copy k v (set_through_copy k v l) = set_through_copy k v l.
Proof.
  unfold set_through_copy.
  destruct (decide (k ∈ key <$> props l)) as [H|H]; [|by rewrite decide_False].
  cbn [props set_props]. rewrite decide_True by by rewrite upsert_first_keys, decide_True.
  unfold set_props. cbn. f_equal. induction (props l) as [|p ps IH]; cbn in *.
  - by rewrite decide_True.
  - destruct (decide (key p = k)) as [E|E]; cbn; [by rewrite decide_True|].
    rewrite decide_False by done. f_equal. apply IH. apply elem_of_cons in H as [H|H]; [by destruct E|done].
Qed.

Lemma find_key_mid pre p post k :
  k ∉ key <$> pre → key p = k → find_key 0 (pre ++ p :: post) k = Some (length pre).
Proof.
  intros Hpre Hp. induction pre as [|q pre IH]; cbn in *; [by rewrite bool_decide_eq_true_2|].
  apply not_elem_of_cons in Hpre as [? ?]. rewrite bool_decide_eq_false_2 by done.
  by rewrite find_key_shift, IH.
Qed.

Lemma sSet_copy k v h l :
  k ∉ reserved → wf_slice h (sprops l) →
  ∃ c b h', sSet spare k v l h = Ret ((c, b), h') ∧ wf_slice h' (sprops l) ∧
    touches (sprops l) h h' ∧ abs h' l = set_through_copy k v (abs h l).
Proof.
  intros Hk Hwf. pose proof (sSet_ok spare k v h l Hwf) as Hok.
  rewrite Set_prop in Hok by done. cbn in Hok. destruct Hok as (c & h' & Hr & Habs & Hc & _ & Ht).
  exists c, (bool_decide (k ∈ key <$> contents h (sprops l))), h'. split; [done|].
  revert Hr. unfold sSet. rewrite decide_False by done. unfold set_through_copy.
  change (props (abs h l)) with (contents h (sprops l)).
  destruct (find_key 0 (contents h (sprops l)) k) as [i|] eqn:E.
  - assert (find_key 0 (contents h (sprops l)) k ≠ None) as Hin%find_key_is_Some by by rewrite E.
    rewrite decide_True by done. intros [= <- _ <-]. done.
  - apply find_key_None in E. rewrite decide_False by done. unfold append.
    pose proof (wf_cells _ _ Hwf) as Hlen. destruct l as [hd s]. cbn [sprops header] in *.
    destruct (Nat.ltb_spec (slen s) (length (cells h s))) as [Hlt|Hge]; intros [= <- _ <-].
    + assert (array s ≠ None) as Ha by (intros E'; unfold cells in Hlt; rewrite E' in Hlt; cbn in Hlt; lia).
      split; [apply wf_write; [done..|rewrite length_insert; lia]|]. split; [done|].
      refine (f_equal (λ ps, set_props ps hd) _). unfold contents. cbn [sprops].
      rewrite cells_write by done. by apply take_insert_ge.
    + match goal with |- context[h ++ [?x]] => set (cs := x) end.
      assert (apart (mkSlice None 0) s) as Hap by done.
      destruct (touches_new h (mkSlice None 0) cs s Hwf Hap) as [Hcs Hwf'].
      split; [done|]. split; [done|]. unfold abs, contents. cbn [sprops]. by rewrite Hcs.
Qed.

Lemma drop_mid {A} (pre post : list A) p : drop (S (length pre)) (pre ++ p :: post) = post.
Proof. by induction pre. Qed.

(** The elements behind the removed one move down, and the last one stays where it was. *)
Lemma copy_within_shift {A} (pre post : list A) p z :
  copy_within (length pre) (S (length pre)) (pre ++ p :: post ++ [z]) = pre ++ post ++ [z; z].
Proof.
  unfold copy_within. rewrite !length_app. cbn [length]. rewrite !length_app. cbn [length].
  replace (Nat.min _ _) with (length (post ++ [z])) by (rewrite length_app; cbn; lia).
  rewrite take_app_length, drop_mid, firstn_all.
  replace (length pre + length (post ++ [z]))%nat with (length (pre ++ p :: post))
    by (rewrite !length_app; cbn; lia).
  replace (pre ++ p :: post ++ [z]) with ((pre ++ p :: post) ++ [z]) by by rewrite <- app_assoc.
  rewrite drop_app_length. by rewrite <- !app_assoc.
Qed.

Lemma cons_inv {A} (x y : A) l k : x :: l = y :: k → x = y ∧ l = k.
Proof. by intros [= -> ->]. Qed.

Lemma range_set k v h logs :
  k ∉ reserved → owned h logs → ∀ pre post, logs = pre ++ post →
  ∃ h', range_logs spare [OSet k v] post h = Ret (tt, h') ∧ owned h' logs ∧
    abs h' <$> pre = abs h <$> pre ∧ abs h' <$> post = set_through_copy k v ∘ abs h <$> post.
Proof.
  intros Hk Ho pre post. revert h pre Ho. induction post as [|l post IH]; intros h pre Ho ->.
  - exists h. done.
  - assert ((pre ++ l :: post) !! length pre = Some l) as Hl by by apply list_lookup_middle.
    destruct (sSet_copy k v h l Hk (proj1 Ho _ _ Hl)) as (c & b & h1 & Hr & Hwf & Ht & Habs).
    destruct (owned_step h h1 _ _ l l Ho Hl Hwf (or_introl eq_refl) Ht) as [Ho1 Hf].
    rewrite list_insert_id in Ho1, Hf by done.
    destruct (IH h1 (pre ++ [l])) as (h2 & Hr2 & Ho2 & Hpre & Hpost); [done|by rewrite <- app_assoc|].
    exists h2. cbn [range_logs hook_calls sapply]. unfold mbind, stgo_bind. rewrite Hr. cbn.
    rewrite Hr2. split; [done|]. split; [done|].
    rewrite !fmap_app in Hpre. cbn in Hpre. apply app_inj_2 in Hpre as [Hpre [Hl2 _]%cons_inv]; [|done].
    rewrite fmap_app in Hf. cbn in Hf. rewrite fmap_app in Hf. cbn in Hf.
    rewrite <- (length_fmap (abs h) pre), list.insert_app_r_alt, Nat.sub_diag in Hf by done.
    cbn in Hf. apply app_inj_1 in Hf as [Hf1 [_ Hf2]%cons_inv]; [|by rewrite !length_fmap].
    split; [by rewrite Hpre|]. cbn. rewrite Hl2, Habs, Hpost. f_equal.
    rewrite !list_fmap_compose. by rewrite Hf2.
Qed.
End copies.

(** ** Theorems *)

(** C19: While every log has an array of its own, calls of [Set], [Remove] and [Reset] on the
    logs, in any order, return what the methods of Log.v return on the lists, panic when
    they do, leave the same logs behind and leave every log its own array - whatever
    capacities [append] chooses. *)
Theorem own_arrays_refine_lists (spare : nat → nat) (os : list (nat * op)) h vars
    (Hown : owned h vars) :
  match run_logs os (abs h <$> vars) with
  | Panic e => srun spare os vars h = Panic e
  | Ret (ls, bs) => ∃ vars' h', srun spare os vars h = Ret ((vars', bs), h') ∧
      abs h' <$> vars' = ls ∧ owned h' vars'
  end.
Proof.
  revert h vars Hown. induction os as [|[i o] os IH]; intros h vars Ho; cbn; [by eauto|].
  rewrite list_lookup_fmap. destruct (vars !! i) as [l|] eqn:Hi; cbn; [|done].
  pose proof (sapply_ok spare o h l (proj1 Ho i l Hi)) as Hok.
  destruct (apply_log o (abs h l)) as [[l' b]|e]; cbn in *; [|by rewrite Hok].
  destruct Hok as (sl & h1 & -> & <- & Hwf & Hnew & Ht). cbn.
  destruct (owned_step h h1 vars i l sl Ho Hi Hwf Hnew Ht) as [Ho1 Hf].
  specialize (IH h1 (<[i:=sl]> vars) Ho1). rewrite Hf in IH.
  destruct (run_logs os (<[i:=abs h1 sl]> (abs h <$> vars))) as [[ls bs]|e]; cbn.
  - destruct IH as (vars' & h' & -> & ? & ?). cbn. eauto.
  - by rewrite IH.
Qed.

(** C33: A copy of a log shares its properties with the original.  Setting a property that
    the log has sets it in both; one that it does not have is added to the copy only;
    and removing one through the copy shifts the properties of the original and leaves
    the last of them there twice, so that its keys are no longer distinct. *)
Theorem copy_shares_properties (spare : nat → nat) k v h l
    (Hk : k ∉ reserved) (Hwf : wf_slice h (sprops l)) :
  (∃ c b h', sSet spare k v l h = Ret ((c, b), h') ∧
     abs h' l = if decide (k ∈ key <$> props (abs h l))
                then set_props (upsert_first k v (props (abs h l))) (abs h l) else abs h l) ∧
  (∀ pre p post z, props (abs h l) = pre ++ p :: post ++ [z] → k ∉ key <$> pre → key p = k →
   ∃ c h', sRemove spare k l h = Ret ((c, true), h') ∧
     abs h' c = set_props (pre ++ post ++ [z]) (abs h l) ∧
     abs h' l = set_props (pre ++ post ++ [z; z]) (abs h l)).
Proof.
  split.
  { destruct (sSet_copy spare k v h l Hk Hwf) as (c & b & h' & Hr & _ & _ & Ha).
    exists c, b, h'. split; [exact Hr|exact Ha]. }
  intros pre p post z Hps Hpre Hp. pose proof (sRemove_ok spare k h l Hwf) as Hok.
  rewrite Remove_prop in Hok by done. destruct Hok as (c & h' & Hr & Hc & _).
  rewrite Hps, remove_first_mid in Hc by done. exists c, h'.
  rewrite Hps, bool_decide_eq_true_2 in Hr
    by (rewrite fmap_app, elem_of_app, fmap_cons, elem_of_cons; naive_solver).
  split; [done|]. split; [done|]. revert Hr. unfold sRemove. rewrite decide_False by done.
  change (props (abs h l)) with (contents h (sprops l)) in Hps.
  pose proof (length_contents h _ Hwf) as Hlen. pose proof (wf_cells h _ Hwf) as Hcap.
  rewrite Hps, !length_app in Hlen. cbn in Hlen. rewrite length_app in Hlen. cbn in Hlen.
  destruct (slen (sprops l)) as [|last] eqn:Hs; [done|].
  destruct (find_key 0 (contents h (sprops l)) k) as [i|] eqn:E; [|done].
  destruct (found_array _ _ _ _ E) as [Ha _].
  assert (i = length pre) as ->.
  { rewrite Hps, (find_key_mid pre p (post ++ [z]) k Hpre Hp) in E. by injection E. }
  rewrite decide_False by lia. intros [= _ <-].
  refine (f_equal (λ ps, set_props ps (header l)) _). unfold contents at 1.
  rewrite cells_write, Hs by done.
  unfold contents in Hps. rewrite Hs in Hps. rewrite Hps, copy_within_shift.
  apply take_app_length'. rewrite !length_app. cbn. lia.
Qed.

(** A hook of the script benchmark that sets a property changes the logs of the
    benchmark: after the first pass, and after every other one, the logs that have a
    property of that name have the new value, and the hook finds it there in the next
    pass. *)
Theorem bench_passes_rewrite_logs (spare : nat → nat) (n : nat) k v h logs
    (Hk : k ∉ reserved) (Hown : owned h logs) :
  ∃ h', bench_passes spare (S n) [OSet k v] logs h = Ret (tt, h') ∧ owned h' logs ∧
    abs h' <$> logs =
      (λ l, if decide (k ∈ key <$> props l) then set_props (upsert_first k v (props l)) l else l) <$>
      (abs h <$> logs).
Proof.
  change (λ l, if decide (k ∈ key <$> props l) then _ else l) with (set_through_copy k v).
  revert h Hown. induction n as [|n IH]; intros h Ho;
    destruct (range_set spare k v h logs Hk Ho [] logs eq_refl) as (h1 & Hr & Ho1 & _ & Hf).
  - exists h1. cbn. unfold mbind, stgo_bind. rewrite Hr. cbn. rewrite <- list_fmap_compose. done.
  - destruct (IH h1 Ho1) as (h2 & Hr2 & Ho2 & Hf2). exists h2.
    change (bench_passes spare (S (S n)) [OSet k v] logs)
      with (range_logs spare [OSet k v] logs ≫= λ _, bench_passes spare (S n) [OSet k v] logs).
    rewrite (stgo_bind_Ret _ _ _ _ _ Hr). split; [done|]. split; [done|].
    rewrite Hf2, Hf, list_fmap_compose, <- list_fmap_compose. apply list_fmap_ext.
    intros i l _. apply set_through_copy_twice.
Qed.

(** ** Witnesses *)

Definition prop (k v : literal) : Property := mkProperty (str k) (str v).
Arguments prop (_ _)%_string_scope.

(** A log with three properties, in an array with one spare cell, and a new log. *)
Definition three : list Property := [prop "a" "1"; prop "b" "2"; prop "c" "3"].
Definition full_log : slog := mkSLog zeroLog (mkSlice (Some 0%nat) 3).
Definition new_log : slog := mkSLog zeroLog (mkSlice None 0).
Definition two_logs : list slog := [full_log; new_log].
Definition one_array : heap := [three ++ [zeroProperty]].

Lemma full_log_wf : wf_slice one_array (sprops full_log).
Proof. eexists. split; [reflexivity|]. cbn. lia. Qed.

Lemma two_logs_owned : owned one_array two_logs.
Proof.
  split.
  - intros [|[|i]] l [= <-]; [apply full_log_wf|done].
  - by intros [|[|i]] [|[|j]] l l' Hne [= <-] [= <-].
Qed.

Definition some_calls : list (nat * op) :=
  [(1%nat, OSet (str "x") (str "9")); (0%nat, ORemove (str "a")); (1%nat, OSet (str "y") (str "8"));
   (0%nat, OSet (str "d") (str "4")); (0%nat, OSet (str "e") (str "5")); (1%nat, OReset);
   (0%nat, OSet KeyLevel (str "WARN")); (0%nat, ORemove (str "zz"))].

Lemma own_arrays_refine_lists_witness :
  ∃ vars' h', srun (λ n, n) some_calls two_logs one_array =
      Ret ((vars', [false; true; false; false; false; false; false; false]), h') ∧
    abs h' <$> vars' =
      [set_Level (str "WARN") (set_props [prop "b" "2"; prop "c" "3"; prop "d" "4"; prop "e" "5"] zeroLog);
       zeroLog].
Proof.
  pose proof (own_arrays_refine_lists (λ n, n) some_calls one_array two_logs two_logs_owned) as H.
  set (r := run_logs some_calls (abs one_array <$> two_logs)) in H.
  vm_compute in r. subst r. destruct H as (vars' & h' & Hr & Ha & _).
  exists vars', h'. split; [exact Hr|exact Ha].
Defined.

Lemma copy_shares_properties_witness :
  ∃ c h', sRemove (λ n, n) (str "a") full_log one_array = Ret ((c, true), h') ∧
    props (abs h' c) = [prop "b" "2"; prop "c" "3"] ∧
    props (abs h' full_log) = [prop "b" "2"; prop "c" "3"; prop "c" "3"].
Proof.
  destruct (copy_shares_properties (λ n, n) (str "a") [] one_array full_log) as [_ H].
  - apply (bool_decide_eq_true_1 (_ ∉ _)). vm_compute. reflexivity.
  - exact full_log_wf.
  - destruct (H [] (prop "a" "1") [prop "b" "2"] (prop "c" "3")) as (c & h' & Hr & Hc & Hl).
    + reflexivity.
    + apply not_elem_of_nil.
    + reflexivity.
    + exists c, h'. split; [exact Hr|]. rewrite Hc, Hl. split; reflexivity.
Defined.

Lemma bench_passes_rewrite_logs_witness :
  ∃ h', bench_passes (λ n, n) 2 [OSet (str "b") (str "seen")] two_logs one_array = Ret (tt, h') ∧
    props <$> (abs h' <$> two_logs) = [[prop "a" "1"; prop "b" "seen"; prop "c" "3"]; []].
Proof.
  destruct (bench_passes_rewrite_logs (λ n, n) 1 (str "b") (str "seen") one_array two_logs)
    as (h' & Hr & _ & Ha).
  - apply (bool_decide_eq_true_1 (_ ∉ _)). vm_compute. reflexivity.
  - exact two_logs_owned.
  - exists h'. split; [exact Hr|]. rewrite Ha. vm_compute. reflexivity.
Defined.
