(* ===== verification/Serialize.v ===== *)
(** * Serialization of logs (logging/logging.go, lines 186-305)

    The two text formats of a log: the tab-separated format the parser reads
    ([WriteTo], [String]) and JSON ([WriteJSONTo], [JSON]).  Both write to a
    [bytes.Buffer] through [escape], [appendProp] and [serialize]; here every
    writer takes the contents of the buffer and returns the new contents. *)

From S2P Require Import Prelude GoString Log.

(** ** Operations *)

(** [escape(buf, r)]: a rune, with JSON's two-character escapes. *)
Definition escape (buf : buffer) (r : rune) : buffer :=
  if r =? #x08 then WriteByte "b"%byte (WriteByte "\"%byte buf)
  else if r =? #x0c then WriteByte "f"%byte (WriteByte "\"%byte buf)
  else if r =? #x0a then WriteByte "n"%byte (WriteByte "\"%byte buf)
  else if r =? #x0d then WriteByte "r"%byte (WriteByte "\"%byte buf)
  else if r =? #x09 then WriteByte "t"%byte (WriteByte "\"%byte buf)
  else if r =? #x22 then WriteByte x22 (WriteByte "\"%byte buf)
  else if r =? #"\" then WriteByte "\"%byte (WriteByte "\"%byte buf)
  else WriteRune r buf.

(** [appendProp(keySep, valueSep, p, buf)]. *)
Definition appendProp (keySep valueSep : gostring) (p : Property) (buf : buffer) : buffer :=
  let buf := WriteString keySep buf in
  let buf := fold_left escape (runes (key p)) buf in
  let buf := WriteString valueSep buf in
  fold_left escape (runes (value p)) buf.

(** [l.serialize(buf, headerSep, keySep, valueSep)]. The [goto msg] of the source
    reaches the last block with [keySep] set to [headerSep]. *)
Definition serialize (l : Log) (buf : buffer) (headerSep keySep valueSep : gostring) : buffer :=
  let msg keySep buf :=
    if nonempty (Message l)
    then appendProp keySep valueSep (mkProperty KeyMessage (Message l)) buf
    else buf in
  match props l with
  | [] => msg headerSep buf
  | p0 :: rest =>
    let buf := appendProp headerSep valueSep p0 buf in
    let buf := fold_left (λ buf p, appendProp keySep valueSep p buf) rest buf in
    msg keySep buf
  end.

(** A quote character inside a Go raw string. *)
Definition quote : gostring := [x22].

(** [l.WriteJSONTo(buf)]. *)
Definition WriteJSONTo (l : Log) (buf : buffer) : buffer :=
  let sep := quote ++ str ", " ++ quote in
  let colon := quote ++ str ": " ++ quote in
  let buf := WriteString (str "{" ++ quote ++ str "timestamp" ++ colon) buf in
  let buf := WriteString (date l) buf in
  let buf := WriteByte " "%byte buf in
  let buf := WriteString (time l) buf in
  let buf := WriteString (sep ++ str "level" ++ colon) buf in
  let buf := WriteString (Level l) buf in
  let buf := WriteString (sep ++ str "thread" ++ colon) buf in
  let buf := WriteString (Thread l) buf in
  let buf := WriteString (sep ++ str "class" ++ colon) buf in
  let buf := WriteString (Class l) buf in
  let buf := serialize l buf sep sep colon in
  WriteString (quote ++ str "}") buf.

(** [l.WriteTo(buf)]. *)
Definition WriteTo (l : Log) (buf : buffer) : buffer :=
  let buf := WriteString (date l) buf in
  let buf := WriteByte " "%byte buf in
  let buf := WriteString (time l) buf in
  let buf := WriteByte x09 buf in
  let buf := WriteString (Level l) buf in
  let buf := WriteByte x09 buf in
  let buf := WriteByte "["%byte buf in
  let buf := if nonempty (Thread l) then WriteString (Thread l) buf
             else WriteByte "-"%byte buf in
  let buf := WriteByte "]"%byte buf in
  let buf := WriteByte x09 buf in
  let buf := if nonempty (Class l) then WriteString (Class l) buf
             else WriteByte "-"%byte buf in
  serialize l buf [x09] (str ", ") (str ": ").

(** [l.String()] and [l.JSON()]; [l.Reader()] and [l.JSONReader()] return readers
    over buffers with the same contents. *)
Definition String (l : Log) : gostring := WriteTo l [].
Definition JSON (l : Log) : gostring := WriteJSONTo l [].
Definition Reader (l : Log) : buffer := WriteTo l [].
Definition JSONReader (l : Log) : buffer := WriteJSONTo l [].

(** ** Closed forms *)

(** The text of one rune, and of a string. *)
Definition escape_text (r : rune) : gostring := escape [] r.
Definition escaped (s : gostring) : gostring := flat_map escape_text (runes s).

(** The properties [serialize] renders: the message comes last, under ["msg"]. *)
Definition rendered_props (l : Log) : list Property :=
  props l ++ (if nonempty (Message l) then [mkProperty KeyMessage (Message l)] else []).

(** [s] if it is not empty, and a dash otherwise. *)
Definition or_dash (s : gostring) : gostring := if nonempty s then s else str "-".

(** One property, without the separator in front of it. *)
Definition prop_text (valueSep : gostring) (p : Property) : gostring :=
  escaped (key p) ++ valueSep ++ escaped (value p).

Definition props_text (headerSep keySep valueSep : gostring) (ps : list Property) : gostring :=
  match ps with
  | [] => []
  | p :: ps' => headerSep ++ prop_text valueSep p ++
                flat_map (λ p, keySep ++ prop_text valueSep p) ps'
  end.

Lemma escape_app buf r : escape buf r = buf ++ escape_text r.
Proof.
  unfold escape_text, escape, WriteByte, WriteRune.
  repeat case_match; by rewrite <- ?app_assoc.
Qed.

Lemma escape_fold s buf : fold_left escape (runes s) buf = buf ++ escaped s.
Proof.
  unfold escaped. generalize (runes s) as rs. intros rs. revert buf.
  induction rs as [|r rs IH]; intros buf; cbn; [by rewrite app_nil_r|].
  by rewrite IH, escape_app, <- app_assoc.
Qed.

Lemma appendProp_app ks vs p buf :
  appendProp ks vs p buf = buf ++ ks ++ prop_text vs p.
Proof.
  unfold appendProp, WriteString, prop_text.
  rewrite !escape_fold. by rewrite <- !app_assoc.
Qed.

Lemma appendProp_fold ks vs ps buf :
  fold_left (λ buf p, appendProp ks vs p buf) ps buf
    = buf ++ flat_map (λ p, ks ++ prop_text vs p) ps.
Proof.
  revert buf. induction ps as [|p ps IH]; intros buf; cbn; [by rewrite app_nil_r|].
  by rewrite IH, appendProp_app, <- !app_assoc.
Qed.

Lemma serialize_app l buf hs ks vs :
  serialize l buf hs ks vs = buf ++ props_text hs ks vs (rendered_props l).
Proof.
  unfold serialize, rendered_props.
  destruct (props l) as [|p ps], (nonempty (Message l));
    cbn [app props_text flat_map];
    rewrite ?appendProp_app, ?appendProp_fold, ?appendProp_app, ?flat_map_app;
    cbn [app props_text flat_map]; rewrite ?app_nil_r;
    repeat rewrite <- app_assoc; done.
Qed.

(** The header of the text format. *)
Definition header_text (l : Log) : gostring :=
  date l ++ str " " ++ time l ++ [x09] ++ Level l ++ [x09] ++
  str "[" ++ or_dash (Thread l) ++ str "]" ++ [x09] ++ or_dash (Class l).

Lemma WriteTo_app l buf :
  WriteTo l buf =
    buf ++ header_text l ++ props_text [x09] (str ", ") (str ": ") (rendered_props l).
Proof.
  unfold WriteTo. rewrite serialize_app.
  unfold header_text, or_dash, WriteString, WriteByte.
  destruct (nonempty (Thread l)), (nonempty (Class l));
    repeat rewrite <- app_assoc; done.
Qed.

Lemma String_eq l :
  String l = header_text l ++ props_text [x09] (str ", ") (str ": ") (rendered_props l).
Proof. unfold String. by rewrite WriteTo_app. Qed.

(** ** The text of a string that needs no escaping *)

(** ASCII bytes that [escape] copies. *)
Definition plain (b : byte) : bool :=
  ascii b && negb (bool_decide (b ∈ [x08; x0c; x0a; x0d; x09; x22; x5c])).

Lemma escape_text_plain b : plain b = true → escape_text (b2z b) = [b].
Proof. destruct b; intros H; vm_compute in H; try discriminate H; reflexivity. Qed.

Lemma plain_ascii s : Forall (λ b, plain b = true) s → is_ascii s.
Proof.
  intros H. eapply Forall_impl; [exact H|]. intros b Hb.
  by apply andb_true_iff in Hb as [? _].
Qed.

Lemma escaped_plain s : Forall (λ b, plain b = true) s → escaped s = s.
Proof.
  intros H. unfold escaped. rewrite runes_ascii by by apply plain_ascii.
  induction H as [|b s Hb Hs IH]; [done|]. cbn [fmap list_fmap flat_map].
  by rewrite escape_text_plain, IH.
Qed.

(** Escaped text never contains a raw newline. *)
Lemma escape_text_no_nl r : x0a ∉ escape_text r.
Proof.
  unfold escape_text, escape.
  destruct (r =? #x08); [by apply (bool_decide_unpack _)|].
  destruct (r =? #x0c); [by apply (bool_decide_unpack _)|].
  destruct (Z.eqb_spec r #x0a) as [|Hr]; [by apply (bool_decide_unpack _)|].
  destruct (r =? #x0d); [by apply (bool_decide_unpack _)|].
  destruct (r =? #x09); [by apply (bool_decide_unpack _)|].
  destruct (r =? #x22); [by apply (bool_decide_unpack _)|].
  destruct (r =? #"\"); [by apply (bool_decide_unpack _)|].
  intros Hin. pose proof (encode_rune_bytes r) as Hb. rewrite Forall_forall in Hb.
  apply Hb in Hin. change #x0a with 10 in *. lia.
Qed.

Lemma escaped_no_nl s : x0a ∉ escaped s.
Proof.
  unfold escaped. induction (runes s) as [|r rs IH]; [apply not_elem_of_nil|].
  cbn. rewrite elem_of_app. intros [H|H]; [by apply escape_text_no_nl in H|done].
Qed.

Lemma prop_text_no_nl p : x0a ∉ prop_text (str ": ") p.
Proof.
  unfold prop_text. rewrite !elem_of_app. intros [H|[H|H]];
    [by apply escaped_no_nl in H|vm_compute in H|by apply escaped_no_nl in H].
  repeat (apply elem_of_cons in H as [H|H]; [discriminate H|]). by apply elem_of_nil in H.
Qed.

Lemma props_text_no_nl ps : x0a ∉ props_text [x09] (str ", ") (str ": ") ps.
Proof.
  destruct ps as [|p ps]; [apply not_elem_of_nil|]. cbn [props_text].
  rewrite !elem_of_app. intros [H|[H|H]].
  - by apply list_elem_of_singleton in H.
  - by apply prop_text_no_nl in H.
  - induction ps as [|q ps IH]; [by apply elem_of_nil in H|].
    cbn [flat_map] in H. rewrite !elem_of_app in H. destruct H as [[H|H]|H]; [..|done].
    + by apply (bool_decide_unpack (x0a ∉ str ", ")) in H.
    + by apply prop_text_no_nl in H.
Qed.

(** ** The serialization test cases of the repository *)

Module Tests.
Definition prop (k v : literal) : Property := mkProperty (str k) (str v).
Arguments prop (_ _)%_string_scope.

Definition serLog : Log :=
  mkLog (str "2017-24-11") (str "111111,111") (str "INFO") [] [] (str "my message")
    [prop "flow" "myFlow"; prop "a" "1234"; prop "b" "xxx"].

Definition serLog3 : Log :=
  mkLog (str "2017-24-11") (str "111111,111") (str "INFO") (str "1234")
    (str "com.my.package.Class") []
    [prop "flow" "myFlow";
     mkProperty (str "a") (str "1234" ++ [x0a; x0d; x22; x08]);
     prop "b" "xxx"].

Definition tab : gostring := [x09].

Example serLog_String : String serLog =
  str "2017-24-11 111111,111" ++ tab ++ str "INFO" ++ tab ++ str "[-]" ++ tab ++
  str "-" ++ tab ++ str "flow: myFlow, a: 1234, b: xxx, msg: my message".
Proof. vm_compute. reflexivity. Qed.

Example serLog3_String : String serLog3 =
  str "2017-24-11 111111,111" ++ tab ++ str "INFO" ++ tab ++ str "[1234]" ++ tab ++
  str "com.my.package.Class" ++ tab ++ str "flow: myFlow, a: 1234\n\r\" ++ quote ++
  str "\b, b: xxx".
Proof. vm_compute. reflexivity. Qed.

(** The text between quotes. *)
Definition q (s : literal) : gostring := quote ++ str s ++ quote.
Arguments q _%_string_scope.

Example serLog_JSON : JSON serLog =
  str "{" ++ q "timestamp" ++ str ": " ++ q "2017-24-11 111111,111" ++ str ", " ++
  q "level" ++ str ": " ++ q "INFO" ++ str ", " ++ q "thread" ++ str ": " ++ quote ++ quote ++
  str ", " ++ q "class" ++ str ": " ++ quote ++ quote ++ str ", " ++
  q "flow" ++ str ": " ++ q "myFlow" ++ str ", " ++ q "a" ++ str ": " ++ q "1234" ++
  str ", " ++ q "b" ++ str ": " ++ q "xxx" ++ str ", " ++
  q "msg" ++ str ": " ++ q "my message" ++ str "}".
Proof. vm_compute. reflexivity. Qed.

Example serLog3_without_props : String (set_props [] serLog3) =
  str "2017-24-11 111111,111" ++ tab ++ str "INFO" ++ tab ++ str "[1234]" ++ tab ++
  str "com.my.package.Class".
Proof. vm_compute. reflexivity. Qed.
End Tests.

(** ** Properties *)

(** The text of a log is one line exactly when its header fields are: keys,
    values and the message can never introduce a line break. *)
Theorem string_is_one_line (l : Log) :
  x0a ∈ String l ↔
    x0a ∈ date l ∨ x0a ∈ time l ∨ x0a ∈ Level l ∨ x0a ∈ Thread l ∨ x0a ∈ Class l.
Proof.
  assert (∀ s, x0a ∈ or_dash s ↔ x0a ∈ s) as Hd.
  { intros s. unfold or_dash, nonempty. case_bool_decide; [|done]. subst. cbn. split; intros H.
    - by apply (bool_decide_unpack (x0a ∉ str "-")) in H.
    - by apply elem_of_nil in H. }
  rewrite String_eq. unfold header_text. rewrite !elem_of_app, !Hd.
  pose proof (props_text_no_nl (rendered_props l)).
  assert (x0a ∉ str " " ∧ x0a ∉ [x09] ∧ x0a ∉ str "[" ∧ x0a ∉ str "]") as (?&?&?&?)
    by (split_and!; by apply (bool_decide_unpack _)).
  tauto.
Qed.

(** Both formats render a log as its header followed by its properties in
    order, with the message, when there is one, as a last property ["msg"]. *)
Theorem serialize_closed_form (l : Log) (buf : buffer) :
  WriteTo l buf =
    buf ++ header_text l ++ props_text [x09] (str ", ") (str ": ") (rendered_props l) ∧
  WriteJSONTo l buf =
    buf ++ str "{" ++ quote ++ str "timestamp" ++ quote ++ str ": " ++ quote ++
    date l ++ str " " ++ time l ++
    quote ++ str ", " ++ quote ++ str "level" ++ quote ++ str ": " ++ quote ++ Level l ++
    quote ++ str ", " ++ quote ++ str "thread" ++ quote ++ str ": " ++ quote ++ Thread l ++
    quote ++ str ", " ++ quote ++ str "class" ++ quote ++ str ": " ++ quote ++ Class l ++
    props_text (quote ++ str ", " ++ quote) (quote ++ str ", " ++ quote)
               (quote ++ str ": " ++ quote) (rendered_props l) ++ quote ++ str "}".
Proof.
  split; [apply WriteTo_app|]. unfold WriteJSONTo. rewrite serialize_app.
  unfold WriteString, WriteByte. repeat rewrite <- app_assoc. reflexivity.
Qed.
