(* ===== verification/Json.v ===== *)
(** * The JSON format of a log, read back

    A reader for JSON objects whose values are strings (a fragment of RFC 8259
    with every escape the writer uses), and the theorem that [JSON] writes such
    an object with exactly the fields of the log.  The reader is a specification:
    logd itself never reads JSON. *)

From S2P Require Import Prelude GoString Log Serialize.

(** ** The reader *)

(** The character denoted by a two-character escape. *)
Definition unescape (b : byte) : option byte :=
  match b with
  | x22 => Some x22
  | x5c => Some x5c
  | x2f => Some x2f
  | x62 => Some x08
  | x66 => Some x0c
  | x6e => Some x0a
  | x72 => Some x0d
  | x74 => Some x09
  | _ => None
  end.

(** The rest of a string literal, after its opening quote: its contents and what
    follows the closing quote. Control characters must be escaped. *)
Fixpoint read_string (s : gostring) : option (gostring * gostring) :=
  match s with
  | [] => None
  | b :: s' =>
    if bool_decide (b = x22) then Some ([], s')
    else if bool_decide (b = x5c) then
      match s' with
      | [] => None
      | e :: s'' => c ← unescape e; '(t, r) ← read_string s''; Some (c :: t, r)
      end
    else if b2z b <? 32 then None
    else '(t, r) ← read_string s'; Some (b :: t, r)
  end.

(** JSON white space. *)
Fixpoint skip_ws (s : gostring) : gostring :=
  match s with
  | b :: s' => if bool_decide (b ∈ [" "%byte; x09; x0a; x0d]) then skip_ws s' else s
  | [] => []
  end.

(** The rest of the input after an expected character. *)
Definition expect (c : byte) (s : gostring) : option gostring :=
  match skip_ws s with
  | b :: s' => if bool_decide (b = c) then Some s' else None
  | [] => None
  end.

Definition member : Type := gostring * gostring.

(** Members ["k": "v"] separated by commas, up to the closing brace; the fuel
    bounds their number. *)
Fixpoint read_members (fuel : nat) (s : gostring) : option (list member * gostring) :=
  match fuel with
  | O => None
  | S fuel =>
    s ← expect x22 s; '(k, s) ← read_string s;
    s ← expect ":"%byte s; s ← expect x22 s; '(v, s) ← read_string s;
    match expect ","%byte s with
    | Some s => '(ms, s) ← read_members fuel s; Some ((k, v) :: ms, s)
    | None => s ← expect "}"%byte s; Some ([(k, v)], s)
    end
  end.

(** A whole document. *)
Definition read_object (s : gostring) : option (list member) :=
  s ← expect "{"%byte s;
  '(ms, s) ← read_members (length s) s;
  match skip_ws s with [] => Some ms | _ => None end.

(** ** String literals *)

(** Bytes that stand for themselves inside a literal. *)
Definition json_safe (b : byte) : bool :=
  negb (bool_decide (b = x22)) && negb (bool_decide (b = x5c)) && (32 <=? b2z b).

(** Runes whose escaped text is a legal part of a literal: no control character
    without a two-character escape. *)
Definition json_rune (r : rune) : bool :=
  (32 <=? r) || bool_decide (r ∈ [8; 9; 10; 12; 13]).
Definition json_text (s : gostring) : Prop := Forall (λ r, json_rune r = true) (runes s).

(** [raw] is a way to write the contents [s] of a literal. *)
Definition literal_of (raw s : gostring) : Prop :=
  ∀ rest, read_string (raw ++ x22 :: rest) = Some (s, rest).

Lemma read_string_safe u t :
  Forall (λ b, json_safe b = true) u →
  read_string (u ++ t) = '(v, r) ← read_string t; Some (u ++ v, r).
Proof.
  induction 1 as [|b u Hb Hu IH]; [cbn; by destruct (read_string t) as [[]|]|].
  apply andb_true_iff in Hb as [Hb H32]. apply andb_true_iff in Hb as [Hq Hs].
  cbn [app read_string]. apply negb_true_iff in Hq, Hs. rewrite Hq, Hs.
  rewrite (proj2 (Z.ltb_ge _ _)) by lia. rewrite IH.
  by destruct (read_string t) as [[]|].
Qed.

Lemma read_string_escape r t :
  ValidRune r = true → json_rune r = true →
  read_string (escape_text r ++ t) = '(v, rest) ← read_string t; Some (encode_rune r ++ v, rest).
Proof.
  intros Hv Hr. unfold escape_text, escape.
  destruct (Z.eqb_spec r #x08) as [->|N1]; [reflexivity|].
  destruct (Z.eqb_spec r #x0c) as [->|N2]; [reflexivity|].
  destruct (Z.eqb_spec r #x0a) as [->|N3]; [reflexivity|].
  destruct (Z.eqb_spec r #x0d) as [->|N4]; [reflexivity|].
  destruct (Z.eqb_spec r #x09) as [->|N5]; [reflexivity|].
  destruct (Z.eqb_spec r #x22) as [->|N6]; [reflexivity|].
  destruct (Z.eqb_spec r #"\") as [->|N7]; [reflexivity|].
  unfold WriteRune. cbn [app]. apply read_string_safe.
  assert (32 <= r) as H32.
  { apply orb_true_iff in Hr as [?|Hr]; [lia|]. apply bool_decide_eq_true in Hr.
    repeat (apply elem_of_cons in Hr as [->|Hr]; [by contradict N1 || by contradict N2
      || by contradict N3 || by contradict N4 || by contradict N5|]).
    by apply elem_of_nil in Hr. }
  eapply Forall_impl; [apply (encode_rune_bytes r)|]. cbn. intros b Hb.
  unfold json_safe.
  rewrite !bool_decide_eq_false_2; [cbn; lia|intros ->..];
    [change (b2z x5c) with 92 in *; change #"\" with 92 in *; lia
    |change (b2z x22) with 34 in *; change #x22 with 34 in *; lia].
Qed.

Lemma read_string_runes rs t :
  Forall (λ r, ValidRune r = true) rs → Forall (λ r, json_rune r = true) rs →
  read_string (flat_map escape_text rs ++ t)
    = '(v, rest) ← read_string t; Some (flat_map encode_rune rs ++ v, rest).
Proof.
  intros Hv Hj. revert Hv. induction Hj as [|r rs Hr Hj IH]; intros Hv.
  - cbn. by destruct (read_string t) as [[]|].
  - apply Forall_cons in Hv as [Hv Hvs]. cbn [flat_map].
    rewrite <- app_assoc, read_string_escape, IH by done.
    destruct (read_string t) as [[]|]; [|done]. cbn. by rewrite <- app_assoc.
Qed.

(** What [escape] writes for a string is a literal for it. *)
Lemma escaped_literal s : json_text s → literal_of (escaped s) (sanitize s).
Proof.
  intros Hs rest. unfold escaped. rewrite read_string_runes by (done || apply runes_valid).
  change (read_string (x22 :: rest)) with (Some ([] : gostring, rest)).
  cbn [mbind option_bind]. by rewrite app_nil_r.
Qed.

Lemma safe_literal s : Forall (λ b, json_safe b = true) s → literal_of s s.
Proof.
  intros Hs rest. rewrite read_string_safe by done.
  change (read_string (x22 :: rest)) with (Some ([] : gostring, rest)).
  cbn [mbind option_bind]. by rewrite app_nil_r.
Qed.

(** ** Objects *)

Abbreviation sep := (quote ++ str ", " ++ quote) (only parsing).
Abbreviation colon := (quote ++ str ": " ++ quote) (only parsing).

(** The text of further members, each closing the literal of the previous one. *)
Definition tail_text (ms : list (gostring * gostring)) : gostring :=
  flat_map (λ '(k, v), sep ++ k ++ colon ++ v) ms ++ quote ++ str "}".

Lemma tail_text_nil : tail_text [] = x22 :: str "}".
Proof. reflexivity. Qed.

Lemma tail_text_cons k v ms :
  tail_text ((k, v) :: ms) = x22 :: str ", " ++ quote ++ k ++ colon ++ v ++ tail_text ms.
Proof. unfold tail_text. cbn [flat_map]. by repeat rewrite <- app_assoc. Qed.

Definition literals_of (raw : list (gostring * gostring)) (ms : list member) : Prop :=
  Forall2 (λ r m, literal_of r.1 m.1 ∧ literal_of r.2 m.2) raw ms.

Lemma read_member_open k v k' v' rest :
  literal_of k k' → literal_of v v' →
  ∀ fuel, read_members (S fuel) (quote ++ k ++ colon ++ v ++ x22 :: rest) =
    match expect ","%byte rest with
    | Some s => '(ms, s) ← read_members fuel s; Some ((k', v') :: ms, s)
    | None => s ← expect "}"%byte rest; Some ([(k', v')], s)
    end.
Proof.
  intros Hk Hv fuel. cbn [read_members].
  change (expect x22 (quote ++ ?x)) with (Some x). cbn [mbind option_bind].
  change (colon ++ v ++ x22 :: rest) with (x22 :: str ": " ++ quote ++ v ++ x22 :: rest).
  rewrite Hk. cbn [mbind option_bind].
  change (expect ":"%byte (str ": " ++ ?x)) with (Some ([" "%byte] ++ x)).
  cbn [mbind option_bind].
  change (expect x22 ([" "%byte] ++ quote ++ ?x)) with (Some x). cbn [mbind option_bind].
  by rewrite Hv.
Qed.

Lemma read_members_text raw ms :
  literals_of raw ms →
  ∀ fuel k v k' v', literal_of k k' → literal_of v v' → (length raw < fuel)%nat →
  read_members fuel (quote ++ k ++ colon ++ v ++ tail_text raw) = Some ((k', v') :: ms, []).
Proof.
  induction 1 as [|[rk rv] [mk mv] raw ms [Hrk Hrv] Hraw IH];
    intros fuel k v k' v' Hk Hv Hf; (destruct fuel as [|fuel]; [cbn in Hf; lia|]).
  - rewrite tail_text_nil, (read_member_open k v k' v') by done. reflexivity.
  - rewrite tail_text_cons, (read_member_open k v k' v') by done.
    change (expect ","%byte (str ", " ++ ?x)) with (Some ([" "%byte] ++ x)). cbn iota.
    destruct fuel as [|fuel]; [cbn in Hf; lia|].
    specialize (IH (S fuel) rk rv mk mv Hrk Hrv ltac:(cbn in Hf; lia)).
    change (read_members (S fuel) ([" "%byte] ++ ?x)) with (read_members (S fuel) x).
    by rewrite IH.
Qed.

(** ** The object [JSON] writes *)

(** Logs whose text fields are legal in JSON: the header fields, which are
    written as they are, hold no quote, backslash or control character, and the
    keys, values and message no control character that [escape] does not know. *)
Record json_ok (l : Log) : Prop := {
  ok_date : Forall (λ b, json_safe b = true) (date l);
  ok_time : Forall (λ b, json_safe b = true) (time l);
  ok_level : Forall (λ b, json_safe b = true) (Level l);
  ok_thread : Forall (λ b, json_safe b = true) (Thread l);
  ok_class : Forall (λ b, json_safe b = true) (Class l);
  ok_message : json_text (Message l);
  ok_props : Forall (λ p, json_text (key p) ∧ json_text (value p)) (props l)
}.

(** The members of the object, in the order they are written. *)
Definition json_fields (l : Log) : list member :=
  [(KeyTimestamp, Timestamp l); (KeyLevel, Level l); (KeyThread, Thread l);
   (KeyClass, Class l)] ++
  ((λ p, (sanitize (key p), sanitize (value p))) <$> rendered_props l).

Definition raw_fields (l : Log) : list (gostring * gostring) :=
  [(KeyLevel, Level l); (KeyThread, Thread l); (KeyClass, Class l)] ++
  ((λ p, (escaped (key p), escaped (value p))) <$> rendered_props l).

Lemma props_text_tail ps :
  props_text sep sep colon ps ++ quote ++ str "}" =
    tail_text ((λ p, (escaped (key p), escaped (value p))) <$> ps).
Proof.
  unfold tail_text.
  assert (props_text sep sep colon ps = flat_map (λ p, sep ++ prop_text colon p) ps) as ->
    by (destruct ps; [done|]; cbn [props_text flat_map]; by rewrite <- !app_assoc).
  f_equal. induction ps as [|p ps IH]; [done|].
  cbn [fmap list_fmap flat_map]. by rewrite IH.
Qed.

Lemma JSON_eq l :
  JSON l = str "{" ++ quote ++ KeyTimestamp ++ colon ++ Timestamp l ++ tail_text (raw_fields l).
Proof.
  unfold JSON, WriteJSONTo. rewrite serialize_app. unfold WriteString, WriteByte.
  repeat rewrite <- app_assoc. rewrite props_text_tail.
  unfold raw_fields. cbn [app]. rewrite !tail_text_cons. unfold Timestamp.
  by repeat rewrite <- app_assoc.
Qed.

Lemma key_literal (k : gostring) : forallb json_safe k = true → literal_of k k.
Proof. intros H. by apply safe_literal, forallb_Forall. Qed.

Lemma Timestamp_safe l :
  json_ok l → Forall (λ b, json_safe b = true) (Timestamp l).
Proof.
  intros []. unfold Timestamp. apply Forall_app. split; [done|].
  apply Forall_app. split; [|done]. by apply forallb_Forall.
Qed.

Lemma rendered_literals l : json_ok l →
  literals_of ((λ p, (escaped (key p), escaped (value p))) <$> rendered_props l)
              ((λ p, (sanitize (key p), sanitize (value p))) <$> rendered_props l).
Proof.
  intros [? ? ? ? ? Hm Hp]. unfold literals_of. apply Forall2_fmap_2, Forall_Forall2_diag.
  apply Forall_app. split.
  - eapply Forall_impl; [exact Hp|]. intros p [??]. split; by apply escaped_literal.
  - destruct (nonempty (Message l)); [|constructor]. constructor; [|constructor].
    split; apply escaped_literal; [|done]. by apply forallb_Forall.
Qed.

Lemma raw_literals l : json_ok l →
  literals_of (raw_fields l) (tail (json_fields l)).
Proof.
  intros Hok. pose proof (rendered_literals l Hok). destruct Hok.
  unfold raw_fields, json_fields. cbn [tail app].
  repeat (constructor; [split; [by apply key_literal|by apply safe_literal]|]). done.
Qed.

Lemma length_tail_text ms : (length ms < length (tail_text ms))%nat.
Proof.
  unfold tail_text. rewrite length_app. cbn.
  induction ms as [|[k v] ms IH]; cbn in *; [lia|].
  rewrite !length_app in *. cbn. lia.
Qed.

(** ** Properties *)

(** C7: [JSON] writes a JSON object whose members are exactly the log's timestamp,
    level, thread, class, properties in order and message, provided that no quote,
    backslash or control character is in a header field, which [WriteJSONTo] does not
    escape, nor a control character without an escape of its own in a property or in
    the message ([json_ok]).  Each key and value reads back as its text: the same bytes
    when it is valid UTF-8. *)
Theorem json_reads_back (l : Log) (Hok : json_ok l) :
  read_object (JSON l) = Some (json_fields l) ∧
  (Forall (λ p, valid_utf8 (key p) ∧ valid_utf8 (value p)) (rendered_props l) →
   json_fields l =
     [(KeyTimestamp, Timestamp l); (KeyLevel, Level l); (KeyThread, Thread l);
      (KeyClass, Class l)] ++ ((λ p, (key p, value p)) <$> rendered_props l)).
Proof.
  split.
  - rewrite JSON_eq. unfold read_object.
    change (expect "{"%byte (str "{" ++ ?x)) with (Some x). cbn [mbind option_bind].
    rewrite (read_members_text _ _ (raw_literals l Hok) _ _ _ KeyTimestamp (Timestamp l)).
    + reflexivity.
    + by apply key_literal.
    + by apply safe_literal, Timestamp_safe.
    + pose proof (length_tail_text (raw_fields l)). rewrite !length_app. lia.
  - intros Hv. unfold json_fields. f_equal. apply list_fmap_ext. intros i p Hp.
    rewrite Forall_lookup in Hv. destruct (Hv i p Hp). by rewrite !sanitize_valid.
Qed.

Lemma json_reads_back_witness :
  read_object (JSON (mkLog (str "2017-24-11") (str "11,1") (str "INFO") [] [] (str "hi")
                       [mkProperty (str "a") (str "1" ++ [x0a; x22])])) =
  Some [(KeyTimestamp, str "2017-24-11 11,1"); (KeyLevel, str "INFO"); (KeyThread, []);
        (KeyClass, []); (str "a", str "1" ++ [x0a; x22]); (KeyMessage, str "hi")].
Proof.
  refine (proj1 (json_reads_back _ _)).
  split; try (by apply forallb_Forall). cbn [props]. constructor; [|constructor].
  split; by apply forallb_Forall.
Defined.

(** The header fields are not escaped: a quote in the thread name makes the
    output of [JSON] unreadable, while the same quote in a property does not. *)
Theorem json_header_not_escaped :
  let quoted := str "a" ++ quote ++ str "b" in
  read_object (JSON (set_Thread quoted zeroLog)) = None ∧
  read_object (JSON (set_props [mkProperty (str "k") quoted] zeroLog)) =
    Some [(KeyTimestamp, str " "); (KeyLevel, []); (KeyThread, []); (KeyClass, []);
          (str "k", quoted)].
Proof. vm_compute. split; reflexivity. Qed.
