(* ===== verification/Parser.v ===== *)
(** * The streaming parser (logging/parse.go)

    The parser's state machine, one definition per handler, and the [Parse] loop
    over the runes of the buffered text.  Every handler takes the parser (whose
    [current] field is the log the source passes as [&p.current]) and returns the
    updated parser, or the panic that a slice or an index out of range raises.
    The lemmas of this file hold for arbitrary bytes: the invariant of the
    positions, the absence of panics, and the number of logs returned. *)

From S2P Require Import Prelude GoString Log.

(** ** States *)

(** The constants of type [state]; [unnamedState n] is the [uint8] value [n] the
    constants do not name (17 and above). *)
Inductive state : Type :=
  | dateState
  | timeState
  | transitionLevelState
  | levelState
  | transitionThreadState
  | threadState
  | threadBracketState
  | threadNoBracketState
  | transitionClassState
  | classState
  | transitionCallTypeState
  | callTypeState
  | verifyCallTypeState
  | keyState
  | multiKeyState
  | valueState
  | errorState
  | unnamedState (n : Z).

#[global] Instance state_eq_dec : EqDecision state.
Proof. solve_decision. Defined.

(** The value of a state ([iota]). *)
Definition state_code (s : state) : Z :=
  match s with
  | dateState => 0
  | timeState => 1
  | transitionLevelState => 2
  | levelState => 3
  | transitionThreadState => 4
  | threadState => 5
  | threadBracketState => 6
  | threadNoBracketState => 7
  | transitionClassState => 8
  | classState => 9
  | transitionCallTypeState => 10
  | callTypeState => 11
  | verifyCallTypeState => 12
  | keyState => 13
  | multiKeyState => 14
  | valueState => 15
  | errorState => 16
  | unnamedState n => n
  end.

(** [p.state++] on a [uint8]. *)
Definition state_succ (s : state) : state :=
  match s with
  | dateState => timeState
  | timeState => transitionLevelState
  | transitionLevelState => levelState
  | levelState => transitionThreadState
  | transitionThreadState => threadState
  | threadState => threadBracketState
  | threadBracketState => threadNoBracketState
  | threadNoBracketState => transitionClassState
  | transitionClassState => classState
  | classState => transitionCallTypeState
  | transitionCallTypeState => callTypeState
  | callTypeState => verifyCallTypeState
  | verifyCallTypeState => keyState
  | keyState => multiKeyState
  | multiKeyState => valueState
  | valueState => errorState
  | errorState => unnamedState 17
  | unnamedState n => if n =? 255 then dateState else unnamedState (n + 1)
  end.

(** ** The parser *)

Record Parser : Type := mkParser {
  st : state;
  start : Z;
  end_ : Z;
  raw : gostring;
  current : Log
}.

#[global] Instance Parser_eq_dec : EqDecision Parser.
Proof. solve_decision. Defined.

Definition with_state s p := mkParser s (start p) (end_ p) (raw p) (current p).
Definition with_start i p := mkParser (st p) i (end_ p) (raw p) (current p).
Definition with_end i p := mkParser (st p) (start p) i (raw p) (current p).
Definition with_raw r p := mkParser (st p) (start p) (end_ p) r (current p).
Definition with_current l p := mkParser (st p) (start p) (end_ p) (raw p) l.

(** [p.start++], [p.end++] and [p.start = p.end]. *)
Definition incr_start p := with_start (start p + 1) p.
Definition incr_end p := with_end (end_ p + 1) p.
Definition start_at_end p := with_start (end_ p) p.

(** [p.raw[p.start:p.end]]. *)
Definition token (p : Parser) : go gostring := slice (raw p) (start p) (end_ p).

(** The header fields a handler can be given a pointer to. *)
Inductive header_field := FDate | FTime | FLevel | FThread | FClass.

Definition set_field (f : header_field) : gostring → Log → Log :=
  match f with
  | FDate => set_date
  | FTime => set_time
  | FLevel => set_Level
  | FThread => set_Thread
  | FClass => set_Class
  end.

Definition append_prop (pr : Property) (p : Parser) : Parser :=
  with_current (set_props (props (current p) ++ [pr]) (current p)) p.

(** [log.props[i] = f(log.props[i])], with Go's bounds check on the index. *)
Definition update_prop (i : Z) (f : Property → Property) (l : Log) : go Log :=
  if (0 <=? i) && (i <? len (props l))
  then Ret (set_props (alter f (Z.to_nat i) (props l)) l)
  else Panic IndexOutOfRange.

(** ** Handlers *)

Definition handleNextKey (p : Parser) (r : rune) : go Parser :=
  if r =? #" " then
    (* trim left spaces *)
    Ret (if start p =? end_ p then incr_end (incr_start p) else p)
  else if r =? #":" then
    k ← token p;
    Ret (start_at_end (incr_end (with_state valueState (append_prop (mkProperty k []) p))))
  else Ret (incr_end p).

Definition handleNextMultiKey (p : Parser) (r : rune) : go Parser :=
  if r =? #" " then
    (* clean first key *)
    k ← slice (raw p) (start p) (end_ p - 1);
    l ← update_prop (len (props (current p)) - 1) (λ _, mkProperty k []) (current p);
    Ret (with_state valueState (start_at_end (incr_end (with_current l p))))
  else
    (* char:char is legitimate *)
    Ret (incr_end (with_state valueState p)).

Definition consumeCurrent (p : Parser) : go Parser :=
  let i := len (props (current p)) - 1 in
  if i <? 0 then Ret p
  else
    v ← token p;
    l ← update_prop i (set_value v) (current p);
    Ret (with_current l p).

Definition consumeLog (p : Parser) : go Parser :=
  let i := len (props (current p)) - 1 in
  if (i <? 0) || match props (current p) !! Z.to_nat i with
                 | Some pr => nonempty (value pr)
                 | None => false
                 end
  then
    (* the rest is the message *)
    m ← token p;
    Ret (with_current (set_Message m (current p)) p)
  else
    v ← token p;
    l ← update_prop i (set_value v) (current p);
    Ret (with_current l p).

Definition handleNextValue (p : Parser) (r : rune) : go Parser :=
  if r =? #"," then
    p ← consumeCurrent p;
    Ret (start_at_end (incr_end (with_state keyState p)))
  else if r =? #":" then Ret (incr_end (with_state multiKeyState p))
  else if r =? #" " then
    Ret (incr_end (if start p =? end_ p then incr_start p else p))
  else Ret (incr_end p).

(** The boolean tells [next] to handle the rune again in the next state. *)
Definition handleTransition (p : Parser) (r : rune) : Parser * bool :=
  if (r =? #x09) || (r =? #" ") then (incr_end (incr_start p), false)
  else (with_state (state_succ (st p)) p, true).

Definition is_date_rune (r : rune) : bool :=
  ((#"0" <=? r) && (r <=? #"9")) || (r =? #":") || (r =? #",") || (r =? #".") || (r =? #"-").

Definition handleNextDate (f : header_field) (p : Parser) (r : rune) : go Parser :=
  if r =? #"[" then Ret (incr_end (incr_start p))
  else if is_date_rune r then Ret (incr_end p)
  else
    v ← token p;
    let p := with_current (set_field f v (current p)) p in
    Ret (with_state (state_succ (st p)) (start_at_end (incr_end p))).

Definition handleNextHeader (f : header_field) (p : Parser) (r : rune) : go Parser :=
  if r =? #"[" then Ret (incr_end (incr_start p))
  else if (r =? #x09) || (r =? #" ") || (r =? #"]") then
    v ← token p;
    let p := with_current (set_field f v (current p)) p in
    Ret (with_state (state_succ (st p)) (start_at_end (incr_end p)))
  else Ret (incr_end p).

Definition handleNextThreadBracket (p : Parser) (r : rune) : go Parser :=
  if (r =? #"]") || (r =? #x09) then
    v ← token p;
    let p := with_current (set_Thread v (current p)) p in
    Ret (with_state transitionClassState (start_at_end (incr_end p)))
  else Ret (incr_end p).

Definition handleNextThread (p : Parser) (r : rune) : go Parser :=
  if r =? #"[" then Ret (incr_end (incr_start (with_state threadBracketState p)))
  else handleNextHeader FThread (with_state threadNoBracketState p) r.

Definition handleNextCallType (p : Parser) (r : rune) : go Parser :=
  if r =? #":" then
    p ← consumeCurrent (append_prop (mkProperty (str "callType") []) p);
    Ret (with_state (state_succ (st p)) (start_at_end (incr_end p)))
  else Ret (incr_end p).

Definition verifyCallType (p : Parser) (r : rune) : go Parser :=
  if r =? #"," then
    (* was not callType *)
    l ← update_prop 0 (λ pr, mkProperty (value pr) (value pr)) (current p);
    handleNextValue (with_current l p) r
  else handleNextKey p r.

(** [p.next(log, r)]. The [default] case covers the transition states (and the
    states without a name); it recurses after moving to the following state. *)
Fixpoint next_fuel (fuel : nat) (p : Parser) (r : rune) : go Parser :=
  match st p with
  | dateState => handleNextDate FDate p r
  | timeState => handleNextDate FTime p r
  | levelState => handleNextHeader FLevel p r
  | threadState => handleNextThread p r
  | threadBracketState => handleNextThreadBracket p r
  | threadNoBracketState => handleNextHeader FThread p r
  | classState => handleNextHeader FClass p r
  | callTypeState => handleNextCallType p r
  | verifyCallTypeState => verifyCallType p r
  | keyState => handleNextKey p r
  | valueState => handleNextValue p r
  | multiKeyState => handleNextMultiKey p r
  | errorState => Ret p
  | _ =>
    let '(p', again) := handleTransition p r in
    if again then
      match fuel with
      | O => Panic OutOfFuel
      | S fuel => next_fuel fuel p' r
      end
    else Ret p'
  end.

(** A state is left by at most one transition, and the unnamed ones by at most
    239, so 256 levels of recursion are enough ([next_total]). *)
Definition next : Parser → rune → go Parser := next_fuel 256.
Arguments next : simpl never.

(** The body of the loop of [Parse]. *)
Definition parse_rune (acc : Parser * list Log) (ir : Z * rune) : go (Parser * list Log) :=
  let '(p, logs) := acc in
  let '(i, r) := ir in
  if r =? #x0a then
    p ← consumeLog p;
    let p := with_end (i + 1) (with_start (i + 1) p) in
    let p := with_state dateState p in
    Ret (with_current zeroLog p, logs ++ [current p])
  else
    p ← next p r;
    Ret (p, logs).

(** [p.Parse(chunk, logs)]. *)
Definition Parser_Parse (p : Parser) (chunk : gostring) (logs : list Log) :
    go (Parser * list Log) :=
  let p := with_raw (raw p ++ chunk) p in
  '(p, logs) ← foldM parse_rune (p, logs) (range (raw p));
  rest ← slice_from (raw p) (start p);
  Ret (with_end 0 (with_start 0 (with_raw rest p)), logs).

(** [p.Reset()]: note that the buffered text and the current log are kept. *)
Definition Parser_Reset (p : Parser) : Parser := with_end 0 (with_start 0 (with_state dateState p)).

Definition NewParser : Parser := Parser_Reset (mkParser dateState 0 0 [] zeroLog).

(** [Parse(raw)]. *)
Definition Parse (raw : gostring) : go (list Log) :=
  '(_, logs) ← Parser_Parse NewParser raw []; Ret logs.

(** ** The test cases of the repository *)

Module Tests.
Definition prop (k v : literal) : Property := mkProperty (str k) (str v).
Arguments prop (_ _)%_string_scope.
Definition tab : gostring := [x09].
Definition nl : gostring := [x0a].

Definition log1 : gostring :=
  str "2017-09-07 14:54:39,474" ++ tab ++ str "DEBUG" ++ tab ++ str "[pool-5-thread-6]" ++
  tab ++ str "control.RaptorHandler" ++ tab ++
  str "PublisherCreateRequest: flow: Publish, step: Attempt, operation: CreatePublisher, traceId: Publish:Rumor:012ae1a5" ++ nl.

Definition expected1 : Log :=
  mkLog (str "2017-09-07") (str "14:54:39,474") (str "DEBUG") (str "pool-5-thread-6")
    (str "control.RaptorHandler") []
    [prop "callType" "PublisherCreateRequest"; prop "flow" "Publish";
     prop "step" "Attempt"; prop "operation" "CreatePublisher";
     prop "traceId" "Publish:Rumor:012ae1a5"].

Definition log3 : gostring :=
  str "2017-04-19 18:01:11,437     INFO [Test worker]    core.InstrumentationListener" ++
  tab ++ str "i do not want to log anything special here" ++ nl.

Definition expected3 : Log :=
  mkLog (str "2017-04-19") (str "18:01:11,437") (str "INFO") (str "Test worker")
    (str "core.InstrumentationListener") (str "i do not want to log anything special here") [].

Definition log4 : gostring :=
  str "2017-04-19 18:01:11,437     INFO [Test worker]    core.InstrumentationListener" ++
  tab ++ str "only: one" ++ nl.

Definition log6 : gostring :=
  str "[2017-12-05T15:09:09.858] [WARN] main - flow: , operation: closePage, conId: connectionId: 1, url: https://10.1.6.113:6060/index.html?id=5NZM0okZ, timestamp: 1512515349858" ++ nl.

Definition expected6 : Log :=
  mkLog (str "2017-12-05") (str "15:09:09.858") (str "WARN") (str "main") (str "-") []
    [mkProperty (str "flow") []; prop "operation" "closePage"; prop "connectionId" "1";
     prop "url" "https://10.1.6.113:6060/index.html?id=5NZM0okZ";
     prop "timestamp" "1512515349858"].

Example parse_1_3 : Parse (log1 ++ log3) = Ret [expected1; expected3].
Proof. vm_compute. reflexivity. Qed.

Example parse_4 : Parse log4 =
  Ret [set_Message (str "one") (set_props [prop "callType" "only"] expected3)].
Proof. vm_compute. reflexivity. Qed.

Example parse_6 : Parse log6 = Ret [expected6].
Proof. vm_compute. reflexivity. Qed.

End Tests.

(** ** The position invariant *)

(** States in which a property is pending. *)
Definition pending (s : state) : bool :=
  match s with verifyCallTypeState | keyState | multiKeyState | valueState => true | _ => false end.

(** The states the parser can be in. *)
Definition named (s : state) : bool :=
  match s with errorState | unnamedState _ => false | _ => true end.

(** Between two runes, with the next one at offset [i] or later: the token lies
    in the text already read, a pending property exists, and the state is one of
    the machine's own. *)
Record line_inv (i : Z) (p : Parser) : Prop := {
  inv_start : 0 <= start p;
  inv_token : start p <= end_ p;
  inv_end : end_ p <= i;
  inv_len : i <= len (raw p);
  inv_pending : pending (st p) = true → props (current p) ≠ [];
  inv_named : named (st p) = true
}.

(** In [multiKeyState] a token of at least one character precedes the rune, or
    the rune is not the space that ends the key. *)
Definition multi_ok (p : Parser) (r : rune) : Prop :=
  st p = multiKeyState → r = #" " → start p < end_ p.

(** What a handler guarantees when it reads a rune at an offset below [i]. *)
Definition step_ok (i : Z) (p : Parser) (m : go Parser) : Prop :=
  ∃ p', m = Ret p' ∧ raw p' = raw p ∧ line_inv i p' ∧
        (st p' = multiKeyState → start p' < end_ p').

Lemma token_ok i p : line_inv i p → ∃ t, token p = Ret t.
Proof.
  intros []. unfold token.
  destruct (slice_ok (raw p) (start p) (end_ p)) as (t & Ht & _); eauto; lia.
Qed.

Lemma update_prop_ok i f l :
  0 <= i < len (props l) →
  update_prop i f l = Ret (set_props (alter f (Z.to_nat i) (props l)) l).
Proof. intros. unfold update_prop. by decide_Z. Qed.

Lemma alter_nonempty {A} (f : A → A) i (l : list A) : l ≠ [] → alter f i l ≠ [].
Proof. by destruct l, i. Qed.

Lemma len_pos {A} (l : list A) : l ≠ [] ↔ 0 < len l.
Proof. unfold len. destruct l; cbn [length]; split; try done; lia. Qed.

Lemma app_one_nonempty {A} (l : list A) x : l ++ [x] ≠ [].
Proof. by destruct l. Qed.

#[export] Hint Resolve alter_nonempty app_one_nonempty : logd.

(** Close the obligations of [step_ok] once the resulting parser is explicit. *)
Ltac open_inv := repeat match goal with H : line_inv _ _ |- _ => destruct H end.
Ltac solve_inv := open_inv; split; cbn in *; auto with logd; try lia; try done.
Ltac solve_step :=
  open_inv; eexists; split_and!;
    [reflexivity|reflexivity|solve_inv|cbn; intros; first [done|lia|congruence|idtac]].

Lemma consumeCurrent_ok i p :
  line_inv i p →
  ∃ p', consumeCurrent p = Ret p' ∧ raw p' = raw p ∧ st p' = st p ∧
        start p' = start p ∧ end_ p' = end_ p ∧
        (props (current p) ≠ [] → props (current p') ≠ []).
Proof.
  intros Hi. unfold consumeCurrent. case_match eqn:E; [eauto 10|].
  destruct (token_ok i p Hi) as [v ->]. cbn [mbind go_bind].
  rewrite update_prop_ok by lia. cbn [mbind go_bind].
  eexists; split_and!; [done..|]. cbn. auto with logd.
Qed.

Lemma handleNextKey_ok i p r :
  line_inv i p → i + 1 <= len (raw p) → st p ≠ multiKeyState →
  step_ok (i + 1) p (handleNextKey p r).
Proof.
  intros Hi Hl Hm. unfold handleNextKey. case_match.
  - case_match eqn:E; solve_step.
  - case_match; [|solve_step].
    destruct (token_ok i p Hi) as [k ->]. cbn [mbind go_bind]. solve_step.
Qed.

Lemma handleNextMultiKey_ok i p r :
  line_inv i p → i + 1 <= len (raw p) → st p = multiKeyState → multi_ok p r →
  step_ok (i + 1) p (handleNextMultiKey p r).
Proof.
  intros Hi Hl Hm Hok. unfold handleNextMultiKey. case_match eqn:E.
  - apply Z.eqb_eq in E. specialize (Hok Hm E).
    assert (props (current p) ≠ []) as Hp by (destruct Hi as [??????]; by rewrite Hm in *; auto).
    destruct (slice_ok (raw p) (start p) (end_ p - 1)) as (k & -> & _);
      [destruct Hi; lia..|].
    cbn [mbind go_bind]. apply len_pos in Hp as Hp'. rewrite update_prop_ok by lia.
    cbn [mbind go_bind]. solve_step.
  - solve_step. intros _. by apply inv_pending0; rewrite Hm.
Qed.

Lemma handleNextValue_ok i p r :
  line_inv i p → i + 1 <= len (raw p) → st p ≠ multiKeyState → props (current p) ≠ [] →
  step_ok (i + 1) p (handleNextValue p r).
Proof.
  intros Hi Hl Hm Hp. unfold handleNextValue. case_match.
  - destruct (consumeCurrent_ok i p Hi) as (p' & -> & Hr & Hs & Hst & He & Hp').
    cbn [mbind go_bind]. destruct Hi. eexists; split_and!; [reflexivity|done| |done].
    split; cbn; rewrite ?Hr, ?Hst, ?He; auto; lia.
  - case_match; [solve_step|]. case_match; [|solve_step].
    case_match eqn:E; solve_step.
Qed.

Lemma handleNextDate_ok i f p r :
  line_inv i p → i + 1 <= len (raw p) →
  st p = dateState ∨ st p = timeState → step_ok (i + 1) p (handleNextDate f p r).
Proof.
  intros Hi Hl Hs. unfold handleNextDate.
  assert (st p ≠ multiKeyState) as Hm by (by destruct Hs as [-> | ->]).
  case_match; [solve_step|]. case_match; [solve_step|].
  destruct (token_ok i p Hi) as [v ->]. cbn [mbind go_bind].
  destruct Hs as [Hs|Hs]; cbn; rewrite Hs; solve_step.
Qed.

(** The states [handleNextHeader] runs in. *)
Definition header_state (s : state) : bool :=
  match s with levelState | threadNoBracketState | classState => true | _ => false end.

Lemma handleNextHeader_ok i f p r :
  line_inv i p → i + 1 <= len (raw p) → header_state (st p) = true →
  step_ok (i + 1) p (handleNextHeader f p r).
Proof.
  intros Hi Hl Hs. unfold handleNextHeader.
  assert (st p ≠ multiKeyState) as Hm by (by intros E; rewrite E in Hs).
  case_match; [solve_step|]. case_match; [|solve_step].
  destruct (token_ok i p Hi) as [v ->]. cbn [mbind go_bind].
  destruct (st p) eqn:E; try done; cbn; rewrite E; solve_step.
Qed.

Lemma handleNextThreadBracket_ok i p r :
  line_inv i p → i + 1 <= len (raw p) → st p = threadBracketState →
  step_ok (i + 1) p (handleNextThreadBracket p r).
Proof.
  intros Hi Hl Hs. unfold handleNextThreadBracket.
  case_match; [|solve_step; by rewrite Hs].
  destruct (token_ok i p Hi) as [v ->]. cbn [mbind go_bind]. solve_step.
Qed.

Lemma handleNextThread_ok i p r :
  line_inv i p → i + 1 <= len (raw p) → st p = threadState →
  step_ok (i + 1) p (handleNextThread p r).
Proof.
  intros Hi Hl Hs. unfold handleNextThread. case_match; [solve_step|].
  apply (handleNextHeader_ok i FThread (with_state threadNoBracketState p) r).
  - solve_inv.
  - done.
  - done.
Qed.

Lemma handleNextCallType_ok i p r :
  line_inv i p → i + 1 <= len (raw p) → st p = callTypeState →
  step_ok (i + 1) p (handleNextCallType p r).
Proof.
  intros Hi Hl Hs. unfold handleNextCallType.
  case_match; [|solve_step; by rewrite Hs].
  destruct (consumeCurrent_ok i (append_prop (mkProperty (str "callType") []) p))
    as (p' & -> & Hr & Hs' & Hst & He & Hp); [solve_inv|].
  cbn in Hr, Hs', Hst, He, Hp. cbn [mbind go_bind]. destruct Hi.
  eexists; split_and!; [reflexivity|by cbn| |].
  - split; cbn; rewrite ?Hr, ?Hst, ?He, ?Hs', ?Hs; auto with logd; lia.
  - cbn. by rewrite Hs', Hs.
Qed.

Lemma verifyCallType_ok i p r :
  line_inv i p → i + 1 <= len (raw p) → st p = verifyCallTypeState →
  step_ok (i + 1) p (verifyCallType p r).
Proof.
  intros Hi Hl Hs. unfold verifyCallType.
  assert (props (current p) ≠ []) as Hp by (destruct Hi; rewrite Hs in *; auto).
  assert (st p ≠ multiKeyState) as Hm by (by rewrite Hs).
  case_match; [|by apply handleNextKey_ok].
  apply len_pos in Hp as Hp'. rewrite update_prop_ok by lia. cbn [mbind go_bind].
  match goal with |- step_ok _ _ (handleNextValue ?q _) =>
    apply (handleNextValue_ok i q) end; cbn; auto with logd. solve_inv.
Qed.

(** Every rune is handled without a panic, and keeps the invariant. *)
Lemma next_ok i p r :
  line_inv i p → i + 1 <= len (raw p) → multi_ok p r → step_ok (i + 1) p (next p r).
Proof.
  intros Hi Hl Hm. unfold next. change 256%nat with (S 255).
  generalize 255%nat. intros fuel. cbn [next_fuel].
  pose proof (inv_named i p Hi) as Hn.
  assert (∀ f q, line_inv i q → raw q = raw p →
    st q ∈ [levelState; threadState; classState; callTypeState] →
    step_ok (i + 1) p (next_fuel f q r)) as Hdefault.
  { intros f q Hq Hr Hin. unfold step_ok. rewrite <- Hr in *.
    change (step_ok (i + 1) q (next_fuel f q r)).
    rewrite !elem_of_cons, elem_of_nil in Hin.
    destruct f; cbn [next_fuel]; destruct Hin as [E|[E|[E|[E|[]]]]]; rewrite E;
      first [by apply handleNextThread_ok|by apply handleNextCallType_ok
            |apply handleNextHeader_ok; [done..|by rewrite E]]. }
  destruct (st p) eqn:Hs; try done.
  all: try (apply handleNextDate_ok; by auto).
  all: try (apply handleNextHeader_ok; [done..|by rewrite Hs]).
  all: try (by first [apply handleNextThread_ok|apply handleNextThreadBracket_ok
                     |apply handleNextCallType_ok|apply verifyCallType_ok]).
  all: try (apply handleNextKey_ok; [done..|by rewrite Hs]).
  all: try (by apply handleNextMultiKey_ok).
  all: try (apply handleNextValue_ok; [done..|by rewrite Hs|];
            destruct Hi; rewrite Hs in *; by auto).
  all: unfold handleTransition; destruct ((r =? #x09) || (r =? #" ")) eqn:?;
    [solve_step; by rewrite Hs|].
  all: rewrite Hs; cbn [state_succ]; apply Hdefault; [solve_inv|done|].
  all: cbn; rewrite !elem_of_cons; tauto.
Qed.
