(* ===== verification/ParseLines.v ===== *)
(** * [Parse] line by line

    [Parse] scans the buffered text of all lines with absolute offsets.  This
    file specifies it one line at a time, each line with its own offsets from 0,
    and proves that [Parser_Parse] implements that specification for arbitrary
    bytes: the first line continues the state the previous chunk left, every
    other line is read from the initial state, and what follows the last newline
    is kept for the next chunk. *)

From S2P Require Import Prelude GoString Log Parser.

(** ** Specification *)

(** Reading the runes of a line. *)
Definition run (p : Parser) (rs : list rune) : go Parser := foldM next p rs.

(** A parser at the beginning of the text [l]. *)
Definition resume (s : state) (cur : Log) (l : gostring) : Parser := mkParser s 0 0 l cur.

(** The log of a complete line. *)
Definition line_log (s : state) (cur : Log) (l : gostring) : go Log :=
  p ← run (resume s cur l) (runes l); p ← consumeLog p; Ret (current p).

(** The parser that an incomplete line leaves for the next chunk. *)
Definition line_rest (s : state) (cur : Log) (l : gostring) : go Parser :=
  p ← run (resume s cur l) (runes l);
  r ← slice_from (raw p) (start p); Ret (resume (st p) (current p) r).

(** The lines of a text, the last one being incomplete. *)
Fixpoint parse_lines (s : state) (cur : Log) (ls : list gostring) : go (list Log * Parser) :=
  match ls with
  | [] => Ret ([], resume s cur [])
  | [l] => p ← line_rest s cur l; Ret ([], p)
  | l :: ls' =>
    log ← line_log s cur l;
    '(logs, p) ← parse_lines dateState zeroLog ls'; Ret (log :: logs, p)
  end.

(** ** Parsers between two calls of [Parse] *)

(** What holds between calls: the positions are reset, the state is one of the
    machine's own and a pending property exists where the state needs one. *)
Record at_rest (p : Parser) : Prop := {
  rest_start : start p = 0;
  rest_end : end_ p = 0;
  rest_pending : pending (st p) = true → props (current p) ≠ [];
  rest_named : named (st p) = true;
  rest_raw : x0a ∉ raw p
}.

(** The text about to be scanned does not start with the space that would end a
    multi-word key: [handleNextMultiKey] slices up to [p.end-1]. *)
Definition resumable (s : state) (text : gostring) : Prop :=
  s = multiKeyState → head (runes text) ≠ Some #" ".

Lemma at_rest_new : at_rest NewParser.
Proof. split; try done. apply not_elem_of_nil. Qed.

Lemma at_rest_inv s cur l :
  (pending s = true → props cur ≠ []) → named s = true → line_inv 0 (resume s cur l).
Proof. intros. split; cbn; auto with logd; lia. Qed.

#[export] Hint Resolve at_rest_new : logd.

(** ** Running over a line *)

Definition head_ok (p : Parser) (rs : list rune) : Prop :=
  match rs with r :: _ => multi_ok p r | [] => True end.

Lemma run_ok rs : ∀ n p,
  line_inv n p → n + len rs <= len (raw p) → head_ok p rs →
  ∃ p', run p rs = Ret p' ∧ raw p' = raw p ∧ line_inv (n + len rs) p'.
Proof.
  induction rs as [|r rs IH]; intros n p Hi Hl Hh.
  - exists p. rewrite len_nil, Z.add_0_r. done.
  - rewrite len_cons in *. pose proof (len_nonneg rs).
    destruct (next_ok n p r) as (p1 & Hn & Hr & Hi1 & Hm1); [done|lia|done|].
    destruct (IH (n + 1) p1) as (p' & Hrun & Hr' & Hi'); [done|rewrite Hr; lia|..].
    { destruct rs; [done|]. intros ? _. auto. }
    exists p'. unfold run in *. cbn [foldM]. rewrite Hn. cbn [mbind go_bind].
    rewrite Hrun, Hr', Hr. split_and!; [done..|].
    by replace (n + (1 + len rs)) with (n + 1 + len rs) by lia.
Qed.

Lemma length_range_from k i s : (length (range_from k i s) <= length s)%nat.
Proof.
  revert k i. induction s as [|b s IH]; intros k i; [done|]. cbn [range_from length].
  destruct k as [|k]; [|specialize (IH k (i + 1)); lia].
  destruct (decode_rune (b :: s)) as [r w]. cbn [length]. specialize (IH (Nat.pred w) (i + 1)). lia.
Qed.

Lemma len_runes s : len (runes s) <= len s.
Proof.
  unfold len, runes, range. rewrite length_fmap.
  pose proof (length_range_from 0 0 s). lia.
Qed.

Lemma head_ok_resumable s cur l t :
  resumable s l → head_ok (resume s cur t) (runes l).
Proof.
  unfold resumable, head_ok. destruct (runes l) as [|r rs]; [done|].
  cbn. intros H Hs ->. by destruct (H Hs).
Qed.

(** A line never makes the parser panic. *)
Lemma run_line_ok s cur l :
  (pending s = true → props cur ≠ []) → named s = true → resumable s l →
  ∃ p, run (resume s cur l) (runes l) = Ret p ∧ raw p = l ∧ line_inv (len l) p.
Proof.
  intros Hp Hn Hr.
  destruct (run_ok (runes l) 0 (resume s cur l)) as (p & Hrun & Hraw & Hi).
  - by apply at_rest_inv.
  - cbn. pose proof (len_runes l). lia.
  - by apply head_ok_resumable.
  - exists p. split_and!; [done..|]. destruct Hi. pose proof (len_runes l).
    split; rewrite ?Hraw; auto; cbn; lia.
Qed.

Lemma consumeLog_ok i p : line_inv i p → ∃ p', consumeLog p = Ret p' ∧ raw p' = raw p.
Proof.
  intros Hi. unfold consumeLog. destruct (token_ok i p Hi) as [v Hv]. rewrite Hv.
  destruct (_ || _) eqn:E; cbn [mbind go_bind]; [eauto|].
  apply orb_false_iff in E as [E _]. rewrite update_prop_ok by lia.
  cbn [mbind go_bind]. eauto.
Qed.

Lemma line_log_ok s cur l :
  (pending s = true → props cur ≠ []) → named s = true → resumable s l →
  ∃ log, line_log s cur l = Ret log.
Proof.
  intros Hp Hn Hr. destruct (run_line_ok s cur l Hp Hn Hr) as (p & Hrun & _ & Hi).
  unfold line_log. rewrite Hrun. cbn [mbind go_bind].
  destruct (consumeLog_ok _ p Hi) as (p' & -> & _). eauto.
Qed.

Lemma line_rest_ok s cur l :
  (pending s = true → props cur ≠ []) → named s = true → resumable s l → x0a ∉ l →
  ∃ p, line_rest s cur l = Ret p ∧ at_rest p.
Proof.
  intros Hp Hn Hr Hl. destruct (run_line_ok s cur l Hp Hn Hr) as (p & Hrun & Hraw & Hi).
  unfold line_rest. rewrite Hrun. cbn [mbind go_bind]. rewrite Hraw. destruct Hi.
  unfold slice_from. unfold slice. decide_Z. cbn [mbind go_bind].
  eexists; split; [reflexivity|]. split; try done. cbn. intros H.
  apply Hl. apply elem_of_take in H as (k & Hk & _).
  rewrite lookup_drop in Hk. by apply list_elem_of_lookup_2 in Hk.
Qed.

(** ** Lines inside a longer text *)

(** The same parser, its line being surrounded by other text. *)
Definition up (pre post : gostring) (q : Parser) : Parser :=
  mkParser (st q) (start q + len pre) (end_ q + len pre) (pre ++ raw q ++ post) (current q).

Section shift.
Context (pre post : gostring).
Local Abbreviation up := (up pre post).

Lemma slice_up s lo hi :
  0 <= lo → lo <= hi → hi <= len s →
  slice (pre ++ s ++ post) (lo + len pre) (hi + len pre) = slice s lo hi.
Proof.
  intros ???. unfold slice. pose proof (len_nonneg pre). pose proof (len_nonneg post).
  rewrite !len_app. decide_Z. f_equal.
  replace (hi + len pre - (lo + len pre)) with (hi - lo) by lia.
  replace (Z.to_nat (lo + len pre)) with (length pre + Z.to_nat lo)%nat
    by (unfold len; lia).
  rewrite <- drop_drop, drop_app_length, drop_app_le by (unfold len in *; lia).
  apply take_app_le. unfold len in *. rewrite length_drop. lia.
Qed.

Lemma token_up i q : line_inv i q → token (up q) = token q.
Proof. intros []. unfold token. cbn. apply slice_up; lia. Qed.

(** Equality of the parsers obtained on both sides. *)
Local Ltac up_eq :=
  unfold up, incr_end, incr_start, start_at_end, append_prop,
    with_end, with_start, with_state, with_current;
  cbn; f_equal; f_equal; lia.

(** The comparison of [start] with [end] does not see the shift. *)
Lemma eqb_up q : (start (up q) =? end_ (up q)) = (start q =? end_ q).
Proof. cbn. destruct (Z.eqb_spec (start q) (end_ q)); lia. Qed.

Lemma consumeCurrent_up i q : line_inv i q → consumeCurrent (up q) = up <$> consumeCurrent q.
Proof.
  intros Hi. unfold consumeCurrent. rewrite (token_up i) by done. cbn [current].
  change (current (up q)) with (current q). case_match; [done|].
  destruct (token q) as [v|]; [|done]. cbn [mbind go_bind].
  destruct (update_prop _ _ _); done.
Qed.

Lemma consumeLog_up i q : line_inv i q → consumeLog (up q) = up <$> consumeLog q.
Proof.
  intros Hi. unfold consumeLog. rewrite (token_up i) by done.
  change (current (up q)) with (current q).
  case_match; destruct (token q) as [v|]; try done. cbn [mbind go_bind].
  destruct (update_prop _ _ _); done.
Qed.

Lemma handleNextKey_up i q r : line_inv i q →
  handleNextKey (up q) r = up <$> handleNextKey q r.
Proof.
  intros Hi. unfold handleNextKey. rewrite eqb_up, (token_up i) by done.
  case_match; [case_match; up_eq|]. case_match; [|up_eq].
  destruct (token q); [|done]. cbn [mbind go_bind]. up_eq.
Qed.

Lemma handleNextMultiKey_up i q r : line_inv i q → st q = multiKeyState → multi_ok q r →
  handleNextMultiKey (up q) r = up <$> handleNextMultiKey q r.
Proof.
  intros Hi Hs Hm. unfold handleNextMultiKey. case_match eqn:E; [|up_eq].
  apply Z.eqb_eq in E. specialize (Hm Hs E). destruct Hi.
  change (raw (up q)) with (pre ++ raw q ++ post).
  change (start (up q)) with (start q + len pre).
  replace (end_ (up q) - 1) with (end_ q - 1 + len pre) by (cbn; lia).
  rewrite slice_up by lia. change (current (up q)) with (current q).
  destruct (slice (raw q) (start q) (end_ q - 1)); [|done]. cbn [mbind go_bind].
  destruct (update_prop _ _ _); [|done]. cbn [mbind go_bind]. up_eq.
Qed.

Lemma handleNextValue_up i q r : line_inv i q →
  handleNextValue (up q) r = up <$> handleNextValue q r.
Proof.
  intros Hi. unfold handleNextValue. rewrite eqb_up, (consumeCurrent_up i) by done.
  case_match.
  - destruct (consumeCurrent q); [|done]. cbn [mbind go_bind fmap go_fmap]. up_eq.
  - case_match; [up_eq|]. case_match; [|up_eq]. case_match; up_eq.
Qed.

Lemma handleNextDate_up i f q r : line_inv i q →
  handleNextDate f (up q) r = up <$> handleNextDate f q r.
Proof.
  intros Hi. unfold handleNextDate. rewrite (token_up i) by done.
  case_match; [up_eq|]. case_match; [up_eq|].
  destruct (token q); [|done]. cbn [mbind go_bind]. up_eq.
Qed.

Lemma handleNextHeader_up i f q r : line_inv i q →
  handleNextHeader f (up q) r = up <$> handleNextHeader f q r.
Proof.
  intros Hi. unfold handleNextHeader. rewrite (token_up i) by done.
  case_match; [up_eq|]. case_match; [|up_eq].
  destruct (token q); [|done]. cbn [mbind go_bind]. up_eq.
Qed.

Lemma handleNextThreadBracket_up i q r : line_inv i q →
  handleNextThreadBracket (up q) r = up <$> handleNextThreadBracket q r.
Proof.
  intros Hi. unfold handleNextThreadBracket. rewrite (token_up i) by done.
  case_match; [|up_eq]. destruct (token q); [|done]. cbn [mbind go_bind]. up_eq.
Qed.

Lemma handleNextThread_up i q r : line_inv i q → named (st q) = true →
  handleNextThread (up q) r = up <$> handleNextThread q r.
Proof.
  intros Hi Hn. unfold handleNextThread. case_match; [up_eq|].
  apply (handleNextHeader_up i FThread (with_state threadNoBracketState q)). solve_inv.
Qed.

Lemma handleNextCallType_up i q r : line_inv i q → pending (st q) = false →
  handleNextCallType (up q) r = up <$> handleNextCallType q r.
Proof.
  intros Hi Hs. unfold handleNextCallType. case_match; [|up_eq].
  change (append_prop ?x (up q)) with (up (append_prop x q)).
  rewrite (consumeCurrent_up i) by (open_inv; split; cbn; auto; by rewrite Hs).
  destruct (consumeCurrent _); [|done]. cbn [mbind go_bind fmap go_fmap]. up_eq.
Qed.

Lemma verifyCallType_up i q r : line_inv i q → st q = verifyCallTypeState →
  verifyCallType (up q) r = up <$> verifyCallType q r.
Proof.
  intros Hi Hs. unfold verifyCallType. change (current (up q)) with (current q).
  case_match; [|by apply (handleNextKey_up i)].
  assert (props (current q) ≠ []) as Hp by (destruct Hi; rewrite Hs in *; auto).
  apply len_pos in Hp as Hp'. rewrite update_prop_ok by lia. cbn [mbind go_bind].
  apply (handleNextValue_up i (with_current _ q)). solve_inv.
Qed.

Lemma next_fuel_up i q r fuel :
  line_inv i q → multi_ok q r → next_fuel (S fuel) (up q) r = up <$> next_fuel (S fuel) q r.
Proof.
  intros Hi Hm. cbn [next_fuel]. change (st (up q)) with (st q).
  assert (∀ q', line_inv i q' → st q' ∈ [levelState; threadState; classState; callTypeState] →
    next_fuel fuel (up q') r = up <$> next_fuel fuel q' r) as Hdefault.
  { intros q' Hi' Hin. rewrite !elem_of_cons, elem_of_nil in Hin.
    destruct fuel; cbn [next_fuel]; change (st (up q')) with (st q');
      destruct Hin as [E|[E|[E|[E|[]]]]]; rewrite E;
      first [by apply (handleNextHeader_up i)
            |apply (handleNextThread_up i); by rewrite ?E
            |apply (handleNextCallType_up i); by rewrite ?E]. }
  pose proof (inv_named i q Hi) as Hn.
  destruct (st q) eqn:Hs; try done.
  all: try (by apply (handleNextDate_up i)).
  all: try (by apply (handleNextHeader_up i)).
  all: try (by first [apply (handleNextThreadBracket_up i)|apply (verifyCallType_up i)
                     |apply (handleNextKey_up i)|apply (handleNextValue_up i)
                     |apply (handleNextMultiKey_up i)]).
  all: try (apply (handleNextThread_up i); by rewrite ?Hs).
  all: try (apply (handleNextCallType_up i); by rewrite ?Hs).
  all: unfold handleTransition; change (st (up q)) with (st q); rewrite Hs;
    cbn [state_succ]; destruct ((r =? #x09) || (r =? #" ")); [up_eq|].
  all: match goal with |- next_fuel _ (with_state ?s _) _ = _ =>
         apply (Hdefault (with_state s q)) end; [solve_inv|].
  all: cbn; rewrite !elem_of_cons; tauto.
Qed.

Lemma next_up i q r : line_inv i q → multi_ok q r → next (up q) r = up <$> next q r.
Proof. apply next_fuel_up. Qed.

Lemma run_up rs : ∀ n q,
  line_inv n q → n + len rs <= len (raw q) → head_ok q rs →
  run (up q) rs = up <$> run q rs.
Proof.
  induction rs as [|r rs IH]; intros n q Hi Hl Hh; [done|].
  rewrite len_cons in *. pose proof (len_nonneg rs).
  unfold run in *. cbn [foldM]. rewrite (next_up n) by done.
  destruct (next_ok n q r) as (q1 & Hn & Hr & Hi1 & Hm1); [done|lia|done|].
  rewrite Hn. cbn [mbind go_bind fmap go_fmap].
  apply (IH (n + 1)); [done|rewrite Hr; lia|].
  destruct rs; [done|]. intros ? _. auto.
Qed.
End shift.

(** ** The loop of [Parse] *)

(** A rune of a line is handled by [next]; no newline occurs in a line. *)
Lemma decode_newline b s : b ≠ x0a → (decode_rune (b :: s)).1 ≠ #x0a.
Proof.
  intros Hb. unfold decode_rune. change #x0a with 10. pose proof (b2z_range b).
  destruct (Z.ltb_spec (b2z b) 128).
  - cbn. intros E. apply Hb, b2z_inj. by rewrite E.
  - unfold cont, in_range, low6, RuneError.
    destruct (b2z b =? 224) eqn:?, (b2z b =? 237) eqn:?,
      (b2z b =? 240) eqn:?, (b2z b =? 244) eqn:?; try lia;
    destruct s as [|b1 [|b2 [|b3 s]]];
      repeat match goal with
      | |- context [if ?c then _ else _] => destruct c eqn:?
      end; try done; cbn [fst]; lia.
Qed.

Lemma range_no_newline k i l :
  x0a ∉ l → Forall (λ ir : Z * rune, ir.2 ≠ #x0a) (range_from k i l).
Proof.
  revert k i. induction l as [|b l IH]; intros k i Hl; [constructor|].
  apply not_elem_of_cons in Hl as [Hb Hl]. cbn [range_from].
  destruct k as [|k]; [|by apply IH].
  pose proof (decode_newline b l ltac:(done)) as Hd.
  destruct (decode_rune (b :: l)) as [r w]. constructor; [done|by apply IH].
Qed.

Lemma parse_runes rs p logs :
  Forall (λ ir : Z * rune, ir.2 ≠ #x0a) rs →
  foldM parse_rune (p, logs) rs = p' ← run p rs.*2; Ret (p', logs).
Proof.
  intros Hrs. revert p. induction Hrs as [|[i r] rs Hr Hrs IH]; intros p; [done|].
  cbn [foldM parse_rune]. rewrite (proj2 (Z.eqb_neq r #x0a)) by done.
  unfold run. cbn [fmap list_fmap snd foldM].
  destruct (next p r) as [p'|]; [|done]. apply IH.
Qed.

(** Scanning a line that starts at offset [len pre]. *)
Lemma parse_line pre post s cur l logs :
  (pending s = true → props cur ≠ []) → named s = true → resumable s l → x0a ∉ l →
  foldM parse_rune (up pre post (resume s cur l), logs) (range_from 0 (len pre) l)
    = q ← run (resume s cur l) (runes l); Ret (up pre post q, logs).
Proof.
  intros Hp Hn Hr Hl. rewrite parse_runes by by apply range_no_newline.
  assert ((range_from 0 (len pre) l).*2 = runes l) as ->.
  { unfold runes, range. rewrite (range_from_shift 0 (len pre)), <- list_fmap_compose.
    apply list_fmap_ext. by intros _ [] _. }
  rewrite (run_up pre post (runes l) 0).
  - by destruct (run _ _).
  - by apply at_rest_inv.
  - cbn. pose proof (len_runes l). lia.
  - by apply head_ok_resumable.
Qed.

(** The end of [Parse]: the text before the current token is dropped. *)
Definition compact (acc : Parser * list Log) : go (Parser * list Log) :=
  let '(p, logs) := acc in
  rest ← slice_from (raw p) (start p);
  Ret (with_end 0 (with_start 0 (with_raw rest p)), logs).

Lemma compact_up pre q logs n :
  line_inv n q →
  compact (up pre [] q, logs) =
    r ← slice_from (raw q) (start q); Ret (resume (st q) (current q) r, logs).
Proof.
  intros []. unfold compact. cbn [start raw up]. unfold slice_from.
  rewrite len_app, app_nil_r.
  pose proof (slice_up pre [] (raw q) (start q) (len (raw q))) as Hs.
  rewrite app_nil_r in Hs. rewrite (Z.add_comm (len pre)), Hs by lia.
  destruct (slice _ _ _); done.
Qed.

Lemma parse_loop ls : ∀ pre s cur logs,
  Forall (λ l, x0a ∉ l) ls → ls ≠ [] →
  (pending s = true → props cur ≠ []) → named s = true → resumable s (hd [] ls) →
  (acc ← foldM parse_rune (up pre [] (resume s cur (Join ls x0a)), logs)
                          (range_from 0 (len pre) (Join ls x0a));
   compact acc)
  = '(new, q) ← parse_lines s cur ls; Ret (q, logs ++ new).
Proof.
  induction ls as [|l ls IH]; intros pre s cur logs Hnl Hne Hp Hn Hr; [done|].
  apply Forall_cons in Hnl as [Hl Hnl]. cbn [hd] in Hr.
  destruct (run_line_ok s cur l Hp Hn Hr) as (q & Hrun & Hraw & Hi).
  destruct ls as [|l' ls].
  - cbn [Join parse_lines]. rewrite parse_line by done. unfold line_rest. rewrite Hrun.
    cbn [mbind go_bind]. rewrite (compact_up _ _ _ _ Hi).
    destruct (slice_from _ _); cbn [mbind go_bind]; [by rewrite app_nil_r|done].
  - set (tl := Join (l' :: ls) x0a) in *.
    change (Join (l :: l' :: ls) x0a) with (l ++ x0a :: tl).
    rewrite range_app_ascii by (done || lia). rewrite foldM_app.
    change (up pre [] (resume s cur (l ++ x0a :: tl)))
      with (mkParser s (0 + len pre) (0 + len pre) (pre ++ (l ++ x0a :: tl) ++ []) cur).
    replace (pre ++ (l ++ x0a :: tl) ++ []) with (pre ++ l ++ x0a :: tl)
      by (by rewrite app_nil_r).
    change (mkParser s _ _ _ cur) with (up pre (x0a :: tl) (resume s cur l)).
    rewrite parse_line, Hrun by done. cbn [mbind go_bind foldM parse_rune].
    rewrite Z.eqb_refl, (consumeLog_up _ _ _ _ Hi).
    destruct (consumeLog_ok _ _ Hi) as (q' & Hc & Hraw').
    change (parse_lines s cur (l :: l' :: ls)) with
      (log ← line_log s cur l;
       '(logs, p) ← parse_lines dateState zeroLog (l' :: ls); Ret (log :: logs, p)).
    unfold line_log. rewrite Hrun. cbn [mbind go_bind].
    rewrite Hc. cbn [mbind go_bind fmap go_fmap].
    specialize (IH (pre ++ l ++ [x0a]) dateState zeroLog (logs ++ [current q']) Hnl
      ltac:(done) ltac:(done) ltac:(done) ltac:(done)).
    replace (len pre + len l + 1) with (len (pre ++ l ++ [x0a]))
      by (rewrite !len_app, len_cons, len_nil; lia).
    match goal with |- (foldM _ (?p, _) _ ≫= _) = _ =>
      replace p with (up (pre ++ l ++ [x0a]) [] (resume dateState zeroLog tl)) end.
    + change (logs ++ [current (with_state _ _)]) with (logs ++ [current q']).
      rewrite IH. destruct (parse_lines dateState zeroLog (l' :: ls)) as [[new q2]|]; [|done].
      cbn [mbind go_bind]. by rewrite <- app_assoc.
    + unfold up, with_current, with_state, with_end, with_start. cbn.
      rewrite Hraw', Hraw. f_equal. rewrite app_nil_r, <- !app_assoc. done.
Qed.

Lemma resumable_app s t u : t ≠ [] → resumable s t → resumable s (t ++ x0a :: u).
Proof.
  unfold resumable, runes, range. intros Ht H Hs. specialize (H Hs).
  rewrite range_app_ascii by (done || cbn; lia). rewrite fmap_app.
  destruct t as [|b t]; [done|]. cbn [range_from] in *.
  by destruct (decode_rune (b :: t)).
Qed.

(** The first line of a text can be resumed when the text can. *)
Lemma resumable_hd s text : resumable s text → resumable s (hd [] (Split text x0a)).
Proof.
  intros H Hs. specialize (H Hs). rewrite <- (Join_Split text x0a) in H.
  destruct (Split text x0a) as [|t [|t' ts]]; [done|done|]. cbn [hd].
  destruct t as [|b t]; [done|]. cbn [Join] in H.
  unfold runes, range in H. rewrite range_app_ascii in H by (done || cbn; lia).
  rewrite fmap_app in H. unfold runes, range. cbn [range_from] in *.
  by destruct (decode_rune (b :: t)).
Qed.

Lemma Parser_Parse_lines p chunk logs :
  at_rest p → resumable (st p) (raw p ++ chunk) →
  Parser_Parse p chunk logs =
    '(new, q) ← parse_lines (st p) (current p) (Split (raw p ++ chunk) x0a);
    Ret (q, logs ++ new).
Proof.
  intros [Hs He Hp Hn _] Hr.
  rewrite <- (parse_loop (Split (raw p ++ chunk) x0a) []).
  - rewrite Join_Split. unfold Parser_Parse.
    replace (up [] [] (resume (st p) (current p) (raw p ++ chunk)))
      with (with_raw (raw p ++ chunk) p)
      by (unfold up, with_raw, resume; cbn; by rewrite Hs, He, app_nil_r).
    change (range_from 0 (len []) (raw p ++ chunk)) with (range (raw p ++ chunk)).
    cbn [with_raw raw]. by destruct (foldM _ _ _) as [[]|].
  - apply Split_pieces.
  - apply Split_nonempty.
  - done.
  - done.
  - by apply resumable_hd.
Qed.

(** ** Lines and logs *)

(** The newlines of a text, and the number of its lines. *)
Definition newlines (s : gostring) : nat := length (filter (.= x0a) s).

Lemma filter_absent (b : byte) s : b ∉ s → filter (.= b) s = [].
Proof.
  induction s as [|c s IH]; [done|]. intros [? ?]%not_elem_of_cons.
  rewrite filter_cons_False; auto.
Qed.

Lemma length_Split s sep : length (Split s sep) = S (length (filter (.= sep) s)).
Proof.
  induction s as [|b s IH]; [done|]. cbn [Split].
  pose proof (Split_nonempty s sep) as Hne. destruct (Split s sep) as [|f fs]; [done|].
  rewrite filter_cons. cbn in IH. case_bool_decide; case_decide; try done; cbn; lia.
Qed.

Lemma parse_lines_ok ls : ∀ s cur,
  Forall (λ l, x0a ∉ l) ls → ls ≠ [] →
  (pending s = true → props cur ≠ []) → named s = true → resumable s (hd [] ls) →
  ∃ new q, parse_lines s cur ls = Ret (new, q) ∧ at_rest q ∧ S (length new) = length ls.
Proof.
  induction ls as [|l ls IH]; intros s cur Hnl Hne Hp Hn Hr; [done|].
  apply Forall_cons in Hnl as [Hl Hnl]. destruct ls as [|l' ls].
  - cbn. destruct (line_rest_ok s cur l) as (q & -> & Hq); [done..|]. cbn. eauto.
  - destruct (line_log_ok s cur l) as (log & Hlog); [done..|].
    destruct (IH dateState zeroLog) as (new & q & Hq & Hrest & Hlen); [done..|].
    change (parse_lines s cur (l :: l' :: ls)) with
      (log ← line_log s cur l;
       '(logs, p) ← parse_lines dateState zeroLog (l' :: ls); Ret (log :: logs, p)).
    rewrite Hlog, Hq. cbn [mbind go_bind].
    exists (log :: new), q. split_and!; [done..|]. cbn in *. lia.
Qed.

(** Appending text after a newline appends its lines. *)
Lemma Split_newline a b : Split (a ++ x0a :: b) x0a = Split a x0a ++ Split b x0a.
Proof.
  induction a as [|c a IH]; cbn [app Split].
  - pose proof (Split_nonempty b x0a). destruct (Split b x0a); [done|].
    by rewrite bool_decide_eq_true_2.
  - rewrite IH. pose proof (Split_nonempty a x0a).
    destruct (Split a x0a); [done|]. cbn. by case_bool_decide.
Qed.

Lemma parse_lines_app ls ms : ∀ s cur, ls ≠ [] → ms ≠ [] →
  parse_lines s cur (ls ++ ms) =
    '(new, _) ← parse_lines s cur (ls ++ [[]]);
    '(new', q) ← parse_lines dateState zeroLog ms; Ret (new ++ new', q).
Proof.
  induction ls as [|l ls IH]; intros s cur Hne Hms; [done|].
  destruct ls as [|l' ls].
  - destruct ms as [|m ms]; [done|]. cbn [app].
    change (parse_lines s cur (l :: m :: ms)) with
      (log ← line_log s cur l;
       '(logs, p) ← parse_lines dateState zeroLog (m :: ms); Ret (log :: logs, p)).
    change (parse_lines s cur [l; []]) with
      (log ← line_log s cur l; '(logs, p) ← Ret ([], resume dateState zeroLog []); Ret (log :: logs, p)).
    destruct (line_log s cur l); [|done]. cbn [mbind go_bind].
    by destruct (parse_lines dateState zeroLog (m :: ms)) as [[]|].
  - specialize (IH dateState zeroLog ltac:(done) Hms).
    change (parse_lines s cur ((l :: l' :: ls) ++ ms)) with
      (log ← line_log s cur l;
       '(logs, p) ← parse_lines dateState zeroLog ((l' :: ls) ++ ms); Ret (log :: logs, p)).
    change (parse_lines s cur ((l :: l' :: ls) ++ [[]])) with
      (log ← line_log s cur l;
       '(logs, p) ← parse_lines dateState zeroLog ((l' :: ls) ++ [[]]); Ret (log :: logs, p)).
    rewrite IH. destruct (line_log s cur l); [|done]. cbn [mbind go_bind].
    destruct (parse_lines dateState zeroLog ((l' :: ls) ++ [[]])) as [[]|]; [|done].
    cbn [mbind go_bind]. by destruct (parse_lines dateState zeroLog ms) as [[]|].
Qed.

Lemma parse_lines_ends_fresh ls s cur new q :
  ls ≠ [] → parse_lines s cur (ls ++ [[]]) = Ret (new, q) → q = NewParser.
Proof.
  revert s cur new. induction ls as [|l ls IH]; intros s cur new Hne H; [done|].
  destruct ls as [|l' ls].
  - cbn [app] in H. change (parse_lines s cur [l; []]) with
      (log ← line_log s cur l; '(logs, p) ← Ret ([], resume dateState zeroLog []);
       Ret (log :: logs, p)) in H.
    destruct (line_log s cur l); [|done]. cbn [mbind go_bind] in H. by inv_go.
  - change (parse_lines s cur ((l :: l' :: ls) ++ [[]])) with
      (log ← line_log s cur l;
       '(logs, p) ← parse_lines dateState zeroLog ((l' :: ls) ++ [[]]); Ret (log :: logs, p)) in H.
    destruct (line_log s cur l); [|done]. cbn [mbind go_bind] in H.
    destruct (parse_lines dateState zeroLog ((l' :: ls) ++ [[]])) as [[ls1 q1]|] eqn:E; [|done].
    cbn [mbind go_bind] in H. inv_go. by eapply IH.
Qed.

Lemma resumable_prefix s t u : t ≠ [] → resumable s (t ++ x0a :: u) → resumable s (t ++ [x0a]).
Proof.
  intros Ht H Hs. specialize (H Hs). unfold runes, range in *.
  rewrite range_app_ascii, fmap_app in * by (done || cbn; lia).
  destruct t as [|b t]; [done|]. cbn [range_from] in *. by destruct (decode_rune (b :: t)).
Qed.

(** After a newline the parser is as good as new. *)
Lemma parse_lines_newline p a :
  at_rest p → resumable (st p) (raw p ++ a ++ [x0a]) →
  ∃ new, parse_lines (st p) (current p) (Split (raw p ++ a) x0a ++ [[]]) = Ret (new, NewParser).
Proof.
  intros Hp Hr.
  destruct (parse_lines_ok (Split (raw p ++ a ++ [x0a]) x0a) (st p) (current p))
    as (new & q & Hq & _ & _); [apply Split_pieces|apply Split_nonempty|apply Hp..|
    by apply resumable_hd|].
  rewrite app_assoc, Split_newline in Hq.
  change (Split [] x0a) with [[] : gostring] in Hq. exists new. rewrite Hq.
  f_equal. f_equal. eapply parse_lines_ends_fresh; [apply Split_nonempty|exact Hq].
Qed.

Lemma Parser_Parse_newline p a logs :
  at_rest p → resumable (st p) (raw p ++ a ++ [x0a]) →
  ∃ new, Parser_Parse p (a ++ [x0a]) logs = Ret (NewParser, logs ++ new).
Proof.
  intros Hp Hr. destruct (parse_lines_newline p a Hp Hr) as [new Hnew]. exists new.
  rewrite Parser_Parse_lines, app_assoc, Split_newline by done.
  change (Split [] x0a) with [[] : gostring]. by rewrite Hnew.
Qed.

(** ** Sequences of chunks *)

(** A reader's view: one [Parse] call per chunk, collecting the logs. *)
Definition parse_chunks (p : Parser) (chunks : list gostring) (logs : list Log) :
    go (Parser * list Log) :=
  foldM (λ '(p, logs) chunk, Parser_Parse p chunk logs) (p, logs) chunks.

Example parse_in_chunks :
  parse_chunks NewParser
    [take 50 (Tests.log1 ++ Tests.log3); take 90 (drop 50 (Tests.log1 ++ Tests.log3)); drop 140 (Tests.log1 ++ Tests.log3)] []
  = Ret (NewParser, [Tests.expected1; Tests.expected3]).
Proof. vm_compute. reflexivity. Qed.

(** ** Properties *)

(** C15: [Parse] reads its buffered text line by line: for arbitrary bytes, it
    returns the logs of the complete lines, the first line continuing the state
    of the previous chunk and every other one starting afresh, and keeps the
    parser of the incomplete last line. *)
Theorem parse_line_by_line (p : Parser) (chunk : gostring) (logs : list Log)
    (Hp : at_rest p) (Hr : resumable (st p) (raw p ++ chunk)) :
  Parser_Parse p chunk logs =
    '(new, q) ← parse_lines (st p) (current p) (Split (raw p ++ chunk) x0a);
    Ret (q, logs ++ new).
Proof. by apply Parser_Parse_lines. Qed.

Lemma parse_line_by_line_witness :
  Parser_Parse NewParser (Tests.log1 ++ Tests.log3 ++ str "2017") [] =
    Ret (resume dateState zeroLog (str "2017"), [Tests.expected1; Tests.expected3]).
Proof.
  rewrite parse_line_by_line.
  - vm_compute. reflexivity.
  - apply at_rest_new.
  - intros H. discriminate H.
Defined.

(** A call of [Parse] on a parser at rest. *)
Lemma Parser_Parse_ok (p : Parser) (chunk : gostring) (logs : list Log)
    (Hp : at_rest p) (Hr : resumable (st p) (raw p ++ chunk)) :
  ∃ q new, Parser_Parse p chunk logs = Ret (q, logs ++ new) ∧ at_rest q ∧
           length new = newlines chunk.
Proof.
  rewrite Parser_Parse_lines by done. destruct Hp as [_ _ Hp Hn Hraw].
  destruct (parse_lines_ok (Split (raw p ++ chunk) x0a) (st p) (current p))
    as (new & q & -> & Hq & Hlen);
    [apply Split_pieces|apply Split_nonempty|done|done|by apply resumable_hd|].
  exists q, new. split_and!; [done|done|].
  rewrite length_Split, filter_app, length_app in Hlen.
  rewrite filter_absent in Hlen by done. unfold newlines. cbn in Hlen. lia.
Qed.

Lemma Parse_ok text : ∃ logs, Parse text = Ret logs ∧ length logs = newlines text.
Proof.
  unfold Parse. rewrite Parser_Parse_lines by (done || apply at_rest_new).
  destruct (parse_lines_ok (Split text x0a) dateState zeroLog)
    as (new & q & Hnew & _ & Hlen); [apply Split_pieces|apply Split_nonempty|done..|].
  change (raw NewParser ++ text) with text. change (st NewParser) with dateState.
  change (current NewParser) with zeroLog.
  exists new. rewrite Hnew. split; [done|].
  rewrite length_Split in Hlen. unfold newlines. lia.
Qed.

(** C16: Scanning never panics between calls in which a multi-word key is not being
    resumed on a space: slices and indices stay in range for arbitrary bytes, one
    log is appended per newline of the chunk, and the parser is at rest again. *)
Theorem parse_safe (p : Parser) (chunk : gostring) (logs : list Log)
    (Hp : at_rest p) (Hr : resumable (st p) (raw p ++ chunk)) :
  ∃ q new, Parser_Parse p chunk logs = Ret (q, logs ++ new) ∧ at_rest q ∧
           length new = newlines chunk.
Proof. by apply Parser_Parse_ok. Qed.

Lemma parse_safe_witness :
  ∃ q new, Parser_Parse NewParser (Tests.log1 ++ Tests.log3) [] = Ret (q, [] ++ new) ∧
           at_rest q ∧ length new = 2%nat.
Proof.
  destruct (parse_safe NewParser (Tests.log1 ++ Tests.log3) []) as (q & new & HP & Hq & Hl).
  - apply at_rest_new.
  - intros H. discriminate H.
  - exists q, new. split; [exact HP|split; [exact Hq|exact Hl]].
Defined.

(** C17: [Parse] on a whole text is total: it never panics, and returns exactly one
    log per newline. *)
Theorem parse_total (text : gostring) :
  ∃ logs, Parse text = Ret logs ∧ length logs = newlines text.
Proof. apply Parse_ok. Qed.

(** A chunk boundary right after a newline is invisible: parsing a text in one
    call or in two calls split there gives the same logs and the same parser, and
    in between the parser is as good as new. *)
Theorem parse_split_at_newline (p : Parser) (a b : gostring) (logs : list Log)
    (Hp : at_rest p) (Hr : resumable (st p) (raw p ++ a ++ [x0a])) :
  Parser_Parse p (a ++ x0a :: b) logs =
    ('(q, logs') ← Parser_Parse p (a ++ [x0a]) logs; Parser_Parse q b logs') ∧
  ∃ logs', Parser_Parse p (a ++ [x0a]) logs = Ret (NewParser, logs').
Proof.
  assert (resumable (st p) (raw p ++ a ++ x0a :: b)) as Hr'.
  { intros Hs. specialize (Hr Hs). rewrite app_assoc in *. unfold runes, range in *.
    rewrite range_app_ascii, fmap_app in * by (done || lia).
    destruct (range_from 0 0 (raw p ++ a)); done. }
  destruct (parse_lines_newline p a Hp Hr) as [new Hnew].
  rewrite !Parser_Parse_lines by done. rewrite !app_assoc, !Split_newline.
  change (Split [] x0a) with [[] : gostring]. rewrite Hnew. cbn [mbind go_bind].
  split; [|eauto].
  rewrite Parser_Parse_lines by (done || apply at_rest_new).
  rewrite parse_lines_app, Hnew by apply Split_nonempty. cbn [mbind go_bind].
  change (raw NewParser ++ b) with b. change (st NewParser) with dateState.
  change (current NewParser) with zeroLog.
  destruct (parse_lines dateState zeroLog (Split b x0a)) as [[]|]; [|done].
  cbn [mbind go_bind]. by rewrite app_assoc.
Qed.

Lemma parse_split_at_newline_witness :
  Parser_Parse NewParser (str "2017 14:54" ++ x0a :: Tests.log1) [] =
    ('(q, logs') ← Parser_Parse NewParser (str "2017 14:54" ++ [x0a]) [];
     Parser_Parse q Tests.log1 logs').
Proof.
  refine (proj1 (parse_split_at_newline NewParser (str "2017 14:54") Tests.log1 [] _ _)).
  - apply at_rest_new.
  - intros H. discriminate H.
Defined.
