(* ===== verification/TokenMachine.v ===== *)
(** * The parser as a token machine

    An abstract specification of the parser for clean ASCII text: a machine that
    reads one byte at a time and holds the state, the text of the current token
    and the log being built - no buffer and no offsets.  [Parser_Parse]
    implements it (a forward simulation), whatever the boundaries of the chunks.

    Text is clean when the machine is defined on it.  It is not defined where
    the parser's offsets lose the token: on a space inside a key, on a bracket
    inside a header field, on a value that starts with a colon, and on bytes that
    are not ASCII. *)

From S2P Require Import Prelude GoString Log Parser ParseLines.

(** ** The machine *)

Record tokstate : Type := mkTok {
  t_state : state;
  t_tok : gostring;
  t_log : Log
}.

Definition fresh : tokstate := mkTok dateState [] zeroLog.

(** [log.props[len(log.props)-1]], when there is one. *)
Definition set_last (f : Property → Property) (l : Log) : Log :=
  set_props (alter f (pred (length (props l))) (props l)) l.

Definition add_prop (pr : Property) (l : Log) : Log := set_props (props l ++ [pr]) l.

(** The token with one more byte. *)
Definition extend (s : state) (a : tokstate) (b : byte) : tokstate :=
  mkTok s (t_tok a ++ [b]) (t_log a).

Definition is_empty (s : gostring) : bool := bool_decide (s = []).

(** A header field ends at a separator. *)
Definition t_field (ends : byte → bool) (f : header_field) (s s' : state)
    (a : tokstate) (b : byte) : option tokstate :=
  if bool_decide (b = "["%byte) then
    if is_empty (t_tok a) then Some (mkTok s [] (t_log a)) else None
  else if ends b then Some (mkTok s' [] (set_field f (t_tok a) (t_log a)))
  else Some (extend s a b).

Definition date_ends (b : byte) : bool := negb (is_date_rune (b2z b)).
Definition header_ends (b : byte) : bool := bool_decide (b ∈ [x09; " "%byte; "]"%byte]).

Definition t_threadBracket (a : tokstate) (b : byte) : option tokstate :=
  if bool_decide (b ∈ ["]"%byte; x09])
  then Some (mkTok transitionClassState [] (set_Thread (t_tok a) (t_log a)))
  else Some (extend threadBracketState a b).

Definition t_thread (a : tokstate) (b : byte) : option tokstate :=
  if bool_decide (b = "["%byte) then
    if is_empty (t_tok a) then Some (mkTok threadBracketState [] (t_log a)) else None
  else t_field header_ends FThread threadNoBracketState transitionClassState a b.

Definition t_callType (a : tokstate) (b : byte) : option tokstate :=
  if bool_decide (b = ":"%byte)
  then Some (mkTok verifyCallTypeState [] (add_prop (mkProperty (str "callType") (t_tok a)) (t_log a)))
  else Some (extend callTypeState a b).

Definition t_key (s : state) (a : tokstate) (b : byte) : option tokstate :=
  if bool_decide (b = " "%byte) then if is_empty (t_tok a) then Some a else None
  else if bool_decide (b = ":"%byte)
  then Some (mkTok valueState [] (add_prop (mkProperty (t_tok a) []) (t_log a)))
  else Some (extend s a b).

Definition t_value (a : tokstate) (b : byte) : option tokstate :=
  if bool_decide (b = ","%byte)
  then Some (mkTok keyState [] (set_last (set_value (t_tok a)) (t_log a)))
  else if bool_decide (b = ":"%byte) then
    if is_empty (t_tok a) then None else Some (extend multiKeyState a b)
  else if bool_decide (b = " "%byte) && is_empty (t_tok a) then Some a
  else Some (extend valueState a b).

(** A colon and a space inside a value: the value so far was a second key. *)
Definition t_multiKey (a : tokstate) (b : byte) : option tokstate :=
  if bool_decide (b = " "%byte) then
    if is_empty (t_tok a) || bool_decide (props (t_log a) = []) then None
    else Some (mkTok valueState []
                (set_last (λ _, mkProperty (removelast (t_tok a)) []) (t_log a)))
  else Some (extend valueState a b).

(** A comma in the first value: what was taken for a call type is a key. *)
Definition t_verify (a : tokstate) (b : byte) : option tokstate :=
  if bool_decide (b = ","%byte) then
    match props (t_log a) with
    | [] => None
    | pr :: ps =>
      Some (mkTok keyState []
        (set_last (set_value (t_tok a))
           (set_props (mkProperty (value pr) (value pr) :: ps) (t_log a))))
    end
  else t_key verifyCallTypeState a b.

(** White space between header fields. *)
Definition t_transition (k : tokstate → byte → option tokstate) (a : tokstate) (b : byte) :
    option tokstate :=
  if is_empty (t_tok a)
  then if bool_decide (b ∈ [x09; " "%byte]) then Some a else k a b
  else None.

Definition tstep (a : tokstate) (b : byte) : option tokstate :=
  match t_state a with
  | dateState => t_field date_ends FDate dateState timeState a b
  | timeState => t_field date_ends FTime timeState transitionLevelState a b
  | transitionLevelState =>
      t_transition (t_field header_ends FLevel levelState transitionThreadState) a b
  | levelState => t_field header_ends FLevel levelState transitionThreadState a b
  | transitionThreadState => t_transition t_thread a b
  | threadState => t_thread a b
  | threadBracketState => t_threadBracket a b
  | threadNoBracketState =>
      t_field header_ends FThread threadNoBracketState transitionClassState a b
  | transitionClassState =>
      t_transition (t_field header_ends FClass classState transitionCallTypeState) a b
  | classState => t_field header_ends FClass classState transitionCallTypeState a b
  | transitionCallTypeState => t_transition t_callType a b
  | callTypeState => t_callType a b
  | verifyCallTypeState => t_verify a b
  | keyState => t_key keyState a b
  | multiKeyState => t_multiKey a b
  | valueState => t_value a b
  | errorState | unnamedState _ => None
  end.

(** The log at the end of a line: the token is the value of the last property if
    that has none yet, and the message otherwise. *)
Definition tfinish (a : tokstate) : Log :=
  match last (props (t_log a)) with
  | None => set_Message (t_tok a) (t_log a)
  | Some pr => if nonempty (value pr) then set_Message (t_tok a) (t_log a)
               else set_last (set_value (t_tok a)) (t_log a)
  end.

Definition tbyte (acc : tokstate * list Log) (b : byte) : option (tokstate * list Log) :=
  let '(a, logs) := acc in
  if bool_decide (b = x0a) then Some (fresh, logs ++ [tfinish a])
  else if ascii b then a' ← tstep a b; Some (a', logs)
  else None.

(** Reading a text; [None] when it is not clean. *)
Fixpoint tscan (acc : tokstate * list Log) (s : gostring) : option (tokstate * list Log) :=
  match s with
  | [] => Some acc
  | b :: s' => acc' ← tbyte acc b; tscan acc' s'
  end.

(** Reading part of a line. *)
Fixpoint trun (a : tokstate) (s : gostring) : option tokstate :=
  match s with
  | [] => Some a
  | b :: s' => if ascii b && negb (bool_decide (b = x0a))
               then a' ← tstep a b; trun a' s' else None
  end.

Lemma tscan_ascii s : ∀ acc acc', tscan acc s = Some acc' → is_ascii s.
Proof.
  induction s as [|b s IH]; intros [a logs] acc'; cbn [tscan tbyte]; [constructor|].
  case_bool_decide as Hb; cbn; [intros ?%IH; constructor; by subst|].
  destruct (ascii b) eqn:Ha; cbn; [|done]. destruct (tstep a b); cbn; [|done].
  intros ?%IH. by constructor.
Qed.

Lemma tscan_app acc s t : tscan acc (s ++ t) = acc' ← tscan acc s; tscan acc' t.
Proof.
  revert acc. induction s as [|b s IH]; intros acc; [done|]. cbn.
  destruct (tbyte acc b); [apply IH|done].
Qed.

Lemma trun_app a s t : trun a (s ++ t) = a' ← trun a s; trun a' t.
Proof.
  revert a. induction s as [|b s IH]; intros a; [done|]. cbn.
  destruct (_ && _); [|done]. destruct (tstep a b); [apply IH|done].
Qed.

Lemma trun_tscan a s a' logs : trun a s = Some a' → tscan (a, logs) s = Some (a', logs).
Proof.
  revert a. induction s as [|b s IH]; intros a; cbn; [congruence|].
  destruct (ascii b), (bool_decide (b = x0a)); cbn; try done.
  destruct (tstep a b); [apply IH|done].
Qed.

Lemma trun_ascii a s a' : trun a s = Some a' → is_ascii s.
Proof.
  revert a. induction s as [|b s IH]; intros a; cbn; [constructor|].
  destruct (ascii b) eqn:E; cbn; [|done]. destruct (bool_decide (b = x0a)); cbn; [done|].
  destruct (tstep a b); cbn; [|done]. constructor; [done|]. by eapply IH.
Qed.

(** ** The concrete parser behind a machine state *)

(** The parser that has read [pre] and the current token, with [rest] to come. *)
Definition conc (pre : gostring) (a : tokstate) (rest : gostring) : Parser :=
  mkParser (t_state a) (len pre) (len pre + len (t_tok a)) (pre ++ t_tok a ++ rest) (t_log a).

(** What a handler does to [conc pre a (b :: rest)] when the machine moves to [a']:
    the text read grows by one byte. *)
Definition sim (pre : gostring) (a : tokstate) (b : byte) (rest : gostring)
    (a' : tokstate) (m : go Parser) : Prop :=
  ∃ pre', pre' ++ t_tok a' = pre ++ t_tok a ++ [b] ∧ m = Ret (conc pre' a' rest).

Lemma token_conc pre a rest : token (conc pre a rest) = Ret (t_tok a).
Proof. unfold token. cbn. apply slice_mid. Qed.

Lemma b2z_eqb_c b (c : byte) : (b2z b =? b2z c) = bool_decide (b = c).
Proof. apply b2z_eqb. Qed.

(** The two ways a token changes: it grows by the byte read, or it ends there. *)
Lemma conc_extend pre a b rest s :
  mkParser s (len pre) (len pre + len (t_tok a) + 1) (pre ++ t_tok a ++ b :: rest) (t_log a)
    = conc pre (extend s a b) rest.
Proof.
  unfold conc, extend. cbn [t_state t_tok t_log]. f_equal.
  - rewrite len_app, len_cons, len_nil. lia.
  - by rewrite <- (app_assoc (t_tok a)).
Qed.

Lemma conc_end pre a b rest s l i j :
  i = len pre + len (t_tok a) + 1 → j = i →
  mkParser s i j (pre ++ t_tok a ++ b :: rest) l
    = conc (pre ++ t_tok a ++ [b]) (mkTok s [] l) rest.
Proof.
  intros -> ->. unfold conc. cbn [t_state t_tok t_log].
  rewrite len_nil, !len_app, len_cons, len_nil. f_equal; [lia|lia|].
  by rewrite <- !app_assoc.
Qed.

Ltac sim_extend :=
  match goal with |- sim ?pre _ _ _ _ _ => exists pre end;
  split; [done|]; rewrite <- conc_extend; reflexivity.
Ltac sim_end :=
  match goal with |- sim ?pre ?a ?b _ _ _ => exists (pre ++ t_tok a ++ [b]) end;
  split; [by rewrite app_nil_r|];
  rewrite <- (conc_end _ _ _ _ _ _ _ _ eq_refl eq_refl); reflexivity.

Lemma is_empty_true s : is_empty s = true → s = [].
Proof. by intros ?%bool_decide_eq_true. Qed.

(** [p.start++] and [p.end++] on an empty token. *)
Lemma incr_both_conc pre s l b rest :
  incr_end (incr_start (conc pre (mkTok s [] l) (b :: rest)))
    = conc (pre ++ [b]) (mkTok s [] l) rest.
Proof.
  unfold conc, incr_end, incr_start, with_end, with_start. cbn.
  rewrite len_app, len_cons, len_nil. f_equal; [lia|]. by rewrite <- app_assoc.
Qed.

(** The empty-token test of the handlers. *)
Lemma eqb_conc pre a rest :
  (start (conc pre a rest) =? end_ (conc pre a rest)) = is_empty (t_tok a).
Proof.
  cbn. unfold is_empty. case_bool_decide as E; [rewrite E, len_nil|]; [lia|].
  apply Z.eqb_neq. intros H. apply E, len_zero_inv. lia.
Qed.

Lemma conc_eta pre a rest : t_tok a = [] → conc pre a rest = conc pre (mkTok (t_state a) [] (t_log a)) rest.
Proof. intros H. unfold conc. by rewrite H. Qed.

Lemma sim_skip pre a b rest s :
  t_tok a = [] → t_state a = s →
  sim pre a b rest (mkTok s [] (t_log a))
    (Ret (incr_end (incr_start (conc pre a (b :: rest))))).
Proof.
  intros Ht <-. exists (pre ++ [b]). split; [cbn; by rewrite Ht, app_nil_r|].
  by rewrite conc_eta, incr_both_conc by done.
Qed.

Lemma set_last_update l f :
  props l ≠ [] → update_prop (len (props l) - 1) f l = Ret (set_last f l).
Proof.
  intros Hp. apply len_pos in Hp as Hl. rewrite update_prop_ok by lia.
  unfold set_last, len. do 4 f_equal. lia.
Qed.

Lemma set_last_nil l f : props l = [] → set_last f l = l.
Proof. intros Hp. unfold set_last. rewrite Hp. cbn. destruct l. by cbn in Hp; subst. Qed.

Lemma consumeCurrent_conc pre a rest :
  consumeCurrent (conc pre a rest)
    = Ret (with_current (set_last (set_value (t_tok a)) (t_log a)) (conc pre a rest)).
Proof.
  unfold consumeCurrent. change (current (conc pre a rest)) with (t_log a).
  destruct (decide (props (t_log a) = [])) as [E|E].
  - rewrite E, set_last_nil by done. reflexivity.
  - apply len_pos in E as Hl. decide_Z. rewrite token_conc. cbn [mbind go_bind].
    by rewrite set_last_update.
Qed.

(** ** Simulation of the handlers *)

Section handlers.
Context (pre : gostring) (a : tokstate) (b : byte) (rest : gostring).
Local Abbreviation p := (conc pre a (b :: rest)).

Lemma sim_date f s' a' :
  t_field date_ends f (t_state a) s' a b = Some a' → state_succ (t_state a) = s' →
  sim pre a b rest a' (handleNextDate f p (b2z b)).
Proof.
  unfold t_field, handleNextDate. rewrite b2z_eqb_c, token_conc. unfold date_ends.
  case_bool_decide.
  - destruct (is_empty (t_tok a)) eqn:E; [|done]. intros [= <-] _.
    by apply sim_skip; [apply is_empty_true|].
  - destruct (is_date_rune (b2z b)); cbn [negb].
    + intros [= <-] _. sim_extend.
    + intros [= <-] <-. sim_end.
Qed.

Lemma header_ends_spec :
  header_ends b = (b2z b =? #x09) || (b2z b =? #" ") || (b2z b =? #"]").
Proof.
  unfold header_ends. rewrite !b2z_eqb_c. rewrite <- !bool_decide_or.
  apply bool_decide_ext. rewrite !elem_of_cons, elem_of_nil. tauto.
Qed.

Lemma sim_header f s s' a' m :
  t_field header_ends f s s' a b = Some a' → state_succ s = s' →
  m = handleNextHeader f (with_state s p) (b2z b) →
  sim pre a b rest a' m.
Proof.
  unfold t_field. intros Ht Hs ->. revert Ht Hs.
  change (with_state s p) with (conc pre (mkTok s (t_tok a) (t_log a)) (b :: rest)).
  unfold handleNextHeader. rewrite b2z_eqb_c, token_conc, header_ends_spec.
  case_bool_decide.
  - destruct (is_empty (t_tok a)) eqn:E; [|done]. intros [= <-] _.
    apply is_empty_true in E. rewrite E.
    destruct (sim_skip pre (mkTok s [] (t_log a)) b rest s) as (pre' & H1 & H2); [done..|].
    exists pre'. by rewrite E.
  - destruct ((b2z b =? #x09) || (b2z b =? #" ") || (b2z b =? #"]")).
    + intros [= <-] <-. sim_end.
    + intros [= <-] _. sim_extend.
Qed.

Lemma sim_threadBracket a' :
  t_threadBracket a b = Some a' → t_state a = threadBracketState →
  sim pre a b rest a' (handleNextThreadBracket p (b2z b)).
Proof.
  unfold t_threadBracket, handleNextThreadBracket. intros Ht Hs. revert Ht.
  rewrite !b2z_eqb_c, token_conc, <- bool_decide_or.
  rewrite (bool_decide_ext (b ∈ _) (b = "]"%byte ∨ b = x09))
    by (rewrite !elem_of_cons, elem_of_nil; tauto).
  case_bool_decide; intros [= <-]; [sim_end|]. rewrite <- Hs. sim_extend.
Qed.

Lemma sim_thread a' m :
  t_thread a b = Some a' → m = handleNextThread (with_state threadState p) (b2z b) →
  sim pre a b rest a' m.
Proof.
  unfold t_thread, handleNextThread. rewrite b2z_eqb_c. intros Ht ->. revert Ht.
  case_bool_decide.
  - destruct (is_empty (t_tok a)) eqn:E; [|done]. intros [= <-].
    apply is_empty_true in E.
    exists (pre ++ [b]). split; [by rewrite E, app_nil_r|]. rewrite conc_eta by done.
    exact (f_equal Ret (incr_both_conc pre threadBracketState (t_log a) b rest)).
  - intros Ht. by eapply sim_header.
Qed.

Lemma sim_callType a' m :
  t_callType a b = Some a' → m = handleNextCallType (with_state callTypeState p) (b2z b) →
  sim pre a b rest a' m.
Proof.
  unfold t_callType, handleNextCallType. rewrite b2z_eqb_c. intros Ht ->. revert Ht.
  case_bool_decide; intros [= <-]; [|sim_extend].
  change (append_prop (mkProperty (str "callType") []) (with_state callTypeState p)) with
    (conc pre (mkTok callTypeState (t_tok a)
       (add_prop (mkProperty (str "callType") []) (t_log a))) (b :: rest)).
  rewrite consumeCurrent_conc. cbn [mbind go_bind].
  assert (set_last (set_value (t_tok a)) (add_prop (mkProperty (str "callType") []) (t_log a))
    = add_prop (mkProperty (str "callType") (t_tok a)) (t_log a)) as Hset.
  { unfold set_last, add_prop. cbn [props set_props]. rewrite length_app. cbn [length].
    rewrite Nat.add_comm. cbn [pred Nat.add]. by rewrite alter_mid. }
  cbn [t_tok t_log]. rewrite Hset. sim_end.
Qed.

Lemma sim_key a' :
  t_key (t_state a) a b = Some a' →
  sim pre a b rest a' (handleNextKey p (b2z b)).
Proof.
  unfold t_key, handleNextKey. rewrite !b2z_eqb_c, token_conc, eqb_conc.
  case_bool_decide.
  - destruct (is_empty (t_tok a)) eqn:E; [|done]. intros [= <-].
    apply is_empty_true in E. destruct (sim_skip pre a b rest (t_state a))
      as (pre' & H1 & H2); [done..|].
    exists pre'. split; [by rewrite E in *|]. rewrite H2. f_equal.
    symmetry. by apply conc_eta.
  - case_bool_decide; intros [= <-]; [sim_end|sim_extend].
Qed.

Lemma sim_value a' :
  t_value a b = Some a' → t_state a = valueState →
  sim pre a b rest a' (handleNextValue p (b2z b)).
Proof.
  unfold t_value, handleNextValue. rewrite !b2z_eqb_c, consumeCurrent_conc, eqb_conc.
  intros Ht Hs. revert Ht. case_bool_decide.
  - intros [= <-]. cbn [mbind go_bind]. sim_end.
  - case_bool_decide.
    + destruct (is_empty (t_tok a)); [done|]. intros [= <-]. sim_extend.
    + case_bool_decide; cbn [andb].
      * destruct (is_empty (t_tok a)) eqn:E; intros [= <-].
        { apply is_empty_true in E. destruct (sim_skip pre a b rest (t_state a))
            as (pre' & Hpre & Hret); [done..|].
          exists pre'. split; [by rewrite E in *|]. rewrite Hret. f_equal.
          symmetry. by apply conc_eta. }
        { rewrite <- Hs. sim_extend. }
      * intros [= <-]. rewrite <- Hs. sim_extend.
Qed.

Lemma sim_verify a' :
  t_verify a b = Some a' → t_state a = verifyCallTypeState →
  sim pre a b rest a' (verifyCallType p (b2z b)).
Proof.
  unfold t_verify, verifyCallType. rewrite b2z_eqb_c. intros Ht Hs. revert Ht.
  case_bool_decide; [|rewrite <- Hs; apply sim_key].
  change (current p) with (t_log a).
  destruct (props (t_log a)) as [|pr ps] eqn:E; [done|]. intros [= <-].
  unfold update_prop. rewrite E, len_cons. pose proof (len_nonneg ps). decide_Z.
  cbn [mbind go_bind alter list_alter]. change (Z.to_nat 0) with 0%nat. cbn [alter list_alter].
  change (with_current ?l p) with (conc pre (mkTok (t_state a) (t_tok a) l) (b :: rest)).
  unfold handleNextValue. rewrite !b2z_eqb_c, consumeCurrent_conc.
  rewrite bool_decide_eq_true_2 by done. cbn [mbind go_bind]. sim_end.
Qed.
End handlers.

Lemma sim_multiKey pre a b rest a' :
  t_multiKey a b = Some a' → t_state a = multiKeyState →
  sim pre a b rest a' (handleNextMultiKey (conc pre a (b :: rest)) (b2z b)).
Proof.
  unfold t_multiKey, handleNextMultiKey. rewrite b2z_eqb_c. intros Ht Hs. revert Ht.
  case_bool_decide.
  - destruct (is_empty (t_tok a)) eqn:E; [done|]. cbn [orb].
    case_bool_decide as Hp; [done|]. intros [= <-].
    assert (slice (raw (conc pre a (b :: rest))) (len pre) (len pre + len (t_tok a) - 1)
            = Ret (removelast (t_tok a))) as Hslice.
    { unfold is_empty in E. apply bool_decide_eq_false in E.
      apply exists_last in E as (tok & x & Htok). cbn [conc raw]. rewrite Htok, removelast_last.
      replace (len pre + len (tok ++ [x]) - 1) with (len pre + len tok)
        by (rewrite len_app, len_cons, len_nil; lia).
      rewrite <- (app_assoc tok). apply slice_mid. }
    change (start (conc pre a (b :: rest))) with (len pre).
    change (end_ (conc pre a (b :: rest))) with (len pre + len (t_tok a)).
    change (current (conc pre a (b :: rest))) with (t_log a).
    rewrite Hslice. cbn [mbind go_bind].
    rewrite set_last_update by done. cbn [mbind go_bind]. sim_end.
  - intros [= <-]. sim_extend.
Qed.

(** White space is skipped, anything else is handled in the following state. *)
Lemma transition_sim k pre a b rest a' :
  t_transition k a b = Some a' →
  let p := conc pre a (b :: rest) in
  (handleTransition p (b2z b) = (incr_end (incr_start p), false) ∧
   sim pre a b rest a' (Ret (incr_end (incr_start p)))) ∨
  (handleTransition p (b2z b) = (with_state (state_succ (st p)) p, true) ∧
   k a b = Some a').
Proof.
  unfold t_transition, handleTransition. rewrite !b2z_eqb_c, <- bool_decide_or.
  rewrite (bool_decide_ext (b ∈ _) (b = x09 ∨ b = " "%byte))
    by (rewrite !elem_of_cons, elem_of_nil; tauto).
  destruct (is_empty (t_tok a)) eqn:E; [|done]. apply is_empty_true in E.
  case_bool_decide; [|by right]. intros [= <-]. left. split; [done|].
  destruct (sim_skip pre a b rest (t_state a)) as (pre' & Hpre & Hret); [done..|].
  exists pre'. split; [by rewrite E in *|]. rewrite Hret. f_equal.
  symmetry. by apply conc_eta.
Qed.

(** One byte: [next] implements [tstep]. *)
Lemma next_sim pre a b rest a' :
  tstep a b = Some a' → sim pre a b rest a' (next (conc pre a (b :: rest)) (b2z b)).
Proof.
  unfold tstep, next. change 256%nat with (S 255). generalize 255%nat. intros fuel Ht.
  cbn [next_fuel]. change (st (conc pre a (b :: rest))) with (t_state a).
  destruct (t_state a) eqn:Hs; try done;
    try (destruct (transition_sim _ pre _ _ rest _ Ht) as [[HT Hsim]|[HT Hk]];
         rewrite HT; [exact Hsim|];
         change (st (conc pre a (b :: rest))) with (t_state a); rewrite Hs;
         cbn [state_succ];
         destruct fuel; cbn [next_fuel];
         change (st (with_state ?s ?p)) with s; cbn iota;
         first [by eapply sim_header|by eapply sim_thread|by eapply sim_callType]).
  - rewrite <- Hs in Ht. eapply sim_date; [exact Ht|by rewrite Hs].
  - rewrite <- Hs in Ht. eapply sim_date; [exact Ht|by rewrite Hs].
  - eapply sim_header; [exact Ht|done|]. unfold conc, with_state. by rewrite Hs.
  - eapply sim_thread; [exact Ht|]. unfold conc, with_state. by rewrite Hs.
  - by apply sim_threadBracket.
  - eapply sim_header; [exact Ht|done|]. unfold conc, with_state. by rewrite Hs.
  - eapply sim_header; [exact Ht|done|]. unfold conc, with_state. by rewrite Hs.
  - eapply sim_callType; [exact Ht|]. unfold conc, with_state. by rewrite Hs.
  - by apply sim_verify.
  - rewrite <- Hs in Ht. by apply sim_key.
  - by apply sim_multiKey.
  - by apply sim_value.
Qed.

(** ** Simulation of the loop *)

Lemma consumeLog_conc pre a rest :
  consumeLog (conc pre a rest) = Ret (with_current (tfinish a) (conc pre a rest)).
Proof.
  unfold consumeLog, tfinish. change (current (conc pre a rest)) with (t_log a).
  rewrite token_conc. destruct (decide (props (t_log a) = [])) as [E|E].
  { by rewrite E. }
  apply len_pos in E as Hl. decide_Z.
  replace (Z.to_nat (len (props (t_log a)) - 1)) with (pred (length (props (t_log a))))
    by (unfold len in *; lia).
  rewrite <- last_lookup. destruct (last (props (t_log a))) as [pr|] eqn:Hlast.
  - destruct (nonempty (value pr)); [done|]. cbn [mbind go_bind].
    by rewrite set_last_update.
  - by apply last_None in Hlast.
Qed.

Lemma range_cons_ascii i b s :
  ascii b = true → range_from 0 i (b :: s) = (i, b2z b) :: range_from 0 (i + 1) s.
Proof. intros Hb. cbn [range_from]. by rewrite decode_ascii. Qed.

Lemma range_prefix i pre rest : is_ascii pre →
  range_from 0 i (pre ++ rest) = range_from 0 i pre ++ range_from 0 (i + len pre) rest.
Proof.
  intros Hpre. revert i. induction Hpre as [|b pre Hb _ IH]; intros i.
  { by rewrite len_nil, Z.add_0_r. }
  cbn [app]. rewrite !range_cons_ascii by done. cbn [app]. rewrite IH, len_cons.
  by rewrite Z.add_assoc.
Qed.

(** The loop of [Parse] implements [tscan]. *)
Lemma scan_sim s : ∀ pre a rest logs a' logs',
  tscan (a, logs) s = Some (a', logs') →
  ∃ pre', pre' ++ t_tok a' = pre ++ t_tok a ++ s ∧
    foldM parse_rune (conc pre a (s ++ rest), logs)
      (range_from 0 (len pre + len (t_tok a)) s) = Ret (conc pre' a' rest, logs').
Proof.
  induction s as [|b s IH]; intros pre a rest logs a' logs'; cbn [tscan].
  { intros [= <- <-]. exists pre. by rewrite app_nil_r. }
  unfold tbyte at 1. case_bool_decide as Hb; cbn [mbind option_bind].
  - subst b. intros Hs. destruct (IH (pre ++ t_tok a ++ [x0a]) _ rest _ _ _ Hs)
      as (pre' & Hpre' & IH').
    exists pre'. split; [by rewrite Hpre', <- !app_assoc|].
    rewrite <- IH', range_cons_ascii by done. cbn [app foldM parse_rune].
    change (b2z x0a =? #x0a) with true. cbn iota. rewrite consumeLog_conc.
    cbn [mbind go_bind]. f_equal.
    + f_equal. exact (conc_end pre a x0a (s ++ rest) dateState zeroLog _ _ eq_refl eq_refl).
    + f_equal. cbn [t_tok fresh]. rewrite !len_app, len_cons, len_nil. lia.
  - destruct (ascii b) eqn:Ha; [|done]. destruct (tstep a b) as [a1|] eqn:Ht; [|done].
    cbn [mbind option_bind]. intros Hs.
    destruct (next_sim pre a b (s ++ rest) a1 Ht) as (pre1 & Hpre & Hnext).
    destruct (IH pre1 _ rest _ _ _ Hs) as (pre' & Hpre' & IH'). exists pre'.
    split; [by rewrite Hpre', (app_assoc pre1), Hpre, <- !app_assoc|].
    rewrite <- IH', range_cons_ascii by done. cbn [app foldM parse_rune].
    rewrite b2z_eqb_c, bool_decide_eq_false_2 by done. rewrite Hnext. cbn [mbind go_bind].
    do 2 f_equal. apply (f_equal len) in Hpre. revert Hpre.
    rewrite !len_app, len_cons, len_nil. lia.
Qed.

(** The parser at rest that holds the token of [a] in its buffer. *)
Definition parked (a : tokstate) : Parser := resume (t_state a) (t_log a) (t_tok a).

Lemma Parser_Parse_scan s cur t chunk logs a' logs' :
  tscan (mkTok s [] cur, logs) (t ++ chunk) = Some (a', logs') →
  Parser_Parse (resume s cur t) chunk logs = Ret (parked a', logs').
Proof.
  intros Hs. destruct (scan_sim _ [] _ [] _ _ _ Hs) as (pre' & _ & Hfold).
  rewrite app_nil_r in Hfold.
  unfold Parser_Parse.
  change (with_raw (raw (resume s cur t) ++ chunk) (resume s cur t)) with
    (conc [] (mkTok s [] cur) (t ++ chunk)).
  change (range (raw (conc [] (mkTok s [] cur) (t ++ chunk)))) with (range_from 0 0 (t ++ chunk)).
  change (0 + len (t_tok (mkTok s [] cur))) with 0 in Hfold.
  change (len [] + len (t_tok (mkTok s [] cur))) with 0 in Hfold.
  rewrite Hfold. cbn [mbind go_bind].
  unfold slice_from. cbn [conc raw start]. rewrite app_nil_r.
  rewrite len_app. rewrite <- (app_nil_r (t_tok a')) at 1.
  replace (slice _ _ _) with (Ret (t_tok a')); [done|].
  symmetry. apply slice_mid.
Qed.

(** ** Reading a token again *)

(** The next chunk is read from the beginning of the token the last one left in
    the buffer, in the state the last one stopped in. Reading the token again from
    there leads to the same place: [settled] is the invariant that shows it. *)
Definition origin (s : state) : state :=
  match s with multiKeyState => valueState | _ => s end.

Definition restart (a : tokstate) : tokstate := mkTok (origin (t_state a)) [] (t_log a).

(** The states the machine only passes through with an empty token. *)
Definition between (s : state) : bool :=
  match s with
  | transitionLevelState | transitionThreadState | transitionClassState
  | transitionCallTypeState | threadState => true
  | _ => false
  end.

Definition value_head (t : gostring) : Prop :=
  match t with
  | [] => True
  | b :: _ => b ≠ ","%byte ∧ b ≠ ":"%byte ∧ b ≠ " "%byte
  end.

Record settled (a : tokstate) : Prop := {
  settled_run : trun (restart a) (t_tok a) = Some a;
  settled_between : between (t_state a) = true → t_tok a = [];
  settled_multi : t_state a = multiKeyState → t_tok a ≠ [];
  settled_head : origin (t_state a) = valueState → value_head (t_tok a);
  settled_named : named (t_state a) = true
}.

Lemma settled_empty s l : s ≠ multiKeyState → named s = true → settled (mkTok s [] l).
Proof. intros Hs Hn. split; cbn; try done. by destruct s. Qed.

Lemma settled_fresh : settled fresh.
Proof. by apply settled_empty. Qed.

(** A token that grows without a change of [origin]. *)
Lemma trun_extend a b s' :
  ascii b && negb (bool_decide (b = x0a)) = true →
  trun (restart a) (t_tok a) = Some a → tstep a b = Some (extend s' a b) →
  origin s' = origin (t_state a) →
  trun (restart (extend s' a b)) (t_tok (extend s' a b)) = Some (extend s' a b).
Proof.
  intros Hb Hrun Hstep Ho. unfold restart. cbn [extend t_state t_tok t_log]. rewrite Ho.
  change (mkTok (origin (t_state a)) [] (t_log a)) with (restart a).
  rewrite trun_app, Hrun. cbn [mbind option_bind trun]. rewrite Hb.
  by rewrite Hstep.
Qed.

(** A first byte that opens a token. *)
Lemma settled_first s l b :
  ascii b && negb (bool_decide (b = x0a)) = true → between s = false → named s = true →
  origin s ≠ valueState →
  tstep (mkTok s [] l) b = Some (mkTok s [b] l) → settled (mkTok s [b] l).
Proof.
  intros Hb Hs Hn Ho Ht. split; cbn; try done.
  - assert (origin s = s) as Hos by (destruct s; done). unfold restart. cbn [t_state t_log].
    rewrite Hos, Hb. by rewrite Ht.
  - by rewrite Hs.
Qed.

Lemma settled_extend a b s' :
  settled a → ascii b && negb (bool_decide (b = x0a)) = true →
  tstep a b = Some (extend s' a b) → origin s' = origin (t_state a) →
  between s' = false → named s' = true →
  (origin s' = valueState → value_head (t_tok a ++ [b])) →
  settled (extend s' a b).
Proof.
  intros [Hrun _ _ _ _] Hb Ht Ho Hbt Hn Hh. split; try done.
  - by apply trun_extend.
  - cbn. by rewrite Hbt.
  - cbn. intros _. by destruct (t_tok a).
Qed.

Lemma tstep_settled a b a' :
  settled a → ascii b && negb (bool_decide (b = x0a)) = true →
  tstep a b = Some a' → settled a'.
Proof.
  intros Hset Hb Ht. pose proof Ht as Ht'. pose proof Hset as [Hrun Hbet Hmul Hhead Hnam].
  unfold tstep in Ht. destruct (t_state a) eqn:Hs; try done;
  unfold t_transition, t_thread, t_threadBracket, t_field, t_callType, t_verify, t_key, t_value, t_multiKey in Ht;
  repeat (case_match; try done); simplify_eq; try (by apply settled_empty); try done.
  all: try (apply settled_extend; try done; rewrite ?Hs; done).
  all: repeat match goal with
       | H : bool_decide _ = false |- _ => apply bool_decide_eq_false in H
       | H : is_empty _ = true |- _ => apply is_empty_true in H
       end.
  1-5: assert (t_tok a = []) as Htok by auto;
    unfold extend; rewrite Htok; cbn [app]; apply settled_first; try done;
    cbn [tstep t_state]; unfold t_field, t_callType; cbn [t_tok t_log];
    rewrite ?bool_decide_eq_false_2 by done;
    repeat match goal with H : header_ends _ = _ |- _ => rewrite H end; done.
  all: apply settled_extend; try done; rewrite ?Hs; try done; intros _.
  all: rewrite ?Hs in *; specialize (Hhead eq_refl);
    destruct (t_tok a) as [|c tok] eqn:Htok; cbn in *; try done.
  all: try (by destruct (Hmul eq_refl)).
  all: try (by rewrite andb_true_r in *; repeat case_bool_decide).
Qed.

Lemma tbyte_settled a b a' logs logs' :
  settled a → tbyte (a, logs) b = Some (a', logs') → settled a'.
Proof.
  unfold tbyte. intros Ha. case_bool_decide as Hb.
  - intros [= <- _]. apply settled_fresh.
  - destruct (ascii b) eqn:Hascii; [|done]. destruct (tstep a b) as [a1|] eqn:Ht; [|done].
    intros [= <- _]. eapply tstep_settled; [exact Ha| |exact Ht].
    by rewrite Hascii, bool_decide_eq_false_2.
Qed.

Lemma tscan_settled s : ∀ a a' logs logs',
  settled a → tscan (a, logs) s = Some (a', logs') → settled a'.
Proof.
  induction s as [|b s IH]; intros a a' logs logs' Ha; cbn [tscan]; [congruence|].
  destruct (tbyte (a, logs) b) as [[a1 logs1]|] eqn:E; [|done].
  intros Hs. eapply IH; [|exact Hs]. by eapply tbyte_settled.
Qed.

Lemma restart_step s l b :
  value_head [b] → tstep (mkTok (origin s) [] l) b = tstep (mkTok s [] l) b.
Proof.
  intros (Hcomma & Hcolon & Hspace). destruct s; try done.
  cbn [tstep t_state origin]. unfold t_value, t_multiKey.
  rewrite !bool_decide_eq_false_2 by done. done.
Qed.

(** Reading the token of a settled state again, in the state itself. *)
Lemma settled_reread a :
  settled a → trun (mkTok (t_state a) [] (t_log a)) (t_tok a) = Some a.
Proof.
  intros [Hrun _ Hmul Hhead _].
  destruct (decide (t_state a = multiKeyState)) as [Hs|Hs].
  - specialize (Hhead ltac:(by rewrite Hs)). specialize (Hmul Hs).
    etrans; [|exact Hrun]. unfold restart. destruct (t_tok a) as [|b t]; [done|].
    cbn [trun]. by rewrite restart_step.
  - etrans; [|exact Hrun]. unfold restart. by destruct (t_state a).
Qed.

Lemma Parser_Parse_parked a chunk logs a' logs' :
  settled a → tscan (a, logs) chunk = Some (a', logs') →
  Parser_Parse (parked a) chunk logs = Ret (parked a', logs') ∧ settled a'.
Proof.
  intros Ha Hs. split; [|by eapply tscan_settled]. apply Parser_Parse_scan.
  rewrite tscan_app, (trun_tscan _ _ a) by by apply settled_reread. done.
Qed.

Lemma parse_chunks_parked chunks : ∀ a logs a' logs',
  settled a → tscan (a, logs) (concat chunks) = Some (a', logs') →
  parse_chunks (parked a) chunks logs = Ret (parked a', logs').
Proof.
  induction chunks as [|c cs IH]; intros a logs a' logs' Ha; cbn [concat].
  { intros [= <- <-]. done. }
  rewrite tscan_app. destruct (tscan (a, logs) c) as [[a1 logs1]|] eqn:E; [|done].
  cbn [mbind option_bind]. intros Hs.
  destruct (Parser_Parse_parked _ _ _ _ _ Ha E) as [Hc Ha1].
  unfold parse_chunks in *. cbn [foldM]. rewrite Hc. cbn [mbind go_bind]. by apply IH.
Qed.

(** ** Properties *)

(** C2: The parser implements the token machine: on clean text, [Parse] appends
    the logs the machine finishes and keeps in its buffer the machine's current
    token, its state and its log - from the start of a text or after any clean
    prefix of it. *)
Theorem parse_implements_machine (prefix chunk : gostring) (logs0 logs1 logs2 : list Log)
    (a1 a2 : tokstate)
    (Hprefix : tscan (fresh, logs0) prefix = Some (a1, logs1))
    (Hchunk : tscan (a1, logs1) chunk = Some (a2, logs2)) :
  Parser_Parse (parked a1) chunk logs1 = Ret (parked a2, logs2).
Proof.
  eapply Parser_Parse_parked; [|exact Hchunk].
  eapply tscan_settled; [apply settled_fresh|exact Hprefix].
Qed.

Lemma parse_implements_machine_witness :
  Parser_Parse
    (resume valueState
       (set_props [Tests.prop "callType" "a"; Tests.prop "b" ""]
          (mkLog (str "2017") (str "14:54") (str "INFO") (str "t") (str "c") [] []))
       (str "on"))
    (str "e, k: v" ++ [x0a] ++ str "2018") [] =
  Ret (resume dateState zeroLog (str "2018"),
       [set_props [Tests.prop "callType" "a"; Tests.prop "b" "one"; Tests.prop "k" "v"]
          (mkLog (str "2017") (str "14:54") (str "INFO") (str "t") (str "c") [] [])]).
Proof.
  eapply (parse_implements_machine
    (str "2017 14:54" ++ [x09] ++ str "INFO" ++ [x09] ++ str "[t]" ++ [x09] ++
     str "c" ++ [x09] ++ str "a: b: on") (str "e, k: v" ++ [x0a] ++ str "2018") [] []
    _ (mkTok valueState (str "on")
       (set_props [Tests.prop "callType" "a"; Tests.prop "b" ""]
          (mkLog (str "2017") (str "14:54") (str "INFO") (str "t") (str "c") [] [])))
    (mkTok dateState (str "2018") zeroLog)); vm_compute; reflexivity.
Defined.

(** C6: On clean text the boundaries of the chunks do not matter: however a reader
    cuts the text, parsing it chunk by chunk gives the logs and the parser of a
    single call. *)
Theorem parse_chunks_irrelevant (chunks : list gostring) (logs : list Log)
    (Hclean : tscan (fresh, logs) (concat chunks) ≠ None) :
  parse_chunks NewParser chunks logs = Parser_Parse NewParser (concat chunks) logs.
Proof.
  destruct (tscan (fresh, logs) (concat chunks)) as [[a logs']|] eqn:E; [|done].
  change NewParser with (parked fresh).
  rewrite (parse_chunks_parked _ _ _ _ _ settled_fresh E).
  by destruct (Parser_Parse_parked _ _ _ _ _ settled_fresh E) as [-> _].
Qed.

Lemma parse_chunks_irrelevant_witness :
  parse_chunks NewParser [str "2017 14:5"; str "4 INFO"; []; str " [t] c a: b, k: http:/"; str "/x, lm"] [] =
  Parser_Parse NewParser (concat [str "2017 14:5"; str "4 INFO"; []; str " [t] c a: b, k: http:/"; str "/x, lm"]) [].
Proof.
  apply parse_chunks_irrelevant. vm_compute. intros H. discriminate H.
Defined.

(** ** Chunk boundaries after a key with a space

    Outside clean text the positions can lag behind the text: the space inside a
    key is skipped without moving [p.end].  A chunk that ends right after the
    colon of the value of such a key leaves a buffered text that starts with a space. *)

(** The bytes of a word. *)
Definition word_byte (b : byte) : bool :=
  ascii b && bool_decide (b ∉ [x0a; " "%byte; ":"%byte; ","%byte]).

Lemma word_byte_spec b :
  word_byte b = true →
  ascii b = true ∧ b ≠ x0a ∧ b ≠ " "%byte ∧ b ≠ ":"%byte ∧ b ≠ ","%byte.
Proof.
  unfold word_byte. intros [Ha Hb%bool_decide_eq_true]%andb_true_iff.
  split; [done|]. rewrite !not_elem_of_cons in Hb. tauto.
Qed.

(** A text without newline, read by the loop of [Parse]. *)
Lemma fold_run s : ∀ i p logs,
  is_ascii s → x0a ∉ s →
  foldM parse_rune (p, logs) (range_from 0 i s) = (q ← run p (b2z <$> s); Ret (q, logs)).
Proof.
  induction s as [|b s IH]; intros i p logs Ha Hn; [done|].
  apply Forall_cons in Ha as [Hb Ha]. apply not_elem_of_cons in Hn as [Hb' Hn].
  rewrite range_cons_ascii by done. unfold run in *. cbn [foldM fmap list_fmap parse_rune].
  change #x0a with (b2z x0a). rewrite b2z_eqb_c, bool_decide_eq_false_2 by congruence.
  destruct (next p (b2z b)) as [q|]; [|done]. cbn [mbind go_bind]. by apply IH.
Qed.

Lemma trun_no_newline a s a' : trun a s = Some a' → x0a ∉ s.
Proof.
  revert a. induction s as [|b s IH]; intros a; cbn; [intros _; apply not_elem_of_nil|].
  case_bool_decide as Hb; [by rewrite andb_false_r|].
  destruct (ascii b); cbn; [|done]. destruct (tstep a b); cbn; [|done].
  intros ?%IH. apply not_elem_of_cons. split; [congruence|done].
Qed.

Lemma run_sim pre a s rest a' :
  trun a s = Some a' →
  ∃ pre', pre' ++ t_tok a' = pre ++ t_tok a ++ s ∧
    run (conc pre a (s ++ rest)) (b2z <$> s) = Ret (conc pre' a' rest).
Proof.
  intros Hs. destruct (scan_sim s pre a rest [] _ _ (trun_tscan _ _ _ [] Hs)) as (pre' & Hp & H).
  exists pre'. split; [done|].
  rewrite fold_run in H by (by eapply trun_ascii || eapply trun_no_newline).
  destruct (run _ _) as [q|]; [|done]. by injection H as ->.
Qed.

(** The states a key is read in. *)
Definition key_state (s : state) : Prop := s = keyState ∨ s = verifyCallTypeState.

Lemma next_key p r : key_state (st p) → r ≠ #"," → next p r = handleNextKey p r.
Proof.
  intros H Hr. unfold next. change 256%nat with (S 255). generalize 255%nat. intros fuel.
  cbn [next_fuel]. destruct H as [-> | ->]; [done|].
  unfold verifyCallType. by rewrite (proj2 (Z.eqb_neq _ _) Hr).
Qed.

Lemma next_value p r : st p = valueState → next p r = handleNextValue p r.
Proof.
  intros H. unfold next. change 256%nat with (S 255). generalize 255%nat. intros fuel.
  cbn [next_fuel]. by rewrite H.
Qed.

(** A word extends the token of a key, and of a value. *)
Lemma run_word w : ∀ p,
  key_state (st p) ∨ st p = valueState → Forall (λ b, word_byte b = true) w →
  run p (b2z <$> w) = Ret (with_end (end_ p + len w) p).
Proof.
  unfold run. induction w as [|b w IH]; intros p Hs Hw.
  - rewrite len_nil, Z.add_0_r. by destruct p.
  - apply Forall_cons in Hw as [(_ & _ & Hsp & Hcl & Hcm)%word_byte_spec Hw].
    rewrite len_cons. cbn [fmap list_fmap foldM].
    assert (next p (b2z b) = Ret (incr_end p)) as ->.
    { destruct Hs as [Hs|Hs].
      - rewrite next_key; [|done|by intros E; apply b2z_inj in E].
        unfold handleNextKey. by rewrite !b2z_eqb_c, !bool_decide_eq_false_2 by done.
      - rewrite next_value by done. unfold handleNextValue.
        by rewrite !b2z_eqb_c, !bool_decide_eq_false_2 by done. }
    cbn [mbind go_bind]. rewrite (IH (incr_end p)) by done. unfold with_end. cbn. do 2 f_equal. lia.
Qed.

Lemma next_space p : key_state (st p) → start p < end_ p → next p #" " = Ret p.
Proof.
  intros Hs Hlt. rewrite next_key by done. unfold handleNextKey. cbn.
  destruct (Z.eqb_spec (start p) (end_ p)); [lia|done].
Qed.

(** The colon after a key, and the space after the colon: the value starts empty. *)
Lemma run_colon_space p :
  key_state (st p) → 0 <= start p → start p <= end_ p → end_ p <= len (raw p) →
  ∃ l, run p [b2z ":"%byte; b2z " "%byte] = Ret (mkParser valueState (end_ p + 2) (end_ p + 2) (raw p) l) ∧
       props l ≠ [].
Proof.
  intros Hs ???. unfold run. cbn [foldM]. rewrite next_key by done. unfold handleNextKey, token.
  destruct (slice_ok (raw p) (start p) (end_ p)) as (k & -> & _); [done..|].
  cbn [mbind go_bind]. change (#":" =? #" ") with false. cbn iota.
  change (#":" =? #":") with true. cbn [mbind go_bind].
  rewrite next_value by done. unfold handleNextValue.
  unfold start_at_end, incr_end, incr_start, with_start, with_end, with_state, append_prop,
    with_current. cbn. rewrite Z.eqb_refl. cbn.
  replace (end_ p + 1 + 1) with (end_ p + 2) by lia. eexists. split; [reflexivity|].
  cbn. apply app_one_nonempty.
Qed.

Lemma run_app p rs rs' : run p (rs ++ rs') = (q ← run p rs; run q rs').
Proof. apply foldM_app. Qed.

Lemma run_cons p r rs q : next p r = Ret q → run p (r :: rs) = run q rs.
Proof. unfold run. cbn [foldM]. by intros ->. Qed.

Lemma next_colon p :
  st p = valueState → next p #":" = Ret (mkParser multiKeyState (start p) (end_ p + 1) (raw p) (current p)).
Proof. intros H. by rewrite next_value. Qed.

(** A key with a space in it and the value after it, up to a colon: the buffered
    text that is left starts with the space before the value. *)
Lemma run_spaced_key s l raw n w1 w2 v :
  key_state s → w1 ≠ [] → Forall (λ b, word_byte b = true) (w1 ++ w2 ++ v) →
  0 <= n → n + len w1 + len w2 <= len raw →
  ∃ cur, run (mkParser s n n raw l)
           ((b2z <$> w1) ++ #" " :: (b2z <$> w2) ++ [b2z ":"%byte; b2z " "%byte] ++ (b2z <$> v) ++ [b2z ":"%byte])
    = Ret (mkParser multiKeyState (n + len w1 + len w2 + 2) (n + len w1 + len w2 + 2 + len v + 1)
             raw cur) ∧ props cur ≠ [].
Proof.
  intros Hs Hw1 Hw Hn Hlen. apply Forall_app in Hw as [Hf1 [Hf2 Hf3]%Forall_app].
  assert (0 < len w1) as H1 by (by apply len_pos). pose proof (len_nonneg w2).
  rewrite run_app, run_word by (done || by left). unfold with_end.
  cbn [mbind go_bind st start end_ Parser.raw current].
  erewrite run_cons by (apply next_space; [done|cbn [start end_]; lia]).
  rewrite run_app, run_word by (done || by left). unfold with_end.
  cbn [mbind go_bind st start end_ Parser.raw current].
  destruct (run_colon_space (mkParser s n (n + len w1 + len w2) raw l)) as (cur & Hrun & Hcur);
    [done|cbn [start end_ Parser.raw]; lia..|].
  rewrite run_app, Hrun. cbn [mbind go_bind end_ Parser.raw].
  rewrite run_app, run_word by (done || by right). unfold with_end.
  cbn [mbind go_bind st start end_ Parser.raw current].
  erewrite run_cons by by apply next_colon. by exists cur.
Qed.

(** What the call of [Parse] on such a chunk leaves. *)
Lemma Parser_Parse_spaced_key text w1 w2 v s l old logs :
  tscan (fresh, old) text = Some (mkTok s [] l, logs) → key_state s →
  w1 ≠ [] → Forall (λ b, word_byte b = true) (w1 ++ w2 ++ v) →
  ∃ cur, Parser_Parse NewParser (text ++ w1 ++ str " " ++ w2 ++ str ": " ++ v ++ str ":") old
    = Ret (resume multiKeyState cur (str " " ++ v ++ str ":"), logs).
Proof.
  intros Htext Hs Hw1 Hw. set (post := w1 ++ str " " ++ w2 ++ str ": " ++ v ++ str ":").
  destruct (scan_sim text [] fresh post old _ _ Htext) as (pre & Hpre & Hfold).
  cbn [t_tok fresh app] in Hpre. rewrite app_nil_r in Hpre. subst pre.
  assert (is_ascii post ∧ x0a ∉ post) as [Ha Hnl].
  { apply Forall_app in Hw as [Hf1 [Hf2 Hf3]%Forall_app].
    assert (∀ w, Forall (λ b, word_byte b = true) w → is_ascii w ∧ x0a ∉ w) as Hword.
    { intros w Hw. split.
      - eapply Forall_impl; [done|]. intros b Hb. by apply word_byte_spec in Hb as [? _].
      - intros Hin. rewrite Forall_forall in Hw. by apply Hw, word_byte_spec in Hin as (_ & ? & _). }
    destruct (Hword w1), (Hword w2), (Hword v); [done..|].
    subst post. unfold is_ascii in *. rewrite !Forall_app, !not_elem_of_app.
    split_and!; first [done|by apply (bool_decide_unpack _)]. }
  unfold Parser_Parse.
  change (with_raw (raw NewParser ++ text ++ post) NewParser) with (conc [] fresh (text ++ post)).
  change (range (raw (conc [] fresh ?x))) with (range_from 0 0 x).
  rewrite range_prefix, foldM_app by (by eapply tscan_ascii).
  change (len [] + len (t_tok fresh)) with 0 in Hfold. rewrite Hfold. cbn [mbind go_bind].
  rewrite fold_run by done. unfold conc. cbn [t_state t_tok t_log app].
  match goal with |- context [len text + ?x] => change x with 0 end. rewrite Z.add_0_r.
  destruct (run_spaced_key s l (text ++ post) (len text) w1 w2 v) as (cur & Hrun & _);
    [done..|apply len_nonneg| |].
  { subst post. rewrite !len_app. pose proof (len_nonneg v).
    change (len (str " ")) with 1. change (len (str ": ")) with 2. change (len (str ":")) with 1. lia. }
  assert (b2z <$> post = (b2z <$> w1) ++ #" " :: (b2z <$> w2) ++
    [b2z ":"%byte; b2z " "%byte] ++ (b2z <$> v) ++ [b2z ":"%byte]) as ->.
  { subst post. by rewrite !fmap_app. }
  rewrite Hrun. cbn [mbind go_bind start raw]. exists cur.
  assert (slice_from (text ++ post) (len text + len w1 + len w2 + 2) =
    Ret (str " " ++ v ++ str ":")) as ->; [|done].
  replace (text ++ post) with ((text ++ w1 ++ str " " ++ w2 ++ str ":") ++ str " " ++ v ++ str ":")
    by (subst post; rewrite <- !app_assoc; done).
  replace (len text + _ + _ + 2) with (len (text ++ w1 ++ str " " ++ w2 ++ str ":")).
  - apply slice_from_app.
  - rewrite !len_app. change (len (str " ")) with 1. change (len (str ":")) with 1. lia.
Qed.

(** A chunk that begins at a parser waiting in [multiKeyState] on a space. *)
Lemma Parser_Parse_space p chunk logs :
  start p = 0 → end_ p = 0 → ¬ resumable (st p) (raw p ++ chunk) →
  Parser_Parse p chunk logs = Panic SliceOutOfRange.
Proof.
  intros Hstart Hend Hr. unfold resumable in Hr.
  assert (st p = multiKeyState ∧ head (runes (raw p ++ chunk)) = Some #" ") as [Hs Hh].
  { destruct (decide (st p = multiKeyState)); [|naive_solver].
    destruct (decide (head (runes (raw p ++ chunk)) = Some #" ")); naive_solver. }
  unfold Parser_Parse. cbn [raw with_raw]. unfold runes in Hh.
  destruct (range (raw p ++ chunk)) as [|[i r] rs]; [done|]. cbn in Hh. injection Hh as ->.
  cbn [foldM parse_rune]. change (#" " =? #x0a) with false. cbn iota.
  unfold next. change 256%nat with (S 255). generalize 255%nat. intros fuel. cbn [next_fuel].
  change (st (with_raw ?x p)) with (st p). rewrite Hs. unfold handleNextMultiKey.
  change (#" " =? #" ") with true. cbn iota. cbn [start end_ with_raw].
  rewrite slice_panics by lia. done.
Qed.

(** C20: The one panic of [Parse]: between two calls, the next call panics exactly when
    the parser waits for what follows a colon and the text it is about to scan starts
    with a space, which [handleNextMultiKey] takes for the end of a key, slicing
    [p.raw[0:-1]].  Chunks get there: after any clean text whose next token is a key, a
    chunk that ends with a key of two words, a value and a colon makes the next call
    panic, whatever its chunk is (even the empty one) - and [Parse] of the same text in one
    chunk does not panic. *)
Theorem parse_chunk_boundary_panics :
  (∀ p chunk logs, at_rest p →
     (Parser_Parse p chunk logs = Panic SliceOutOfRange ↔
      st p = multiKeyState ∧ head (runes (raw p ++ chunk)) = Some #" ")) ∧
  (∀ (text w1 w2 v : gostring) (s : state) (l : Log) (old logs : list Log) (next_chunk : gostring),
     tscan (fresh, old) text = Some (mkTok s [] l, logs) → key_state s →
     w1 ≠ [] → Forall (λ b, word_byte b = true) (w1 ++ w2 ++ v) →
     let chunk := text ++ w1 ++ str " " ++ w2 ++ str ": " ++ v ++ str ":" in
     parse_chunks NewParser [chunk; next_chunk] old = Panic SliceOutOfRange ∧
     ∃ all, Parse (chunk ++ next_chunk) = Ret all).
Proof.
  split.
  - intros p chunk logs Hp. split.
    + intros HP. apply dec_stable. intros Hr.
      destruct (Parser_Parse_ok p chunk logs Hp) as (q & new & HQ & _); [|congruence].
      intros Hs Hh. by apply Hr.
    + intros [Hs Hh]. apply Parser_Parse_space; [apply Hp..|]. intros Hr. by apply Hr.
  - intros text w1 w2 v s l old logs next_chunk Htext Hs Hw1 Hw chunk.
    split; [|destruct (Parse_ok (chunk ++ next_chunk)) as (all & ? & _); eauto].
    destruct (Parser_Parse_spaced_key text w1 w2 v s l old logs) as [cur HP]; [done..|].
    unfold parse_chunks. cbn [foldM]. subst chunk. rewrite HP. cbn [mbind go_bind].
    rewrite Parser_Parse_space; [done..|]. intros Hr. by apply Hr.
Qed.

(** [a: b, my key: v:] at the end of a chunk, after a complete line. *)
Lemma parse_chunk_boundary_panics_witness :
  let line := str "2017 14:54 INFO [t] c a: b, k: v" ++ [x0a] in
  let chunk := line ++ str "2017 14:54 INFO [t] c a: b, my key: v:" in
  parse_chunks NewParser [chunk; []] [] = Panic SliceOutOfRange ∧
  ∃ all, Parse (chunk ++ []) = Ret all.
Proof.
  refine (proj2 parse_chunk_boundary_panics
    (str "2017 14:54 INFO [t] c a: b, k: v" ++ x0a :: str "2017 14:54 INFO [t] c a: b, ")
    (str "my") (str "key") (str "v") keyState _ [] _ [] _ _ _ _).
  - vm_compute. reflexivity.
  - left. reflexivity.
  - discriminate.
  - apply (bool_decide_unpack _). vm_compute. exact I.
Defined.
