(* ===== verification/RoundTrip.v ===== *)
(** * Reading back what is written

    The text [Log.String] writes ([WriteTo], logging/logging.go) is the text
    [Parser.Parse] reads (logging/parse.go).  [printable] is the class of logs whose
    text reads back, and [reread] what is read: the same log up to the dash for an
    empty thread or class and the message that becomes a property, when at least
    two properties are written; otherwise the parser takes the only key for a call
    type, or the class for the message. *)

From S2P Require Import Prelude GoString Log Serialize Parser ParseLines TokenMachine.

(** ** Printable logs *)

(** A byte the machine reads inside a line. *)
Definition line_byte (b : byte) : bool := ascii b && negb (bool_decide (b = x0a)).

Definition without (bs : gostring) (s : gostring) : bool :=
  forallb (λ b, line_byte b && negb (bool_decide (b ∈ bs))) s.

(** The bytes [escape] copies. *)
Definition unescaped (s : gostring) : bool := forallb plain s.

Definition date_field (s : gostring) : bool := forallb (λ b, is_date_rune (b2z b)) s.
Definition header_sep : gostring := [x09; " "%byte; "["%byte; "]"%byte].
Definition key_ok (s : gostring) : bool := unescaped s && without (str " :") s.
Definition first_value_ok (s : gostring) : bool := unescaped s && without (str " :,") s.

(** Every colon of a value is followed by a character that is not a space. *)
Fixpoint colons_ok (after : bool) (s : gostring) : bool :=
  match s with
  | [] => negb after
  | b :: s' =>
    if after then negb (bool_decide (b = " "%byte)) && colons_ok false s'
    else colons_ok (bool_decide (b = ":"%byte)) s'
  end.

(** A value does not start with a space or a colon, and has no comma. *)
Definition value_ok (s : gostring) : bool :=
  unescaped s && without (str ",") s && colons_ok false s &&
  match s with [] => true | b :: _ => negb (bool_decide (b ∈ str " :")) end.

Definition header_ok (l : Log) : bool :=
  date_field (date l) && date_field (time l) &&
  nonempty (Level l) && without header_sep (Level l) &&
  without [x09; "]"%byte] (Thread l) && without header_sep (Class l).

Definition props_ok (ps : list Property) : bool :=
  match ps with
  | [] => true
  | p :: ps' => key_ok (key p) && first_value_ok (value p) &&
                forallb (λ p, key_ok (key p) && value_ok (value p)) ps'
  end.

Definition printable (l : Log) : bool := header_ok l && props_ok (rendered_props l).

(** The log that is read back. *)
Definition header_log (l : Log) : Log :=
  mkLog (date l) (time l) (Level l) (or_dash (Thread l)) [] [] [].

Definition reread (l : Log) : Log :=
  match rendered_props l with
  | [] => set_Message (or_dash (Class l)) (header_log l)
  | [p] =>
    let h := set_Class (or_dash (Class l)) (header_log l) in
    if nonempty (key p)
    then set_Message (value p) (set_props [mkProperty (str "callType") (key p)] h)
    else set_props [mkProperty (str "callType") (value p)] h
  | ps => set_props ps (set_Class (or_dash (Class l)) (header_log l))
  end.

(** ** Tokens *)

Section tokens.
Context (s : state) (l : Log) (P : byte → bool).
Context (Hline : ∀ b, P b = true → line_byte b = true).
Context (Hstep : ∀ tok b, P b = true →
  tstep (mkTok s tok l) b = Some (mkTok s (tok ++ [b]) l)).

(** Bytes that extend the token. *)
Lemma trun_token t tok :
  forallb P t = true → trun (mkTok s tok l) t = Some (mkTok s (tok ++ t) l).
Proof.
  revert tok. induction t as [|b t IH]; intros tok; [by rewrite app_nil_r|].
  cbn [forallb]. intros [Hb Ht]%andb_true_iff. cbn [trun].
  pose proof (Hline b Hb) as Hl. unfold line_byte in Hl. rewrite Hl, Hstep by done.
  cbn [mbind option_bind]. by rewrite IH, <- app_assoc.
Qed.
End tokens.

Lemma trun_cons a b s a' :
  line_byte b = true → tstep a b = Some a' → trun a (b :: s) = trun a' s.
Proof. unfold line_byte. cbn [trun]. by intros -> ->. Qed.

(** [without] as membership facts. *)
Lemma without_byte (bs : gostring) b :
  line_byte b && negb (bool_decide (b ∈ bs)) = true → line_byte b = true ∧ b ∉ bs.
Proof. intros [? H]%andb_true_iff. split; [done|]. by apply negb_true_iff, bool_decide_eq_false in H. Qed.

Lemma date_byte_line b : is_date_rune (b2z b) = true → line_byte b = true.
Proof. destruct b; intros H; vm_compute in H; try discriminate H; reflexivity. Qed.

Lemma trun_date s f s' t l b :
  (s = dateState ∧ f = FDate ∧ s' = timeState) ∨
  (s = timeState ∧ f = FTime ∧ s' = transitionLevelState) →
  date_field t = true → b = " "%byte ∨ b = x09 →
  trun (mkTok s [] l) (t ++ [b]) = Some (mkTok s' [] (set_field f t l)).
Proof.
  intros Hs Ht Hb. rewrite trun_app.
  rewrite (trun_token s l (λ b, is_date_rune (b2z b))); [|apply date_byte_line| |done].
  - cbn [mbind option_bind app]. 
    destruct Hs as [(-> & -> & ->)|(-> & -> & ->)], Hb as [-> | ->]; reflexivity.
  - intros tok c Hc.
    assert (c ≠ "["%byte) as Hne by (by intros ->).
    destruct Hs as [(-> & _ & _)|(-> & _ & _)]; cbn [tstep t_state]; unfold t_field, date_ends;
      by rewrite bool_decide_eq_false_2, Hc.
Qed.

(** A header field, in the state that reads it. *)
Lemma header_ends_false b : b ∉ header_sep → header_ends b = false.
Proof. intros H. apply bool_decide_eq_false. unfold header_sep in H. set_solver. Qed.

Lemma t_field_extend f s0 s s' tok l b :
  b ∉ header_sep → t_field header_ends f s s' (mkTok s0 tok l) b = Some (mkTok s (tok ++ [b]) l).
Proof.
  intros Hb. unfold t_field. rewrite header_ends_false by done.
  rewrite bool_decide_eq_false_2; [done|]. unfold header_sep in Hb. set_solver.
Qed.

Lemma without_cons bs b s :
  without bs (b :: s) = true ↔ line_byte b = true ∧ b ∉ bs ∧ without bs s = true.
Proof.
  unfold without. cbn [forallb]. rewrite !andb_true_iff, negb_true_iff, bool_decide_eq_false.
  tauto.
Qed.

Lemma trun_without s l bs t tok :
  (∀ tok b, b ∉ bs → tstep (mkTok s tok l) b = Some (mkTok s (tok ++ [b]) l)) →
  without bs t = true → trun (mkTok s tok l) t = Some (mkTok s (tok ++ t) l).
Proof.
  intros Hstep. apply trun_token.
  - intros b Hb. by apply without_byte in Hb as [? _].
  - intros tok' b Hb. apply without_byte in Hb as [_ Hb]. by apply Hstep.
Qed.

(** A separator ends the token [t] and nothing else. *)
Lemma trun_step_end a t b a1 a2 :
  trun a t = Some a1 → line_byte b = true → tstep a1 b = Some a2 →
  trun a (t ++ [b]) = Some a2.
Proof.
  intros Ht Hb Hs. rewrite trun_app, Ht. cbn [mbind option_bind].
  by rewrite (trun_cons _ _ _ a2).
Qed.

Lemma trun_then a s t a1 : trun a s = Some a1 → trun a (s ++ t) = trun a1 t.
Proof. intros Hs. by rewrite trun_app, Hs. Qed.

(** Past the white space in front of a token, a transition state behaves as the
    state that reads the token. *)
Lemma t_transition_first k s l b :
  b ∉ [x09; " "%byte] → t_transition k (mkTok s [] l) b = k (mkTok s [] l) b.
Proof. intros Hb. unfold t_transition. cbn [t_tok]. by rewrite bool_decide_eq_false_2. Qed.

Lemma trun_header s s0 f s' t l :
  (s = transitionLevelState ∧ s0 = levelState ∧ f = FLevel ∧ s' = transitionThreadState) ∨
  (s = transitionClassState ∧ s0 = classState ∧ f = FClass ∧ s' = transitionCallTypeState) →
  nonempty t = true → without header_sep t = true →
  trun (mkTok s [] l) t = Some (mkTok s0 t l) ∧
  tstep (mkTok s0 t l) x09 = Some (mkTok s' [] (set_field f t l)).
Proof.
  intros Hs Hne Ht. destruct t as [|b t]; [done|].
  apply without_cons in Ht as (Hb & Hin & Ht).
  assert (b ∉ [x09; " "%byte]) as Hws by (unfold header_sep in Hin; set_solver).
  destruct Hs as [(-> & -> & -> & ->)|(-> & -> & -> & ->)];
    (split; [|reflexivity]).
  all: rewrite (trun_cons _ _ _ _ Hb)
    by (cbn [tstep t_state]; rewrite t_transition_first by done; by apply t_field_extend).
  all: apply (trun_without _ _ header_sep); [|done].
  all: intros tok c Hc; by apply t_field_extend.
Qed.

Lemma trun_thread t l :
  without [x09; "]"%byte] t = true →
  trun (mkTok transitionThreadState [] l) (str "[" ++ t ++ str "]")
    = Some (mkTok transitionClassState [] (set_Thread t l)).
Proof.
  intros Ht. change (str "[" ++ t ++ str "]") with ("["%byte :: t ++ ["]"%byte]).
  rewrite (trun_cons _ _ _ (mkTok threadBracketState [] l)) by done.
  eapply trun_step_end; [|done|].
  - apply (trun_without _ _ [x09; "]"%byte]); [|done]. intros tok b Hb.
    cbn [tstep t_state]. unfold t_threadBracket.
    rewrite bool_decide_eq_false_2; [done|set_solver].
  - done.
Qed.

(** The header of a printable log, up to its class. *)
Lemma trun_header_text l :
  header_ok l = true →
  trun fresh (header_text l) = Some (mkTok classState (or_dash (Class l)) (header_log l)).
Proof.
  unfold header_ok. rewrite !andb_true_iff. intros (((((Hd & Ht) & Hl) & Hl') & Hth) & Hc).
  assert (∀ bs s, "-"%byte ∉ bs → without bs s = true → without bs (or_dash s) = true) as Hdash.
  { intros bs s Hbs Hs. unfold or_dash. destruct (nonempty s); [done|].
    by apply without_cons. }
  unfold header_text.
  replace (_ ++ _) with
    ((date l ++ [" "%byte]) ++ (time l ++ [x09]) ++ (Level l ++ [x09]) ++
     (str "[" ++ or_dash (Thread l) ++ str "]") ++ x09 :: or_dash (Class l))
    by (rewrite <- !app_assoc; reflexivity).
  unfold fresh.
  rewrite (trun_then _ _ _ _ (trun_date dateState FDate timeState _ _ _ ltac:(auto) Hd (or_introl eq_refl))).
  rewrite (trun_then _ _ _ _ (trun_date timeState FTime transitionLevelState _ _ _ ltac:(auto) Ht (or_intror eq_refl))).
  destruct (trun_header transitionLevelState levelState FLevel transitionThreadState (Level l)
    (set_field FTime (time l) (set_field FDate (date l) zeroLog))) as [H1 H2]; [by left|done..|].
  rewrite (trun_then _ _ _ _ (trun_step_end _ _ x09 _ _ H1 eq_refl H2)).
  rewrite (trun_then _ _ _ _ (trun_thread (or_dash (Thread l)) _
    ltac:(apply Hdash; [by apply (bool_decide_unpack _)|done]))).
  rewrite (trun_cons _ _ _ (mkTok transitionClassState [] (header_log l))) by done.
  apply (trun_header _ _ FClass transitionCallTypeState); [by right| |].
  - unfold or_dash. destruct (nonempty (Class l)) eqn:E; [exact E|reflexivity].
  - apply Hdash; [by apply (bool_decide_unpack _)|done].
Qed.

(** ** The properties of a line *)

Lemma key_ok_first k :
  key_ok k = true →
  without (str " :") k = true ∧ match k with [] => True | b :: _ => b ≠ x09 end.
Proof.
  intros [Hp Hk]%andb_true_iff. split; [done|]. destruct k as [|b k]; [done|].
  intros ->. by apply andb_true_iff in Hp as [? _].
Qed.

Lemma trun_colon a k b1 b2 a1 a2 a3 :
  trun a k = Some a1 → line_byte b1 = true → line_byte b2 = true →
  tstep a1 b1 = Some a2 → tstep a2 b2 = Some a3 → trun a (k ++ [b1; b2]) = Some a3.
Proof.
  intros Hk H1 H2 S1 S2. rewrite (trun_then _ _ _ _ Hk).
  by rewrite (trun_cons _ _ _ _ H1 S1), (trun_cons _ _ _ _ H2 S2).
Qed.

(** The key before the first colon is first taken for a call type. *)
Lemma trun_callType k l :
  key_ok k = true →
  trun (mkTok transitionCallTypeState [] l) (k ++ str ": ")
    = Some (mkTok verifyCallTypeState [] (add_prop (mkProperty (str "callType") k) l)).
Proof.
  intros [Hk Hfirst]%key_ok_first. change (str " :") with [" "%byte; ":"%byte] in Hk.
  destruct k as [|b k]; [done|]. apply without_cons in Hk as (Hb & Hin & Hk).
  apply (trun_colon _ _ _ _ (mkTok callTypeState (b :: k) l)
    (mkTok verifyCallTypeState [] (add_prop (mkProperty (str "callType") (b :: k)) l)));
    [|done..].
  assert (b ∉ [x09; " "%byte]) as Hws by set_solver.
  rewrite (trun_cons _ _ _ (mkTok callTypeState [b] l) Hb).
  - apply (trun_without _ _ [" "%byte; ":"%byte]); [|done]. intros tok c Hc.
    cbn [tstep t_state]. unfold t_callType. rewrite bool_decide_eq_false_2; [done|set_solver].
  - cbn [tstep t_state]. rewrite t_transition_first by done. unfold t_callType.
    rewrite bool_decide_eq_false_2; [done|set_solver].
Qed.

Lemma trun_first_value v l :
  first_value_ok v = true →
  trun (mkTok verifyCallTypeState [] l) v = Some (mkTok verifyCallTypeState v l).
Proof.
  intros [_ Hv]%andb_true_iff. change (str " :,") with [" "%byte; ":"%byte; ","%byte] in Hv.
  apply (trun_without _ _ [" "%byte; ":"%byte; ","%byte]); [|done]. intros tok c Hc.
  cbn [tstep t_state]. unfold t_verify, t_key.
  rewrite !bool_decide_eq_false_2 by set_solver. done.
Qed.

Lemma trun_key k l :
  key_ok k = true →
  trun (mkTok keyState [] l) (" "%byte :: k ++ str ": ")
    = Some (mkTok valueState [] (add_prop (mkProperty k []) l)).
Proof.
  intros [Hk _]%key_ok_first. change (str " :") with [" "%byte; ":"%byte] in Hk.
  rewrite (trun_cons _ _ _ (mkTok keyState [] l)) by done.
  apply (trun_colon _ _ _ _ (mkTok keyState k l)
    (mkTok valueState [] (add_prop (mkProperty k []) l))); [|done..].
  apply (trun_without _ _ [" "%byte; ":"%byte]); [|done]. intros tok c Hc.
  cbn [tstep t_state]. unfold t_key. rewrite !bool_decide_eq_false_2 by set_solver. done.
Qed.

(** Inside a value, after a first byte. *)
Lemma trun_value_rest v : ∀ (after : bool) tok l,
  without (str ",") v = true → colons_ok after v = true → tok ≠ [] →
  trun (mkTok (if after then multiKeyState else valueState) tok l) v
    = Some (mkTok valueState (tok ++ v) l).
Proof.
  induction v as [|b v IH]; intros after tok l Hv Hc Htok.
  { rewrite app_nil_r. by destruct after. }
  apply without_cons in Hv as (Hb & Hin & Hv). change (str ",") with [","%byte] in Hin.
  assert (tok ++ [b] ≠ []) as Hne by (by destruct tok).
  assert (is_empty tok = false) as Hempty by (by apply bool_decide_eq_false_2).
  assert (b ≠ ","%byte) as Hcomma by set_solver.
  replace (tok ++ b :: v) with ((tok ++ [b]) ++ v) by (by rewrite <- app_assoc).
  cbn [colons_ok] in Hc. destruct after.
  - apply andb_true_iff in Hc as [Hsp%negb_true_iff Hc].
    rewrite (trun_cons _ _ _ (mkTok valueState (tok ++ [b]) l) Hb).
    + by apply (IH false).
    + cbn [tstep t_state]. unfold t_multiKey. by rewrite Hsp.
  - rewrite <- (IH (bool_decide (b = ":"%byte)) (tok ++ [b]) l) by done.
    apply trun_cons; [done|]. cbn [tstep t_state]. unfold t_value.
    rewrite (bool_decide_eq_false_2 _ Hcomma). cbn [t_tok]. rewrite Hempty, andb_false_r.
    by case_bool_decide.
Qed.

Lemma trun_value v l :
  value_ok v = true → trun (mkTok valueState [] l) v = Some (mkTok valueState v l).
Proof.
  unfold value_ok. rewrite !andb_true_iff. intros [[[_ Hv] Hc] Hfirst].
  destruct v as [|b v]; [done|]. apply without_cons in Hv as (Hb & Hin & Hv).
  change (str ",") with [","%byte] in Hin. change (str " :") with [" "%byte; ":"%byte] in Hfirst.
  apply negb_true_iff, bool_decide_eq_false in Hfirst.
  rewrite (trun_cons _ _ _ (mkTok valueState [b] l) Hb).
  - apply (trun_value_rest v false [b]); [done| |done]. cbn [colons_ok] in Hc.
    rewrite bool_decide_eq_false_2 in Hc; [done|set_solver].
  - cbn [tstep t_state]. unfold t_value. by rewrite !bool_decide_eq_false_2 by set_solver.
Qed.

(** [set_last] on a log whose last property was just added. *)
Lemma set_last_add f p l : set_last f (add_prop p l) = add_prop (f p) l.
Proof.
  unfold set_last, add_prop. cbn [props set_props]. rewrite length_app, Nat.add_comm.
  cbn [length pred Nat.add]. by rewrite alter_mid.
Qed.

Lemma tfinish_value s v p l :
  value p = [] → tfinish (mkTok s v (add_prop p l)) = add_prop (set_value v p) l.
Proof.
  intros Hp. unfold tfinish. cbn [t_log t_tok]. unfold add_prop at 1. cbn [props set_props].
  rewrite last_snoc, Hp. cbn. apply set_last_add.
Qed.

Lemma unescaped_text s : unescaped s = true → escaped s = s.
Proof. intros H. by apply escaped_plain, forallb_Forall. Qed.

Lemma prop_text_ok p :
  key_ok (key p) = true → first_value_ok (value p) = true ∨ value_ok (value p) = true →
  prop_text (str ": ") p = key p ++ str ": " ++ value p.
Proof.
  unfold key_ok, first_value_ok, value_ok. rewrite !andb_true_iff. intros Hk Hv.
  unfold prop_text. rewrite !unescaped_text by tauto. done.
Qed.

Definition next_props (ps : list Property) : gostring :=
  flat_map (λ p, str ", " ++ prop_text (str ": ") p) ps.

Lemma add_props_cons p ps l :
  set_props (props (add_prop p l) ++ ps) (add_prop p l) = set_props (props l ++ p :: ps) l.
Proof. unfold add_prop, set_props. cbn. by rewrite <- app_assoc. Qed.

(** The properties after the first one. *)
Lemma trun_props ps : ∀ p l,
  forallb (λ p, key_ok (key p) && value_ok (value p)) (p :: ps) = true →
  ∃ a, trun (mkTok keyState [] l) (" "%byte :: prop_text (str ": ") p ++ next_props ps) = Some a ∧
       tfinish a = set_props (props l ++ p :: ps) l.
Proof.
  induction ps as [|p' ps IH]; intros p l; cbn [forallb]; rewrite !andb_true_iff;
    intros [[Hk Hv] Hps].
  all: rewrite prop_text_ok by auto.
  all: pose proof (trun_then _ _ (value p) _ (trun_key (key p) l Hk)) as Hkey;
    rewrite trun_value in Hkey by done.
  - exists (mkTok valueState (value p) (add_prop (mkProperty (key p) []) l)).
    cbn [next_props flat_map]. rewrite app_nil_r. split; [|by rewrite tfinish_value; destruct p].
    rewrite <- Hkey. f_equal. cbn. by rewrite <- app_assoc.
  - destruct (IH p' (add_prop p l)) as (a & Ha & Hfin); [cbn; by rewrite !andb_true_iff|].
    exists a. rewrite add_props_cons in Hfin. split; [|done]. rewrite <- Ha.
    replace (" "%byte :: _) with
      (((" "%byte :: key p ++ str ": ") ++ value p) ++ ","%byte :: " "%byte ::
       prop_text (str ": ") p' ++ next_props ps)
      by (cbn; by rewrite <- !app_assoc).
    rewrite (trun_then _ _ _ _ Hkey). apply trun_cons; [done|].
    cbn [tstep t_state]. unfold t_value. rewrite bool_decide_eq_true_2 by done.
    cbn [t_tok t_log]. rewrite set_last_add. by destruct p.
Qed.

Lemma trun_finish_line a s a' logs :
  trun a s = Some a' → tscan (a, logs) (s ++ [x0a]) = Some (fresh, logs ++ [tfinish a']).
Proof. intros H. rewrite tscan_app, (trun_tscan _ _ _ _ H). done. Qed.

(** The text of a printable log, read by the machine. *)
Lemma tscan_String l logs :
  printable l = true →
  tscan (fresh, logs) (String l ++ [x0a]) = Some (fresh, logs ++ [reread l]).
Proof.
  unfold printable, reread. intros [Hh Hp]%andb_true_iff.
  apply trun_header_text in Hh as Hrun. rewrite String_eq.
  assert (tstep (mkTok classState (or_dash (Class l)) (header_log l)) x09
    = Some (mkTok transitionCallTypeState [] (set_Class (or_dash (Class l)) (header_log l))))
    as Hclass by done.
  pose proof (trun_step_end _ _ x09 _ _ Hrun eq_refl Hclass) as Hrun'. clear Hclass.
  set (h := set_Class (or_dash (Class l)) (header_log l)) in *.
  destruct (rendered_props l) as [|p ps]; cbn [props_text].
  { rewrite app_nil_r. by erewrite trun_finish_line by exact Hrun. }
  unfold props_ok in Hp. rewrite !andb_true_iff in Hp. destruct Hp as [[Hk Hv] Hps].
  rewrite prop_text_ok by auto.
  pose proof (trun_then _ _ (value p) _ (trun_callType (key p) h Hk)) as Hkey.
  rewrite trun_first_value in Hkey by done.
  pose proof (trun_then _ _ ((key p ++ str ": ") ++ value p) _ Hrun') as Hfirst.
  rewrite Hkey in Hfirst.
  replace (header_text l ++ _) with
    (((header_text l ++ [x09]) ++ ((key p ++ str ": ") ++ value p)) ++ next_props ps)
    by (rewrite <- !app_assoc; reflexivity).
  destruct ps as [|p' ps].
  - cbn [next_props flat_map]. rewrite app_nil_r. erewrite trun_finish_line by exact Hfirst.
    reflexivity.
  - destruct (trun_props ps p' (add_prop p h) Hps) as (a & Ha & Hfin).
    erewrite trun_finish_line.
    + by rewrite Hfin.
    + rewrite (trun_then _ _ _ _ Hfirst). cbn [next_props flat_map].
      change (str ", ") with [","%byte; " "%byte]. cbn [app].
      erewrite trun_cons; [exact Ha|done|]. cbn. by destruct p.
Qed.

Lemma tscan_Strings ls : ∀ logs,
  forallb printable ls = true →
  tscan (fresh, logs) (flat_map (λ l, String l ++ [x0a]) ls) = Some (fresh, logs ++ map reread ls).
Proof.
  induction ls as [|l ls IH]; intros logs; cbn [forallb flat_map map].
  { by rewrite app_nil_r. }
  intros [Hl Hls]%andb_true_iff. rewrite tscan_app, tscan_String by done.
  cbn [mbind option_bind]. rewrite IH by done. by rewrite <- app_assoc.
Qed.

(** ** Lines with a free-text message *)

Lemma next_callType p r : st p = callTypeState → next p r = handleNextCallType p r.
Proof.
  intros Hp. unfold next. change 256%nat with (S 255). generalize 255%nat. intros fuel.
  cbn [next_fuel]. by rewrite Hp.
Qed.

Lemma next_before_callType p r :
  st p = transitionCallTypeState → r ≠ #x09 → r ≠ #" " →
  next p r = handleNextCallType (with_state callTypeState p) r.
Proof.
  intros Hp Htab Hsp. unfold next. change 256%nat with (S 255).
  generalize 255%nat. intros fuel. cbn [next_fuel].
  rewrite Hp. unfold handleTransition.
  rewrite (proj2 (Z.eqb_neq _ _) Htab), (proj2 (Z.eqb_neq _ _) Hsp).
  cbn [orb]. rewrite Hp. cbn [state_succ]. destruct fuel; reflexivity.
Qed.

(** Before a colon, every rune moves the end of the token by one, however many
    bytes it is encoded in. *)
Lemma message_loop rs : ∀ p logs,
  st p = callTypeState → Forall (λ ir : Z * rune, ir.2 ≠ #":" ∧ ir.2 ≠ #x0a) rs →
  foldM parse_rune (p, logs) rs = Ret (with_end (end_ p + len rs) p, logs).
Proof.
  induction rs as [|[i r] rs IH]; intros p logs Hp Hrs.
  { rewrite len_nil, Z.add_0_r. by destruct p. }
  apply Forall_cons in Hrs as [[Hcolon Hnl] Hrs]. cbn [snd] in *.
  cbn [foldM parse_rune]. rewrite (proj2 (Z.eqb_neq _ _) Hnl), next_callType by done.
  unfold handleNextCallType. rewrite (proj2 (Z.eqb_neq _ _) Hcolon). cbn [mbind go_bind].
  rewrite IH by done. rewrite len_cons. unfold incr_end, with_end. cbn. do 3 f_equal; lia.
Qed.

(** A message: text without a colon that does not start with white space. *)
Definition message_ok (m : gostring) : Prop :=
  Forall (λ r, r ≠ #":" ∧ r ≠ #x0a) (runes m) ∧
  match runes m with [] => True | r :: _ => r ≠ #x09 ∧ r ≠ #" " end.

Lemma message_scan i p m logs :
  st p = transitionCallTypeState → message_ok m →
  ∃ s, foldM parse_rune (p, logs) (range_from 0 i m)
       = Ret (with_end (end_ p + len (runes m)) (with_state s p), logs).
Proof.
  intros Hp [Hm Hfirst].
  assert ((range_from 0 i m).*2 = runes m) as Hrs.
  { unfold runes, range. rewrite range_from_shift, <- list_fmap_compose.
    apply list_fmap_ext. by intros ? [] _. }
  rewrite <- Hrs in *. unfold len. rewrite length_fmap. fold (len (range_from 0 i m)).
  destruct (range_from 0 i m) as [|[j r] rs].
  { exists (st p). rewrite len_nil, Z.add_0_r. by destruct p. }
  cbn [fmap list_fmap snd] in *. apply Forall_cons in Hm as [[Hcolon Hnl] Hm].
  exists callTypeState. cbn [foldM parse_rune].
  rewrite (proj2 (Z.eqb_neq _ _) Hnl), next_before_callType by tauto.
  unfold handleNextCallType. rewrite (proj2 (Z.eqb_neq _ _) Hcolon). cbn [mbind go_bind].
  rewrite message_loop; [|done|by rewrite Forall_fmap in Hm].
  rewrite len_cons. unfold incr_end, with_end, with_state. cbn. do 3 f_equal; lia.
Qed.

(** The newline after a message: the token ends up in [Message]. *)
Lemma message_newline pre t rest s l i logs :
  props l = [] →
  parse_rune (mkParser s (len pre) (len pre + len t) (pre ++ t ++ rest) l, logs) (i, #x0a)
    = Ret (mkParser dateState (i + 1) (i + 1) (pre ++ t ++ rest) zeroLog,
           logs ++ [set_Message t l]).
Proof.
  intros Hl. cbn [parse_rune]. change (#x0a =? #x0a) with true. cbn iota.
  unfold consumeLog. cbn [current]. rewrite Hl. change (len [] - 1 <? 0) with true. cbn [orb].
  unfold token. cbn [raw start end_]. by rewrite slice_mid.
Qed.

Lemma parse_message_line l m :
  header_ok l = true → message_ok m →
  Parse (header_text l ++ [x09] ++ m ++ [x0a]) =
    Ret [set_Message (take (length (runes m)) m)
           (set_Class (or_dash (Class l)) (header_log l))].
Proof.
  intros Hh Hm. set (h := set_Class (or_dash (Class l)) (header_log l)).
  pose proof (trun_step_end _ _ x09 _ _ (trun_header_text l Hh) eq_refl
    (eq_refl : _ = Some (mkTok transitionCallTypeState [] h))) as Hrun.
  pose proof (trun_ascii _ _ _ Hrun) as Hascii.
  destruct (scan_sim _ [] fresh (m ++ [x0a]) [] _ _ (trun_tscan _ _ _ [] Hrun))
    as (pre & Hpre & Hfold).
  cbn [t_tok] in Hpre. rewrite app_nil_r in Hpre. cbn in Hpre. subst pre.
  rewrite app_assoc. unfold Parse, Parser_Parse.
  change (with_raw (raw NewParser ++ ?x) NewParser) with (conc [] fresh x).
  set (pre := header_text l ++ [x09]) in *.
  change (range (raw (conc [] fresh ?x))) with (range_from 0 0 x).
  rewrite range_prefix, foldM_app by done. change (len [] + len (t_tok fresh)) with 0 in Hfold.
  rewrite Hfold. cbn [mbind go_bind]. rewrite (range_app_ascii 0) by (done || cbn; lia).
  rewrite foldM_app.
  destruct (message_scan (0 + len pre) (conc pre (mkTok transitionCallTypeState [] h) (m ++ [x0a]))
    m [] eq_refl Hm) as [s ->].
  cbn [mbind go_bind]. pose proof (len_runes m) as Hlen.
  set (t := take (length (runes m)) m). set (u := drop (length (runes m)) m ++ [x0a]).
  replace (with_end _ _) with (mkParser s (len pre) (len pre + len t) (pre ++ t ++ u) h).
  2: { unfold with_end, with_state. cbn. f_equal.
       - rewrite len_nil, Z.add_0_r. f_equal. subst t. unfold len in *. rewrite length_take. lia.
       - f_equal. subst t u. by rewrite app_assoc, take_drop. }
  cbn [range_from foldM]. change (b2z x0a) with #x0a. rewrite message_newline by done.
  cbn [mbind go_bind start raw].
  replace (0 + len pre + len m + 1) with (len (pre ++ t ++ u)).
  - pose proof (slice_from_app (pre ++ t ++ u) []) as Hs. rewrite app_nil_r in Hs.
    by rewrite Hs.
  - subst t u. rewrite (app_assoc (take _ _)), take_drop, !len_app, len_cons, len_nil. lia.
Qed.

(** ** Properties *)

(** The logs whose text reads back as the log itself. *)
Definition reads_back (l : Log) : Prop :=
  (2 <= length (props l))%nat ∧ Message l = [] ∧ Thread l ≠ [] ∧ Class l ≠ [].

Lemma or_dash_same s : or_dash s = s ↔ s ≠ [].
Proof. unfold or_dash, nonempty. destruct s; cbn; naive_solver. Qed.

Lemma reread_many l p1 p2 ps :
  rendered_props l = p1 :: p2 :: ps →
  reread l = set_props (rendered_props l) (set_Class (or_dash (Class l)) (header_log l)).
Proof. unfold reread. by intros ->. Qed.

Lemma reread_same l : reread l = l ↔ reads_back l.
Proof.
  unfold reads_back. destruct (rendered_props l) as [|p1 [|p2 ps]] eqn:E.
  - split; [|unfold rendered_props in E; intros (Hp & _); apply app_nil in E as [E _]; rewrite E in Hp;
             cbn in Hp; lia].
    unfold reread. rewrite E. intros H. exfalso. apply (f_equal Class) in H as Hc. cbn in Hc.
    apply (f_equal Message) in H. cbn in H. rewrite <- Hc in H. cbn in H.
    unfold rendered_props in E. rewrite <- H in E. by destruct (props l).
  - split; [|unfold rendered_props in E; intros (Hp & _); apply (f_equal length) in E;
             rewrite length_app in E; cbn in E; lia].
    unfold reread. rewrite E. unfold rendered_props in E.
    destruct (props l) as [|q qs] eqn:Eq; intros H; exfalso; apply (f_equal props) in H as Hp;
      apply (f_equal Message) in H as Hm; rewrite Eq in Hp; destruct (nonempty (key p1)) eqn:En;
      cbn in Hp, Hm; try done.
    + destruct qs; [|done]. injection Hp as <-. destruct (Message l); [|done].
      injection E as E. pose proof (f_equal key E) as Ek. apply (f_equal value) in E.
      cbn in Ek, E. congruence.
    + destruct qs; [|done]. injection Hp as <-. injection E as E _.
      apply (f_equal key) in E. cbn in E. by rewrite <- E in En.
  - rewrite (reread_many l p1 p2 ps E). unfold rendered_props in *. split.
    + intros H. apply (f_equal props) in H as Hp. apply (f_equal Message) in H as Hm.
      apply (f_equal Thread) in H as Ht. apply (f_equal Class) in H as Hc. cbn in *.
      apply or_dash_same in Ht, Hc. rewrite <- Hm in *. cbn in *. rewrite app_nil_r in E.
      rewrite E. split; [cbn; lia|done].
    + intros (_ & Hm & Ht%or_dash_same & Hc%or_dash_same). rewrite Hm. cbn. rewrite app_nil_r.
      unfold header_log. rewrite Ht, Hc. destruct l. cbn in *. by subst.
Qed.

(** C1: Reading back what was written: the texts of printable logs, one per line
    and cut into chunks in any way, parse into one log each and leave the parser as
    new.  The logs read are those written exactly when each has two properties or
    more, no message, a thread and a class.  [reread] is what is read otherwise: a dash
    for an empty thread or class, the message as the last property, a single property as
    call type and message, and the class as the message of a log with no property. *)
Theorem parse_reads_String (ls : list Log) (chunks : list gostring) (logs : list Log)
    (Hls : forallb printable ls = true)
    (Hchunks : concat chunks = flat_map (λ l, String l ++ [x0a]) ls) :
  parse_chunks NewParser chunks logs = Ret (NewParser, logs ++ map reread ls) ∧
  (map reread ls = ls ↔ Forall reads_back ls).
Proof.
  split.
  - change NewParser with (parked fresh). apply parse_chunks_parked; [apply settled_fresh|].
    rewrite Hchunks. by apply tscan_Strings.
  - clear. induction ls as [|l ls IH]; cbn; [done|]. rewrite Forall_cons, <- reread_same, <- IH.
    split; [by intros [= ? ?]|by intros [-> ->]].
Qed.

Definition example_log : Log :=
  mkLog (str "2017-09-07") (str "14:54:39,474") (str "DEBUG") (str "pool-5 thread-6")
    (str "control.RaptorHandler") []
    [Tests.prop "flow" "Publish"; Tests.prop "url" "https://[::1]:6060/a b";
     Tests.prop "traceId" "Publish:Rumor:012ae1a5"].

Lemma parse_reads_String_witness :
  let text := String example_log ++ [x0a] ++ String Serialize.Tests.serLog ++ [x0a] in
  (parse_chunks NewParser [take 70 text; drop 70 text] [] =
     Ret (NewParser, [] ++ map reread [example_log; Serialize.Tests.serLog])) ∧
  (parse_chunks NewParser [String example_log; [x0a]] [] = Ret (NewParser, [example_log])).
Proof.
  split.
  - refine (proj1 (parse_reads_String [example_log; Serialize.Tests.serLog] _ [] _ _));
      vm_compute; reflexivity.
  - destruct (parse_reads_String [example_log] [String example_log; [x0a]] []) as [H1 [_ H2]];
      [vm_compute; reflexivity..|].
    rewrite H1, H2; [reflexivity|]. repeat constructor; discriminate.
Defined.

(** A printable log with a thread, a class, at least two properties and no
    separate message reads back as itself. *)
Theorem String_roundtrip (l : Log) (p1 p2 : Property) (ps : list Property)
    (Hl : printable l = true) (Hprops : props l = p1 :: p2 :: ps)
    (Hmsg : Message l = []) (Hthread : Thread l ≠ []) (Hclass : Class l ≠ []) :
  Parse (String l ++ [x0a]) = Ret [l].
Proof.
  destruct (Parser_Parse_parked fresh (String l ++ [x0a]) [] fresh [reread l]) as [H _];
    [apply settled_fresh|by apply tscan_String|].
  unfold Parse. change NewParser with (parked fresh). rewrite H. cbn [mbind go_bind].
  do 2 f_equal. apply reread_same. split; [rewrite Hprops; cbn; lia|done].
Qed.

Lemma String_roundtrip_witness : Parse (String example_log ++ [x0a]) = Ret [example_log].
Proof.
  eapply String_roundtrip; [vm_compute; reflexivity|reflexivity|reflexivity|discriminate|discriminate].
Defined.

(** C21: A line whose text after the class has no colon is a log with that text as its
    message - as long as the text is ASCII. A message with longer characters loses
    one byte at its end for every continuation byte in it: the parser counts runes
    where it slices bytes. *)
Theorem parse_message (l : Log) (m : gostring)
    (Hl : header_ok l = true) (Hm : message_ok m) :
  let h := set_Class (or_dash (Class l)) (header_log l) in
  Parse (header_text l ++ [x09] ++ m ++ [x0a]) =
    Ret [set_Message (take (length (runes m)) m) h] ∧
  (is_ascii m → Parse (header_text l ++ [x09] ++ m ++ [x0a]) = Ret [set_Message m h]) ∧
  ((length (runes m) < length m)%nat →
   ∃ m' c, m = m' ++ c ∧ c ≠ [] ∧
     Parse (header_text l ++ [x09] ++ m ++ [x0a]) = Ret [set_Message m' h]).
Proof.
  cbn zeta. rewrite parse_message_line by done. split_and!; [done| |].
  - intros Ha. rewrite runes_ascii, length_fmap, firstn_all by done. done.
  - intros Hlt. exists (take (length (runes m)) m), (drop (length (runes m)) m).
    split_and!; [by rewrite take_drop| |done]. intros Hnil.
    apply (f_equal length) in Hnil. rewrite length_drop in Hnil. cbn in Hnil. lia.
Qed.

(** A message with two accented letters loses its last two characters. *)
Lemma parse_message_witness :
  Parse (header_text example_log ++ [x09] ++ str "café fermé ici" ++ [x0a]) =
    Ret [set_Message (str "café fermé i")
           (set_Class (str "control.RaptorHandler") (header_log example_log))].
Proof.
  refine (proj1 (parse_message example_log (str "café fermé ici") _ _)).
  - vm_compute. reflexivity.
  - split.
    + apply (bool_decide_unpack _). vm_compute. exact I.
    + vm_compute. split; intros H; discriminate H.
Defined.
