(* ===== verification/Pipeline.v ===== *)
(** * The processing pipeline (cmd/logd/main.go, lines 97-142; cmd/logd/bench.go)

    [runPipeline] reads a source of chunks, parses them and hands every log to the
    sandbox.  The sandbox is an interface, [Collector]; the reader is the sequence
    of results its [Read] calls return.  The properties relate the logs the
    collector sees to [Parser_Parse] on the whole text, and put the parser and the
    serializer together end to end. *)

From S2P Require Import Prelude GoString Log Serialize Parser ParseLines TokenMachine RoundTrip.

(** ** The collector *)

(** What the pipeline needs of a [*lua.Sandbox] with state [S]. *)
Class Collector (S : Type) := {
  ProtectedMode : S → bool;
  CallOnLog : Log → stgo S (option error);
  ProtectedCallOnLog : Log → stgo S (option error)
}.

(** The results of successive [reader.Read] calls: the bytes read, and the error. *)
Abbreviation reads := (list (gostring * option error)).

(** Where the goroutine is after the given reads: it has sent to [exit], or it
    waits for the next read. *)
Inductive outcome : Type :=
  | Exited (e : option error)
  | Reading (p : Parser).

Section pipeline.
Context {S : Type} `{Collector S}.

(** [for _, log := range logs { if err = call(&log); err != nil { break } }]. *)
Fixpoint deliver (call : Log → stgo S (option error)) (logs : list Log) : stgo S (option error) :=
  match logs with
  | [] => mret None
  | l :: logs' => call l;? deliver call logs'
  end.

(** [if err != nil && err != io.EOF { exit <- err } else { exit <- nil }]. *)
Definition exit_error (e : option error) : option error :=
  match e with Some EOF => None | _ => e end.

(** The two loops of [runPipeline] differ in the call only. *)
Fixpoint read_loop (call : Log → stgo S (option error)) (p : Parser) (rs : reads) :
    stgo S outcome :=
  match rs with
  | [] => mret (Reading p)
  | (_, Some e) :: _ => mret (Exited (exit_error (Some e)))
  | (chunk, None) :: rs' => λ s,
    '(p', logs) ← Parser_Parse p chunk [];
    (e ← deliver call logs;
     match e with
     | Some e => mret (Exited (exit_error (Some e)))
     | None => read_loop call p' rs'
     end) s
  end.

Definition runPipeline (rs : reads) : stgo S outcome :=
  s ← get;
  if ProtectedMode s then read_loop ProtectedCallOnLog NewParser rs
  else read_loop CallOnLog NewParser rs.

(** The call [runPipeline] picks. *)
Definition pipeline_call (s : S) : Log → stgo S (option error) :=
  if ProtectedMode s then ProtectedCallOnLog else CallOnLog.

(** ** Benchmarks *)

(** [b.Errorf]: the errors are collected, and the loop goes on. *)
Fixpoint deliver_all (logs : list Log) : stgo S (list error) :=
  match logs with
  | [] => mret []
  | l :: logs' =>
    e ← CallOnLog l;
    es ← deliver_all logs';
    mret (match e with Some e => e :: es | None => es end)
  end.

(** [b.N] iterations of a loop body that reports errors. *)
Fixpoint iterations (n : nat) (body : stgo S (list error)) : stgo S (list error) :=
  match n with
  | O => mret []
  | Datatypes.S n' => es ← body; es' ← iterations n' body; mret (es ++ es')
  end.

(** [benchLuaScriptOnly(b)], without the final [Flush], for hooks that do not write to
    the properties of their log; Slices.v has the loop for hooks that do. *)
Definition benchLuaScriptOnly (n : nat) (benchLogs : list Log) : stgo S (list error) :=
  iterations n (deliver_all benchLogs).

(** One iteration of [benchFullPipeline(b)]: the parser is kept for the next one. *)
Definition bench_parse (benchData : gostring) (p : Parser) : stgo S (list error * Parser) := λ s,
  '(p', benchLogs) ← Parser_Parse p benchData [];
  (es ← deliver_all benchLogs; mret (es, p')) s.

Fixpoint benchFullPipeline (n : nat) (benchData : gostring) (p : Parser) :
    stgo S (list error * Parser) :=
  match n with
  | O => mret ([], p)
  | Datatypes.S n' =>
    '(es, p') ← bench_parse benchData p;
    '(es', p'') ← benchFullPipeline n' benchData p';
    mret (es ++ es', p'')
  end.

(** ** Lemmas *)

Lemma deliver_app call l1 l2 s :
  deliver call (l1 ++ l2) s = (deliver call l1;? deliver call l2) s.
Proof.
  revert s. induction l1 as [|l l1 IH]; intros s; [done|]. cbn [app deliver].
  unfold and_then, mbind, stgo_bind. destruct (call l s) as [[[e|] s']|]; [done|apply IH|done].
Qed.
(** [testing.Benchmark] runs the body with the numbers of iterations it chooses. *)
Fixpoint benchmark {T} (ns : list nat) (body : nat → T → stgo S (list error * T)) (t : T) :
    stgo S (list error * T) :=
  match ns with
  | [] => mret ([], t)
  | n :: ns' =>
    '(es, t) ← body n t;
    '(es', t) ← benchmark ns' body t;
    mret (es ++ es', t)
  end.

(** [runLuaBench(l, exit, reader)]: what is sent to [exit], and the errors of the
    benchmark, from what reading the whole input gives. *)
Definition runLuaBench (ns : list nat) (input : gostring + error) : stgo S (option error * list error) := λ s,
  match input with
  | inr err => Ret ((Some err, []), s)
  | inl b =>
    '(_, benchLogs) ← Parser_Parse NewParser b [];
    ('(es, _) ← benchmark ns (λ n _, es ← benchLuaScriptOnly n benchLogs; mret (es, tt)) tt;
     mret (None, es)) s
  end.

(** [runFullBench(l, exit, reader)]: the logs are counted with one more [Parse]. *)
Definition runFullBench (ns : list nat) (input : gostring + error) :
    stgo S (option error * list error * list Log) := λ s,
  match input with
  | inr err => Ret ((Some err, [], []), s)
  | inl benchData =>
    '((es, p), s) ← benchmark ns (λ n p, benchFullPipeline n benchData p) NewParser s;
    '(_, benchLogs) ← Parser_Parse p benchData [];
    Ret ((None, es, benchLogs), s)
  end.
End pipeline.

(** The logs already collected play no part in parsing. *)
Lemma parse_rune_logs p logs ir :
  parse_rune (p, logs) ir = '(p', new) ← parse_rune (p, []) ir; Ret (p', logs ++ new).
Proof.
  destruct ir as [i r]. cbn [parse_rune]. destruct (r =? #x0a).
  - by destruct (consumeLog p).
  - destruct (next p r); [|done]. cbn [mbind go_bind]. by rewrite app_nil_r.
Qed.

Lemma parse_fold_logs rs : ∀ p logs,
  foldM parse_rune (p, logs) rs =
    '(p', new) ← foldM parse_rune (p, []) rs; Ret (p', logs ++ new).
Proof.
  induction rs as [|ir rs IH]; intros p logs; [cbn; by rewrite app_nil_r|].
  cbn [foldM]. rewrite parse_rune_logs.
  destruct (parse_rune (p, []) ir) as [[p1 new]|]; [|done]. cbn [mbind go_bind].
  rewrite (IH p1 (logs ++ new)), (IH p1 new).
  destruct (foldM parse_rune (p1, []) rs) as [[p2 new2]|]; [|done]. cbn [mbind go_bind].
  by rewrite app_assoc.
Qed.

Lemma Parser_Parse_logs p chunk logs :
  Parser_Parse p chunk logs = '(p', new) ← Parser_Parse p chunk []; Ret (p', logs ++ new).
Proof.
  unfold Parser_Parse. rewrite parse_fold_logs.
  destruct (foldM parse_rune _ _) as [[p1 new]|]; [|done]. cbn [mbind go_bind].
  by destruct (slice_from _ _).
Qed.

Lemma parse_chunks_logs chunks : ∀ p logs,
  parse_chunks p chunks logs = '(p', new) ← parse_chunks p chunks []; Ret (p', logs ++ new).
Proof.
  unfold parse_chunks. induction chunks as [|c cs IH]; intros p logs; [cbn; by rewrite app_nil_r|].
  cbn [foldM]. rewrite Parser_Parse_logs.
  destruct (Parser_Parse p c []) as [[p1 new]|]; [|done]. cbn [mbind go_bind].
  rewrite (IH p1 (logs ++ new)), (IH p1 new).
  destruct (foldM _ (p1, []) cs) as [[p2 new2]|]; [|done]. cbn [mbind go_bind].
  by rewrite app_assoc.
Qed.

(** The reads of a source that ends well. *)
Definition source (chunks : list gostring) : reads :=
  ((λ c, (c, None)) <$> chunks) ++ [([], Some EOF)].

(** Parsing everything first and delivering the logs afterwards. *)
Lemma read_loop_batch {S} (call : Log → stgo S (option error)) chunks : ∀ p q logs s,
  parse_chunks p chunks [] = Ret (q, logs) →
  read_loop call p (source chunks) s =
    (e ← deliver call logs; mret (Exited (exit_error e))) s.
Proof.
  induction chunks as [|c cs IH]; intros p q logs s.
  { intros [= <- <-]. done. }
  unfold parse_chunks. cbn [foldM]. destruct (Parser_Parse p c []) as [[p1 new]|] eqn:E; [|done].
  cbn [mbind go_bind]. fold (parse_chunks p1 cs new). rewrite parse_chunks_logs.
  destruct (parse_chunks p1 cs []) as [[p2 new2]|] eqn:E2; [|done]. cbn [mbind go_bind].
  intros [= <- <-]. unfold source. cbn [fmap list_fmap app read_loop]. rewrite E.
  cbn [mbind go_bind].
  unfold mbind, stgo_bind. rewrite deliver_app. unfold and_then, mbind, stgo_bind.
  destruct (deliver call new s) as [[[e|] s']|]; cbn; try done.
  fold (source cs). by rewrite (IH p1 p2 new2 s').
Qed.

(** Every outcome of the loop: the reads that went well, the logs they contain, and
    why the loop stopped. *)
Definition loop_outcome {S} (call : Log → stgo S (option error)) (p : Parser) (rs : reads)
    (s : S) (o : outcome) (s' : S) : Prop :=
  ∃ chunks rest q logs,
    rs = ((λ c, (c, None)) <$> chunks) ++ rest ∧ parse_chunks p chunks [] = Ret (q, logs) ∧
    ((rest = [] ∧ o = Reading q ∧ deliver call logs s = Ret (None, s')) ∨
     (∃ bytes e rest', rest = (bytes, Some e) :: rest' ∧
        o = Exited (exit_error (Some e)) ∧ deliver call logs s = Ret (None, s')) ∨
     (∃ e, o = Exited (exit_error (Some e)) ∧ deliver call logs s = Ret (Some e, s'))).

Lemma read_loop_outcome {S} (call : Log → stgo S (option error)) rs : ∀ p s o s',
  read_loop call p rs s = Ret (o, s') → loop_outcome call p rs s o s'.
Proof.
  induction rs as [|[c [e|]] rs IH]; intros p s o s'; cbn [read_loop].
  - intros [= <- <-]. exists [], [], p, []. do 2 (split; [done|]). left. done.
  - intros [= <- <-]. exists [], ((c, Some e) :: rs), p, []. do 2 (split; [done|]).
    right; left. by exists c, e, rs.
  - destruct (Parser_Parse p c []) as [[p1 new]|] eqn:E; [|done]. cbn [mbind go_bind].
    unfold mbind, stgo_bind. destruct (deliver call new s) as [[[e|] s1]|] eqn:Ed; cbn; try done.
    + intros [= <- <-]. exists [c], rs, p1, new. unfold parse_chunks. cbn [foldM].
      rewrite E. cbn [mbind go_bind foldM].
      do 2 (split; [done|]). right; right. by exists e.
    + intros (chunks & rest & q & logs & -> & Hparse & Hcase)%IH.
      assert (∀ r, deliver call logs s1 = r → deliver call (new ++ logs) s = r) as Hd.
      { intros r <-. rewrite deliver_app. unfold and_then, mbind, stgo_bind. by rewrite Ed. }
      exists (c :: chunks), rest, q, (new ++ logs). split; [done|split].
      * unfold parse_chunks. cbn [foldM]. rewrite E. cbn [mbind go_bind].
        fold (parse_chunks p1 chunks new). by rewrite parse_chunks_logs, Hparse.
      * destruct Hcase as [(-> & -> & ?)|[(b & e & rest' & -> & -> & ?)|(e & -> & ?)]].
        { left. auto. }
        { right; left. exists b, e, rest'. auto. }
        { right; right. exists e. auto. }
Qed.

Lemma bench_repeat {S} `{Collector S} n data logs s :
  Parser_Parse NewParser data [] = Ret (NewParser, logs) →
  benchFullPipeline n data NewParser s =
    (es ← benchLuaScriptOnly n logs; mret (es, NewParser)) s.
Proof.
  intros Hparse. unfold benchLuaScriptOnly. revert s.
  induction n as [|n IH]; intros s; [done|].
  cbn [benchFullPipeline iterations]. unfold mbind, stgo_bind at 1 3 4.
  unfold bench_parse. rewrite Hparse. cbn [mbind go_bind].
  unfold mbind, stgo_bind. destruct (deliver_all logs s) as [[es s1]|]; [|done]. cbn.
  rewrite IH. unfold mbind, stgo_bind.
  by destruct (iterations n (deliver_all logs) s1) as [[es' s2]|].
Qed.

(** ** Properties *)

(** A collector that records the logs it is given, and fails on some of them. *)
Module Recorder.
Section recorder.
Context (prot : bool) (fails : Log → bool).
Definition record (l : Log) : stgo (list Log) (option error) := λ s,
  Ret (if fails l then Some (Err (str "on_log failed")) else None, s ++ [l]).
#[local] Instance recorder : Collector (list Log) :=
  {| ProtectedMode := λ _, prot; CallOnLog := record; ProtectedCallOnLog := record |}.
End recorder.
End Recorder.

(** C29: Reading and delivering chunk by chunk amounts to parsing all the chunks and
    delivering their logs in order, up to the first error of the collector: when the
    source ends with [io.EOF] the pipeline exits with that error, or with none. *)
Theorem pipeline_delivers_in_order {S} `{Collector S} (chunks : list gostring)
    (q : Parser) (logs : list Log) (s : S)
    (Hparse : parse_chunks NewParser chunks [] = Ret (q, logs)) :
  runPipeline (source chunks) s =
    (e ← deliver (pipeline_call s) logs; mret (Exited (exit_error e))) s.
Proof.
  unfold runPipeline, pipeline_call. unfold mbind at 1, stgo_bind at 1, get. cbn.
  destruct (ProtectedMode s); by eapply read_loop_batch.
Qed.

Lemma pipeline_delivers_in_order_witness :
  @runPipeline _ (Recorder.recorder false (λ l, bool_decide (Level l = str "INFO")))
    (source [take 50 (Tests.log1 ++ Tests.log3 ++ Tests.log1);
             drop 50 (Tests.log1 ++ Tests.log3 ++ Tests.log1)]) [] =
  Ret (Exited (Some (Err (str "on_log failed"))), [Tests.expected1; Tests.expected3]).
Proof.
  rewrite (pipeline_delivers_in_order _ NewParser
    [Tests.expected1; Tests.expected3; Tests.expected1]); vm_compute; reflexivity.
Defined.

(** C8: End to end: the texts of printable logs, one per line and read in chunks of
    any size, reach the collector as the logs they were written from, each one once
    and in order. *)
Theorem pipeline_end_to_end {S} `{Collector S} (ls : list Log) (chunks : list gostring) (s : S)
    (Hls : forallb printable ls = true)
    (Hchunks : concat chunks = flat_map (λ l, String l ++ [x0a]) ls) :
  runPipeline (source chunks) s =
    (e ← deliver (pipeline_call s) (map reread ls); mret (Exited (exit_error e))) s.
Proof.
  assert (parse_chunks NewParser chunks [] = Ret (NewParser, [] ++ map reread ls)) as Hparse.
  { change NewParser with (parked fresh). apply parse_chunks_parked; [apply settled_fresh|].
    rewrite Hchunks. by apply tscan_Strings. }
  unfold runPipeline, pipeline_call. unfold mbind at 1, stgo_bind at 1, get. cbn.
  destruct (ProtectedMode s); by eapply read_loop_batch.
Qed.

Lemma pipeline_end_to_end_witness :
  let text := String example_log ++ [x0a] ++ String Serialize.Tests.serLog ++ [x0a] in
  @runPipeline _ (Recorder.recorder true (λ _, false))
    (source [take 33 text; take 70 (drop 33 text); drop 103 text]) [] =
  Ret (Exited None, map reread [example_log; Serialize.Tests.serLog]).
Proof.
  cbv zeta. rewrite (pipeline_end_to_end [example_log; Serialize.Tests.serLog]);
    vm_compute; reflexivity.
Defined.

(** Every run of the pipeline delivers exactly the logs of the reads before the
    one that failed - all of them without an error of the collector, or up to its
    first error, which ends the run - and the bytes of a read that reports an error
    are never parsed. *)
Theorem pipeline_outcomes {S} `{Collector S} (rs : reads) (s s' : S) (o : outcome)
    (Hrun : runPipeline rs s = Ret (o, s')) :
  loop_outcome (pipeline_call s) NewParser rs s o s'.
Proof.
  revert Hrun. unfold runPipeline, pipeline_call. unfold mbind at 1, stgo_bind at 1, get. cbn.
  destruct (ProtectedMode s); apply read_loop_outcome.
Qed.

Lemma pipeline_outcomes_witness :
  loop_outcome (@pipeline_call _ (Recorder.recorder false (λ _, false)) []) NewParser
    [(Tests.log1, None); (Tests.log3, Some EOF)] [] (Exited None) [Tests.expected1].
Proof.
  apply (@pipeline_outcomes _ (Recorder.recorder false (λ _, false))).
  vm_compute. reflexivity.
Defined.

(** A reader may return the last bytes together with [io.EOF]; [runPipeline]
    looks at the error first and drops them, complete lines included. *)
Theorem pipeline_drops_final_read {S} `{Collector S} (bytes : gostring) (rest : reads) (s : S) :
  runPipeline ((bytes, Some EOF) :: rest) s = Ret (Exited None, s).
Proof.
  unfold runPipeline, mbind, stgo_bind, get. cbn. by destruct (ProtectedMode s).
Qed.

(** The mode is sampled once: a pipeline that starts unprotected never makes a
    protected call, whatever the script sets later. *)
Theorem pipeline_mode_is_fixed {S} (mode : S → bool)
    (call pcall pcall' : Log → stgo S (option error)) (rs : reads) (s : S)
    (Hmode : mode s = false) :
  @runPipeline S (Build_Collector S mode call pcall) rs s =
  @runPipeline S (Build_Collector S mode call pcall') rs s.
Proof. unfold runPipeline, mbind, stgo_bind, get. cbn. by rewrite Hmode. Qed.

(** The script turns the protected mode on at the first log. *)
Lemma pipeline_mode_is_fixed_witness :
  let call := λ (l : Log) (b : bool), Ret (None : option error, true) in
  let pcall := λ (l : Log) (b : bool), Ret (Some (Err []), b) in
  @runPipeline bool (Build_Collector bool id call pcall) (source [Tests.log1 ++ Tests.log3]) false =
  @runPipeline bool (Build_Collector bool id call call) (source [Tests.log1 ++ Tests.log3]) false.
Proof. apply pipeline_mode_is_fixed. reflexivity. Defined.

(** The full benchmark on a text that ends with a newline makes, in each
    iteration, the calls the script benchmark makes on the parsed logs. *)
Theorem bench_full_is_script_only {S} `{Collector S} (n : nat) (text : gostring) (s : S) :
  ∃ logs, Parse (text ++ [x0a]) = Ret logs ∧
    benchFullPipeline n (text ++ [x0a]) NewParser s =
      (es ← benchLuaScriptOnly n logs; mret (es, NewParser)) s.
Proof.
  destruct (Parser_Parse_newline NewParser text [] at_rest_new) as [logs Hparse]; [done|].
  exists logs. unfold Parse. rewrite Hparse. split; [done|]. by apply bench_repeat.
Qed.
