(* ===== verification/DirReader.v ===== *)
(** * The directory reader (cmd/logd/watcher.go)

    [DirReader] watches directories and reads the data appended to their files.
    Its table of files is a map from names to pointers, some of which are nil, so a
    lookup has three outcomes; a nil pointer that is followed is a panic.  The
    operating system and the fsnotify watcher are an interface, [OS]; the walk of a
    directory is Go's [filepath.Walk] over the tree the file system shows. *)

From stdpp Require Import gmap.
From S2P Require Import Prelude GoString.
Open Scope Z_scope.

(** ** The operating system *)

(** What [filepath.Walk] finds, each node with the path it is reported under.
    [Unreadable] is a node for which the callback receives an error. *)
Inductive tree : Type :=
  | Regular (path : gostring)
  | Special (path : gostring)
  | Unreadable (path : gostring) (e : error)
  | Dir (path : gostring) (children : list tree).

(** The system calls and watcher methods the reader makes, over a world [W] with
    file handles [FD] and file informations [Info]. *)
Class OS (W FD Info : Type) := {
  os_open : gostring → W → (FD + error) * W;
  os_stat : FD → W → (Info + error) * W;
  os_seek_end : FD → W → option error * W;
  os_read : FD → nat → W → (gostring * option error) * W;
  os_close : FD → W → option error * W;
  is_regular : Info → bool;
  watcher_add : gostring → W → option error * W;
  watcher_remove : gostring → W → option error * W;
  watcher_close : W → option error * W;
  dir_tree : gostring → W → tree
}.

(** What the documentation of [os.File] says of an open file: the file has contents and the
    handle a position; a new handle is at the beginning, seeking moves it to the end, and
    reading returns bytes from the position on - at most as many as the buffer holds, and
    some unless there are none or the buffer is empty - and moves it behind them. *)
Class OSLaws (W FD Info : Type) `{OS W FD Info} := {
  data : FD → W → gostring;
  pos : FD → W → nat;
  open_law name w f w' : os_open name w = (inl f, w') → pos f w' = 0%nat;
  stat_law f w i w' : os_stat f w = (i, w') → data f w' = data f w ∧ pos f w' = pos f w;
  seek_end_law f w w' : os_seek_end f w = (None, w') →
    data f w' = data f w ∧ pos f w' = length (data f w);
  read_law f cap w bytes err w' :
    os_read f cap w = ((bytes, err), w') → err = None ∨ err = Some EOF →
    bytes `prefix_of` drop (pos f w) (data f w) ∧ (length bytes <= cap)%nat ∧
    (bytes = [] → cap = 0%nat ∨ drop (pos f w) (data f w) = []) ∧
    data f w' = data f w ∧ pos f w' = (pos f w + length bytes)%nat
}.

(** What arrives on the channels of the watcher. *)
Inductive watch_event : Type :=
  | Event (name : gostring) (op : Z)
  | WatchError (e : option error).

(** fsnotify's operation bits. *)
Definition op_Create : Z := 1.
Definition op_Write : Z := 2.
Definition op_Remove : Z := 4.

Definition has_op (op bit : Z) : bool := Z.land op bit =? bit.

(** ** The reader *)

Section reader.
Context {W FD Info : Type} `{OS W FD Info}.

Record watchFile : Type := mkWatchFile { fd : FD; info : Info }.

(** [files] is nil until [Init] and after [Close]; its values may be nil. *)
Record DirReader : Type := mkReader {
  files : option (gmap gostring (option watchFile));
  tail : bool
}.

Record dstate : Type := mkD { reader : DirReader; world : W }.

Abbreviation M := (stgo dstate).

(** A system call. *)
Definition call {A} (f : W → A * W) : M A := λ s,
  let '(a, w) := f (world s) in Ret (a, mkD (reader s) w).

(** [d.files[name]], with its [ok]: reading a nil map finds nothing. *)
Definition find (name : gostring) : M (option (option watchFile)) := λ s,
  Ret (files (reader s) ≫= (.!! name), s).

(** [d.files[name] = w]: writing to a nil map panics. *)
Definition store (name : gostring) (w : option watchFile) : M () := λ s,
  match files (reader s) with
  | None => Panic NilMapWrite
  | Some m => Ret (tt, mkD (mkReader (Some (<[name := w]> m)) (tail (reader s))) (world s))
  end.

(** [*p]. *)
Definition deref (p : option (option watchFile)) : M watchFile :=
  match p with
  | Some (Some w) => mret w
  | _ => gopanics NilDereference
  end.

(** [d.Init()]; creating the watcher may fail, after the map has been made. *)
Definition Init (new_watcher : option error) : M (option error) := λ s,
  Ret (new_watcher, mkD (mkReader (Some ∅) true) (world s)).

Definition addFile (name : gostring) : M (option error) :=
  found ← find name;
  match found with
  | Some _ => mret None
  | None =>
    f ← call (os_open name);
    match f with
    | inr err => mret (Some err)
    | inl f =>
      i ← call (os_stat f);
      match i with
      | inr err => mret (Some err)
      | inl i =>
        s ← get;
        err ← (if tail (reader s) then call (os_seek_end f) else mret None);
        _ ← store name (Some (mkWatchFile f i));
        mret err
      end
    end
  end.

(** The callbacks of a walk, in order. [scanFiles] calls itself on every
    subdirectory the walk comes across, and the walk then goes on into it. *)
Fixpoint walk (t : tree) : M (option error) :=
  match t with
  | Regular path => addFile path
  | Special _ => mret None
  | Unreadable _ err => mret (Some err)
  | Dir _ children =>
    let fix walk_all (ts : list tree) : M (option error) :=
      match ts with
      | [] => mret None
      | t :: ts' => walk t;? walk_all ts'
      end in
    (* d.scanFiles(path) *)
    walk_all children;?
    (* the descent of the walk itself *)
    walk_all children
  end.

Fixpoint walk_all (ts : list tree) : M (option error) :=
  match ts with
  | [] => mret None
  | t :: ts' => walk t;? walk_all ts'
  end.

(** [d.scanFiles(dir)] on the tree found at [dir]. *)
Definition scanFiles (t : tree) : M (option error) :=
  match t with
  | Dir _ children => walk_all children
  | _ => walk t
  end.

(** [d.Watch(dir)]. *)
Definition Watch (dir : gostring) : M (option error) :=
  call (watcher_add dir);?
  (s ← get; scanFiles (dir_tree dir (world s))).

Definition removeFile (name : gostring) : M (option error) :=
  p ← find name;
  w ← deref p;
  err ← call (os_close (fd w));
  match err with
  | Some _ => mret err
  | None => _ ← store name None; mret None
  end.

(** [d.Remove(name)]. *)
Definition Remove (name : gostring) : M (option error) :=
  removeFile name;? call (watcher_remove name).

Definition readFile (name : gostring) (cap : nat) : M (gostring * option error) :=
  p ← find name;
  w ← deref p;
  '(bytes, err) ← call (os_read (fd w) cap);
  mret (bytes, if decide (err = Some EOF) then None else err).

Definition getFileInfo (name : gostring) : M (Info + error) :=
  p ← find name;
  match p with
  | Some (Some w) => mret (inl (info w))
  | _ =>
    err ← addFile name;
    match err with
    | Some e => mret (inr e)
    | None => p ← find name; w ← deref p; mret (inl (info w))
    end
  end.

(** The outcome of [Read] when the given events arrive: what it returns, and the
    events left, or that it is still waiting. *)
Inductive read_outcome : Type :=
  | Returned (bytes : gostring) (err : option error) (rest : list watch_event)
  | Waiting.

(** [d.Read(buf)] with a buffer of [cap] bytes. *)
Fixpoint Read (cap : nat) (events : list watch_event) : M read_outcome :=
  match events with
  | [] => mret Waiting
  | WatchError err :: rest => mret (Returned [] err rest)
  | Event name op :: rest =>
    fi ← getFileInfo name;
    match fi with
    | inr err => mret (Returned [] (Some err) rest)
    | inl fi =>
      if is_regular fi && has_op op op_Write then
        '(bytes, err) ← readFile name cap;
        mret (Returned bytes err rest)
      else if has_op op op_Remove then
        err ← Remove name;
        match err with
        | Some _ => mret (Returned [] err rest)
        | None => Read cap rest
        end
      else if has_op op op_Create then
        err ← Watch name;
        match err with
        | Some _ => mret (Returned [] err rest)
        | None => Read cap rest
        end
      else Read cap rest
    end
  end.

(** The loop of [Close] over the values of the map, in the order Go visits them. *)
Fixpoint close_all (ws : list (option watchFile)) : M (option error) :=
  match ws with
  | [] => mret None
  | w :: ws' => (w ← deref (Some w); call (os_close (fd w)));? close_all ws'
  end.

(** [d.Close()]; [order] lists the map in the order it is iterated. *)
Definition Close (order : list (option watchFile)) : M (option error) :=
  close_all order;?
  ((λ s, Ret (tt, mkD (mkReader None (tail (reader s))) (world s))) ≫= λ _ : (),
   call watcher_close).
End reader.

Arguments watchFile : clear implicits.
Arguments DirReader : clear implicits.
Arguments dstate : clear implicits.

(** ** Scanning as a list of additions *)

Inductive item : Type :=
  | Add (path : gostring)
  | FailWith (e : error).

Fixpoint items_of (t : tree) : list item :=
  match t with
  | Regular path => [Add path]
  | Special _ => []
  | Unreadable _ e => [FailWith e]
  | Dir _ children => flat_map items_of children
  end.

Lemma tree_nested_ind (P : tree → Prop) :
  (∀ path, P (Regular path)) → (∀ path, P (Special path)) →
  (∀ path e, P (Unreadable path e)) →
  (∀ path children, Forall P children → P (Dir path children)) → ∀ t, P t.
Proof.
  intros Hr Hs Hu Hd. fix IH 1.
  intros [path|path|path e|path children]; [apply Hr|apply Hs|apply Hu|].
  apply Hd. induction children as [|t ts IHts]; constructor; [apply IH|apply IHts].
Qed.

(** Go's error blocks, pointwise. *)
Lemma and_then_assoc {S} (m k j : stgo S (option error)) s :
  ((m;? k);? j) s = (m;? (k;? j)) s.
Proof.
  unfold and_then, mbind, stgo_bind. by destruct (m s) as [[[e|] s']|].
Qed.

Lemma and_then_ext {S} (m m' k k' : stgo S (option error)) s :
  m s = m' s → (∀ s', k s' = k' s') → (m;? k) s = (m';? k') s.
Proof.
  unfold and_then, mbind, stgo_bind. intros -> Hk. by destruct (m' s) as [[[e|] s']|]; cbn.
Qed.

Lemma and_then_None {S} (m k : stgo S (option error)) s s' :
  (m;? k) s = Ret (None, s') → ∃ s1, m s = Ret (None, s1) ∧ k s1 = Ret (None, s').
Proof.
  unfold and_then, mbind, stgo_bind. destruct (m s) as [[[e|] s1]|]; cbn; naive_solver.
Qed.

Section scanning.
Context {W FD Info : Type} `{OS W FD Info}.
Implicit Types s : dstate W FD Info.

Definition entry (name : gostring) s : option (option (watchFile FD Info)) :=
  files (reader s) ≫= (.!! name).

(** [name] is a key of the map. *)
Definition tracked (name : gostring) s : Prop := is_Some (entry name s).

(** [name] is a key with a nil value. *)
Definition removed (name : gostring) s : Prop := entry name s = Some None.

(** The map changes only by gaining keys. *)
Definition grows s s' : Prop :=
  tail (reader s') = tail (reader s) ∧
  ∀ name w, entry name s = Some w → entry name s' = Some w.

#[global] Instance grows_preorder : PreOrder grows.
Proof.
  split; [by split|]. intros s1 s2 s3 [? ?] [? ?]. split; [congruence|auto].
Qed.

Fixpoint add_items (its : list item) : stgo (dstate W FD Info) (option error) :=
  match its with
  | [] => mret None
  | Add path :: its' => addFile path;? add_items its'
  | FailWith e :: _ => mret (Some e)
  end.

Lemma addFile_tracked name s : tracked name s → addFile name s = Ret (None, s).
Proof.
  intros [w Hw]. unfold addFile, mbind, stgo_bind, find. cbn. unfold entry in Hw.
  by rewrite Hw.
Qed.

(** What a successful or failed [addFile] leaves behind. *)
Lemma addFile_grows name s r s' :
  addFile name s = Ret (r, s') →
  grows s s' ∧ (∀ q, q ≠ name → entry q s' = entry q s) ∧ (r = None → tracked name s').
Proof.
  unfold addFile, mbind, stgo_bind, find, call. cbn. fold (entry name s).
  destruct (entry name s) as [w|] eqn:Hw; cbn.
  { intros [= <- <-]. split_and!; [done|done|]. intros _. by exists w. }
  destruct (os_open name (world s)) as [[f|e] w1]; cbn; [|by intros [= <- <-]].
  destruct (os_stat f w1) as [[i|e] w2]; cbn; [|by intros [= <- <-]].
  destruct (tail (reader s)) eqn:Ht; cbn.
  1: destruct (os_seek_end f w2) as [e w3]; cbn.
  all: unfold store; cbn; unfold entry in *; destruct (files (reader s)) as [m|] eqn:Hm;
    cbn in *; [|done].
  all: intros [= <- <-]; unfold grows, tracked, entry; cbn; rewrite Hm, Ht; cbn.
  all: split_and!; [done|..].
  all: try (intros q Hq; by rewrite lookup_insert_ne).
  all: try (intros _; rewrite lookup_insert_eq; eauto).
  all: intros q v Hq; destruct (decide (q = name)) as [->|]; [congruence|].
  all: by rewrite lookup_insert_ne.
Qed.

Lemma grows_tracked name s s' : grows s s' → tracked name s → tracked name s'.
Proof. intros [_ Hg] [w Hw]. exists w. auto. Qed.

Lemma add_items_app its1 its2 s :
  add_items (its1 ++ its2) s = (add_items its1;? add_items its2) s.
Proof.
  revert s. induction its1 as [|[path|e] its1 IH]; intros s; [done| |done].
  cbn [app add_items]. rewrite and_then_assoc. by apply and_then_ext.
Qed.

Lemma add_items_ok its : ∀ s s',
  add_items its s = Ret (None, s') →
  grows s s' ∧ (∀ q, Add q ∉ its → entry q s' = entry q s) ∧
  Forall (λ i, ∃ path, i = Add path ∧ tracked path s') its.
Proof.
  induction its as [|[path|e] its IH]; intros s s'; cbn [add_items].
  - intros [= <-]. split_and!; [done|done|constructor].
  - intros (s1 & H1 & H2)%and_then_None. apply addFile_grows in H1 as (Hg1 & Hf1 & Ht1).
    apply IH in H2 as (Hg2 & Hf2 & Hall). split_and!.
    + by etrans.
    + intros q [Hne Hq]%not_elem_of_cons. rewrite Hf2 by done. apply Hf1. congruence.
    + constructor; [|done]. exists path. split; [done|]. eapply grows_tracked; eauto.
  - done.
Qed.

Lemma add_items_again its s :
  Forall (λ i, ∃ path, i = Add path ∧ tracked path s) its → add_items its s = Ret (None, s).
Proof.
  induction 1 as [|i its (path & -> & Ht) _ IH]; [done|]. cbn [add_items].
  unfold and_then, mbind, stgo_bind. by rewrite addFile_tracked.
Qed.

(** A second pass over the same files does nothing. *)
Lemma add_items_twice its s : (add_items its;? add_items its) s = add_items its s.
Proof.
  unfold and_then, mbind, stgo_bind. destruct (add_items its s) as [[[e|] s']|] eqn:E; try done.
  cbn. apply add_items_again. by apply add_items_ok in E as (_ & _ & Hall).
Qed.

Lemma walk_Dir path children : walk (Dir path children) = (walk_all children;? walk_all children).
Proof. reflexivity. Qed.

Lemma walk_all_items ts s :
  Forall (λ t, ∀ s, walk t s = add_items (items_of t) s) ts →
  walk_all ts s = add_items (flat_map items_of ts) s.
Proof.
  intros Hts. revert s. induction Hts as [|t ts Ht _ IH]; intros s; [done|].
  cbn [walk_all flat_map]. rewrite add_items_app. by apply and_then_ext.
Qed.

Lemma walk_items t : ∀ s, walk t s = add_items (items_of t) s.
Proof.
  induction t as [path|path|path e|path ts IH] using tree_nested_ind; intros s.
  - cbn. unfold and_then, mbind, stgo_bind. by destruct (addFile path s) as [[[e|] s']|].
  - done.
  - done.
  - rewrite walk_Dir. cbn [items_of]. rewrite <- add_items_twice.
    apply and_then_ext; intros; by apply walk_all_items.
Qed.

Lemma scanFiles_items t s : scanFiles t s = add_items (items_of t) s.
Proof.
  destruct t; try apply walk_items. cbn. apply walk_all_items, Forall_forall.
  intros t _. apply walk_items.
Qed.
End scanning.

(** ** Every operation only adds to the map *)

Section growth.
Context {W FD Info : Type} `{OS W FD Info}.
Implicit Types s : dstate W FD Info.

(** A computation that never forgets a nil entry: [removed] is for ever. *)
Definition keeps_removed {A} (m : stgo (dstate W FD Info) A) : Prop :=
  ∀ name s a s', m s = Ret (a, s') → removed name s → removed name s'.

Lemma keeps_mret {A} (a : A) : keeps_removed (mret a).
Proof. intros name s b s' [= <- <-]. done. Qed.

Lemma keeps_bind {A B} (m : stgo _ A) (f : A → stgo _ B) :
  keeps_removed m → (∀ a, keeps_removed (f a)) → keeps_removed (m ≫= f).
Proof.
  intros Hm Hf name s b s'. unfold mbind, stgo_bind.
  destruct (m s) as [[a s1]|] eqn:E; [|done]. cbn. intros Hb Hr.
  eapply Hf; [exact Hb|]. by eapply Hm.
Qed.

Lemma keeps_and_then (m k : stgo _ (option error)) :
  keeps_removed m → keeps_removed k → keeps_removed (m;? k).
Proof. intros Hm Hk. apply keeps_bind; [done|]. intros [e|]; [apply keeps_mret|done]. Qed.

Lemma keeps_call {A} (f : W → A * W) : keeps_removed (call f).
Proof. intros name s a s'. unfold call. destruct (f (world s)) as [b w]. by intros [= <- <-]. Qed.

Lemma keeps_find name : keeps_removed (find name).
Proof. by intros q s a s' [= <- <-]. Qed.

Lemma keeps_deref w : keeps_removed (deref w).
Proof. destruct w as [[w|]|]; intros q s a s'; [by intros [= <- <-]|done..]. Qed.

Lemma keeps_addFile name : keeps_removed (addFile name).
Proof. intros q s a s' Hadd Hr. by apply addFile_grows in Hadd as ([_ Hg] & _ & _); apply Hg. Qed.

Lemma keeps_add_items its : keeps_removed (add_items its).
Proof.
  induction its as [|[path|e] its IH]; [apply keeps_mret| |apply keeps_mret].
  apply keeps_and_then; [apply keeps_addFile|done].
Qed.

Lemma keeps_Watch dir : keeps_removed (Watch dir).
Proof.
  apply keeps_and_then; [apply keeps_call|]. intros name s a s'.
  unfold mbind, stgo_bind, get. cbn. rewrite scanFiles_items. apply keeps_add_items.
Qed.

(** [d.files[name] = nil] is what makes an entry nil. *)
Lemma keeps_store_nil name : keeps_removed (store name None).
Proof.
  intros q s a s'. unfold store, removed, entry. destruct (files (reader s)) as [m|]; [|done].
  intros [= <- <-]. cbn. destruct (decide (q = name)) as [->|].
  - by rewrite lookup_insert_eq.
  - by rewrite lookup_insert_ne.
Qed.

Lemma keeps_removeFile name : keeps_removed (removeFile name).
Proof.
  apply keeps_bind; [apply keeps_find|]. intros w. apply keeps_bind; [apply keeps_deref|].
  intros f. apply keeps_bind; [apply keeps_call|]. intros [e|]; [apply keeps_mret|].
  apply keeps_bind; [apply keeps_store_nil|]. intros _. apply keeps_mret.
Qed.

Lemma keeps_getFileInfo name : keeps_removed (getFileInfo name).
Proof.
  apply keeps_bind; [apply keeps_find|]. intros w.
  assert (keeps_removed (err ← addFile name;
    match err with
    | Some e => mret (inr e)
    | None => p ← find name; w ← deref p; mret (inl (info w))
    end)) as Hadd.
  { apply keeps_bind; [apply keeps_addFile|]. intros [e|]; [apply keeps_mret|].
    apply keeps_bind; [apply keeps_find|]. intros p. apply keeps_bind; [apply keeps_deref|].
    intros f. apply keeps_mret. }
  destruct w as [[w|]|]; [apply keeps_mret|apply Hadd..].
Qed.

Lemma keeps_readFile name cap : keeps_removed (readFile name cap).
Proof.
  apply keeps_bind; [apply keeps_find|]. intros w. apply keeps_bind; [apply keeps_deref|].
  intros f. apply keeps_bind; [apply keeps_call|]. intros [b e]. apply keeps_mret.
Qed.

Lemma keeps_Read cap events : keeps_removed (Read cap events).
Proof.
  induction events as [|[name op|e] rest IH]; cbn [Read]; [apply keeps_mret| |apply keeps_mret].
  apply keeps_bind; [apply keeps_getFileInfo|]. intros [fi|e]; [|apply keeps_mret].
  destruct (is_regular fi && has_op op op_Write).
  { apply keeps_bind; [apply keeps_readFile|]. intros [b e]. apply keeps_mret. }
  destruct (has_op op op_Remove).
  { apply keeps_bind; [apply keeps_and_then; [apply keeps_removeFile|apply keeps_call]|].
    intros [e|]; [apply keeps_mret|done]. }
  destruct (has_op op op_Create); [|done].
  apply keeps_bind; [apply keeps_Watch|]. intros [e|]; [apply keeps_mret|done].
Qed.

Lemma removeFile_removed name s s' : removeFile name s = Ret (None, s') → removed name s'.
Proof.
  unfold removeFile, mbind, stgo_bind, find, call, deref. cbn.
  destruct (files (reader s) ≫= (.!! name)) as [[w|]|]; cbn; try done.
  destruct (os_close (fd w) (world s)) as [[e|] w1]; cbn; [done|].
  unfold store, removed, entry. destruct (files (reader s)) as [m|] eqn:Hm; cbn; rewrite Hm; [|done].
  intros [= <-]. cbn. by rewrite lookup_insert_eq.
Qed.

(** Any event about a removed file follows the nil pointer. *)
Lemma Read_removed name s cap op rest :
  removed name s → Read cap (Event name op :: rest) s = Panic NilDereference.
Proof.
  intros Hr. cbn [Read]. unfold getFileInfo, mbind, stgo_bind, find. cbn.
  unfold removed, entry in Hr. rewrite Hr. cbn.
  rewrite addFile_tracked by (unfold tracked, entry; rewrite Hr; eauto). cbn.
  unfold removed, entry in Hr. by rewrite Hr.
Qed.

Lemma close_all_nil ws s s' : None ∈ ws → close_all ws s ≠ Ret (None, s').
Proof.
  revert s. induction ws as [|w ws IH]; intros s; [by intros ?%elem_of_nil|].
  intros Hin. cbn [close_all]. intros (s1 & H1 & H2)%and_then_None.
  apply elem_of_cons in Hin as [<-|Hin]; [done|]. by eapply IH.
Qed.
End growth.

#[export] Hint Resolve keeps_Read keeps_Watch keeps_addFile keeps_removeFile : logd.

(** ** Following a file *)

Section following.
Context {W FD Info : Type} `{HOS : OS W FD Info} `{!OSLaws W FD Info}.
Implicit Types s : dstate W FD Info.

Lemma read_write_event (cap : nat) (name : gostring) (op : Z) (rest : list watch_event)
    s (w : watchFile FD Info)
    (Hfile : entry name s = Some (Some w)) (Hregular : is_regular (info w) = true)
    (Hwrite : has_op op op_Write = true) :
  let '((bytes, err), world') := os_read (fd w) cap (world s) in
  Read cap (Event name op :: rest) s =
    Ret (Returned bytes (if decide (err = Some EOF) then None else err) rest,
         mkD (reader s) world').
Proof.
  destruct (os_read (fd w) cap (world s)) as [[bytes err] world'] eqn:E.
  assert (find name s = Ret (Some (Some w), s)) as Hfind.
  { unfold find. fold (entry name s). by rewrite Hfile. }
  cbn [Read]. unfold getFileInfo, readFile, mbind, stgo_bind. rewrite Hfind.
  cbn [mbind go_bind mret stgo_ret]. rewrite Hregular, Hwrite. cbn [andb]. rewrite Hfind.
  cbn [mbind go_bind deref mret stgo_ret]. unfold call. by rewrite E.
Qed.

(** A file that the reader has added is written to and read: the bytes appended to it and the
    bytes returned since. Between the calls the world may change in any way that appends to the
    file, or does not touch it, and leaves the handle alone. *)
Inductive follows (name : gostring) (w : watchFile FD Info) :
    dstate W FD Info → gostring → gostring → dstate W FD Info → Prop :=
  | follows_start s : follows name w s [] [] s
  | follows_append s a r s' bytes world' :
      follows name w s a r s' →
      data (fd w) world' = data (fd w) (world s') ++ bytes →
      pos (fd w) world' = pos (fd w) (world s') →
      follows name w s (a ++ bytes) r (mkD (reader s') world')
  | follows_read s a r s' s'' cap op bytes rest :
      follows name w s a r s' →
      has_op op op_Write = true →
      Read cap (Event name op :: rest) s' = Ret (Returned bytes None rest, s'') →
      follows name w s a (r ++ bytes) s''.

Lemma Read_follows cap name op rest s s' w bytes :
  entry name s = Some (Some w) → is_regular (info w) = true → has_op op op_Write = true →
  Read cap (Event name op :: rest) s = Ret (Returned bytes None rest, s') →
  bytes `prefix_of` drop (pos (fd w) (world s)) (data (fd w) (world s)) ∧ (length bytes <= cap)%nat ∧
  (bytes = [] → cap = 0%nat ∨ drop (pos (fd w) (world s)) (data (fd w) (world s)) = []) ∧
  data (fd w) (world s') = data (fd w) (world s) ∧
  pos (fd w) (world s') = (pos (fd w) (world s) + length bytes)%nat ∧ reader s' = reader s.
Proof.
  intros Hf Hr Hop HR. pose proof (read_write_event cap name op rest s w Hf Hr Hop) as HE.
  destruct (os_read (fd w) cap (world s)) as [[bs err] w'] eqn:E. rewrite HE in HR.
  injection HR as <- Herr <-.
  assert (err = None ∨ err = Some EOF) as Hok by (destruct (decide (err = Some EOF)); auto).
  destruct (read_law _ _ _ _ _ _ E Hok) as (? & ? & ? & ? & ?). done.
Qed.

(** The bytes returned are those the handle has moved over. *)
Lemma follows_bytes name w s s' a r :
  entry name s = Some (Some w) → is_regular (info w) = true → follows name w s a r s' →
  entry name s' = Some (Some w) ∧
  data (fd w) (world s') = data (fd w) (world s) ++ a ∧
  pos (fd w) (world s') = (pos (fd w) (world s) + length r)%nat ∧
  r = take (length r) (drop (pos (fd w) (world s)) (data (fd w) (world s'))).
Proof.
  intros Hf Hr H. induction H as [s|s a r s' bs w' _ IH Hd Hp|s a r s' s'' cap op bs rest _ IH Hop HR].
  - rewrite app_nil_r. cbn. split_and!; first [done|lia].
  - destruct (IH Hf) as (He & Hdata & Hpos & Hret). split_and!; [done|..]; cbn.
    + by rewrite Hd, Hdata, app_assoc.
    + by rewrite Hp.
    + rewrite Hd. destruct (decide (length r = 0%nat)) as [E|E].
      { apply nil_length_inv in E. by subst. }
      pose proof (f_equal length Hret) as Hl. rewrite length_take, length_drop in Hl.
      rewrite drop_app_le by lia. rewrite take_app_le by (rewrite length_drop; lia). done.
  - destruct (IH Hf) as (He & Hdata & Hpos & Hret).
    destruct (Read_follows _ _ _ _ _ _ _ _ He Hr Hop HR) as (Hpre & _ & _ & Hd & Hp & Hrd).
    split_and!.
    + unfold entry in *. by rewrite Hrd.
    + by rewrite Hd.
    + rewrite Hp, Hpos, length_app. lia.
    + rewrite Hd. rewrite Hpos, <- drop_drop in Hpre. destruct Hpre as [k Hk].
      rewrite <- (take_drop (length r) (drop (pos (fd w) (world s)) _)), <- Hret, Hk.
      rewrite app_assoc. symmetry. apply take_app_length.
Qed.

(** Where [addFile] leaves the handle. *)
Lemma added_position name s s0 w :
  ¬ tracked name s → addFile name s = Ret (None, s0) → entry name s0 = Some (Some w) →
  pos (fd w) (world s0) = if tail (reader s) then length (data (fd w) (world s0)) else 0%nat.
Proof.
  unfold tracked, addFile, mbind, stgo_bind, find, call. intros Hnew. cbn. fold (entry name s).
  destruct (entry name s) as [x|] eqn:Hw; [by destruct Hnew|]. cbn.
  destruct (os_open name (world s)) as [[f|e] w1] eqn:Eo; cbn; [|done].
  destruct (os_stat f w1) as [[i|e] w2] eqn:Es; cbn; [|done].
  apply open_law in Eo. apply stat_law in Es as [_ Es]. rewrite Eo in Es.
  destruct (tail (reader s)) eqn:Ht; cbn.
  - destruct (os_seek_end f w2) as [e w3] eqn:Ek; cbn. unfold store. cbn.
    destruct (files (reader s)) as [m|]; cbn; [|done]. intros [= -> <-]. unfold entry. cbn.
    rewrite lookup_insert_eq. intros [= <-]. cbn. apply seek_end_law in Ek as [Hd Hp].
    by rewrite Hp, Hd.
  - unfold store. cbn. destruct (files (reader s)) as [m|]; cbn; [|done]. intros [= <-].
    unfold entry. cbn. rewrite lookup_insert_eq. by intros [= <-].
Qed.
End following.

(** ** A file system in memory *)

(** Files are names with contents; a handle is a name, whose offset is kept apart. *)
Module MemOS.
Record mem : Type := mkMem {
  disk : gmap gostring gostring;
  offset : gmap gostring nat
}.

Definition contents (name : gostring) (w : mem) : gostring := default [] (disk w !! name).

Definition at_offset (name : gostring) (n : nat) (w : mem) : mem :=
  mkMem (disk w) (<[name := n]> (offset w)).

#[global] Instance mem_os : OS mem gostring () := {|
  os_open name w :=
    match disk w !! name with
    | Some _ => (inl name, at_offset name 0 w)
    | None => (inr (Err (str "no such file or directory")), w)
    end;
  os_stat _ w := (inl tt, w);
  os_seek_end name w := (None, at_offset name (length (contents name w)) w);
  os_read name cap w :=
    let o := default 0%nat (offset w !! name) in
    let bytes := take cap (drop o (contents name w)) in
    ((bytes, if decide (bytes = []) then Some EOF else None),
     at_offset name (o + length bytes) w);
  os_close _ w := (None, w);
  is_regular _ := true;
  watcher_add _ w := (None, w);
  watcher_remove _ w := (None, w);
  watcher_close w := (None, w);
  dir_tree dir w := Dir dir (Regular <$> (map_to_list (disk w)).*1)
|}.

Definition a_log : gostring := str "d/a.log".
Definition b_log : gostring := str "d/sub/b.log".

(** A reader that was just initialized, and one that watches ["d"]. *)
Definition start_reader (contents : gostring) : dstate mem gostring () :=
  mkD (mkReader (Some ∅) true) (mkMem {[ a_log := contents ]} ∅).

(** One file followed by another: the log is rotated. *)
Example rotated_file_panics :
  (o ← Read 100 [Event a_log op_Create; Event a_log op_Remove; Event a_log op_Create];
   mret o) (start_reader (str "x")) = Panic NilDereference.
Proof. vm_compute. reflexivity. Qed.

#[global] Program Instance mem_laws : OSLaws mem gostring () := {|
  data := contents;
  pos name w := default 0%nat (offset w !! name)
|}.
Next Obligation.
  intros name w f w'. cbn. destruct (disk w !! name); [|done]. intros [= <- <-]. cbn.
  by rewrite lookup_insert_eq.
Qed.
Next Obligation. by intros f w i w' [= _ <-]. Qed.
Next Obligation. intros f w w' [= <-]. cbn. by rewrite lookup_insert_eq. Qed.
Next Obligation.
  intros f cap w bytes err w' [= <- _ <-] _. cbn. rewrite lookup_insert_eq. cbn.
  split_and!; [apply prefix_take|rewrite length_take; lia| |done|done].
  destruct cap; [by left|]. destruct (drop _ _); [by right|done].
Qed.

(** What a file holds when its creation is noticed is skipped. *)
Example new_file_contents_skipped :
  ∃ s, Read 100 [Event a_log op_Create; Event a_log op_Write] (start_reader (str "first line"))
       = Ret (Returned [] None [], s).
Proof. eexists. vm_compute. reflexivity. Qed.
End MemOS.

(** ** Properties *)

Section properties.
Context {W FD Info : Type} `{HOS : OS W FD Info}.
Implicit Types s : dstate W FD Info.

(** C13: [scanFiles], which walks every subdirectory twice, once by calling itself
    and once in the walk, adds each file of the tree once and in order: the result,
    the state and the first error are those of a single pass over the list of files. *)
Theorem scan_adds_each_file_once (t : tree) s : scanFiles t s = add_items (items_of t) s.
Proof. apply scanFiles_items. Qed.

(** After a scan without errors every regular file of the tree is tracked, the
    files outside the tree are as before, and what was known of a file - a nil
    entry included - has not changed. *)
Theorem scan_tracks_files (t : tree) s s'
    (Hscan : scanFiles t s = Ret (None, s')) :
  (∀ path, Add path ∈ items_of t → tracked path s') ∧
  (∀ path, Add path ∉ items_of t → entry path s' = entry path s) ∧
  (∀ path w, entry path s = Some w → entry path s' = Some w).
Proof.
  rewrite scanFiles_items in Hscan. apply add_items_ok in Hscan as ([_ Hg] & Hf & Hall).
  split_and!; [|done|done]. intros path Hin. rewrite Forall_forall in Hall.
  apply Hall in Hin as (p & [= ->] & Ht). done.
Qed.

(** C35: From the moment a file is added, what [Read] returns for its write events is what is
    appended to it: after any sequence of appends and of calls of [Read], the bytes returned
    so far are, in order, a prefix of the bytes appended since - nothing of what the file held
    before when the reader is one that tails, which [Init] makes it - and as long as
    they are not all of them, a call with a buffer that is not empty returns some more. *)
Theorem read_returns_appended `{!OSLaws W FD Info} (name : gostring) s s0 s1 (w : watchFile FD Info)
    (appended returned : gostring)
    (Hnew : ¬ tracked name s) (Hadd : addFile name s = Ret (None, s0))
    (Hfile : entry name s0 = Some (Some w)) (Hregular : is_regular (info w) = true)
    (Hfollow : follows name w s0 appended returned s1) :
  let all := (if tail (reader s) then [] else data (fd w) (world s0)) ++ appended in
  returned `prefix_of` all ∧
  ∀ cap op rest bytes s2,
    (0 < cap)%nat → has_op op op_Write = true → returned ≠ all →
    Read cap (Event name op :: rest) s1 = Ret (Returned bytes None rest, s2) →
    bytes ≠ [] ∧ returned ++ bytes `prefix_of` all.
Proof.
  intros all. pose proof (added_position name s s0 w Hnew Hadd Hfile) as Hpos.
  destruct (follows_bytes name w s0 s1 appended returned Hfile Hregular Hfollow)
    as (Hf & Hdata & Hp & Hret).
  assert (all = drop (pos (fd w) (world s0)) (data (fd w) (world s1))) as ->.
  { subst all. rewrite Hdata, Hpos. destruct (tail (reader s)); [by rewrite drop_app_length|done]. }
  split.
  - rewrite Hret. apply prefix_take.
  - intros cap op rest bytes s2 Hcap Hop Hne HR.
    destruct (Read_follows cap name op rest s1 s2 w bytes Hf Hregular Hop HR)
      as (Hpre & _ & Hempty & _).
    rewrite Hp in Hpre, Hempty. split.
    + intros ->. destruct (Hempty eq_refl) as [?|Hd]; [lia|]. apply Hne. rewrite Hret.
      apply take_ge. apply (f_equal length) in Hd. rewrite length_drop in *. cbn in Hd. lia.
    + rewrite <- drop_drop in Hpre. destruct Hpre as [k Hk]. exists k.
      rewrite <- app_assoc, <- Hk. rewrite Hret at 1. symmetry. apply take_drop.
Qed.

(** C36: Removing a file does not forget it: whatever [Read] processes afterwards,
    the next event about a file of that name - the file being created again, as in
    log rotation - follows the nil pointer [removeFile] has left. *)
Theorem recreated_file_panics (name : gostring) s s1 s2 (cap cap' : nat)
    (events rest : list watch_event) (o : read_outcome) (op : Z)
    (Hremove : removeFile name s = Ret (None, s1))
    (Hread : Read cap events s1 = Ret (o, s2)) :
  Read cap' (Event name op :: rest) s2 = Panic NilDereference.
Proof.
  apply removeFile_removed in Hremove. apply Read_removed. by eapply keeps_Read.
Qed.

(** [Close] cannot succeed once a file has been removed, in whatever order the
    map is visited: it returns the error of an earlier file, or follows the nil
    pointer. *)
Theorem close_after_removal_fails (name : gostring) s s1 s' (order : list (option (watchFile FD Info)))
    (Hremove : removeFile name s = Ret (None, s1))
    (Horder : ∀ m, files (reader s1) = Some m → order ≡ₚ (map_to_list m).*2) :
  Close order s1 ≠ Ret (None, s').
Proof.
  apply removeFile_removed in Hremove. unfold removed, entry in Hremove.
  destruct (files (reader s1)) as [m|] eqn:Hm; [|done]. cbn in Hremove.
  unfold Close. intros (s2 & Hclose & _)%and_then_None. revert Hclose.
  apply close_all_nil. rewrite Horder by done. apply list_elem_of_fmap.
  exists (name, None). split; [done|]. by apply elem_of_map_to_list.
Qed.
End properties.

Lemma scan_tracks_files_witness :
  let t := Dir (str "d") [Regular MemOS.a_log; Dir (str "d/sub") [Regular MemOS.b_log; Special (str "d/sub/pipe")]] in
  let s : dstate MemOS.mem gostring () := mkD (mkReader (Some ∅) true)
             (MemOS.mkMem {[ MemOS.a_log := str "x"; MemOS.b_log := str "yz" ]} ∅) in
  ∃ s', scanFiles t s = Ret (None, s') ∧ ∀ path, Add path ∈ items_of t → tracked path s'.
Proof.
  cbv zeta.
  match goal with |- ∃ s', scanFiles ?t ?s = _ ∧ _ =>
    assert (match scanFiles t s with Ret (None, _) => true | _ => false end = true) as Hok
      by (vm_compute; reflexivity);
    destruct (scanFiles t s) as [[[e|] s']|] eqn:Hscan; [discriminate Hok| |discriminate Hok]
  end.
  exists s'. split; [reflexivity|]. exact (proj1 (scan_tracks_files _ _ _ Hscan)).
Defined.

(** A file that holds four bytes is added, [new] is appended, and two bytes are read. *)
Lemma read_returns_appended_witness :
  let w : watchFile gostring () := mkWatchFile MemOS.a_log tt in
  let follow (n : nat) : dstate MemOS.mem gostring () :=
    mkD (mkReader (Some {[ MemOS.a_log := Some w ]}) true)
      (MemOS.mkMem {[ MemOS.a_log := str "old new" ]} {[ MemOS.a_log := n ]}) in
  str "ne" `prefix_of` str "new" ∧
  Read 100 [Event MemOS.a_log op_Write] (follow 6%nat) = Ret (Returned (str "w") None [], follow 7%nat).
Proof.
  intros w follow.
  assert (Read 100 [Event MemOS.a_log op_Write] (follow 6%nat)
    = Ret (Returned (str "w") None [], follow 7%nat)) as HR by (vm_compute; reflexivity).
  refine (_ (read_returns_appended MemOS.a_log (MemOS.start_reader (str "old "))
    (mkD (mkReader (Some {[ MemOS.a_log := Some w ]}) true)
       (MemOS.mkMem {[ MemOS.a_log := str "old " ]} {[ MemOS.a_log := 4%nat ]}))
    (follow 6%nat) w ([] ++ str "new") ([] ++ str "ne") _ _ _ _ _)).
  - intros [Hpre _]. split; [exact Hpre|exact HR].
  - intros [x Hx]. vm_compute in Hx. discriminate Hx.
  - vm_compute. reflexivity.
  - vm_compute. reflexivity.
  - reflexivity.
  - refine (follows_read _ _ _ _ _ (follow 4%nat) _ 2 op_Write _ [] _ eq_refl _).
    + refine (follows_append _ _ _ _ _ _ _ (world (follow 4%nat)) (follows_start _ _ _) _ _);
        vm_compute; reflexivity.
    + vm_compute. reflexivity.
Defined.

Lemma recreated_file_panics_witness :
  let s1 : dstate MemOS.mem gostring () := mkD (mkReader (Some {[ MemOS.a_log := None ]}) true) (MemOS.mkMem ∅ ∅) in
  Read 100 [Event MemOS.a_log op_Create] s1 = Panic NilDereference.
Proof.
  cbv zeta.
  eapply (recreated_file_panics MemOS.a_log
    (mkD (mkReader (Some {[ MemOS.a_log := Some (mkWatchFile MemOS.a_log tt) ]}) true)
       (MemOS.mkMem ∅ ∅)) _ _ 100 100 []); vm_compute; reflexivity.
Defined.

Lemma close_after_removal_fails_witness :
  let s : dstate MemOS.mem gostring () :=
    mkD (mkReader (Some {[ MemOS.a_log := None ]}) true) (MemOS.mkMem ∅ ∅) in
  Close [None] s ≠
    Ret (None, mkD (mkReader None true) (MemOS.mkMem ∅ ∅)).
Proof.
  cbv zeta. eapply (close_after_removal_fails MemOS.a_log
    (mkD (mkReader (Some {[ MemOS.a_log := Some (mkWatchFile MemOS.a_log tt) ]}) true)
       (MemOS.mkMem ∅ ∅))).
  - vm_compute. reflexivity.
  - intros m [= <-]. rewrite map_to_list_singleton. reflexivity.
Defined.
