(* ===== verification/LuaValue.v ===== *)
(** * Lua values and the arguments of builtins (lua/builtin.go, lines 51-107)

    The values a script passes to a builtin, the conversions of the Lua API that the
    [getArg*] helpers make, and the store of logs the pointers of the script refer
    to.  What the Lua library itself does with numbers (parsing, printing) is an
    interface, [LuaNumbers]. *)

From Stdlib Require Import Floats.SpecFloat Numbers.DecimalString.
From S2P Require Import Prelude GoString Log.
Open Scope Z_scope.

(** ** Integers *)

(** [int64] arithmetic wraps around. *)
Definition wrap (bits z : Z) : Z := (z + 2 ^ (bits - 1)) mod 2 ^ bits - 2 ^ (bits - 1).
Definition int32 (z : Z) : Z := wrap 32 z.
Definition int64 (z : Z) : Z := wrap 64 z.

Definition fits (bits z : Z) : bool := (- 2 ^ (bits - 1) <=? z) && (z <? 2 ^ (bits - 1)).

Lemma wrap_fits bits z : 1 <= bits → fits bits (wrap bits z) = true.
Proof.
  intros Hb. unfold fits, wrap.
  assert (2 ^ bits = 2 * 2 ^ (bits - 1)) as Hp
    by (rewrite <- Z.pow_succ_r by lia; f_equal; lia).
  pose proof (Z.mod_pos_bound (z + 2 ^ (bits - 1)) (2 ^ bits) ltac:(lia)). lia.
Qed.

Lemma wrap_id bits z : 1 <= bits → fits bits z = true → wrap bits z = z.
Proof.
  intros Hb. unfold fits, wrap. intros Hz.
  assert (2 ^ bits = 2 * 2 ^ (bits - 1)) as Hp
    by (rewrite <- Z.pow_succ_r by lia; f_equal; lia).
  rewrite Z.mod_small; lia.
Qed.

(** [%d]. *)
Definition itoa (z : Z) : gostring := str (NilEmpty.string_of_int (Z.to_int z)).

(** ** Values *)

(** A [kafka.Message] as the builtins make it; an empty key or value is a nil slice. *)
Record Message := mkMessage {
  msg_topic : gostring;
  msg_partition : Z;
  msg_offset : Z;
  msg_key : option gostring;
  msg_value : option gostring
}.

(** The Go values scripts hold pointers to: logs are shared, and referred to by
    their place in the store; [UOther] is a pointer of any other type. *)
Inductive userdata : Type :=
  | ULog (loc : nat)
  | UMessage (m : Message)
  | UOffset (offset : Z)
  | UOther
  | UNil.

(** [LNone] is the value at an index that holds none; a table is the list of its
    entries in the order [Next] visits them. *)
Inductive lua_value : Type :=
  | LNone
  | LNil
  | LBool (b : bool)
  | LNumber (n : spec_float)
  | LString (s : gostring)
  | LTable (entries : list (lua_value * lua_value))
  | LFunction (id : nat)
  | LUserData (u : userdata).

Definition type_name (v : lua_value) : gostring :=
  match v with
  | LNone => str "no value"
  | LNil => str "nil"
  | LBool _ => str "boolean"
  | LNumber _ => str "number"
  | LString _ => str "string"
  | LTable _ => str "table"
  | LFunction _ => str "function"
  | LUserData _ => str "userdata"
  end.

(** Parsing and printing of Lua numbers, and Go's conversion to [int] of a number
    that does not fit, which the language leaves to the implementation. *)
Class LuaNumbers := {
  number_to_string : spec_float → gostring;
  string_to_number : gostring → option spec_float;
  int_out_of_range : spec_float → Z
}.

(** The arguments of a call, from index 1. *)
Abbreviation args := (list lua_value).

Section conversions.
Context `{LuaNumbers}.

(** The integer part of a finite number. *)
Definition trunc (sign : bool) (m : positive) (e : Z) : Z :=
  let n := if 0 <=? e then Z.pos m * 2 ^ e else Z.pos m / 2 ^ (- e) in
  if sign then - n else n.

(** [int(f)] for a [float64]. *)
Definition int_of_float (f : spec_float) : Z :=
  match f with
  | S754_zero _ => 0
  | S754_finite sign m e =>
    let z := trunc sign m e in if fits 64 z then z else int_out_of_range f
  | _ => int_out_of_range f
  end.

(** [l.ToString(i)], [l.ToInteger(i)], [l.ToBoolean(i)], [l.ToUserData(i)]. *)
Definition ToString (v : lua_value) : option gostring :=
  match v with
  | LString s => Some s
  | LNumber n => Some (number_to_string n)
  | _ => None
  end.

Definition ToNumber (v : lua_value) : option spec_float :=
  match v with
  | LNumber n => Some n
  | LString s => string_to_number s
  | _ => None
  end.

Definition ToInteger (v : lua_value) : option Z := int_of_float <$> ToNumber v.

Definition ToBoolean (v : lua_value) : bool :=
  match v with LNone | LNil | LBool false => false | _ => true end.

Definition ToUserData (v : lua_value) : option userdata :=
  match v with LUserData u => Some u | _ => None end.

(** ** Arguments *)

Definition arg (l : args) (i : nat) : lua_value := default LNone (l !! pred i).

(** The panic for an argument of the wrong type. *)
Definition bad_arg {A} (i : nat) (expected fn : gostring) (v : lua_value) : go A :=
  Panic (UserPanic (itoa (Z.of_nat i) ++ str " argument must be " ++ expected ++
    str " in call to builtin '" ++ fn ++ str "' function: found " ++ type_name v)).

Definition getArgLogPtr (l : args) (i : nat) (fn : gostring) : go nat :=
  match ToUserData (arg l i) with
  | Some (ULog loc) => Ret loc
  | _ => bad_arg i (str "a pointer to a Log structure") fn (arg l i)
  end.

Definition getArgString (l : args) (i : nat) (fn : gostring) : go gostring :=
  match ToString (arg l i) with
  | Some s => Ret s
  | None => bad_arg i (str "a string") fn (arg l i)
  end.

Definition getOptionalArgInt (l : args) (i : nat) (def : Z) : Z :=
  default def (ToInteger (arg l i)).

Definition getArgBool (l : args) (i : nat) (fn : gostring) : go bool :=
  match arg l i with
  | LBool b => Ret b
  | v => bad_arg i (str "a boolean") fn v
  end.

Definition getArgInt (l : args) (i : nat) (fn : gostring) : go Z :=
  match ToInteger (arg l i) with
  | Some z => Ret z
  | None => bad_arg i (str "an integer") fn (arg l i)
  end.

(** A nil userdata is the offset's zero value. *)
Definition getArgKafkaOffset (l : args) (i : nat) (fn : gostring) : go Z :=
  match ToUserData (arg l i) with
  | Some (UOffset o) => Ret o
  | None | Some UNil => Ret 0
  | Some _ => bad_arg i (str "a pointer to an offset") fn (arg l i)
  end.

Definition getArgKafkaMessage (l : args) (i : nat) (fn : gostring) : go Message :=
  match ToUserData (arg l i) with
  | Some (UMessage m) => Ret m
  | _ => bad_arg i (str "a pointer to an kafka message") fn (arg l i)
  end.

Lemma ToInteger_fits v z :
  (∀ f, fits 64 (int_out_of_range f) = true) → ToInteger v = Some z → fits 64 z = true.
Proof.
  intros Hp. unfold ToInteger. destruct (ToNumber v) as [f|]; [|done]. cbn. intros [= <-].
  destruct f as [| | |sign m e]; cbn; [done|apply Hp..|].
  destruct (fits 64 (trunc sign m e)) eqn:E; [done|apply Hp].
Qed.
End conversions.
