(* ===== verification/Builtins.v ===== *)
(** * The builtins on logs (lua/builtin.go, lines 109-229)

    Each builtin reads its arguments from the Lua stack and works on the log its
    first argument points to.  Logs are shared by their pointers, and the properties of
    different logs can share an array (Slices.v): the store has both the log variables and
    the arrays, a builtin that changes a log changes what every copy of the pointer sees,
    and what logs that share the array see. *)

From Stdlib Require Import Floats.SpecFloat.
From stdpp Require Import gmap.
From S2P Require Import Prelude GoString Log Serialize Slices LuaValue.
Open Scope Z_scope.

(** ** The store *)

(** The log variables that pointers refer to, and the arrays of their properties. *)
Record store : Type := mkStore { logs : gmap nat slog; arrays : heap }.

Definition load (loc : nat) : stgo store slog := λ h,
  match logs h !! loc with
  | Some l => Ret (l, h)
  | None => Panic NilDereference
  end.

Definition save (loc : nat) (l : slog) : stgo store () :=
  modify (λ h, mkStore (<[loc := l]> (logs h)) (arrays h)).

(** Code that does not touch the store, that reads the log as a value, and that works on
    the arrays. *)
Definition lift {A} (m : go A) : stgo store A := λ h, a ← m; Ret (a, h).

Definition read (l : slog) : stgo store Log := λ h, Ret (abs (arrays h) l, h).

Definition on_arrays {A} (m : stgo heap A) : stgo store A := λ h,
  '(a, hp) ← m (arrays h); Ret (a, mkStore (logs h) hp).

(** The log that a variable stands for. *)
Definition log_at (h : store) (loc : nat) : option Log := abs (arrays h) <$> logs h !! loc.

(** Every log variable has a proper slice. *)
Definition wf_store (h : store) : Prop :=
  ∀ loc l, logs h !! loc = Some l → wf_slice (arrays h) (sprops l).

(** ** Names *)

Definition luaNameGetFn := str "log_get".
Definition luaNameSetFn := str "log_set".
Definition luaNameRemoveFn := str "log_remove".
Definition luaNameResetFn := str "log_reset".
Definition luaNameLogStringFn := str "log_string".
Definition luaNameLogJSONFn := str "log_json".
Definition luaNameDebugFn := str "debug".

(** ** The builtins *)

Section builtins.
Context `{LuaNumbers}.

(** The spare capacity [append] allocates. *)
Context (spare : nat → nat).

(** A builtin returns the values it pushed. *)
Definition luaResetLog (l : args) : stgo store (list lua_value) :=
  loc ← lift (getArgLogPtr l 1 luaNameResetFn);
  log ← load loc;
  _ ← save loc (sReset log);
  mret [].

Definition luaRemoveLogProperty (l : args) : stgo store (list lua_value) :=
  loc ← lift (getArgLogPtr l 1 luaNameRemoveFn);
  key ← lift (getArgString l 2 luaNameRemoveFn);
  log ← load loc;
  '(log, removed) ← on_arrays (sRemove spare key log);
  _ ← save loc log;
  mret [LBool removed].

Definition luaSetLogProperty (l : args) : stgo store (list lua_value) :=
  loc ← lift (getArgLogPtr l 1 luaNameSetFn);
  key ← lift (getArgString l 2 luaNameSetFn);
  value ← lift (getArgString l 3 luaNameSetFn);
  log ← load loc;
  '(log, upsert) ← on_arrays (sSet spare key value log);
  _ ← save loc log;
  mret [LBool upsert].

Definition luaGetLogProperty (l : args) : stgo store (list lua_value) :=
  loc ← lift (getArgLogPtr l 1 luaNameGetFn);
  key ← lift (getArgString l 2 luaNameGetFn);
  log ← load loc;
  log ← read log;
  let '(value, ok) := Get key log in
  if ok then mret [LString value] else mret [LString []].

Definition luaLogString (l : args) : stgo store (list lua_value) :=
  loc ← lift (getArgLogPtr l 1 luaNameLogStringFn);
  log ← load loc;
  log ← read log;
  mret [LString (String log)].

(** The name in the error message is that of [log_string]. *)
Definition luaLogJSON (l : args) : stgo store (list lua_value) :=
  loc ← lift (getArgLogPtr l 1 luaNameLogStringFn);
  log ← load loc;
  log ← read log;
  mret [LString (JSON log)].

(** What [luaDebug] hands to logrus: a message, or a map of fields, as the list of
    the assignments made to it. *)
Inductive debug_entry : Type :=
  | DebugMessage (s : gostring)
  | DebugFields (fields : list (gostring * lua_value)).

(** [l.Next(1)] after the key [k] was left on the stack: the next entry. Keys are
    compared up to the [LString]s and numbers they are. *)
Definition key_is (k k' : lua_value) : bool :=
  match k, k' with
  | LString s, LString s' => bool_decide (s = s')
  | LBool b, LBool b' => Bool.eqb b b'
  | LNumber n, LNumber n' => SFeqb n n'
  | LFunction i, LFunction j => Nat.eqb i j
  | _, _ => false
  end.

(** The panic of [Next] on a key the table does not have. *)
Definition invalid_next : gopanic := UserPanic (str "invalid key to 'next'").

Fixpoint entries_after (k : lua_value) (entries : list (lua_value * lua_value)) :
    go (list (lua_value * lua_value)) :=
  match entries with
  | [] => Panic invalid_next
  | (k', _) :: rest => if key_is k k' then Ret rest else entries_after k rest
  end.

Definition Next (table : list (lua_value * lua_value)) (k : option lua_value) :
    go (option (lua_value * lua_value)) :=
  rest ← match k with None => Ret table | Some k => entries_after k table end;
  Ret (head rest).

(** The loop of [luaDebug]. [l.ToString(-2)] converts the key on the stack in place,
    so the key the next [Next] sees is a string. *)
Fixpoint debug_fields (fuel : nat) (table : list (lua_value * lua_value))
    (k : option lua_value) (fields : list (gostring * lua_value)) :
    go (list (gostring * lua_value)) :=
  match fuel with
  | O => Panic OutOfFuel
  | S fuel =>
    e ← Next table k;
    match e with
    | None => Ret fields
    | Some (k, v) =>
      match ToString k with
      | None => Panic (UserPanic (str "table key must be a string in call to builtin '" ++
                  luaNameDebugFn ++ str "': found " ++ type_name k))
      | Some s => debug_fields fuel table (Some (LString s)) (fields ++ [(s, v)])
      end
    end
  end.

Definition luaDebug (l : args) : go debug_entry :=
  match arg l 1 with
  | LString s => Ret (DebugMessage s)
  | LTable entries =>
    fields ← debug_fields (S (length entries)) entries None [];
    Ret (DebugFields fields)
  | v => Panic (UserPanic (itoa 1 ++ str " argument must be a string or a table in call to builtin '" ++
           luaNameDebugFn ++ str "' function: found " ++ type_name v))
  end.
End builtins.

(** ** Lemmas *)

Section lemmas.
Context `{LuaNumbers}.

Lemma getArgLogPtr_ok loc l fn : getArgLogPtr (LUserData (ULog loc) :: l) 1 fn = Ret loc.
Proof. reflexivity. Qed.

(** The calls with well-typed arguments. *)
Lemma log_set_eq spare loc k v h l :
  logs h !! loc = Some l →
  luaSetLogProperty spare [LUserData (ULog loc); LString k; LString v] h =
    '((l', up), hp) ← sSet spare k v l (arrays h);
    Ret ([LBool up], mkStore (<[loc := l']> (logs h)) hp).
Proof.
  intros Hl. unfold luaSetLogProperty, mbind, stgo_bind, lift, load, save, modify, on_arrays. cbn.
  rewrite Hl. cbn. by destruct (sSet spare k v l (arrays h)) as [[[l' up] hp]|].
Qed.

Lemma log_get_eq loc k h log :
  log_at h loc = Some log →
  luaGetLogProperty [LUserData (ULog loc); LString k] h =
    Ret ([LString (if (Get k log).2 then (Get k log).1 else [])], h).
Proof.
  unfold log_at. intros (l & Hl & ->)%fmap_Some.
  unfold luaGetLogProperty, mbind, stgo_bind, lift, load, read. cbn.
  rewrite Hl. cbn. by destruct (Get k (abs (arrays h) l)) as [v []].
Qed.

Lemma log_remove_eq spare loc k h l :
  logs h !! loc = Some l →
  luaRemoveLogProperty spare [LUserData (ULog loc); LString k] h =
    '((l', b), hp) ← sRemove spare k l (arrays h);
    Ret ([LBool b], mkStore (<[loc := l']> (logs h)) hp).
Proof.
  intros Hl. unfold luaRemoveLogProperty, mbind, stgo_bind, lift, load, save, modify, on_arrays. cbn.
  rewrite Hl. cbn. by destruct (sRemove spare k l (arrays h)) as [[[l' b] hp]|].
Qed.

Lemma entries_after_mid pre k v post :
  k ∉ pre.*1 →
  entries_after (LString k) ((λ '(k, v), (LString k, v)) <$> (pre ++ (k, v) :: post))
    = Ret ((λ '(k, v), (LString k, v)) <$> post).
Proof.
  induction pre as [|[k' v'] pre IH]; cbn.
  - intros _. by rewrite bool_decide_eq_true_2.
  - intros [Hne Hin]%not_elem_of_cons. rewrite bool_decide_eq_false_2 by done. by apply IH.
Qed.

(** A table with string keys, after the entries [pre]. *)
Definition string_table (kvs : list (gostring * lua_value)) : list (lua_value * lua_value) :=
  (λ '(k, v), (LString k, v)) <$> kvs.

Definition last_key (kvs : list (gostring * lua_value)) : option lua_value :=
  (λ '(k, _), LString k) <$> last kvs.

Lemma Next_string_table pre post :
  NoDup (pre ++ post).*1 →
  Next (string_table (pre ++ post)) (last_key pre) = Ret (head (string_table post)).
Proof.
  intros Hnd. unfold last_key, Next.
  destruct pre as [|[k v] pre _] using rev_ind; [done|].
  rewrite last_snoc. cbn [fmap option_fmap option_map]. rewrite <- app_assoc. cbn [app].
  unfold string_table. rewrite entries_after_mid; [done|].
  rewrite <- app_assoc, fmap_app in Hnd. cbn in Hnd.
  apply list.NoDup_app in Hnd as (_ & Hnin & _). intros Hin. apply (Hnin k Hin). by left.
Qed.

Lemma debug_fields_ok post : ∀ pre fuel,
  NoDup (pre ++ post).*1 → (length post < fuel)%nat →
  debug_fields fuel (string_table (pre ++ post)) (last_key pre) pre = Ret (pre ++ post).
Proof.
  induction post as [|[k v] post IH]; intros pre fuel Hnd Hf.
  - destruct fuel; [lia|]. cbn [debug_fields]. rewrite Next_string_table by done.
    by rewrite app_nil_r.
  - destruct fuel; [lia|]. cbn [debug_fields]. rewrite Next_string_table by done.
    cbn [mbind go_bind head string_table fmap list_fmap ToString].
    replace (pre ++ (k, v) :: post) with ((pre ++ [(k, v)]) ++ post) in *
      by (by rewrite <- app_assoc).
    change (Some (LString k)) with ((λ '(k, _), LString k) <$> Some (k, v)).
    rewrite <- (last_snoc (k, v) pre). apply (IH (pre ++ [(k, v)])); [done|].
    cbn in Hf. lia.
Qed.
End lemmas.

(** Numbers as a script would write them, for the examples. *)
Module ToyNumbers.
Definition number (z : Z) : spec_float :=
  match z with
  | Z0 => S754_zero false
  | Zpos p => S754_finite false p 0
  | Zneg p => S754_finite true p 0
  end.

#[global] Instance toy_numbers : LuaNumbers := {|
  number_to_string f := itoa (match f with S754_finite s m e => trunc s m e | _ => 0 end);
  string_to_number s := None;
  int_out_of_range _ := - 2 ^ 63
|}.
End ToyNumbers.

(** ** Properties *)

Section properties.
Context `{LuaNumbers}.

(** C34: A script that sets a property through one pointer reads the new value
    through every copy of the pointer, the other properties of the log are unchanged, and
    the boolean says whether the key was there.  The other logs of the store are unchanged
    when their properties are in another array; a log in the same array (a copy of the log,
    as the loops over parsed logs make them) gets the new value when the key was there -
    so that it reads the same through its own pointers - and does not see a new property
    unless it is longer than the log was. *)
Theorem log_set_then_log_get (spare : nat → nat) (h : store) (loc : nat) (l : slog) (k v : gostring)
    (Hlog : logs h !! loc = Some l) (Hwf : wf_store h) (Hk : k ∉ reserved) :
  let found := find_key 0 (props (abs (arrays h) l)) k in
  ∃ h', luaSetLogProperty spare [LUserData (ULog loc); LString k; LString v] h =
          Ret ([LBool (bool_decide (k ∈ key <$> props (abs (arrays h) l)))], h') ∧ wf_store h' ∧
    luaGetLogProperty [LUserData (ULog loc); LString k] h' = Ret ([LString v], h') ∧
    (∀ k', k' ≠ k →
      fst <$> luaGetLogProperty [LUserData (ULog loc); LString k'] h' =
      fst <$> luaGetLogProperty [LUserData (ULog loc); LString k'] h) ∧
    (∀ loc' l', loc' ≠ loc → logs h !! loc' = Some l' →
      let old := abs (arrays h) l' in
      (apart (sprops l) (sprops l') → log_at h' loc' = Some old) ∧
      (∀ i, found = Some i → array (sprops l') = array (sprops l) →
         log_at h' loc' = Some (set_props (alter (set_value v) i (props old)) old)) ∧
      (found = None → (slen (sprops l') <= slen (sprops l))%nat → log_at h' loc' = Some old) ∧
      (found ≠ None → sprops l' = sprops l →
         luaGetLogProperty [LUserData (ULog loc'); LString k] h' = Ret ([LString v], h'))).
Proof.
  intros found. set (log := abs (arrays h) l) in *. pose proof (Hwf _ _ Hlog) as Hl.
  pose proof (sSet_ok spare k v (arrays h) l Hl) as Hok. fold log in Hok.
  rewrite Set_prop in Hok by done. destruct Hok as (c & hp & Hset & Hc & Hwc & _).
  exists (mkStore (<[loc := c]> (logs h)) hp).
  assert (∀ loc' l', loc' ≠ loc → logs h !! loc' = Some l' →
    <[loc := c]> (logs h) !! loc' = Some l') as Hne by (intros; by rewrite lookup_insert_ne).
  assert (log_at (mkStore (<[loc := c]> (logs h)) hp) loc =
    Some (set_props (upsert_first k v (props log)) log)) as Hnew.
  { unfold log_at. cbn [logs arrays]. rewrite lookup_insert_eq. cbn [fmap option_fmap option_map]. by rewrite Hc. }
  assert (log_at h loc = Some log) as Hold by by unfold log_at; rewrite Hlog.
  rewrite (log_set_eq _ _ _ _ _ _ Hlog), Hset. split_and!; [done|..].
  - intros loc' l'. cbn. destruct (decide (loc' = loc)) as [->|Hd].
    + rewrite lookup_insert_eq. by intros [= <-].
    + rewrite lookup_insert_ne by done. intros Hl'.
      by apply (sSet_others spare _ _ _ _ _ _ _ _ Hk Hset (Hwf _ _ Hl')).
  - rewrite (log_get_eq _ _ _ _ Hnew), Get_prop by done. cbn [props set_props].
    by rewrite assoc_upsert.
  - intros k' Hk'. rewrite (log_get_eq _ _ _ _ Hnew), (log_get_eq _ _ _ _ Hold). cbn.
    destruct (decide (k' ∈ reserved)) as [Hr|Hr].
    + by rewrite Get_set_props.
    + rewrite !Get_prop by done. cbn [props set_props]. by rewrite assoc_upsert_ne.
  - intros loc' l' Hd Hl'. pose proof (Hne _ _ Hd Hl') as Hl2.
    destruct (sSet_others spare _ _ _ _ _ _ _ _ Hk Hset (Hwf _ _ Hl')) as (_ & Hap & Hsame & Hlonger).
    unfold log_at. cbn [logs arrays]. rewrite Hl2. cbn. unfold abs. cbn [props set_props].
    split_and!.
    + intros Ha. by rewrite Hap.
    + intros i Hi Ha. by rewrite (Hsame i).
    + intros Hn Hle. by rewrite Hlonger.
    + intros Hn E. rewrite (log_get_eq loc' k _ (abs hp l')) by (unfold log_at; cbn; by rewrite Hl2).
      rewrite Get_prop by done. unfold abs. cbn [props set_props].
      destruct found as [i|] eqn:Hi; [|done]. rewrite (Hsame i Hi) by by rewrite E.
      rewrite E. change (contents (arrays h) (sprops l)) with (props log).
      rewrite <- (upsert_alter k v i) by done. by rewrite assoc_upsert.
Qed.

(** After [log_remove] the key reads as the empty string when no other property
    had it, the logs in other arrays are unchanged, and [log_remove] of a property that is
    not there changes nothing. *)
Theorem log_remove_then_log_get (spare : nat → nat) (h : store) (loc : nat) (l : slog) (k : gostring)
    (Hlog : logs h !! loc = Some l) (Hwf : wf_store h) (Hk : k ∉ reserved)
    (Hnd : NoDup (key <$> props (abs (arrays h) l))) :
  ∃ h', luaRemoveLogProperty spare [LUserData (ULog loc); LString k] h =
          Ret ([LBool (bool_decide (k ∈ key <$> props (abs (arrays h) l)))], h') ∧
    luaGetLogProperty [LUserData (ULog loc); LString k] h' = Ret ([LString []], h') ∧
    (∀ loc' l', loc' ≠ loc → logs h !! loc' = Some l' → apart (sprops l) (sprops l') →
       log_at h' loc' = log_at h loc') ∧
    (k ∉ key <$> props (abs (arrays h) l) → h' = h).
Proof.
  set (log := abs (arrays h) l) in *. pose proof (Hwf _ _ Hlog) as Hl.
  pose proof (sRemove_ok spare k (arrays h) l Hl) as Hok. fold log in Hok.
  rewrite Remove_prop in Hok by done. destruct Hok as (c & hp & Hrem & Hc & Hwc & _ & Ht).
  exists (mkStore (<[loc := c]> (logs h)) hp).
  rewrite (log_remove_eq _ _ _ _ _ Hlog), Hrem. split_and!; [done|..].
  - assert (log_at (mkStore (<[loc := c]> (logs h)) hp) loc =
      Some (set_props (remove_first k (props log)) log)) as Hnew.
    { unfold log_at. cbn [logs arrays]. rewrite lookup_insert_eq. cbn [fmap option_fmap option_map]. by rewrite Hc. }
    rewrite (log_get_eq _ _ _ _ Hnew), Get_prop by done. cbn [props set_props].
    by rewrite (proj2 (assoc_None _ _)) by by apply remove_first_gone.
  - intros loc' l' Hd Hl' Ha. unfold log_at. cbn. rewrite lookup_insert_ne, Hl' by done. cbn.
    unfold abs. by rewrite (touches_contents _ _ _ _ Ht (Hwf _ _ Hl') Ha).
  - intros Hnin. revert Hrem. unfold sRemove. rewrite decide_False by done.
    change (props log) with (contents (arrays h) (sprops l)) in Hnin.
    assert (find_key 0 (contents (arrays h) (sprops l)) k = None) as ->.
    { destruct (find_key 0 (contents (arrays h) (sprops l)) k) eqn:E; [|done].
      exfalso. apply Hnin, find_key_is_Some. by rewrite E. }
    destruct (slen (sprops l)); intros [= <- _ <-]; rewrite insert_id by done; by destruct h.
Qed.


(** [log_get] cannot tell a missing property from an empty one: it never returns
    nil, but the empty string. *)
Theorem log_get_never_nil (h h' : store) (l : args) (vs : list lua_value)
    (Hcall : luaGetLogProperty l h = Ret (vs, h')) :
  h' = h ∧ ∃ loc log k, arg l 1 = LUserData (ULog loc) ∧ log_at h loc = Some log ∧
    ToString (arg l 2) = Some k ∧
    vs = [LString (if (Get k log).2 then (Get k log).1 else [])].
Proof.
  revert Hcall. unfold luaGetLogProperty, mbind, stgo_bind, lift, load, read, log_at.
  unfold getArgLogPtr, getArgString.
  destruct (arg l 1) as [| | | | | | |[loc| | | |]] eqn:E1; cbn; try done.
  destruct (ToString (arg l 2)) as [k|] eqn:E2; cbn; [|done].
  destruct (logs h !! loc) as [log|] eqn:Eh; cbn; [|done].
  destruct (Get k (abs (arrays h) log)) as [v ok] eqn:Eg. destruct ok; cbn; intros [= <- <-];
    (split; [done|]); exists loc, (abs (arrays h) log), k; by rewrite Eh, Eg.
Qed.

(** [debug] logs every entry of a table with string keys, in the order of the
    traversal, and terminates. *)
Theorem debug_logs_string_table (kvs : list (gostring * lua_value))
    (Hkeys : NoDup kvs.*1) :
  luaDebug [LTable (string_table kvs)] = Ret (DebugFields kvs).
Proof.
  unfold luaDebug. change (arg [LTable (string_table kvs)] 1) with (LTable (string_table kvs)).
  cbn iota. pose proof (debug_fields_ok kvs [] (S (length (string_table kvs))) Hkeys) as Hd.
  cbn [app last_key] in Hd. change (last_key []) with (@None lua_value) in Hd.
  rewrite Hd; [done|]. unfold string_table. rewrite length_fmap. lia.
Qed.

(** A table with a numeric key breaks [debug]: the key is turned into a string
    on the stack, and the traversal cannot go on from it. *)
Theorem debug_numeric_key_panics (n : spec_float) (v : lua_value)
    (rest : list (lua_value * lua_value))
    (Hrest : Forall (λ kv, kv.1 ≠ LString (number_to_string n)) rest) :
  luaDebug [LTable ((LNumber n, v) :: rest)] = Panic invalid_next.
Proof.
  unfold luaDebug. change (arg [LTable ((LNumber n, v) :: rest)] 1) with
    (LTable ((LNumber n, v) :: rest)). cbn.
  assert (entries_after (LString (number_to_string n)) rest = Panic invalid_next) as ->; [|done].
  induction Hrest as [|[k' v'] rest Hk' _ IH]; [done|]. cbn.
  destruct k'; cbn in *; try done. rewrite bool_decide_eq_false_2; [done|congruence].
Qed.
End properties.

(** A log, a copy of it, and a new log. *)
Definition three_logs : store := mkStore {[ 7%nat := full_log; 8%nat := full_log; 9%nat := new_log ]} one_array.

Lemma three_logs_wf : wf_store three_logs.
Proof.
  intros loc l. cbn. rewrite !lookup_insert_Some, lookup_singleton_Some.
  intros [[_ <-]|[_ [[_ <-]|[_ [_ <-]]]]]; [apply full_log_wf..|done].
Qed.

Lemma log_set_then_log_get_witness :
  ∃ h', luaSetLogProperty id [LUserData (ULog 7); LString (str "a"); LString (str "2")] three_logs
          = Ret ([LBool true], h') ∧
    luaGetLogProperty [LUserData (ULog 7); LString (str "a")] h' = Ret ([LString (str "2")], h') ∧
    luaGetLogProperty [LUserData (ULog 8); LString (str "a")] h' = Ret ([LString (str "2")], h') ∧
    log_at h' 9 = Some NewLog.
Proof.
  destruct (log_set_then_log_get id three_logs 7 full_log (str "a") (str "2"))
    as (h' & Hset & _ & Hget & _ & Hother).
  - reflexivity.
  - exact three_logs_wf.
  - by apply (bool_decide_unpack _).
  - exists h'. split; [exact Hset|]. split; [exact Hget|]. split.
    + refine (proj2 (proj2 (proj2 (Hother 8%nat full_log _ eq_refl))) _ eq_refl); [lia|].
      vm_compute. discriminate.
    + refine (proj1 (Hother 9%nat new_log _ eq_refl) _); [lia|exact I].
Defined.

Lemma log_remove_then_log_get_witness :
  ∃ h', luaRemoveLogProperty id [LUserData (ULog 7); LString (str "a")] three_logs
          = Ret ([LBool true], h') ∧
    luaGetLogProperty [LUserData (ULog 7); LString (str "a")] h' = Ret ([LString []], h').
Proof.
  destruct (log_remove_then_log_get id three_logs 7 full_log (str "a")) as (h' & Hrem & Hget & _).
  - reflexivity.
  - exact three_logs_wf.
  - by apply (bool_decide_unpack _).
  - by apply (bool_decide_unpack _).
  - exists h'. split; [exact Hrem|exact Hget].
Defined.

Lemma log_get_never_nil_witness :
  three_logs = three_logs ∧
  ∃ loc log k, arg [LUserData (ULog 7); LString (str "zz")] 1 = LUserData (ULog loc) ∧
    log_at three_logs loc = Some log ∧
    ToString (arg [LUserData (ULog 7); LString (str "zz")] 2) = Some k ∧
    [LString []] = [LString (if (Get k log).2 then (Get k log).1 else [])].
Proof. apply log_get_never_nil. reflexivity. Defined.

Lemma debug_logs_string_table_witness :
  luaDebug [LTable (string_table [(str "msg", LString (str "hi")); (str "n", LBool true)])]
    = Ret (DebugFields [(str "msg", LString (str "hi")); (str "n", LBool true)]).
Proof. apply debug_logs_string_table. by apply (bool_decide_unpack _). Defined.

Lemma debug_numeric_key_panics_witness :
  luaDebug [LTable [(LNumber (ToyNumbers.number 1), LString (str "a"));
                    (LString (str "k"), LString (str "b"))]] = Panic invalid_next.
Proof. apply debug_numeric_key_panics. repeat constructor. discriminate. Defined.
