(* ===== verification/Kafka.v ===== *)
(** * Kafka configuration, messages and events (lua/kafka.go)

    The configuration map a script fills with [config_set("kafka...", v)], with the
    vendored [ConfigMap.SetKey] and [ConfigMap.Get] it goes through; the messages
    [kafka_message] builds; and the dispatch of the producer's events.  The
    producer itself, librdkafka's, is a parameter. *)

From Stdlib Require Import Floats.SpecFloat.
From stdpp Require Import gmap.
From S2P Require Import Prelude GoString Log Serialize LuaValue Builtins.
Open Scope Z_scope.

(** ** Configuration values *)

(** The dynamic type and value of an [interface{}] that a script can put in the
    map: [COther] is a pointer to a table, a function or a userdata. *)
Inductive ConfigBase : Type :=
  | CNil
  | CBool (b : bool)
  | CInt (z : Z)
  | CInt64 (z : Z)
  | CInt32 (z : Z)
  | CFloat64 (f : spec_float)
  | CFloat32 (f : spec_float)
  | CString (s : gostring)
  | COther.

(** [ConfigMap]: its values may be [ConfigMap]s, one level deep. *)
Inductive ConfigValue : Type :=
  | CBase (b : ConfigBase)
  | CMap (m : gmap gostring ConfigBase).

Abbreviation ConfigMap := (gmap gostring ConfigValue).

Definition default_topic : gostring := str "default.topic.config".
Definition topic_prefix : gostring := str "{topic}.".

(** [m.SetKey(key, value)]: it returns no error, but the type assertion on the
    default topic configuration may panic. *)
Definition SetKey (k : gostring) (v : ConfigBase) (m : ConfigMap) : go ConfigMap :=
  if HasPrefix k topic_prefix then
    match default (CMap ∅) (m !! default_topic) with
    | CMap sub => Ret (<[default_topic := CMap (<[TrimPrefix k topic_prefix := v]> sub)]> m)
    | CBase _ => Panic TypeAssertion
    end
  else Ret (<[k := CBase v]> m).

(** [reflect.TypeOf]. *)
Definition type_tag (v : ConfigValue) : Z :=
  match v with
  | CBase CNil => 0
  | CBase (CBool _) => 1
  | CBase (CInt _) => 2
  | CBase (CInt64 _) => 3
  | CBase (CInt32 _) => 4
  | CBase (CFloat64 _) => 5
  | CBase (CFloat32 _) => 6
  | CBase (CString _) => 7
  | CBase COther => 8
  | CMap _ => 9
  end.

Definition type_mismatch (k : gostring) : error := Err (k ++ str " expects another type").

(** The common part of [get]: the value under [k], of the type of the default. *)
Definition get_value (k : gostring) (v def : ConfigValue) : ConfigValue + error :=
  if negb (type_tag def =? 0) && negb (type_tag def =? type_tag v)
  then inr (type_mismatch k) else inl v.

(** [m.Get(key, defval)]; [get] recurses into the default topic configuration, whose
    values are not maps. *)
Definition Get_key (k : gostring) (def : ConfigValue) (m : ConfigMap) : go (ConfigValue + error) :=
  if HasPrefix k topic_prefix then
    match m !! default_topic with
    | None => Ret (inl def)
    | Some (CBase _) => Panic TypeAssertion
    | Some (CMap sub) =>
      let k := TrimPrefix k topic_prefix in
      if HasPrefix k topic_prefix then
        match sub !! default_topic with
        | None => Ret (inl def)
        | Some _ => Panic TypeAssertion
        end
      else
        match sub !! k with
        | None => Ret (inl def)
        | Some v => Ret (get_value k (CBase v) def)
        end
    end
  else
    match m !! k with
    | None => Ret (inl def)
    | Some v => Ret (get_value k v def)
    end.

(** ** The sandbox's use of it *)

Definition kafkaDefaultRequestTimeout : Z := 5000.
Definition kafkaDefaultMessageTimeout : Z := kafkaDefaultRequestTimeout * 2.

Definition kafka_prefix : gostring := str "kafka.".

Section config.
Context `{LuaNumbers}.

(** [l.ToValue(i)] as an [interface{}]. *)
Definition ToValue (v : lua_value) : ConfigBase :=
  match v with
  | LNone | LNil => CNil
  | LBool b => CBool b
  | LNumber n => CFloat64 n
  | LString s => CString s
  | LTable _ | LFunction _ => COther
  | LUserData UNil => CNil
  | LUserData _ => COther
  end.

Definition normalizeKafkaValue (v : ConfigBase) : ConfigBase :=
  match v with
  | CFloat64 f => CInt (int_of_float f)
  | CFloat32 f => CInt (int_of_float f)
  | CInt64 z => CInt z
  | CInt32 z => CInt z
  | v => v
  end.

(** [l.setKafkaConfig(key, value)]: the new map, or [None] when the key is not one
    of Kafka's. [strings.TrimLeft] takes a set of characters. *)
Definition setKafkaConfig (k : gostring) (v : ConfigBase) (m : ConfigMap) : go (option ConfigMap) :=
  if negb (HasPrefix k kafka_prefix) then Ret None
  else
    let k := TrimLeft k kafka_prefix in
    let v := normalizeKafkaValue v in
    m' ← SetKey k v m;
    Ret (Some m').
End config.

(** [setSaneKafkaDefaults(config)]: the topic defaults are stored as a map. *)
Definition sane_defaults : list (gostring * ConfigBase) := [
  (str "go.batch.producer", CBool false);
  (str "go.delivery.reports", CBool true);
  (str "go.events.channel.size", CInt 100);
  (str "go.produce.channel.size", CInt 100);
  (str "queue.buffering.max.messages", CInt 10000);
  (str "socket.timeout.ms", CInt 5000)
].

Definition topic_defaults : gmap gostring ConfigBase :=
  <[str "request.required.acks" := CInt 1]>
  (<[str "request.timeout.ms" := CInt kafkaDefaultRequestTimeout]>
  (<[str "message.timeout.ms" := CInt kafkaDefaultMessageTimeout]> ∅)).

Definition setSaneKafkaDefaults (m : ConfigMap) : go ConfigMap :=
  m ← foldM (λ m '(k, v), SetKey k v m) m sane_defaults;
  Ret (<[default_topic := CMap topic_defaults]> m).

Definition message_timeout : gostring := str "message.timeout.ms".

(** [l.getFlushTimeout()]. *)
Definition getFlushTimeout (m : ConfigMap) : go Z :=
  v ← Get_key message_timeout (CBase (CInt kafkaDefaultMessageTimeout)) m;
  match v with
  | inr (Err msg) => Panic (UserPanic msg)
  | inr EOF => Panic (UserPanic (str "EOF"))
  | inl (CBase (CInt z)) => Ret (int64 (z * 2))
  | inl _ => Panic TypeAssertion
  end.

(** [l.flushKafka()], given what the producer's [Flush] returns for a timeout. *)
Definition flushKafka (producer_Flush : Z → Z) (m : ConfigMap) : go () :=
  timeout ← getFlushTimeout m;
  let unflushed := producer_Flush timeout in
  if 0 <? unflushed
  then Panic (UserPanic (str "failed to flush " ++ itoa unflushed ++ str " kafka messages"))
  else Ret tt.

(** ** Messages *)

Definition luaNameKafkaMessageFn := str "kafka_message".
Definition luaNameKafkaOffsetFn := str "kafka_offset".
Definition luaNameKafkaProduceFn := str "kafka_produce".

Definition bytes_or_nil (s : gostring) : option gostring := if decide (s = []) then None else Some s.

Section messages.
Context `{LuaNumbers}.

Definition luaKafkaMessage (l : args) : go (list lua_value) :=
  key ← getArgString l 1 luaNameKafkaMessageFn;
  value ← getArgString l 2 luaNameKafkaMessageFn;
  topic ← getArgString l 3 luaNameKafkaMessageFn;
  partition ← getArgInt l 4 luaNameKafkaMessageFn;
  offset ← getArgKafkaOffset l 5 luaNameKafkaMessageFn;
  Ret [LUserData (UMessage
    (mkMessage topic (int32 partition) offset (bytes_or_nil key) (bytes_or_nil value)))].

(** [kafka.NewOffset] on a string is the library's: an offset or an error message. *)
Definition luaKafkaOffset (NewOffset : gostring → Z + gostring) (l : args) : go (list lua_value) :=
  name ← getArgString l 1 luaNameKafkaOffsetFn;
  match NewOffset name with
  | inr err => Ret [LNil; LString err]
  | inl offset => Ret [LUserData (UOffset offset); LNil]
  end.
End messages.

(** ** Events *)

(** The dynamic types that come out of the producer's [Events] channel. The library
    sends delivery reports as [*kafka.Message] and errors as [kafka.Error] values. *)
Inductive kafka_event : Type :=
  | EvMessage (m : Message)
  | EvErrorPointer (e : gostring)
  | EvErrorValue (e : gostring)
  | EvOther (e : gostring).

(** [l.pollKafkaEvents()] on the events received until the channel is closed;
    [report] is [callOnKafkaReport], errors are printed. *)
Section poll.
Context {S : Type} (report : Message → stgo S ()).

Fixpoint pollKafkaEvents (evs : list kafka_event) : stgo S (list gostring) :=
  match evs with
  | [] => mret []
  | EvMessage m :: rest => _ ← report m; pollKafkaEvents rest
  | EvErrorPointer e :: rest =>
    out ← pollKafkaEvents rest; mret ((str "kafka error: " ++ e) :: out)
  | EvErrorValue e :: _ => gopanics (UserPanic (str "unexpected kafka event: " ++ e))
  | EvOther e :: _ => gopanics (UserPanic (str "unexpected kafka event: " ++ e))
  end.
End poll.

(** ** Lemmas *)

Lemma default_topic_no_prefix : HasPrefix default_topic topic_prefix = false.
Proof. reflexivity. Qed.

Lemma HasPrefix_app p t : HasPrefix (p ++ t) p = true.
Proof. apply HasPrefix_spec. eauto. Qed.

Lemma TrimLeft_length s cutset : (length (TrimLeft s cutset) <= length s)%nat.
Proof. induction s as [|b s IH]; cbn; [done|]. case_bool_decide; cbn; lia. Qed.

(** What [SetKey] changes. *)
Lemma SetKey_lookup k v m m' :
  SetKey k v m = Ret m' →
  ∀ q, q ≠ (if HasPrefix k topic_prefix then default_topic else k) → m' !! q = m !! q.
Proof.
  unfold SetKey. destruct (HasPrefix k topic_prefix).
  - destruct (default (CMap ∅) (m !! default_topic)) as [b|sub]; [done|].
    intros [= <-] q Hq. by rewrite lookup_insert_ne.
  - intros [= <-] q Hq. by rewrite lookup_insert_ne.
Qed.

Lemma kafka_prefix_chars : Forall (.∈ kafka_prefix) kafka_prefix.
Proof. by apply (bool_decide_unpack _). Qed.

Section lemmas.
Context `{LuaNumbers}.

Lemma setKafkaConfig_eq k v m :
  setKafkaConfig (kafka_prefix ++ k) v m =
    m' ← SetKey (TrimLeft k kafka_prefix) (normalizeKafkaValue v) m; Ret (Some m').
Proof.
  unfold setKafkaConfig. rewrite HasPrefix_app. cbn [negb].
  by rewrite (TrimLeft_app _ _ _ kafka_prefix_chars).
Qed.
End lemmas.

(** ** Properties *)

Section properties.
Context `{LuaNumbers}.

(** A value set under ["kafka."] and a key is read back from the map under that
    key, with its number made an [int] - if the key does not start with one of the
    letters of "kafka" or a dot and is not a topic option. *)
Theorem kafka_set_then_get (k : gostring) (b : byte) (v : ConfigBase) (m : ConfigMap)
    (Hhead : b ∉ kafka_prefix) (Htopic : HasPrefix (b :: k) topic_prefix = false) :
  ∃ m', setKafkaConfig (kafka_prefix ++ b :: k) v m = Ret (Some m') ∧
    Get_key (b :: k) (CBase CNil) m' = Ret (inl (CBase (normalizeKafkaValue v))) ∧
    ∀ q, q ≠ b :: k → m' !! q = m !! q.
Proof.
  exists (<[b :: k := CBase (normalizeKafkaValue v)]> m).
  rewrite setKafkaConfig_eq, TrimLeft_stop by done. unfold SetKey, Get_key. rewrite Htopic.
  split; [done|]. rewrite lookup_insert_eq. split; [done|].
  intros q Hq. by rewrite lookup_insert_ne.
Qed.

(** An option whose name starts with one of the letters of "kafka" or a dot
    cannot be set: [strings.TrimLeft] eats into the name, and the map is unchanged
    at the option the script named ([kafka.acks] sets "cks"). *)
Theorem kafka_key_eaten (k : gostring) (b : byte) (v : ConfigBase) (m m' : ConfigMap)
    (Hhead : b ∈ kafka_prefix)
    (Hset : setKafkaConfig (kafka_prefix ++ b :: k) v m = Ret (Some m')) :
  m' !! (b :: k) = m !! (b :: k).
Proof.
  rewrite setKafkaConfig_eq in Hset. cbn [TrimLeft] in Hset.
  rewrite bool_decide_eq_true_2 in Hset by done.
  destruct (SetKey (TrimLeft k kafka_prefix) (normalizeKafkaValue v) m) as [m1|] eqn:E; [|done].
  injection Hset as <-. eapply SetKey_lookup; [exact E|].
  destruct (HasPrefix _ topic_prefix).
  - intros [= -> _]. by apply (bool_decide_unpack ("d"%byte ∉ kafka_prefix)) in Hhead.
  - intros Heq. pose proof (TrimLeft_length k kafka_prefix) as Hl. rewrite <- Heq in Hl.
    cbn in Hl. lia.
Qed.

(** The flush timeout ignores the topic configuration: an option set for topics
    - the message timeout included - leaves it as it was, and it is the default one
    until the top-level option is set. *)
Theorem flush_timeout_ignores_topics (k : gostring) (v : ConfigBase) (m m' : ConfigMap)
    (Hset : SetKey (topic_prefix ++ k) v m = Ret m') :
  getFlushTimeout m' = getFlushTimeout m ∧
  (m !! message_timeout = None → getFlushTimeout m' = Ret 20000).
Proof.
  pose proof (SetKey_lookup _ _ _ _ Hset message_timeout) as Hlook.
  rewrite HasPrefix_app in Hlook. specialize (Hlook ltac:(done)).
  unfold getFlushTimeout, Get_key. change (HasPrefix message_timeout topic_prefix) with false.
  cbn iota. rewrite Hlook. split; [done|]. intros ->. reflexivity.
Qed.

(** [flushKafka] waits for twice the message timeout of the configuration
    ([int64] arithmetic) and panics when messages are left, or when the timeout is
    not an integer. *)
Theorem flush_kafka_outcomes (Flush : Z → Z) (m : ConfigMap) :
  flushKafka Flush m =
    match m !! message_timeout with
    | None => if 0 <? Flush 20000
              then Panic (UserPanic (str "failed to flush " ++ itoa (Flush 20000) ++ str " kafka messages"))
              else Ret tt
    | Some (CBase (CInt z)) =>
        if 0 <? Flush (int64 (z * 2))
        then Panic (UserPanic (str "failed to flush " ++ itoa (Flush (int64 (z * 2))) ++ str " kafka messages"))
        else Ret tt
    | Some _ => Panic (UserPanic (message_timeout ++ str " expects another type"))
    end.
Proof.
  unfold flushKafka, getFlushTimeout, Get_key.
  change (HasPrefix message_timeout topic_prefix) with false. cbn iota.
  destruct (m !! message_timeout) as [[[]|sub]|]; reflexivity.
Qed.

(** [kafka_message] builds the message it is asked for: the partition is kept
    when it is an [int32] (-1, any partition, included), and a missing offset, or one
    that is no offset at all, is 0. *)
Theorem kafka_message_fields (k v t : gostring) (p : spec_float) (o : lua_value)
    (Hp : fits 32 (int_of_float p) = true) (Ho : ToUserData o = None) :
  luaKafkaMessage [LString k; LString v; LString t; LNumber p; o] =
    Ret [LUserData (UMessage (mkMessage t (int_of_float p) 0 (bytes_or_nil k) (bytes_or_nil v)))].
Proof.
  unfold luaKafkaMessage, getArgString, getArgInt, getArgKafkaOffset. cbn. rewrite Ho.
  cbn. unfold int32. by rewrite wrap_id.
Qed.

(** A partition outside of [int32] wraps around instead of being refused: some
    number becomes -1, any partition. *)
Theorem kafka_partition_wraps (k v t : gostring) :
  luaKafkaMessage [LString k; LString v; LString t;
                   LNumber (S754_finite false 4294967295 0); LNil] =
    Ret [LUserData (UMessage (mkMessage t (-1) 0 (bytes_or_nil k) (bytes_or_nil v)))].
Proof. reflexivity. Qed.
End properties.

(** Delivery reports are handed to the script in order; the first error value,
    which is how the library sends its errors, ends the goroutine with a panic. *)
Theorem kafka_events_dispatch {S} (report : Message → stgo S ()) (ms : list Message)
    (rest : list kafka_event) (s s' : S)
    (Hreports : foldr (λ m k, _ ← report m; k) (mret tt) ms s = Ret (tt, s')) :
  pollKafkaEvents report ((EvMessage <$> ms) ++ rest) s = pollKafkaEvents report rest s' ∧
  ∀ e, pollKafkaEvents report ((EvMessage <$> ms) ++ EvErrorValue e :: rest) s =
       Panic (UserPanic (str "unexpected kafka event: " ++ e)).
Proof.
  assert (∀ rest, pollKafkaEvents report ((EvMessage <$> ms) ++ rest) s =
                  pollKafkaEvents report rest s') as Hprefix.
  { revert s Hreports. induction ms as [|m ms IH]; intros s; cbn.
    - intros [= <-]. done.
    - unfold mbind, stgo_bind. destruct (report m s) as [[[] s1]|]; cbn; [apply IH|done]. }
  split; [apply Hprefix|]. intros e. by rewrite Hprefix.
Qed.

Lemma kafka_set_then_get_witness :
  ∃ m', setKafkaConfig (str "kafka.socket.timeout.ms") (CFloat64 (ToyNumbers.number 250)) ∅
          = Ret (Some m') ∧
    Get_key (str "socket.timeout.ms") (CBase CNil) m' = Ret (inl (CBase (CInt 250))).
Proof.
  destruct (kafka_set_then_get (str "ocket.timeout.ms") "s"%byte
    (CFloat64 (ToyNumbers.number 250)) ∅) as (m' & Hset & Hget & _).
  - by apply (bool_decide_unpack _).
  - reflexivity.
  - exists m'. split; [exact Hset|exact Hget].
Defined.

Lemma kafka_key_eaten_witness :
  ∃ m', setKafkaConfig (str "kafka.acks") (CFloat64 (ToyNumbers.number 1)) ∅ = Ret (Some m') ∧
        m' !! str "acks" = None.
Proof.
  destruct (setKafkaConfig (str "kafka.acks") (CFloat64 (ToyNumbers.number 1)) ∅)
    as [[m'|]|] eqn:Hset; [|discriminate Hset..].
  exists m'. split; [reflexivity|].
  change (str "kafka.acks") with (kafka_prefix ++ "a"%byte :: str "cks") in Hset.
  change (str "acks") with ("a"%byte :: str "cks").
  rewrite (kafka_key_eaten (str "cks") "a"%byte (CFloat64 (ToyNumbers.number 1)) ∅ m').
  - reflexivity.
  - by apply (bool_decide_unpack _).
  - exact Hset.
Defined.

Lemma flush_timeout_ignores_topics_witness :
  ∃ m', SetKey (topic_prefix ++ message_timeout) (CInt 60000) ∅ = Ret m' ∧
        getFlushTimeout m' = Ret 20000.
Proof.
  destruct (SetKey (topic_prefix ++ message_timeout) (CInt 60000) ∅) as [m'|] eqn:Hset;
    [|discriminate Hset].
  exists m'. split; [reflexivity|].
  exact (proj2 (flush_timeout_ignores_topics message_timeout (CInt 60000) ∅ m' Hset) eq_refl).
Defined.

Lemma kafka_message_fields_witness :
  luaKafkaMessage [LString []; LString (str "v"); LString (str "topic");
                   LNumber (ToyNumbers.number (-1)); LNil] =
    Ret [LUserData (UMessage (mkMessage (str "topic") (-1) 0 None (Some (str "v"))))].
Proof.
  rewrite (kafka_message_fields [] (str "v") (str "topic") (ToyNumbers.number (-1)) LNil).
  - vm_compute. reflexivity.
  - vm_compute. reflexivity.
  - reflexivity.
Defined.

Lemma kafka_events_dispatch_witness :
  let m := mkMessage (str "t") 0 0 None None in
  pollKafkaEvents (λ m n, Ret (tt, S n)) [EvMessage m; EvMessage m; EvErrorValue (str "e")] 0%nat
    = Panic (UserPanic (str "unexpected kafka event: e")).
Proof.
  cbv zeta.
  exact (proj2 (kafka_events_dispatch (λ m n, Ret (tt, S n))
    [mkMessage (str "t") 0 0 None None; mkMessage (str "t") 0 0 None None] [] 0%nat 2%nat eq_refl)
    (str "e")).
Defined.
