(* ===== verification/HttpClient.v ===== *)
(** * The asynchronous HTTP client (http/http.go)

    [AsyncClient] hands requests to a pool of goroutines, each with a buffered
    channel of its own, and reports errors on an unbuffered one.  The client, its
    workers and the goroutine that polls the errors are a transition system: [step]
    executes one event - a call, an exchange with a server, a communication on a
    channel - in a state, and is [None] when the event is not possible, so that a
    goroutine that blocks is one whose events are all [None].  The calls of the
    client are made one at a time here; HttpOverlap.v has calls that overlap.  The
    timeout of a request, which runs from the call of [Post], is the library's: it is one
    of the reasons for which an exchange fails. *)

From S2P Require Import Prelude GoString LuaValue.

(** ** Configuration *)

Record Config := mkConfig {
  Concurrency : Z;
  ChanBuffer : Z;
  Timeout : Z
}.

Definition defaultTimeout : Z := 5 * 1000 * 1000 * 1000.
Definition DefaultConfig : Config := mkConfig 4 100 defaultTimeout.

Definition validateConfiguration (cfg : option Config) : go (option error) :=
  match cfg with
  | None => Panic (UserPanic (str "cannot validate nil configuration"))
  | Some cfg =>
    if Concurrency cfg <? 1 then Ret (Some (Err (str "config error: min http concurrency is 1")))
    else if ChanBuffer cfg <? 1 then Ret (Some (Err (str "config error: min http channel buffer is 1")))
    else Ret None
  end.

(** ** Requests *)

Record request := mkRequest {
  url : gostring;
  contentType : gostring;
  payload : gostring
}.

(** What [client.Do] comes back with, and what reading the body then gives. *)
Inductive response : Type :=
  | Failed (err : error)
  | Answered (code : Z) (status : gostring) (body : gostring) (read_err : option error).

Definition status_error (req : request) (status : gostring) : gostring :=
  str "request to '" ++ url req ++ str "' status: " ++ status.

(** [postRequest(client, req)]. *)
Definition postRequest (req : request) (res : response) : option error :=
  match res with
  | Failed err => Some err
  | Answered code status body read_err =>
    if (200 <=? code) && (code <? 300) then None
    else match read_err with
         | Some _ => Some (Err (status_error req status ++ str ": " ++ body))
         | None => Some (Err (status_error req status))
         end
  end.

(** ** The state *)

(** Where a [poster] goroutine is: waiting for a request, posting one, sending its
    error, sending on [quitchan], or gone. *)
Inductive wstatus : Type :=
  | WIdle
  | WPosting (r : request)
  | WReporting (r : request) (e : error)
  | WQuitting
  | WDone.

(** A request channel and the goroutine that ranges over it. [sent] and [handled]
    are the history of the channel: every request sent on it, and those its
    goroutine is done with. *)
Record worker : Type := mkWorker {
  inbox : list request;
  closed : bool;
  status : wstatus;
  sent : list request;
  handled : list request
}.

Definition new_worker : worker := mkWorker [] false WIdle [] [].

(** What is left to do once the workers have stopped. *)
Inductive after : Type :=
  | AfterFlush
  | AfterClose
  | AfterInit (cfg : option Config) (errors : bool).

(** Where the caller is: between calls, blocked sending on a request channel, or
    waiting on [quitchan] for the worker whose channel it has closed. *)
Inductive pc : Type :=
  | Ready
  | Sending (i : nat) (r : request)
  | Stopping (i : nat) (k : after).

(** The goroutine that receives the errors: it calls [on_http_error] with each. *)
Inductive poller : Type :=
  | Polling
  | InHook (r : request) (e : error).

Record client : Type := mkClient {
  cfg : Config;
  reqchan : option (list worker);
  quitchan : option bool;
  errorchan : bool;
  caller : pc;
  result : option error;
  polls : poller;
  (** the workers of the past, a ghost *)
  retired : list worker
}.

Definition set_caller c s := mkClient (cfg s) (reqchan s) (quitchan s) (errorchan s) c (result s) (polls s) (retired s).
Definition set_reqchan ws s := mkClient (cfg s) ws (quitchan s) (errorchan s) (caller s) (result s) (polls s) (retired s).
Definition set_cfg c s := mkClient c (reqchan s) (quitchan s) (errorchan s) (caller s) (result s) (polls s) (retired s).
Definition set_quitchan q s := mkClient (cfg s) (reqchan s) q (errorchan s) (caller s) (result s) (polls s) (retired s).
Definition set_errorchan b s := mkClient (cfg s) (reqchan s) (quitchan s) b (caller s) (result s) (polls s) (retired s).
Definition set_polls p s := mkClient (cfg s) (reqchan s) (quitchan s) (errorchan s) (caller s) (result s) p (retired s).

(** The call returns an error, or none. *)
Definition return_ (e : option error) (s : client) : client :=
  mkClient (cfg s) (reqchan s) (quitchan s) (errorchan s) Ready e (polls s) (retired s).

Definition set_worker (i : nat) (w : worker) (s : client) : client :=
  set_reqchan ((λ ws, <[i := w]> ws) <$> reqchan s) s.

Definition get_worker (i : nat) (s : client) : option worker := reqchan s ≫= (.!! i).

(** ** Workers *)

Definition set_status (st : wstatus) (w : worker) : worker :=
  mkWorker (inbox w) (closed w) st (sent w) (handled w).

Definition close_worker (w : worker) : worker :=
  mkWorker (inbox w) true (status w) (sent w) (handled w).

Definition enqueue (r : request) (w : worker) : worker :=
  mkWorker (inbox w ++ [r]) (closed w) (status w) (sent w ++ [r]) (handled w).

(** A send on the channel does not block. *)
Definition has_room (s : client) (w : worker) : bool := len (inbox w) <? ChanBuffer (cfg s).

(** The goroutine of the worker is done with a request. *)
Definition finish (r : request) (w : worker) : worker :=
  mkWorker (inbox w) (closed w) WIdle (sent w) (handled w ++ [r]).

(** [a.initWorkers()]. *)
Definition initWorkers (s : client) : go client :=
  if Concurrency (cfg s) <? 0
  then Panic (UserPanic (str "makeslice: len out of range"))
  else Ret (mkClient (cfg s) (Some (replicate (Z.to_nat (Concurrency (cfg s))) new_worker))
              (quitchan s) (errorchan s) (caller s) (result s) (polls s)
              (default [] (reqchan s) ++ retired s)).

(** ** Calls *)

(** The part of [Init] after [Close]. *)
Definition init_workers_from (c : option Config) (errors : bool) (s : client) : go client :=
  let s := set_cfg (default DefaultConfig c) s in
  err ← validateConfiguration (Some (cfg s));
  match err with
  | Some _ => Ret (return_ err s)
  | None =>
    s ← initWorkers (set_quitchan (Some false) (set_errorchan errors s));
    Ret (return_ None s)
  end.

(** [close(a.quitchan); a.reqchan = nil]. *)
Definition close_client (s : client) : go client :=
  match quitchan s with
  | None => Panic CloseOfNilChannel
  | Some true => Panic CloseOfClosedChannel
  | Some false =>
    Ret (mkClient (cfg s) None (Some true) (errorchan s) (caller s) (result s) (polls s)
           (default [] (reqchan s) ++ retired s))
  end.

(** What follows [a.stopWorkers()] in [Flush], [Close] and [Init]. *)
Definition workers_stopped (k : after) (s : client) : go client :=
  match k with
  | AfterFlush => s ← initWorkers s; Ret (return_ None s)
  | AfterClose => s ← close_client s; Ret (return_ None s)
  | AfterInit c errors => s ← close_client s; init_workers_from c errors s
  end.

(** [a.stopWorkers()] from its [i]th iteration on. *)
Definition stop_workers (i : nat) (k : after) (s : client) : go client :=
  if Z.of_nat i <? Concurrency (cfg s) then
    match get_worker i s with
    | None => Panic IndexOutOfRange
    | Some w =>
      if closed w then Panic CloseOfClosedChannel
      else Ret (set_caller (Stopping i k) (set_worker i (close_worker w) s))
    end
  else workers_stopped k s.

(** [a.Init(cfg, errorchan)]. *)
Definition Init (c : option Config) (errors : bool) (s : client) : go client :=
  match reqchan s with
  | Some _ => stop_workers 0 (AfterInit c errors) s
  | None => init_workers_from c errors s
  end.

Definition Flush (s : client) : go client := stop_workers 0 AfterFlush s.
Definition Close (s : client) : go client := stop_workers 0 AfterClose s.

(** A send on [a.reqchan[i]], which blocks when the channel is full. *)
Definition send (i : nat) (r : request) (s : client) : go client :=
  match get_worker i s with
  | None => Panic IndexOutOfRange
  | Some w =>
    if closed w then Panic SendOnClosedChannel
    else if has_room s w then Ret (return_ None (set_worker i (enqueue r w) s))
    else Ret (set_caller (Sending i r) s)
  end.

(** The first channel that has room, in the [select] loop of [Post]. *)
Fixpoint find_room (s : client) (i : nat) (ws : list worker) : option nat :=
  match ws with
  | [] => None
  | w :: ws' => if has_room s w then Some i else find_room s (S i) ws'
  end.

(** [a.Post(url, payload, contentType, affinity)]; [http.NewRequest] fails with
    [bad_request]. *)
Definition Post (r : request) (affinity : Z) (bad_request : option error) (s : client) : go client :=
  let maxAffinity := Concurrency (cfg s) - 1 in
  if maxAffinity <? affinity then
    Ret (return_ (Some (Err (str "Post: cannot pass affinity greater than " ++ itoa maxAffinity ++
      str " (only " ++ itoa (Concurrency (cfg s)) ++ str " channels available)"))) s)
  else
    match bad_request with
    | Some err => Ret (return_ (Some err) s)
    | None =>
      match reqchan s with
      | None => Panic (UserPanic (str "called Write before writer was initialized or after Close was called"))
      | Some ws =>
        if 0 <=? affinity then send (Z.to_nat affinity) r s
        else
          match find_room s 0 (take (Z.to_nat (Concurrency (cfg s))) ws) with
          | Some i => send i r s
          | None => send 0 r s
          end
      end
    end.

(** ** The transition system *)

Inductive event : Type :=
  (* calls *)
  | EInit (c : option Config) (errors : bool)
  | EPost (r : request) (affinity : Z) (bad_request : option error)
  | EFlush
  | EClose
  (* the caller *)
  | ESent
  | EQuit (i : nat)
  (* the workers *)
  | ETake (i : nat)
  | EPosted (i : nat) (res : response)
  | EReport (i : nat)
  | EStop (i : nat)
  (* the poller *)
  | EHook.

(** The configuration builtins re-initialize the client with the sandbox's lock held,
    which the hook of the poller needs; [Post] releases it. *)
Definition holds_lua_lock (c : pc) : bool :=
  match c with Stopping _ (AfterInit _ _) => true | _ => false end.

Definition when_ready (s : client) (m : go client) : option (go client) :=
  match caller s with Ready => Some m | _ => None end.

(** A worker makes a move. *)
Definition move (i : nat) (s : client) (f : worker → option worker) : option (go client) :=
  w ← get_worker i s; w' ← f w; Some (Ret (set_worker i w' s)).

Definition step (s : client) (e : event) : option (go client) :=
  match e with
  | EInit c errors => when_ready s (Init c errors s)
  | EPost r affinity bad => when_ready s (Post r affinity bad s)
  | EFlush => when_ready s (Flush s)
  | EClose => when_ready s (Close s)
  | ESent =>
    match caller s with
    | Sending i r =>
      w ← get_worker i s;
      if has_room s w then Some (Ret (return_ None (set_worker i (enqueue r w) s))) else None
    | _ => None
    end
  | EQuit i =>
    match caller s with
    | Stopping j k =>
      w ← get_worker i s;
      match status w with
      | WQuitting => Some (stop_workers (S j) k (set_worker i (set_status WDone w) s))
      | _ => None
      end
    | _ => None
    end
  | ETake i => move i s (λ w,
      match status w, inbox w with
      | WIdle, r :: rest => Some (mkWorker rest (closed w) (WPosting r) (sent w) (handled w))
      | _, _ => None
      end)
  | EPosted i res => move i s (λ w,
      match status w with
      | WPosting r =>
        match postRequest r res with
        | None => Some (finish r w)
        | Some err => if errorchan s then Some (set_status (WReporting r err) w)
                      else Some (finish r w)
        end
      | _ => None
      end)
  | EReport i =>
    w ← get_worker i s;
    match status w, polls s with
    | WReporting r e, Polling => Some (Ret (set_polls (InHook r e) (set_worker i (finish r w) s)))
    | _, _ => None
    end
  | EStop i => move i s (λ w,
      match status w, inbox w with
      | WIdle, [] => if closed w then Some (set_status WQuitting w) else None
      | _, _ => None
      end)
  | EHook =>
    match polls s with
    | InHook _ _ => if holds_lua_lock (caller s) then None else Some (Ret (set_polls Polling s))
    | Polling => None
    end
  end.

(** A run of events. *)
Fixpoint run (s : client) (es : list event) : option (go client) :=
  match es with
  | [] => Some (Ret s)
  | e :: es' =>
    m ← step s e;
    match m with Ret s' => run s' es' | Panic p => Some (Panic p) end
  end.

(** [new(AsyncClient)], before [Init]. *)
Definition zero_client : client :=
  mkClient (mkConfig 0 0 0) None None false Ready None Polling [].

(** [NewClient(cfg, errorchan)]: the client, or nil with the error of [Init]. *)
Definition NewClient (c : option Config) (errors : bool) : go (option client * option error) :=
  s ← Init c errors zero_client;
  match result s with
  | Some err => Ret (None, Some err)
  | None => Ret (Some s, None)
  end.

(** ** The invariant *)

(** The request a worker is busy with. *)
Definition in_hand (st : wstatus) : list request :=
  match st with WPosting r | WReporting r _ => [r] | _ => [] end.

Definition quiet (st : wstatus) : Prop :=
  match st with WQuitting | WDone => True | _ => False end.

(** The workers before the one being stopped are gone, the ones after it are open. *)
Definition phase_ok (c : pc) (i : nat) (w : worker) : Prop :=
  match c with
  | Ready | Sending _ _ => closed w = false
  | Stopping k _ =>
    ((i < k)%nat → status w = WDone) ∧
    (i = k → closed w = true ∧ status w ≠ WDone) ∧
    ((k < i)%nat → closed w = false)
  end.

Record slot_ok (cap : Z) (w : worker) : Prop := {
  (** requests leave the channel in the order they were sent *)
  slot_fifo : sent w = handled w ++ in_hand (status w) ++ inbox w;
  slot_bound : len (inbox w) <= cap;
  slot_quiet : quiet (status w) → inbox w = [] ∧ closed w = true
}.

Definition caller_ok (c : pc) (n : nat) : Prop :=
  match c with Ready => True | Sending i _ => (i < n)%nat | Stopping i _ => (i < n)%nat end.

Record live (s : client) (ws : list worker) : Prop := {
  live_workers : reqchan s = Some ws;
  live_quit : quitchan s = Some false;
  live_cap : 1 <= ChanBuffer (cfg s);
  live_count : Z.of_nat (length ws) = Concurrency (cfg s);
  live_some : ws ≠ [];
  live_slots : ∀ i w, ws !! i = Some w → slot_ok (ChanBuffer (cfg s)) w ∧ phase_ok (caller s) i w;
  live_caller : caller_ok (caller s) (length ws)
}.

(** Every request sent to a worker of the past was handled. *)
Definition flushed (s : client) : Prop := Forall (λ w, sent w = handled w) (retired s).

Definition inv (s : client) : Prop :=
  flushed s ∧
  ((∃ ws, live s ws) ∨ (reqchan s = None ∧ caller s = Ready ∧ quitchan s = Some true)).

Lemma new_worker_ok cap : 1 <= cap → slot_ok cap new_worker.
Proof. intros. split; cbn; [done|rewrite len_nil; lia|done]. Qed.

Lemma init_workers_inv c errors s :
  flushed s → reqchan s = None →
  ∃ s', init_workers_from c errors s = Ret s' ∧ caller s' = Ready ∧
        (quitchan s = Some true ∨ result s' = None → inv s').
Proof.
  intros Hf Hr. unfold init_workers_from, validateConfiguration.
  change (cfg (set_cfg (default DefaultConfig c) s)) with (default DefaultConfig c).
  set (C := default DefaultConfig c).
  destruct (Z.ltb_spec (Concurrency C) 1); [|destruct (Z.ltb_spec (ChanBuffer C) 1)];
    cbn [mbind go_bind].
  1-2: eexists; split_and!; [reflexivity|done|]; intros [Hq|?]; [|done];
    split; [done|by right].
  unfold initWorkers. cbn [cfg set_quitchan set_errorchan set_cfg]. decide_Z. cbn [mbind go_bind].
  eexists; split_and!; [reflexivity|done|]. intros _.
  split; [by unfold flushed; cbn; rewrite Hr|]. left. eexists. split; cbn; try done.
  - rewrite length_replicate. lia.
  - by destruct (Z.to_nat (Concurrency C)) eqn:E; [lia|].
  - intros i w [-> _]%lookup_replicate. split; [by apply new_worker_ok|done].
Qed.

(** [stop_workers] where the first [i] workers are gone and the others open. *)
Definition stopped_before (i : nat) (cap : Z) (ws : list worker) : Prop :=
  ∀ j w, ws !! j = Some w → slot_ok cap w ∧
    ((j < i)%nat → status w = WDone) ∧ ((i <= j)%nat → closed w = false).

Lemma all_done_flushed cap ws i :
  stopped_before i cap ws → (length ws <= i)%nat → Forall (λ w, sent w = handled w) ws.
Proof.
  intros Hs Hi. apply Forall_lookup. intros j w Hj. destruct (Hs j w Hj) as ([Hf _ Hq] & Hd & _).
  apply lookup_lt_Some in Hj as Hlt. rewrite Hd in * by lia. cbn in *.
  destruct (Hq I) as [Hin _].
  by rewrite Hin, app_nil_r in Hf.
Qed.

Lemma workers_stopped_inv k s ws :
  flushed s → reqchan s = Some ws → quitchan s = Some false → 1 <= ChanBuffer (cfg s) →
  ws ≠ [] → Z.of_nat (length ws) = Concurrency (cfg s) →
  Forall (λ w, sent w = handled w) ws →
  ∃ s', workers_stopped k s = Ret s' ∧ inv s' ∧ caller s' = Ready.
Proof.
  intros Hf Hr Hq Hcap Hne Hlen Hws.
  assert (Forall (λ w, sent w = handled w) (default [] (reqchan s) ++ retired s)) as Hall
    by (rewrite Hr; cbn; by apply Forall_app).
  assert (0 < Concurrency (cfg s)) by (rewrite <- Hlen; destruct ws; [done|cbn; lia]).
  destruct k as [| |c errors]; cbn [workers_stopped].
  - unfold initWorkers. decide_Z. cbn [mbind go_bind].
    eexists; split_and!; [reflexivity| |done]. split; [done|]. left.
    eexists. split; cbn; try done.
    + rewrite length_replicate. lia.
    + by destruct (Z.to_nat (Concurrency (cfg s))) eqn:E; [lia|].
    + intros i w [-> _]%lookup_replicate. split; [by apply new_worker_ok|done].
  - unfold close_client. rewrite Hq. cbn [mbind go_bind].
    eexists; split_and!; [reflexivity| |done]. split; [done|]. by right.
  - unfold close_client. rewrite Hq. cbn [mbind go_bind].
    destruct (init_workers_inv c errors
      (mkClient (cfg s) None (Some true) (errorchan s) (caller s) (result s) (polls s)
         (default [] (reqchan s) ++ retired s))) as (s' & -> & ? & Hinv); [done|done|].
    exists s'. split_and!; [done|apply Hinv; by left|done].
Qed.

Lemma stop_workers_inv i k s ws :
  flushed s → reqchan s = Some ws → quitchan s = Some false → 1 <= ChanBuffer (cfg s) →
  ws ≠ [] → Z.of_nat (length ws) = Concurrency (cfg s) →
  stopped_before i (ChanBuffer (cfg s)) ws →
  ∃ s', stop_workers i k s = Ret s' ∧ inv s' ∧
    (caller s' = Ready ∨ caller s' = Stopping i k ∧ polls s' = polls s ∧
     ∃ w, ws !! i = Some w ∧ reqchan s' = Some (<[i := close_worker w]> ws)).
Proof.
  intros Hf Hr Hq Hcap Hne Hlen Hs. unfold stop_workers.
  destruct (Z.ltb_spec (Z.of_nat i) (Concurrency (cfg s))) as [Hi|Hi].
  - destruct (lookup_lt_is_Some_2 ws i) as [w Hw]; [lia|].
    unfold get_worker. rewrite Hr. cbn [mbind option_bind]. rewrite Hw.
    destruct (Hs i w Hw) as ([Hfifo Hb Hqt] & _ & Hopen). rewrite Hopen by lia.
    eexists; split_and!; [reflexivity| |right; split_and!; [done|done|];
      exists w; split; [done|]; cbn; by rewrite Hr].
    split; [done|]. left. exists (<[i := close_worker w]> ws).
    split; cbn; rewrite ?Hr, ?length_insert; try done.
    + intros E. apply (f_equal length) in E. rewrite length_insert in E. cbn in E. lia.
    + intros j v Hj. destruct (decide (i = j)) as [<-|Hij].
      * rewrite list_lookup_insert_eq in Hj by lia. injection Hj as <-. split.
        { split; cbn; [done|done|]. intros Hquiet. by destruct (Hqt Hquiet). }
        { split_and!; [lia| |lia]. intros _. split; [done|]. cbn. intros Hd.
          rewrite Hd in Hqt. destruct (Hqt I) as [_ Hc]. rewrite Hopen in Hc by lia. done. }
      * rewrite list_lookup_insert_ne in Hj by done. destruct (Hs j v Hj) as (Hok & Hd & Ho).
        split; [done|]. split_and!; [done|lia|intros; apply Ho; lia].
    + lia.
  - destruct (workers_stopped_inv k s ws) as (s' & -> & ? & ?); try done.
    + eapply all_done_flushed; [exact Hs|lia].
    + exists s'. split_and!; [done|done|by left].
Qed.

Lemma ready_stopped s ws :
  live s ws → caller s = Ready → stopped_before 0 (ChanBuffer (cfg s)) ws.
Proof.
  intros Hl Hc j w Hj. destruct (live_slots s ws Hl j w Hj) as [Hok Hp].
  rewrite Hc in Hp. cbn in Hp. split; [done|]. split; [lia|done].
Qed.

(** ** Every event keeps the invariant *)

Lemma get_live s ws i : live s ws → get_worker i s = ws !! i.
Proof. intros Hl. unfold get_worker. by rewrite (live_workers s ws Hl). Qed.

Lemma live_set_worker s ws i w w' :
  live s ws → ws !! i = Some w → slot_ok (ChanBuffer (cfg s)) w' → phase_ok (caller s) i w' →
  live (set_worker i w' s) (<[i := w']> ws).
Proof.
  intros [Hr Hq Hcap Hlen Hne Hs Hc] Hi Hok Hp.
  split; cbn; rewrite ?Hr, ?length_insert; try done.
  - intros E. apply (f_equal length) in E. rewrite length_insert in E. by destruct ws.
  - intros j v Hj. destruct (decide (i = j)) as [<-|Hij].
    + apply lookup_lt_Some in Hi. rewrite list_lookup_insert_eq in Hj by done.
      by injection Hj as <-.
    + rewrite list_lookup_insert_ne in Hj by done. by apply Hs.
Qed.

Lemma live_polls s ws p : live s ws → live (set_polls p s) ws.
Proof. by intros []. Qed.

Lemma live_return s ws e : live s ws → (caller s = Ready ∨ ∃ i r, caller s = Sending i r) →
  live (return_ e s) ws.
Proof.
  intros [Hr Hq Hcap Hlen Hne Hs Hc] Hcall. split; cbn; try done.
  intros i w Hi. destruct (Hs i w Hi) as [Hok Hp]. split; [done|].
  destruct Hcall as [E|(j & r & E)]; by rewrite E in Hp.
Qed.

Lemma enqueue_ok cap r w :
  slot_ok cap w → len (inbox w) < cap → closed w = false → slot_ok cap (enqueue r w).
Proof.
  intros [Hf Hb Hq] Hr Hc. split; cbn.
  - rewrite Hf. by rewrite <- !app_assoc.
  - rewrite len_app, len_cons, len_nil. lia.
  - intros Hquiet. destruct (Hq Hquiet) as [_ E]. congruence.
Qed.

Definition steps_to (m : go client) (P : client → Prop) : Prop := ∃ s', m = Ret s' ∧ P s'.

Lemma send_inv s ws i r :
  live s ws → flushed s → caller s = Ready → (i < length ws)%nat →
  steps_to (send i r s) inv.
Proof.
  intros Hl Hf Hc Hi. unfold send. rewrite (get_live s ws) by done.
  destruct (lookup_lt_is_Some_2 ws i Hi) as [w Hw]. rewrite Hw.
  destruct (live_slots s ws Hl i w Hw) as [Hok Hp]. rewrite Hc in Hp. cbn in Hp. rewrite Hp.
  unfold has_room. destruct (Z.ltb_spec (len (inbox w)) (ChanBuffer (cfg s))) as [Hr|Hr].
  - eexists; split; [reflexivity|]. split; [done|]. left. eexists.
    apply live_return; [|by left]. eapply live_set_worker; [done|done| |by rewrite Hc].
    by apply enqueue_ok.
  - eexists; split; [reflexivity|]. split; [done|]. left. exists ws.
    destruct Hl as [? ? ? ? ? Hs ?]. split; cbn; try done.
    intros j v Hj. destruct (Hs j v Hj) as [? Hpj]. by rewrite Hc in Hpj.
Qed.

Lemma find_room_Some s ws : ∀ i j,
  find_room s i ws = Some j → ∃ k w, j = (i + k)%nat ∧ ws !! k = Some w ∧ has_room s w = true.
Proof.
  induction ws as [|w ws IH]; intros i j; [done|]. cbn [find_room].
  destruct (has_room s w) eqn:E.
  - intros [= <-]. exists 0%nat, w. split; [lia|done].
  - intros (k & v & -> & Hk & Hv)%IH. exists (S k), v. split; [lia|done].
Qed.

Lemma Post_inv s ws r affinity bad :
  live s ws → flushed s → caller s = Ready → steps_to (Post r affinity bad s) inv.
Proof.
  intros Hl Hf Hc. unfold Post.
  assert (∀ e, steps_to (Ret (return_ e s)) inv) as Hret.
  { intros e. eexists; split; [reflexivity|]. split; [done|]. left. exists ws.
    apply live_return; [done|by left]. }
  destruct (Z.ltb_spec (Concurrency (cfg s) - 1) affinity); [apply Hret|].
  destruct bad; [apply Hret|]. rewrite (live_workers s ws Hl).
  pose proof (live_count s ws Hl) as Hlen. pose proof (live_some s ws Hl) as Hne.
  destruct (Z.leb_spec 0 affinity); [eapply send_inv; eauto; lia|].
  destruct (find_room s 0 _) as [i|] eqn:E; (eapply send_inv; [done..|]).
  - apply find_room_Some in E as (k & w & -> & Hk & _). apply lookup_lt_Some in Hk.
    rewrite length_take in Hk. lia.
  - destruct ws; [done|cbn; lia].
Qed.

(** The moves of a worker. *)
Lemma move_inv s ws i f m :
  live s ws → flushed s →
  (∀ w w', f w = Some w' → slot_ok (ChanBuffer (cfg s)) w → phase_ok (caller s) i w →
     slot_ok (ChanBuffer (cfg s)) w' ∧ phase_ok (caller s) i w') →
  move i s f = Some m → steps_to m inv.
Proof.
  intros Hl Hfl Hf. unfold move. rewrite (get_live s ws) by done.
  destruct (ws !! i) as [w|] eqn:Hw; [|done]. cbn. destruct (f w) as [w'|] eqn:Hfw; [|done].
  cbn. intros [= <-]. eexists; split; [reflexivity|]. split; [done|]. left. eexists.
  destruct (live_slots s ws Hl i w Hw) as [Hok Hp].
  destruct (Hf w w' Hfw Hok Hp). by eapply live_set_worker.
Qed.

(** A worker that is not gone moves to another status that is not the last one. *)
Lemma phase_move c i w w' :
  phase_ok c i w → closed w' = closed w → status w ≠ WDone → status w' ≠ WDone →
  phase_ok c i w'.
Proof.
  intros Hp Hcl Hs Hs'. destruct c as [|j r|k a]; cbn in *; rewrite ?Hcl; try done.
  destruct Hp as (H1 & H2 & H3). split_and!; [|naive_solver|done]. intros. destruct Hs. auto.
Qed.

Lemma finish_ok cap r w :
  slot_ok cap w → in_hand (status w) = [r] → slot_ok cap (finish r w).
Proof.
  intros [Hf Hb _] Hh. split; cbn; [|done|done]. rewrite Hf, Hh. by rewrite <- app_assoc.
Qed.

Lemma EQuit_index s ws i j k w :
  live s ws → caller s = Stopping j k → ws !! i = Some w → status w = WQuitting → i = j.
Proof.
  intros Hl Hc Hw Hst. destruct (live_slots s ws Hl i w Hw) as [[_ _ Hq] Hp].
  rewrite Hc in Hp. cbn in Hp. rewrite Hst in *. destruct Hp as (H1 & _ & H3).
  destruct (Hq I) as [_ Hcl].
  destruct (Nat.lt_trichotomy i j) as [Hlt|[->|Hlt]]; [by specialize (H1 Hlt)|done|].
  specialize (H3 Hlt). congruence.
Qed.

Lemma EQuit_stopped s ws j k w :
  live s ws → caller s = Stopping j k → ws !! j = Some w → status w = WQuitting →
  stopped_before (S j) (ChanBuffer (cfg s)) (<[j := set_status WDone w]> ws).
Proof.
  intros Hl Hc Hw Hst i v Hv. destruct (decide (j = i)) as [<-|Hne].
  - apply lookup_lt_Some in Hw as Hlt. rewrite list_lookup_insert_eq in Hv by done.
    injection Hv as <-. destruct (live_slots s ws Hl j w Hw) as [[Hf Hb Hq] _].
    rewrite Hst in *. split; [|split; [done|lia]]. split; [done|done|]. intros _.
    by destruct (Hq I).
  - rewrite list_lookup_insert_ne in Hv by done.
    destruct (live_slots s ws Hl i v Hv) as [Hok Hp]. rewrite Hc in Hp.
    destruct Hp as (H1 & _ & H3). split; [done|]. split; [intros; apply H1; lia|].
    intros; apply H3; lia.
Qed.

Lemma EQuit_inv s ws i m :
  live s ws → flushed s → step s (EQuit i) = Some m → steps_to m inv.
Proof.
  intros Hl Hf. cbn [step]. destruct (caller s) as [| |j k] eqn:Hc; [done|done|].
  rewrite (get_live s ws) by done. destruct (ws !! i) as [w|] eqn:Hw; [|done]. cbn.
  destruct (status w) eqn:Hst; try done. intros [= <-].
  assert (i = j) as -> by by eapply EQuit_index.
  pose proof (EQuit_stopped s ws j k w Hl Hc Hw Hst) as Hsb.
  destruct Hl as [Hr Hq Hcap Hlen Hne Hs Hcl].
  destruct (stop_workers_inv (S j) k (set_worker j (set_status WDone w) s)
    (<[j := set_status WDone w]> ws)) as (s' & -> & Hinv & _); cbn; rewrite ?Hr; try done.
  - intros E. apply (f_equal length) in E. rewrite length_insert in E. by destruct ws.
  - by rewrite length_insert.
  - by exists s'.
Qed.

(** No event of a client that is in use panics, and all of them keep the invariant. *)
Lemma step_inv s ws e m :
  live s ws → flushed s → step s e = Some m → steps_to m inv.
Proof.
  intros Hl Hf. destruct e as [c errs|r aff bad| | | |i|i|i res|i|i|].
  - cbn. unfold when_ready. destruct (caller s) eqn:Hc; [|done|done]. intros [= <-].
    unfold Init. rewrite (live_workers s ws Hl).
    destruct (stop_workers_inv 0 (AfterInit c errs) s ws) as (s' & -> & ? & _);
      [done|apply Hl..|by apply ready_stopped|]. by exists s'.
  - cbn. unfold when_ready. destruct (caller s) eqn:Hc; [|done|done]. intros [= <-].
    by eapply Post_inv.
  - cbn. unfold when_ready. destruct (caller s) eqn:Hc; [|done|done]. intros [= <-].
    destruct (stop_workers_inv 0 AfterFlush s ws) as (s' & H & ? & _);
      [done|apply Hl..|by apply ready_stopped|]. by exists s'.
  - cbn. unfold when_ready. destruct (caller s) eqn:Hc; [|done|done]. intros [= <-].
    destruct (stop_workers_inv 0 AfterClose s ws) as (s' & H & ? & _);
      [done|apply Hl..|by apply ready_stopped|]. by exists s'.
  - cbn. destruct (caller s) as [|i r|] eqn:Hc; [done| |done].
    rewrite (get_live s ws) by done. destruct (ws !! i) as [w|] eqn:Hw; [|done]. cbn.
    unfold has_room. destruct (Z.ltb_spec (len (inbox w)) (ChanBuffer (cfg s))) as [Hr|]; [|done].
    intros [= <-]. destruct (live_slots s ws Hl i w Hw) as [Hok Hp]. rewrite Hc in Hp.
    eexists; split; [reflexivity|]. split; [done|]. left. eexists.
    apply live_return; [|right; eauto]. eapply live_set_worker; [done|done| |by rewrite Hc].
    by apply enqueue_ok.
  - by eapply EQuit_inv.
  - apply (move_inv s ws); [done|done|]. intros w w' Hw Hok Hp.
    destruct (status w) as [|r0|r0 e0| |] eqn:Hst, (inbox w) as [|r rest] eqn:Hin; try done. injection Hw as <-.
    split; [|eapply phase_move; [exact Hp|done|by rewrite Hst|done]].
    destruct Hok as [Hfi Hb _]. rewrite Hst, Hin in *. split; cbn; [done| |done].
    rewrite len_cons in Hb. lia.
  - apply (move_inv s ws); [done|done|]. intros w w' Hw Hok Hp.
    destruct (status w) as [|r| | |] eqn:Hst; try done.
    destruct (postRequest r res) as [err|]; [destruct (errorchan s)|]; injection Hw as <-;
      (split; [|eapply phase_move; [exact Hp|done|by rewrite Hst|done]]).
    + destruct Hok as [Hfi Hb _]. by rewrite Hst in *.
    + apply finish_ok; [done|by rewrite Hst].
    + apply finish_ok; [done|by rewrite Hst].
  - cbn. rewrite (get_live s ws) by done. destruct (ws !! i) as [w|] eqn:Hw; [|done]. cbn.
    destruct (status w) as [| |r e| |] eqn:Hst; try done. destruct (polls s); [|done].
    intros [= <-]. destruct (live_slots s ws Hl i w Hw) as [Hok Hp].
    eexists; split; [reflexivity|]. split; [done|]. left. eexists. apply live_polls.
    eapply live_set_worker; [done|done|apply finish_ok; [done|by rewrite Hst]|].
    eapply phase_move; [exact Hp|done|by rewrite Hst|done].
  - apply (move_inv s ws); [done|done|]. intros w w' Hw Hok Hp.
    destruct (status w) as [|r0|r0 e0| |] eqn:Hst, (inbox w) as [|r rest] eqn:Hin; try done.
    destruct (closed w) eqn:Hcl; [|done]. injection Hw as <-.
    split; [|eapply phase_move; [exact Hp|done|by rewrite Hst|done]].
    destruct Hok as [Hfi Hb _]. rewrite Hst, Hin in *. by split; cbn; rewrite ?Hin.
  - cbn. destruct (polls s); [done|]. destruct (holds_lua_lock (caller s)); [done|].
    intros [= <-]. eexists; split; [reflexivity|]. split; [done|]. left. exists ws.
    by apply live_polls.
Qed.

(** ** Reachable clients *)

(** Calls other than [Init] are for clients that are initialized. *)
Definition allowed (s : client) (e : event) : Prop :=
  match e with
  | EPost _ _ _ | EFlush | EClose => reqchan s ≠ None
  | _ => True
  end.

Inductive reach : client → Prop :=
  | reach_new c errors s : NewClient c errors = Ret (Some s, None) → reach s
  | reach_step s e s' : reach s → allowed s e → step s e = Some (Ret s') → reach s'.

Lemma step_inv_all s e m : inv s → allowed s e → step s e = Some m → steps_to m inv.
Proof.
  intros [Hf [[ws Hl]|(Hr & Hc & Hq)]] Ha Hs; [by eapply step_inv|].
  destruct e as [c errs|r aff bad| | | |i|i|i res|i|i|]; cbn in Ha, Hs; try done;
    unfold move, get_worker, when_ready in Hs; rewrite ?Hc, ?Hr in Hs; cbn in Hs; try done.
  - injection Hs as <-. unfold Init. rewrite Hr.
    destruct (init_workers_inv c errs s) as (s' & -> & _ & Hinv); [done|done|].
    exists s'. split; [done|]. apply Hinv. by left.
  - destruct (polls s); [done|]. injection Hs as <-. eexists; split; [reflexivity|].
    split; [done|]. by right.
Qed.

Lemma reach_inv s : reach s → inv s.
Proof.
  induction 1 as [c errors s Hnew|s e s' Hr IH Ha Hs].
  - unfold NewClient, Init in Hnew. cbn [zero_client reqchan] in Hnew.
    destruct (init_workers_inv c errors zero_client) as (s' & Hs' & _ & Hinv);
      [constructor|done|].
    rewrite Hs' in Hnew. cbn in Hnew. destruct (result s') eqn:E; [done|].
    injection Hnew as <-. apply Hinv. by right.
  - by destruct (step_inv_all s e _ IH Ha Hs) as (s1 & [= <-] & ?).
Qed.

(** ** Calls return *)

(** The events other than calls: no caller, server or script has to decide on
    them, and a schedule has to let one of those possible happen. *)
Definition internal (e : event) : Prop :=
  match e with EInit _ _ | EPost _ _ _ | EFlush | EClose => False | _ => True end.

Definition status_work (st : wstatus) : nat :=
  match st with WIdle => 2 | WPosting _ => 5 | WReporting _ _ => 4 | WQuitting => 1 | WDone => 0 end.
Definition work (w : worker) : nat := 4 * length (inbox w) + status_work (status w).
Definition poll_work (p : poller) : nat := match p with Polling => 0 | InHook _ _ => 1 end.

Arguments work : simpl never.
Arguments poll_work : simpl never.

(** What is left to do, in events. *)
Definition measure (s : client) : nat :=
  sum_list_with work (default [] (reqchan s)) + poll_work (polls s).

Lemma sum_insert ws i w w' :
  ws !! i = Some w →
  (sum_list_with work (<[i := w']> ws) + work w = sum_list_with work ws + work w')%nat.
Proof.
  intros Hi. apply list_elem_of_split_length in Hi as (l1 & l2 & -> & ->).
  rewrite insert_app_r_alt, Nat.sub_diag by lia. cbn [insert list_insert].
  rewrite !sum_list_with_app. cbn [sum_list_with]. lia.
Qed.

Lemma measure_set_worker s ws i w w' p :
  live s ws → ws !! i = Some w →
  (measure (set_polls p (set_worker i w' s)) + work w + poll_work (polls s)
     = measure s + work w' + poll_work p)%nat.
Proof.
  intros Hl Hi. unfold measure. cbn. rewrite (live_workers s ws Hl). cbn.
  pose proof (sum_insert ws i w w' Hi). lia.
Qed.

Lemma measure_set_worker_same s ws i w w' :
  live s ws → ws !! i = Some w →
  (measure (set_worker i w' s) + work w = measure s + work w')%nat.
Proof.
  intros Hl Hi. pose proof (measure_set_worker s ws i w w' (polls s) Hl Hi) as H.
  unfold measure in *. cbn in *. lia.
Qed.

(** Some event is possible while a call waits, unless the hook needs the lock the
    caller holds. *)
Lemma waiting_progress s ws :
  live s ws → caller s ≠ Ready → holds_lua_lock (caller s) = false →
  ∃ e, internal e ∧ step s e ≠ None.
Proof.
  intros Hl Hc Hlock.
  assert (∃ i w, ws !! i = Some w ∧ status w ≠ WDone ∧
    ((∃ r, caller s = Sending i r ∧ closed w = false) ∨ (∃ k, caller s = Stopping i k ∧ closed w = true)))
    as (i & w & Hw & Hnd & Hcase).
  { pose proof (live_caller s ws Hl) as Hcl. destruct (caller s) as [|i r|i k] eqn:E; [done|..].
    all: destruct (lookup_lt_is_Some_2 ws i Hcl) as [w Hw]; exists i, w; split; [done|].
    all: destruct (live_slots s ws Hl i w Hw) as [[_ _ Hq] Hp]; rewrite E in Hp; cbn in Hp.
    - split; [|left; eauto]. intros Hd. rewrite Hd in Hq. destruct (Hq I). congruence.
    - destruct Hp as (_ & H2 & _). destruct (H2 eq_refl). split; [done|right; eauto]. }
  pose proof (get_live s ws i Hl) as Hget. rewrite Hw in Hget.
  assert (∀ r e, status w = WReporting r e → ∃ e, internal e ∧ step s e ≠ None) as Hreport.
  { intros r e Hst. destruct (polls s) eqn:Hp.
    - exists (EReport i). split; [done|]. cbn. by rewrite Hget; cbn; rewrite Hst, Hp.
    - exists EHook. split; [done|]. cbn. by rewrite Hp, Hlock. }
  assert (∀ r, status w = WPosting r → ∃ e, internal e ∧ step s e ≠ None) as Hpost.
  { intros r Hst. exists (EPosted i (Answered 200 [] [] None)). split; [done|]. cbn.
    unfold move. rewrite Hget. cbn. by rewrite Hst. }
  destruct (status w) as [|r|r e| |] eqn:Hst; [|by eapply Hpost|by eapply Hreport| |done].
  - destruct (inbox w) as [|r rest] eqn:Hin.
    + destruct Hcase as [(r & E & _)|(k & E & Hcl)].
      * exists ESent. split; [done|]. cbn. rewrite E, Hget. cbn. unfold has_room.
        rewrite Hin, len_nil. pose proof (live_cap s ws Hl). by decide_Z.
      * exists (EStop i). split; [done|]. cbn. unfold move. rewrite Hget. cbn.
        by rewrite Hst, Hin, Hcl.
    + exists (ETake i). split; [done|]. cbn. unfold move. rewrite Hget. cbn. by rewrite Hst, Hin.
  - destruct Hcase as [(r & E & Hcl)|(k & E & _)].
    + destruct (live_slots s ws Hl i w Hw) as [[_ _ Hq] _]. rewrite Hst in Hq.
      destruct (Hq I). congruence.
    + exists (EQuit i). split; [done|]. cbn. rewrite E, Hget. cbn. by rewrite Hst.
Qed.

(** An internal event brings the call closer to its end. *)
Definition closer (s s' : client) : Prop :=
  caller s' = Ready ∨
  ((measure s' < measure s)%nat ∧ holds_lua_lock (caller s') = holds_lua_lock (caller s)).

Lemma move_closer s ws i f s' :
  live s ws → (∀ w w', f w = Some w' → (work w' < work w)%nat) →
  move i s f = Some (Ret s') → closer s s'.
Proof.
  intros Hl Hf. unfold move. rewrite (get_live s ws) by done.
  destruct (ws !! i) as [w|] eqn:Hw; [|done]. cbn. destruct (f w) as [w'|] eqn:Hfw; [|done].
  cbn. intros [= <-]. right. split; [|done]. apply Hf in Hfw.
  pose proof (measure_set_worker_same s ws i w w' Hl Hw). lia.
Qed.

Lemma EQuit_closer s ws i s' :
  live s ws → flushed s → step s (EQuit i) = Some (Ret s') → closer s s'.
Proof.
  intros Hl Hf. cbn [step]. destruct (caller s) as [| |j k] eqn:Hc; [done|done|].
  rewrite (get_live s ws) by done. destruct (ws !! i) as [w|] eqn:Hw; [|done]. cbn.
  destruct (status w) eqn:Hst; try done. intros [= Hs'].
  assert (i = j) as -> by by eapply EQuit_index.
  pose proof (EQuit_stopped s ws j k w Hl Hc Hw Hst) as Hsb.
  pose proof (sum_insert ws j w (set_status WDone w) Hw) as Hsum.
  assert (work (set_status WDone w) + 1 = work w)%nat as Hone
    by (unfold work; rewrite Hst; cbn; lia).
  destruct (stop_workers_inv (S j) k (set_worker j (set_status WDone w) s)
    (<[j := set_status WDone w]> ws)) as (s1 & Hs1 & _ & Hcase).
  1-7: destruct Hl as [Hr Hq Hcap Hlen Hne Hs Hcl]; cbn; rewrite ?Hr, ?length_insert; try done.
  { intros E. apply (f_equal length) in E. rewrite length_insert in E. by destruct ws. }
  rewrite Hs1 in Hs'. injection Hs' as <-.
  destruct Hcase as [Hready|(Hcl & Hp & v & Hv & Hws)]; [by left|].
  right. rewrite Hcl, Hc. split; [|done]. unfold measure. rewrite Hp, Hws, (live_workers s ws Hl).
  cbn [default polls set_worker set_reqchan].
  pose proof (sum_insert _ (S j) v (close_worker v) Hv) as Hsum2.
  assert (work (close_worker v) = work v) as Hsame by done.
  change (polls (set_worker j (set_status WDone w) s)) with (polls s).
  cbn [from_option id]. lia.
Qed.

Lemma internal_closer s ws e s' :
  live s ws → flushed s → internal e → step s e = Some (Ret s') → closer s s'.
Proof.
  intros Hl Hf Hi. destruct e as [| | | | |i|i|i res|i|i|]; try done.
  - cbn. destruct (caller s) as [|i r|] eqn:Hc; [done| |done].
    destruct (get_worker i s); [|done]. cbn. destruct (has_room s w); [|done].
    intros [= <-]. by left.
  - by eapply EQuit_closer.
  - apply (move_closer s ws); [done|]. intros w w'. unfold work.
    destruct (status w) as [|r0|r0 e0| |], (inbox w) as [|r rest]; try done.
    intros [= <-]. cbn. lia.
  - apply (move_closer s ws); [done|]. intros w w'. unfold work.
    destruct (status w) as [|r| | |]; try done.
    destruct (postRequest r res) as [err|]; [destruct (errorchan s)|];
      intros [= <-]; cbn; lia.
  - cbn. rewrite (get_live s ws) by done. destruct (ws !! i) as [w|] eqn:Hw; [|done]. cbn.
    destruct (status w) as [| |r e| |] eqn:Hst; try done. destruct (polls s) eqn:Hp; [|done].
    intros [= <-]. right. split; [|done].
    pose proof (measure_set_worker s ws i w (finish r w) (InHook r e) Hl Hw) as Hm.
    unfold work, poll_work, finish in Hm. rewrite Hst, Hp in Hm.
    cbn [inbox status status_work] in Hm. unfold finish. lia.
  - apply (move_closer s ws); [done|]. intros w w'. unfold work.
    destruct (status w) as [|r0|r0 e0| |], (inbox w) as [|r rest] eqn:Hin; try done.
    destruct (closed w); [|done]. intros [= <-]. cbn. rewrite Hin. cbn. lia.
  - cbn. destruct (polls s) eqn:Hp; [done|]. destruct (holds_lua_lock (caller s)); [done|].
    intros [= <-]. right. split; [|done]. unfold measure. cbn. rewrite Hp. unfold poll_work. lia.
Qed.

(** Internal events during which the call does not return. *)
Inductive waits : client → list event → client → Prop :=
  | waits_nil s : waits s [] s
  | waits_cons s e s1 es s' :
      internal e → step s e = Some (Ret s1) → caller s1 ≠ Ready → waits s1 es s' →
      waits s (e :: es) s'.

Lemma inv_live s : inv s → caller s ≠ Ready → ∃ ws, live s ws.
Proof. intros [_ [?|(_ & ? & _)]] ?; done. Qed.

Lemma waits_bounded s es s' :
  waits s es s' → inv s → caller s ≠ Ready → (length es + measure s' <= measure s)%nat.
Proof.
  induction 1 as [s|s e s1 es s' Hi Hs Hc1 _ IH]; intros Hinv Hc; [done|].
  destruct (inv_live s Hinv Hc) as [ws Hl]. destruct Hinv as [Hf _].
  destruct (internal_closer s ws e s1 Hl Hf Hi Hs) as [?|[Hlt _]]; [done|].
  destruct (step_inv s ws e _ Hl Hf Hs) as (s2 & [= <-] & Hinv1).
  specialize (IH Hinv1 Hc1). cbn. lia.
Qed.

Lemma call_ends n : ∀ s,
  (measure s < n)%nat → inv s → caller s ≠ Ready → holds_lua_lock (caller s) = false →
  ∃ es s', Forall internal es ∧ run s es = Some (Ret s') ∧ caller s' = Ready.
Proof.
  induction n as [|n IH]; intros s Hn Hinv Hc Hlock; [lia|].
  destruct (inv_live s Hinv Hc) as [ws Hl]. destruct Hinv as [Hf _].
  destruct (waiting_progress s ws Hl Hc Hlock) as (e & Hi & Hs).
  destruct (step s e) as [m|] eqn:E; [|done].
  destruct (step_inv s ws e m Hl Hf E) as (s1 & -> & Hinv1).
  assert (caller s1 = Ready ∨ caller s1 ≠ Ready) as [Hr|Hr] by (destruct (caller s1); auto).
  { exists [e], s1. split_and!; [by repeat constructor| |done]. cbn. by rewrite E. }
  destruct (internal_closer s ws e s1 Hl Hf Hi E) as [?|[Hlt Hlk]]; [done|].
  destruct (IH s1 ltac:(lia) Hinv1 Hr ltac:(congruence)) as (es & s' & Hes & Hrun & Hready).
  exists (e :: es), s'. split_and!; [by constructor| |done]. cbn. by rewrite E.
Qed.

(** ** A schedule *)

(** An adequate schedule gives, for every call that waits, events after which it returns. *)
Definition adequate (schedule : client → list event) : Prop :=
  ∀ s, reach s → caller s ≠ Ready → holds_lua_lock (caller s) = false →
  ∃ s', Forall internal (schedule s) ∧ run s (schedule s) = Some (Ret s') ∧ caller s' = Ready.

Definition is_ready (c : pc) : bool := match c with Ready => true | _ => false end.

(** The events that workers, poller and caller may make, when all the servers answer [res]. *)
Definition candidates (res : response) (s : client) : list event :=
  ESent :: EHook ::
  flat_map (λ i, [EQuit i; ETake i; EPosted i res; EReport i; EStop i])
    (seq 0 (length (default [] (reqchan s)))).

(** The first of them that is possible, until the call returns. *)
Fixpoint greedy_events (res : response) (fuel : nat) (s : client) : list event :=
  match fuel with
  | O => []
  | S n =>
    if is_ready (caller s) then []
    else match List.find (λ e, match step s e with Some (Ret _) => true | _ => false end) (candidates res s) with
         | Some e => match step s e with Some (Ret s') => e :: greedy_events res n s' | _ => [] end
         | None => []
         end
  end.

Definition greedy (res : response) (s : client) : list event := greedy_events res (S (measure s)) s.

Lemma candidates_internal res s e : e ∈ candidates res s → internal e.
Proof.
  unfold candidates. rewrite !elem_of_cons.
  intros [->|[->|(i & _ & Hin)%list_elem_of_In%in_flat_map]]; [done..|]. cbn in Hin. by repeat destruct Hin as [<-|Hin].
Qed.

(** A possible event has a candidate. *)
Lemma candidate_possible res s ws e :
  live s ws → internal e → step s e ≠ None → ∃ e', e' ∈ candidates res s ∧ step s e' ≠ None.
Proof.
  intros Hl Hi Hs.
  assert (∀ i, get_worker i s ≠ None →
    ∀ e', e' ∈ [EQuit i; ETake i; EPosted i res; EReport i; EStop i] → e' ∈ candidates res s) as Hin.
  { intros i Hg e' He. unfold candidates. rewrite !elem_of_cons. do 2 right.
    apply list_elem_of_In, in_flat_map. exists i. split; [|by apply list_elem_of_In].
    apply in_seq. unfold get_worker in Hg. destruct (reqchan s) as [ws'|]; [|done]. cbn in *.
    destruct (ws' !! i) eqn:E; [|done]. apply lookup_lt_Some in E. lia. }
  destruct e as [| | | | |i|i|i r|i|i|]; try done.
  - exists ESent. split; [by left|done].
  - exists (EQuit i). split; [|done]. apply (Hin i); [|set_solver].
    intros Hg. apply Hs. cbn. rewrite Hg. by destruct (caller s).
  - exists (ETake i). split; [|done]. apply (Hin i); [|set_solver].
    intros Hg. apply Hs. cbn. unfold move. by rewrite Hg.
  - exists (EPosted i res). assert (get_worker i s ≠ None) as Hg.
    { intros Hg. apply Hs. cbn. unfold move. by rewrite Hg. }
    split; [apply (Hin i); [done|set_solver]|]. revert Hs. cbn. unfold move.
    destruct (get_worker i s) as [w|]; [|done]. cbn. destruct (status w); try done.
    intros _. destruct (postRequest r0 res); [destruct (errorchan s)|]; done.
  - exists (EReport i). split; [|done]. apply (Hin i); [|set_solver].
    intros Hg. apply Hs. cbn. by rewrite Hg.
  - exists (EStop i). split; [|done]. apply (Hin i); [|set_solver].
    intros Hg. apply Hs. cbn. unfold move. by rewrite Hg.
  - exists EHook. split; [right; by left|done].
Qed.

Lemma greedy_ends res n : ∀ s,
  (measure s < n)%nat → inv s → caller s ≠ Ready → holds_lua_lock (caller s) = false →
  ∃ s', Forall internal (greedy_events res n s) ∧ run s (greedy_events res n s) = Some (Ret s') ∧
        caller s' = Ready.
Proof.
  induction n as [|n IH]; intros s Hn Hinv Hc Hlock; [lia|].
  destruct (inv_live s Hinv Hc) as [ws Hl]. pose proof Hinv as [Hf _].
  destruct (waiting_progress s ws Hl Hc Hlock) as (e & Hi & Hs).
  destruct (candidate_possible res s ws e Hl Hi Hs) as (e' & Hin & Hs').
  cbn [greedy_events]. destruct (is_ready (caller s)) eqn:Er; [by destruct (caller s)|].
  destruct (List.find _ _) as [e1|] eqn:Ef.
  - apply List.find_some in Ef as [He1 Hok]. rewrite <- list_elem_of_In in He1.
    apply candidates_internal in He1. destruct (step s e1) as [[s1|]|] eqn:E1; try done.
    destruct (step_inv s ws e1 _ Hl Hf E1) as (s2 & [= <-] & Hinv1).
    destruct (internal_closer s ws e1 s1 Hl Hf He1 E1) as [Hr|[Hlt Hlk]].
    + exists s1. assert (greedy_events res n s1 = []) as -> by (destruct n; cbn; by rewrite ?Hr).
      split_and!; [by repeat constructor| |done]. cbn. by rewrite E1.
    + assert (caller s1 = Ready ∨ caller s1 ≠ Ready) as [Hr|Hr] by (destruct (caller s1); auto).
      { exists s1. assert (greedy_events res n s1 = []) as -> by (destruct n; cbn; by rewrite ?Hr).
        split_and!; [by repeat constructor| |done]. cbn. by rewrite E1. }
      destruct (IH s1 ltac:(lia) Hinv1 Hr ltac:(congruence)) as (s' & Hes & Hrun & Hready).
      exists s'. split_and!; [by constructor| |done]. cbn. by rewrite E1.
  - exfalso. rewrite list_elem_of_In in Hin. pose proof (List.find_none _ _ Ef e' Hin) as Hnone.
    cbn in Hnone. destruct (step s e') as [m|] eqn:E'; [|done].
    destruct (step_inv s ws e' m Hl Hf E') as (s1 & -> & _). done.
Qed.

Lemma greedy_adequate res : adequate (greedy res).
Proof.
  intros s Hr Hc Hlock. apply (greedy_ends res (S (measure s))); [lia|by apply reach_inv|done..].
Qed.

(** ** What a call that stops the workers leaves behind *)

(** The call has returned after the internal events, and not before. *)
Inductive returns : client → list event → client → Prop :=
  | returns_now s : caller s = Ready → returns s [] s
  | returns_later s e s1 es s' :
      caller s ≠ Ready → internal e → step s e = Some (Ret s1) → returns s1 es s' →
      returns s (e :: es) s'.

(** The calls that stop the workers, with what they do next. *)
Definition stops (e : event) : option after :=
  match e with
  | EFlush => Some AfterFlush
  | EClose => Some AfterClose
  | EInit c errors => Some (AfterInit c errors)
  | _ => None
  end.

(** The workers of [s] have been replaced or dropped, after they were done. *)
Definition stopped_result (k : after) (ws : list worker) (past : list worker) (s' : client) : Prop :=
  caller s' = Ready ∧ retired s' = ws ++ past ∧
  match k with
  | AfterFlush => result s' = None ∧ reqchan s' = Some (replicate (length ws) new_worker)
  | AfterClose => result s' = None ∧ reqchan s' = None
  | AfterInit _ _ => True
  end.

Lemma workers_stopped_result k s ws s' :
  reqchan s = Some ws → Z.of_nat (length ws) = Concurrency (cfg s) →
  workers_stopped k s = Ret s' → stopped_result k ws (retired s) s'.
Proof.
  intros Hr Hlen. unfold stopped_result. destruct k as [| |c errors]; cbn [workers_stopped].
  - unfold initWorkers. decide_Z. cbn. rewrite Hr. intros [= <-]. cbn.
    by rewrite <- Hlen, Nat2Z.id.
  - unfold close_client. destruct (quitchan s) as [[]|]; cbn; try done.
    rewrite Hr. by intros [= <-].
  - unfold close_client. destruct (quitchan s) as [[]|]; cbn; try done.
    unfold init_workers_from, validateConfiguration. cbn. rewrite Hr.
    destruct (Concurrency (default DefaultConfig c) <? 1); [by intros [= <-]|].
    destruct (ChanBuffer (default DefaultConfig c) <? 1); [by intros [= <-]|]. cbn.
    unfold initWorkers. cbn. destruct (Concurrency (default DefaultConfig c) <? 0); [done|].
    by intros [= <-].
Qed.

(** While the workers are being stopped no request is sent. *)
Definition stopping (k : after) (ws : list worker) (s s1 : client) : Prop :=
  (∃ i, caller s1 = Stopping i k) ∧ retired s1 = retired s ∧
  ∃ ws1, reqchan s1 = Some ws1 ∧ sent <$> ws1 = sent <$> ws.

Lemma sent_insert (ws : list worker) i w w' :
  ws !! i = Some w → sent w' = sent w → sent <$> <[i := w']> ws = sent <$> ws.
Proof.
  intros Hi Hs. rewrite list_fmap_insert, Hs. apply list_insert_id.
  by rewrite list_lookup_fmap, Hi.
Qed.

Lemma stop_workers_outcome i k s ws s' :
  reqchan s = Some ws → Z.of_nat (length ws) = Concurrency (cfg s) →
  stop_workers i k s = Ret s' → stopping k ws s s' ∨ stopped_result k ws (retired s) s'.
Proof.
  intros Hr Hlen. unfold stop_workers, get_worker. rewrite Hr. cbn.
  destruct (Z.of_nat i <? Concurrency (cfg s)).
  - destruct (ws !! i) as [w|] eqn:Hw; [|done]. destruct (closed w); [done|]. intros [= <-].
    left. split; [by exists i|]. split; [done|]. cbn. rewrite Hr. eexists. split; [done|].
    by apply (sent_insert ws i w).
  - intros H. right. by eapply workers_stopped_result.
Qed.

Lemma move_sent s ws i f s' :
  reqchan s = Some ws → (∀ w w', f w = Some w' → sent w' = sent w) → move i s f = Some (Ret s') →
  caller s' = caller s ∧ retired s' = retired s ∧
  ∃ ws', reqchan s' = Some ws' ∧ sent <$> ws' = sent <$> ws.
Proof.
  intros Hr Hf. unfold move, get_worker. rewrite Hr. cbn.
  destruct (ws !! i) as [w|] eqn:Hw; [|done]. cbn. destruct (f w) as [w'|] eqn:Hfw; [|done].
  cbn. intros [= <-]. split; [done|]. split; [done|]. cbn. rewrite Hr. eexists. split; [done|].
  by apply (sent_insert ws i w), Hf.
Qed.

Lemma stopping_step k ws s0 s e s' :
  inv s → stopping k ws s0 s → internal e → step s e = Some (Ret s') →
  stopping k ws s0 s' ∨ ∃ ws', sent <$> ws' = sent <$> ws ∧ stopped_result k ws' (retired s0) s'.
Proof.
  intros Hinv ([i Hc] & Hret & ws1 & Hr & Hsent) Hi Hs.
  destruct (inv_live s Hinv) as [ws1' Hl]; [by rewrite Hc|].
  rewrite (live_workers s ws1' Hl) in Hr. injection Hr as ->.
  pose proof (live_workers s ws1 Hl) as Hr.
  assert (∀ m f, step s e = move m s f → (∀ w w', f w = Some w' → sent w' = sent w) →
    stopping k ws s0 s') as Hmove.
  { intros m f Hst Hf. rewrite Hst in Hs.
    destruct (move_sent s ws1 m f s' Hr Hf Hs) as (Hc' & Hret' & ws' & Hr' & Hs').
    split; [exists i; congruence|]. split; [congruence|]. exists ws'. split; [done|congruence]. }
  destruct e as [| | | | |j|j|j res|j|j|]; try done.
  - cbn in Hs. by rewrite Hc in Hs.
  - cbn in Hs. rewrite Hc in Hs. unfold get_worker in Hs. rewrite Hr in Hs. cbn in Hs.
    destruct (ws1 !! j) as [w|] eqn:Hw; [|done]. cbn in Hs.
    destruct (status w); try done. injection Hs as Hs.
    assert (sent <$> <[j := set_status WDone w]> ws1 = sent <$> ws1) as Hsame
      by by apply (sent_insert ws1 j w).
    apply (stop_workers_outcome _ _ _ (<[j := set_status WDone w]> ws1)) in Hs.
    + destruct Hs as [(Hc' & Hret' & ws' & Hr' & Hs')|Hres].
      * left. split; [done|]. split; [by rewrite Hret'|]. exists ws'. split; [done|congruence].
      * right. eexists. split; [|by rewrite <- Hret]. congruence.
    + cbn. by rewrite Hr.
    + rewrite length_insert. apply (live_count s ws1 Hl).
  - left. eapply Hmove; [reflexivity|]. intros w w' Hw; cbn in Hw; destruct (status w), (inbox w); by simplify_eq.
  - left. eapply Hmove; [reflexivity|]. intros w w' Hw; cbn in Hw; destruct (status w); try done.
    destruct (postRequest r res); [destruct (errorchan s)|]; by simplify_eq.
  - left. cbn in Hs. unfold get_worker in Hs. rewrite Hr in Hs. cbn in Hs.
    destruct (ws1 !! j) as [w|] eqn:Hw; [|done]. cbn in Hs. destruct (status w); try done.
    destruct (polls s); [|done]. injection Hs as <-. split; [by exists i|]. split; [done|]. cbn.
    rewrite Hr. eexists. split; [done|]. rewrite <- Hsent. by apply (sent_insert ws1 j w).
  - left. eapply Hmove; [reflexivity|]. intros w w' Hw; cbn in Hw; destruct (status w), (inbox w); try done.
    destruct (closed w); by simplify_eq.
  - left. cbn in Hs. destruct (polls s); [done|]. destruct (holds_lua_lock (caller s)); [done|].
    injection Hs as <-. split; [by exists i|]. split; [done|]. by exists ws1.
Qed.

Lemma stopping_returns k ws s0 s es s' :
  returns s es s' → inv s → stopping k ws s0 s →
  ∃ ws', sent <$> ws' = sent <$> ws ∧ stopped_result k ws' (retired s0) s' ∧ inv s'.
Proof.
  induction 1 as [s Hc|s e s1 es s' Hc Hi Hs Hret IH]; intros Hinv Hst.
  { destruct Hst as ([i Hc'] & _). congruence. }
  destruct (inv_live s Hinv Hc) as [ws1 Hl].
  destruct (step_inv s ws1 e _ Hl (proj1 Hinv) Hs) as (s2 & [= <-] & Hinv1).
  destruct (stopping_step k ws s0 s e s1 Hinv Hst Hi Hs) as [Hst1|(ws' & Hs' & Hres)].
  - by apply IH.
  - exists ws'. destruct Hret; [done|]. by destruct Hres.
Qed.

(** ** The configuration builtins can wait for ever *)

(** The caller holds the sandbox's lock and waits for a worker that waits for the
    poller, whose hook waits for the lock. *)
Definition deadlocked (s : client) : Prop :=
  ∃ k c errors w r e, caller s = Stopping k (AfterInit c errors) ∧
    get_worker k s = Some w ∧ status w = WReporting r e ∧ polls s ≠ Polling.

Lemma deadlocked_step s e s' :
  inv s → deadlocked s → step s e = Some (Ret s') → deadlocked s' ∧ caller s' = caller s.
Proof.
  intros Hinv (k & c & errs & w & r & er & Hc & Hw & Hst & Hp) Hs.
  destruct (inv_live s Hinv) as [ws Hl]; [by rewrite Hc|].
  assert (∀ i w', i ≠ k → deadlocked (set_worker i w' s)) as Hother.
  { intros i w' Hik. exists k, c, errs, w, r, er. split_and!; try done.
    unfold get_worker in *. cbn. rewrite (live_workers s ws Hl) in *. cbn in *.
    by rewrite list_lookup_insert_ne. }
  assert (∀ i f m, f w = None → move i s f = Some (Ret m) →
    deadlocked m ∧ caller m = caller s) as Hmove.
  { intros i f m Hf. unfold move. destruct (decide (i = k)) as [->|Hik].
    - rewrite Hw. cbn. by rewrite Hf.
    - destruct (get_worker i s) as [v|]; [|done]. cbn. destruct (f v); [|done]. cbn.
      intros [= <-]. split; [by apply Hother|done]. }
  destruct e as [cf eb|rq aff bad| | | |i|i|i res|i|i|]; cbn in Hs; unfold when_ready in Hs;
    rewrite ?Hc in Hs; try done.
  - (* EQuit *) destruct (get_worker i s) as [v|] eqn:Hv; [|done]. cbn in Hs.
    destruct (status v) eqn:Hsv; try done.
    rewrite (get_live s ws) in Hv, Hw by done.
    assert (i = k) as -> by by eapply EQuit_index. congruence.
  - eapply Hmove; [|exact Hs]. cbn. by rewrite Hst.
  - eapply Hmove; [|exact Hs]. cbn. by rewrite Hst.
  - destruct (get_worker i s) as [v|] eqn:Hv; [|done]. cbn in Hs.
    destruct (status v); try done. by destruct (polls s).
  - eapply Hmove; [|exact Hs]. cbn. by rewrite Hst.
  - by destruct (polls s).
Qed.

Lemma deadlocked_run es : ∀ s s',
  inv s → deadlocked s → run s es = Some (Ret s') → deadlocked s' ∧ caller s' = caller s.
Proof.
  induction es as [|e es IH]; intros s s' Hinv Hd; cbn.
  { by intros [= <-]. }
  destruct (step s e) as [m|] eqn:E; [|done]. cbn.
  pose proof Hd as (k & c & errs & w & r & er & Hc & _).
  destruct (inv_live s Hinv) as [ws Hl]; [by rewrite Hc|].
  destruct (step_inv s ws e m Hl (proj1 Hinv) E) as (s1 & -> & Hinv1).
  destruct (deadlocked_step s e s1 Hinv Hd E) as [Hd1 Hc1].
  intros Hrun. destruct (IH s1 s' Hinv1 Hd1 Hrun). split; [done|congruence].
Qed.

Lemma run_reach es : ∀ s s',
  reach s →
  Forall (λ e, match e with EPost _ _ _ | EFlush | EClose => False | _ => True end) es →
  run s es = Some (Ret s') → reach s'.
Proof.
  induction es as [|e es IH]; intros s s' Hr Hes; cbn; [by intros [= <-]|].
  apply Forall_cons in Hes as [He Hes]. destruct (step s e) as [[s1|]|] eqn:E; [|done..].
  cbn. apply IH; [|done]. eapply reach_step; [done| |exact E]. by destruct e.
Qed.

(** ** Properties *)

(** C3: A client that is in use never panics as long as its calls come one at a time:
    whatever the interleaving with workers, servers and poller, no event indexes a
    missing channel, closes one twice or sends on a closed one. *)
Theorem http_client_safe (s : client) (e : event) (m : go client)
    (Hreach : reach s) (Hallowed : allowed s e) (Hstep : step s e = Some m) :
  ∃ s', m = Ret s' ∧ reach s'.
Proof.
  destruct (step_inv_all s e m (reach_inv s Hreach) Hallowed Hstep) as (s' & -> & _).
  exists s'. split; [done|]. by eapply reach_step.
Qed.

(** C28: Every channel is a bounded queue served in order: what was sent on it is what
    its goroutine has handled, then the request it is busy with, then the contents of
    the buffer, which never exceed the configured size. *)
Theorem http_fifo_bounded (s : client) (i : nat) (w : worker)
    (Hreach : reach s) (Hw : get_worker i s = Some w) :
  sent w = handled w ++ in_hand (status w) ++ inbox w ∧
  len (inbox w) <= ChanBuffer (cfg s).
Proof.
  destruct (reach_inv s Hreach) as [_ [[ws Hl]|(Hr & _)]].
  - rewrite (get_live s ws) in Hw by done. by destruct (live_slots s ws Hl i w Hw) as [[] _].
  - unfold get_worker in Hw. by rewrite Hr in Hw.
Qed.

(** C9: When [Flush], [Close] or an [Init] of a client in use returns - after whatever the
    workers, the servers and the poller have done meanwhile, and no sooner - every
    request that had been sent on one of the client's channels has been handled by its
    worker. [Flush] then has as many new channels, and [Close] none. *)
Theorem http_stop_flushes (s s0 s' : client) (ws : list worker) (e : event) (k : after)
    (es : list event)
    (Hreach : reach s) (Hopen : reqchan s = Some ws) (Hstops : stops e = Some k)
    (Hcall : step s e = Some (Ret s0)) (Hreturns : returns s0 es s') :
  ∃ ws', retired s' = ws' ++ retired s ∧
    Forall2 (λ w w', sent w' = sent w ∧ handled w' = sent w) ws ws' ∧
    match e with
    | EFlush => result s' = None ∧ reqchan s' = Some (replicate (length ws) new_worker)
    | EClose => result s' = None ∧ reqchan s' = None
    | _ => True
    end.
Proof.
  pose proof (reach_inv s Hreach) as Hinv.
  assert (live s ws) as Hl.
  { destruct Hinv as [_ [[ws' Hl]|(Hr & _)]]; [|congruence].
    pose proof (live_workers s ws' Hl). by simplify_eq. }
  destruct (step_inv s ws e _ Hl (proj1 Hinv) Hcall) as (? & [= <-] & Hinv0).
  assert (stop_workers 0 k s = Ret s0) as Hstop.
  { destruct e; cbn in Hstops, Hcall; simplify_eq; unfold when_ready, Init in Hcall;
      rewrite ?Hopen in Hcall; destruct (caller s); by simplify_eq. }
  assert (∃ ws', sent <$> ws' = sent <$> ws ∧ stopped_result k ws' (retired s) s' ∧ inv s')
    as (ws' & Hsent & (_ & Hret & Hres) & Hinv').
  { destruct (stop_workers_outcome 0 k s ws s0 Hopen (live_count s ws Hl) Hstop) as [Hst|Hst].
    - by apply (stopping_returns k ws s s0 es).
    - exists ws. split; [done|]. destruct Hreturns as [s1 _|s1 e1 s2 es s3 Hc]; [done|].
      by destruct Hst. }
  exists ws'. split; [done|]. split.
  - destruct Hinv' as [Hf _]. unfold flushed in Hf. rewrite Hret, Forall_app in Hf.
    destruct Hf as [Hf _]. clear -Hf Hsent.
    revert ws Hsent. induction Hf as [|w' ws' Hw _ IH]; intros [|w ws]; intros Hsent; try done.
    cbn in Hsent. injection Hsent as H1 H2. constructor; [|by apply IH]. split; [done|]. congruence.
  - assert (length ws = length ws') as -> by by rewrite <- (length_fmap sent ws), <- Hsent, length_fmap.
    destruct e; cbn in Hstops; simplify_eq; done.
Qed.

(** C10: A call that blocks returns: as long as it does not hold the sandbox's lock,
    some schedule of workers and poller ends it, and every schedule does after at
    most [measure s] events. *)
Theorem http_call_returns (s : client)
    (Hreach : reach s) (Hcall : caller s ≠ Ready) (Hlock : holds_lua_lock (caller s) = false) :
  (∃ es s', Forall internal es ∧ run s es = Some (Ret s') ∧ caller s' = Ready) ∧
  (∀ es s', waits s es s' → (length es <= measure s)%nat).
Proof.
  apply reach_inv in Hreach. split; [apply (call_ends (S (measure s))); [lia|done..]|].
  intros es s' Hw. pose proof (waits_bounded s es s' Hw Hreach Hcall). lia.
Qed.

(** C11: Changing the concurrency or the buffer from a script can block for ever: when
    a worker is waiting to report an error while the poller waits for the lock, the
    call never returns, whatever happens next. *)
Theorem http_init_deadlock (s s' : client) (es : list event)
    (Hreach : reach s) (Hdead : deadlocked s) (Hrun : run s es = Some (Ret s')) :
  caller s' = caller s.
Proof. apply (deadlocked_run es s s' (reach_inv s Hreach) Hdead Hrun). Qed.

(** A client whose [Init] has failed, or that was closed, cannot be closed: the
    second [Close] closes [quitchan] again or indexes the channels it has dropped. *)
Theorem http_close_without_init_panics (s : client)
    (Hreach : reach s) (Hnil : reqchan s = None) :
  Close s = Panic (if 0 <? Concurrency (cfg s) then IndexOutOfRange else CloseOfClosedChannel).
Proof.
  destruct (reach_inv s Hreach) as [_ [[ws Hl]|(_ & _ & Hq)]].
  { by rewrite (live_workers s ws Hl) in Hnil. }
  unfold Close, stop_workers, get_worker. rewrite Hnil.
  change (Z.of_nat 0) with 0. destruct (0 <? Concurrency (cfg s)); [done|].
  unfold workers_stopped, close_client. by rewrite Hq.
Qed.

(** [Post] without an affinity picks the first channel that has room; when there
    is none it waits on the first channel, and the client's lock with it. With an
    affinity it uses that channel, full or not. *)
Theorem http_post_picks_channel (s : client) (ws : list worker) (r : request) (affinity : Z)
    (Hlive : live s ws) (Hready : caller s = Ready) (Hmax : affinity < Concurrency (cfg s)) :
  (0 <= affinity → Post r affinity None s = send (Z.to_nat affinity) r s) ∧
  (affinity < 0 → ∀ i w, ws !! i = Some w → has_room s w = true →
     (∀ j v, (j < i)%nat → ws !! j = Some v → has_room s v = false) →
     Post r affinity None s = Ret (return_ None (set_worker i (enqueue r w) s))) ∧
  (affinity < 0 → (∀ j v, ws !! j = Some v → has_room s v = false) →
     Post r affinity None s = Ret (set_caller (Sending 0 r) s)).
Proof.
  unfold Post. decide_Z. rewrite (live_workers s ws Hlive).
  rewrite take_ge by (pose proof (live_count s ws Hlive); lia).
  assert (∀ vs k, (∀ j v, vs !! j = Some v → has_room s v = false) → find_room s k vs = None) as Hnone.
  { induction vs as [|v vs IH]; intros k Hvs; [done|]. cbn. rewrite (Hvs 0%nat v) by done.
    apply IH. intros j u Hj. by apply (Hvs (S j)). }
  assert (∀ i w, ws !! i = Some w → closed w = false) as Hopen.
  { intros i w Hi. destruct (live_slots s ws Hlive i w Hi) as [_ Hp]. by rewrite Hready in Hp. }
  split_and!.
  - intros Ha. by decide_Z.
  - intros Ha i w Hi Hroom Hbefore. decide_Z.
    assert (find_room s 0 ws = Some i) as ->.
    { change i with (0 + i)%nat at 1. clear Hopen. revert i Hi Hbefore. generalize 0%nat as k.
      clear Hlive. induction ws as [|v vs IH]; intros k i Hi Hbefore; [done|]. cbn.
      destruct i as [|i]; cbn in Hi.
      - injection Hi as ->. rewrite Hroom. f_equal. lia.
      - rewrite (Hbefore 0%nat v) by (done || lia). rewrite (IH (S k) i); [f_equal; lia|done|].
        intros j u Hj. apply (Hbefore (S j)). lia. }
    unfold send. rewrite (get_live s ws) by done. by rewrite Hi, (Hopen i w Hi), Hroom.
  - intros Ha Hfull. decide_Z. rewrite Hnone by done. unfold send.
    rewrite (get_live s ws) by done.
    destruct (lookup_lt_is_Some_2 ws 0) as [w Hw];
      [pose proof (live_some s ws Hlive); destruct ws; [done|cbn; lia]|].
    by rewrite Hw, (Hopen 0%nat w Hw), (Hfull 0%nat w Hw).
Qed.

(** A response is a success exactly when its status is 2XX; the body of an error
    response is read, but makes it into the error only when reading it has failed. *)
Theorem post_request_result (req : request) (code : Z) (status body body' : gostring) (err : error) :
  (∀ e, postRequest req (Answered code status body e) = None ↔ 200 <= code < 300) ∧
  (∀ e, postRequest req (Failed e) = Some e) ∧
  postRequest req (Answered code status body None) = postRequest req (Answered code status body' None) ∧
  (¬ (200 <= code < 300) →
   postRequest req (Answered code status body (Some err)) =
     Some (Err (status_error req status ++ str ": " ++ body))).
Proof.
  unfold postRequest. split_and!; [|done| |].
  - intros e. destruct (Z.leb_spec 200 code), (Z.ltb_spec code 300), e; cbn; split; lia || done.
  - done.
  - intros Hc. destruct (Z.leb_spec 200 code), (Z.ltb_spec code 300); cbn; lia || done.
Qed.

(** A client with one channel of two requests, as a script could configure it. *)
Definition small_config : Config := mkConfig 1 2 defaultTimeout.
Definition req (u : gostring) : request := mkRequest u (str "text/plain") [].
Definition refused : response := Failed (Err (str "connection refused")).

(** Two requests fail: the first error is in the hook, the second one waits. *)
Definition two_failures : list event :=
  [EPost (req (str "a")) (-1) None; EPost (req (str "b")) 0 None;
   ETake 0; EPosted 0 refused; EReport 0; ETake 0; EPosted 0 refused].

(** [new_run c es s]: the client [NewClient] makes, after the events. *)
Definition new_run (c : Config) (es : list event) : option (go client) :=
  match NewClient (Some c) true with
  | Ret (Some s, None) => run s es
  | _ => None
  end.

(** A run of events that are allowed reaches a client. *)
Fixpoint allowed_run (s : client) (es : list event) : bool :=
  match es with
  | [] => true
  | e :: es' =>
    match e, reqchan s with
    | (EPost _ _ _ | EFlush | EClose), None => false
    | _, _ => match step s e with Some (Ret s') => allowed_run s' es' | _ => false end
    end
  end.

Lemma run_reachable es : ∀ s s',
  reach s → allowed_run s es = true → run s es = Some (Ret s') → reach s'.
Proof.
  induction es as [|e es IH]; intros s s' Hr Ha; cbn; [by intros [= <-]|].
  cbn in Ha. destruct (step s e) as [[s1|]|] eqn:E; cbn; try done.
  apply IH.
  - eapply reach_step; [done| |exact E]. unfold allowed.
    destruct e, (reqchan s); done.
  - by destruct e, (reqchan s).
Qed.

Lemma new_run_reachable c es s s0 :
  NewClient (Some c) true = Ret (Some s0, None) → allowed_run s0 es = true →
  run s0 es = Some (Ret s) → reach s.
Proof. intros H. apply run_reachable. by eapply reach_new. Qed.

(** The client of the examples, before and after a configuration change is asked for. *)
Definition small_client : client :=
  mkClient small_config (Some [new_worker]) (Some false) true Ready None Polling [].
Definition after_run (es : list event) : client :=
  match run small_client es with Some (Ret s) => s | _ => small_client end.

Lemma small_reach es :
  allowed_run small_client es = true → run small_client es = Some (Ret (after_run es)) →
  reach (after_run es).
Proof. apply (new_run_reachable small_config). reflexivity. Qed.

Lemma http_client_safe_witness :
  ∃ s', Flush (after_run two_failures) = Ret s' ∧ reach s'.
Proof.
  destruct (http_client_safe (after_run two_failures) EFlush (Flush (after_run two_failures)))
    as (s' & Hs & Hr).
  - apply small_reach; vm_compute; reflexivity.
  - vm_compute. discriminate.
  - vm_compute. reflexivity.
  - exists s'. split; [exact Hs|exact Hr].
Defined.

Lemma http_fifo_bounded_witness :
  ∃ w, get_worker 0 (after_run two_failures) = Some w ∧
    sent w = handled w ++ in_hand (status w) ++ inbox w ∧ sent w = [req (str "a"); req (str "b")].
Proof.
  destruct (get_worker 0 (after_run two_failures)) as [w|] eqn:Hw; [|discriminate Hw].
  exists w. split; [reflexivity|]. split.
  - refine (proj1 (http_fifo_bounded (after_run two_failures) 0 w _ Hw)).
    apply small_reach; vm_compute; reflexivity.
  - vm_compute in Hw. injection Hw as <-. reflexivity.
Defined.

(** The whole life of a client: two requests, their errors, and a [Close]. *)
Definition full_run : list event :=
  two_failures ++ [EClose; EHook; EReport 0; EHook; EStop 0; EQuit 0].

Lemma http_stop_flushes_witness :
  ∃ ws', retired (after_run full_run) = ws' ++ [] ∧
    Forall2 (λ w w', sent w' = sent w ∧ handled w' = sent w)
      (default [] (reqchan (after_run two_failures))) ws' ∧
    result (after_run full_run) = None ∧ reqchan (after_run full_run) = None.
Proof.
  apply (http_stop_flushes (after_run two_failures) (after_run (two_failures ++ [EClose]))
    (after_run full_run) (default [] (reqchan (after_run two_failures))) EClose AfterClose
    [EHook; EReport 0; EHook; EStop 0; EQuit 0]).
  - apply small_reach; vm_compute; reflexivity.
  - vm_compute. reflexivity.
  - reflexivity.
  - vm_compute. reflexivity.
  - do 5 (eapply returns_later; [vm_compute; discriminate|exact I|vm_compute; reflexivity|]).
    apply returns_now. vm_compute. reflexivity.
Defined.

Lemma http_call_returns_witness :
  ∃ es s', Forall internal es ∧ run (after_run (two_failures ++ [EClose])) es = Some (Ret s') ∧
           caller s' = Ready.
Proof.
  refine (proj1 (http_call_returns (after_run (two_failures ++ [EClose])) _ _ _)).
  - apply small_reach; vm_compute; reflexivity.
  - vm_compute. discriminate.
  - vm_compute. reflexivity.
Defined.

(** With two channels, the other worker goes on while the call hangs. *)
Definition two_channels : client :=
  mkClient (mkConfig 2 2 defaultTimeout) (Some [new_worker; new_worker]) (Some false) true
    Ready None Polling [].
Definition hanging_run : list event :=
  [EPost (req (str "c")) 1 None] ++ two_failures ++ [EInit (Some (mkConfig 8 2 0)) true].
Definition hanging (es : list event) : client :=
  match run two_channels (hanging_run ++ es) with Some (Ret s) => s | _ => small_client end.

Lemma http_init_deadlock_witness :
  caller (hanging [ETake 1; EPosted 1 (Answered 200 [] [] None)]) = caller (hanging []) ∧
  caller (hanging []) = Stopping 0 (AfterInit (Some (mkConfig 8 2 0)) true).
Proof.
  split; [|vm_compute; reflexivity].
  apply (http_init_deadlock _ _ [ETake 1; EPosted 1 (Answered 200 [] [] None)]).
  - apply (new_run_reachable (mkConfig 2 2 defaultTimeout) hanging_run _ two_channels);
      vm_compute; reflexivity.
  - eexists _, _, _, _, _, _. split; [vm_compute; reflexivity|].
    split; [vm_compute; reflexivity|]. split; [vm_compute; reflexivity|].
    vm_compute. discriminate.
  - vm_compute. reflexivity.
Defined.

(** [config_set("http.concurrency", 0)] fails, and the next [Close] panics. *)
Lemma http_close_without_init_panics_witness :
  let es := [EInit (Some (mkConfig 0 2 0)) true; EStop 0; EQuit 0] in
  result (after_run es) ≠ None ∧ Close (after_run es) = Panic CloseOfClosedChannel.
Proof.
  cbv zeta. split; [vm_compute; discriminate|].
  rewrite http_close_without_init_panics; [vm_compute; reflexivity| |vm_compute; reflexivity].
  apply small_reach; vm_compute; reflexivity.
Defined.

Lemma http_post_picks_channel_witness :
  Post (req (str "b")) (-1) None small_client =
    Ret (return_ None (set_worker 0 (enqueue (req (str "b")) new_worker) small_client)).
Proof.
  refine (proj1 (proj2 (http_post_picks_channel small_client [new_worker] (req (str "b")) (-1) _ _ _))
    _ 0%nat new_worker _ _ _).
  - split; [reflexivity|reflexivity|vm_compute; discriminate|reflexivity|discriminate| |exact I].
    intros [|i] w Hw; [|discriminate Hw]. injection Hw as <-. split; [|reflexivity].
    apply new_worker_ok. vm_compute. discriminate.
  - reflexivity.
  - reflexivity.
  - reflexivity.
  - reflexivity.
  - reflexivity.
  - intros j v Hj. lia.
Defined.
