(* ===== verification/HttpOverlap.v ===== *)
(** * Overlapping calls of the HTTP client (http/http.go, lines 144-263; lua/http.go, lines 79-84)

    HttpClient.v has one call at a time.  The client's own lock orders [Post] and
    [Flush], and [http_post] releases the sandbox's lock before it calls [Post]: so while
    a [Post] waits for room in a channel, another goroutine may call [Close], on a reload,
    or [Init], from a hook that changes the configuration - and those two do not take the
    client's lock.  Here one [Post] may wait next to the other calls: as long as nobody
    closes the client meanwhile nothing goes wrong, and closing it panics. *)

From S2P Require Import Prelude HttpClient.
Open Scope Z_scope.

(** ** The client and a [Post] that waits *)

(** [waiting]: a goroutine is in the send of [Post] on a channel, with [a.lock] held. *)
Record shared : Type := mkShared {
  inner : client;
  waiting : option (nat * request)
}.

Inductive overlap : Type :=
  | Inner (e : event)
  | Park
  | Delivered.

(** The calls that get to [a.lock.Lock()]: a [Post] whose affinity is too large or whose
    request cannot be made returns before, and one on a closed client panics before. *)
Definition takes_lock (c : client) (e : event) : bool :=
  match e with
  | EPost _ affinity bad_request =>
    match bad_request, reqchan c with
    | None, Some _ => affinity <=? Concurrency (cfg c) - 1
    | _, _ => false
    end
  | EFlush => true
  | _ => false
  end.

(** Closing a channel wakes the goroutines that wait to send on it: they panic. *)
Definition channel_open (i : nat) (c : client) : bool :=
  match get_worker i c with Some w => negb (closed w) | None => false end.

Definition settle (waits : option (nat * request)) (m : go client) : go shared :=
  c ← m;
  match waits with
  | Some (i, _) => if channel_open i c then Ret (mkShared c waits) else Panic SendOnClosedChannel
  | None => Ret (mkShared c None)
  end.

Definition ostep (s : shared) (o : overlap) : option (go shared) :=
  match o with
  | Inner e =>
    match waiting s with
    | Some _ => if takes_lock (inner s) e then None else m ← step (inner s) e; Some (settle (waiting s) m)
    | None => m ← step (inner s) e; Some (settle None m)
    end
  | Park =>
    (* the goroutine of the [Post] waits, and another one goes on *)
    match waiting s, caller (inner s) with
    | None, Sending i r => Some (Ret (mkShared (set_caller Ready (inner s)) (Some (i, r))))
    | _, _ => None
    end
  | Delivered =>
    match waiting s with
    | Some (i, r) =>
      w ← get_worker i (inner s);
      if has_room (inner s) w
      then Some (Ret (mkShared (set_worker i (enqueue r w) (inner s)) None)) else None
    | None => None
    end
  end.

Fixpoint orun (s : shared) (os : list overlap) : option (go shared) :=
  match os with
  | [] => Some (Ret s)
  | o :: os' =>
    m ← ostep s o;
    match m with
    | Ret s' => orun s' os'
    | Panic p => match os' with [] => Some (Panic p) | _ => None end
    end
  end.

(** Calls for a client that is initialized, and no [Close] or [Init] while a [Post] waits. *)
Definition orderly (s : shared) (o : overlap) : Prop :=
  match o with
  | Inner e => allowed (inner s) e ∧
      match e with EClose | EInit _ _ => waiting s = None | _ => True end
  | _ => True
  end.

Inductive oreach : shared → Prop :=
  | oreach_start c : reach c → oreach (mkShared c None)
  | oreach_step s o s' : oreach s → orderly s o → ostep s o = Some (Ret s') → oreach s'.

(** ** The invariant *)

Definition oinv (s : shared) : Prop :=
  inv (inner s) ∧
  ∀ i r, waiting s = Some (i, r) →
    caller (inner s) = Ready ∧ ∃ ws, live (inner s) ws ∧ (i < length ws)%nat.

Lemma live_ready s ws : live s ws → (∃ i r, caller s = Sending i r) → live (set_caller Ready s) ws.
Proof.
  intros [Hr Hq Hcap Hlen Hne Hs Hc] (i & r & E). split; cbn; try done.
  intros j w Hj. destruct (Hs j w Hj) as [Hok Hp]. rewrite E in Hp. done.
Qed.

Lemma live_inv s ws : inv s → reqchan s = Some ws → live s ws.
Proof. intros [_ [[ws' Hl]|(Hr & _)]] Hw; [|congruence]. rewrite (live_workers _ _ Hl) in Hw. by simplify_eq. Qed.

Lemma live_open s ws i : live s ws → caller s = Ready → (i < length ws)%nat → channel_open i s = true.
Proof.
  intros Hl Hc [w Hw]%lookup_lt_is_Some_2. unfold channel_open. rewrite (get_live s ws) by done.
  rewrite Hw. destruct (live_slots s ws Hl i w Hw) as [_ Hp]. rewrite Hc in Hp. by rewrite Hp.
Qed.

(** The steps of workers and poller leave the caller and the channels in place. *)
Lemma quiet_step s e s' ws :
  step s e = Some (Ret s') → takes_lock s e = false →
  match e with EClose | EInit _ _ => False | _ => True end →
  caller s = Ready → reqchan s = Some ws →
  caller s' = Ready ∧ ∃ ws', reqchan s' = Some ws' ∧ length ws' = length ws.
Proof.
  intros Hs Ht He Hc Hr. destruct e as [|q aff bad| | | |i|i|i res|i|i|]; try done; cbn in Hs;
    rewrite ?Hc in Hs; try done.
  { unfold when_ready, Post in Hs. cbn in Ht. rewrite Hc in Hs. rewrite Hr in Hs, Ht.
    destruct (Z.ltb_spec (Concurrency (cfg s) - 1) aff); [|destruct bad]; simplify_eq; cbn; eauto.
    apply Z.leb_gt in Ht. lia. }
  all: unfold move, get_worker in Hs; rewrite ?Hr in Hs; cbn in Hs;
    try (destruct (ws !! i) as [w|]; [|discriminate Hs]; cbn in Hs).
  all: repeat case_match; simplify_option_eq; cbn; rewrite ?Hr; cbn; eauto using length_insert.
Qed.

Lemma delivered_inv s i r w :
  oinv s → waiting s = Some (i, r) → get_worker i (inner s) = Some w → has_room (inner s) w = true →
  oinv (mkShared (set_worker i (enqueue r w) (inner s)) None).
Proof.
  intros [[Hf Hl'] Hw] E Hi Hroom. split; [|done]. cbn.
  destruct (Hw i r E) as (Hc & ws & Hl & _). split; [done|]. left.
  rewrite (get_live _ ws) in Hi by done. exists (<[i := enqueue r w]> ws).
  destruct (live_slots _ ws Hl i w Hi) as [Hok Hp]. apply (live_set_worker _ ws i w); [done|done| |done].
  apply enqueue_ok; [done|by apply Z.ltb_lt|]. by rewrite Hc in Hp.
Qed.

Lemma inner_waiting_inv s e i r m :
  oinv s → waiting s = Some (i, r) → takes_lock (inner s) e = false →
  match e with EClose | EInit _ _ => False | _ => True end → allowed (inner s) e →
  step (inner s) e = Some m → ∃ s', settle (waiting s) m = Ret s' ∧ oinv s'.
Proof.
  intros [Hinv Hw] E Ht He Ha Hs. destruct (step_inv_all _ e m Hinv Ha Hs) as (c' & -> & Hinv').
  destruct (Hw i r E) as (Hc & ws & Hl & Hi).
  destruct (quiet_step _ e c' ws Hs Ht He Hc (live_workers _ _ Hl)) as (Hc' & ws' & Hr' & Hlen).
  pose proof (live_inv _ _ Hinv' Hr') as Hl'. rewrite <- Hlen in Hi.
  rewrite E. cbn [settle mbind go_bind]. rewrite (live_open _ ws' i) by done.
  eexists. split; [done|]. split; [done|]. cbn. intros j q [= <- <-]. eauto.
Qed.

Lemma ostep_inv s o m :
  oinv s → orderly s o → ostep s o = Some m → ∃ s', m = Ret s' ∧ oinv s'.
Proof.
  intros Hinv Ho Hs. destruct o as [e| |]; cbn in Hs.
  - destruct Ho as [Ha He]. destruct (waiting s) as [[i r]|] eqn:E.
    + destruct (takes_lock (inner s) e) eqn:Ht; [done|].
      destruct (step (inner s) e) as [m'|] eqn:Hm; [|done]. injection Hs as <-.
      rewrite <- E. apply (inner_waiting_inv s e i r m'); try done. by destruct e.
    + destruct (step (inner s) e) as [m'|] eqn:Hm; [|done]. injection Hs as <-.
      destruct (step_inv_all _ e m' (proj1 Hinv) Ha Hm) as (c' & -> & Hinv').
      by exists (mkShared c' None).
  - destruct (waiting s); [done|]. destruct (caller (inner s)) as [|i r|] eqn:Hc; try done.
    injection Hs as <-. eexists. split; [done|]. destruct Hinv as [[Hf [[ws Hl]|(_ & Hr & _)]] _];
      [|congruence].
    assert (live (set_caller Ready (inner s)) ws) as Hl' by (apply live_ready; eauto).
    split; [split; [done|left; by exists ws]|]. cbn. intros j q [= <- <-]. split; [done|].
    exists ws. split; [done|]. pose proof (live_caller _ _ Hl) as H. by rewrite Hc in H.
  - destruct (waiting s) as [[i r]|] eqn:E; [|done].
    destruct (get_worker i (inner s)) as [w|] eqn:Hi; [|done]. cbn in Hs.
    destruct (has_room (inner s) w) eqn:Hroom; [|done]. injection Hs as <-.
    eexists. split; [done|]. by eapply delivered_inv.
Qed.

Lemma oreach_oinv s : oreach s → oinv s.
Proof.
  induction 1 as [c Hc|s o s' _ IH Ho Hs]; [split; [by apply reach_inv|done]|].
  by destruct (ostep_inv s o _ IH Ho Hs) as (s1 & [= <-] & ?).
Qed.

(** ** Theorems *)

(** C18: Other goroutines may use the client while a [Post] waits for room: as long as none
    of them closes or re-initializes it, no step panics, the channel the [Post] waits
    for stays open, and so the request is delivered once there is room. *)
Theorem posts_overlap_safe (s : shared) (o : overlap) (m : go shared)
    (Hreach : oreach s) (Hok : orderly s o) (Hstep : ostep s o = Some m) :
  (∃ s', m = Ret s' ∧ oreach s') ∧
  ∀ i r, waiting s = Some (i, r) → channel_open i (inner s) = true.
Proof.
  apply oreach_oinv in Hreach as Hinv. split.
  - destruct (ostep_inv s o m Hinv Hok Hstep) as (s' & -> & _).
    exists s'. split; [done|]. by eapply oreach_step.
  - intros i r E. destruct (proj2 Hinv i r E) as (Hc & ws & Hl & Hi). by eapply live_open.
Qed.

(** C12: A [Post] that waits for the first channel, as one without an affinity does when all
    channels are full, is brought down by a [Close], and by a change of configuration,
    that comes before there is room: the first thing they do is to close that channel. *)
Theorem close_during_post_panics (c : client) (r : request)
    (Hreach : reach c) (Hwait : caller c = Sending 0 r) :
  orun (mkShared c None) [Park; Inner EClose] = Some (Panic SendOnClosedChannel) ∧
  ∀ config errors, orun (mkShared c None) [Park; Inner (EInit config errors)] =
    Some (Panic SendOnClosedChannel).
Proof.
  destruct (reach_inv c Hreach) as [_ [[ws Hl]|(_ & Hc & _)]]; [|congruence].
  destruct (live_ready c ws Hl) as [Hr Hq Hcap Hlen Hne Hs Hcall]; [eauto|].
  destruct ws as [|w ws]; [done|]. destruct (Hs 0%nat w eq_refl) as [_ Hopen]. cbn in Hr, Hlen, Hopen.
  assert (∀ k, settle (Some (0%nat, r)) (stop_workers 0 k (set_caller Ready c)) =
    Panic SendOnClosedChannel) as Hstop.
  { intros k. unfold stop_workers. cbn [set_caller cfg]. rewrite <- Hlen. decide_Z.
    unfold get_worker. cbn [reqchan set_caller]. rewrite Hr. cbn. rewrite Hopen. cbn.
    unfold channel_open, get_worker. cbn. by rewrite Hr. }
  split; [|intros config errors]; cbn [orun ostep waiting inner]; rewrite Hwait;
    cbn [mbind option_bind waiting inner takes_lock step]; unfold when_ready; cbn [caller set_caller].
  - cbn [mbind option_bind]. unfold Close. by rewrite Hstop.
  - cbn [mbind option_bind]. unfold Init. cbn [reqchan set_caller]. rewrite Hr. by rewrite Hstop.
Qed.

(** ** Witnesses *)

(** One channel with room for two requests: the third [Post] waits. *)
Definition full_channel : list event :=
  [EPost (req (str "a")) (-1) None; EPost (req (str "b")) (-1) None; EPost (req (str "c")) (-1) None].

Lemma full_channel_reach : reach (after_run full_channel).
Proof. apply small_reach; vm_compute; reflexivity. Qed.

(** The worker takes a request, and the one that waits is delivered. *)
Lemma posts_overlap_safe_witness :
  ∃ s', orun (mkShared (after_run full_channel) None) [Park; Inner (ETake 0); Delivered] = Some (Ret s') ∧
    oreach s' ∧ sent <$> get_worker 0 (inner s') = Some [req (str "a"); req (str "b"); req (str "c")].
Proof.
  destruct (posts_overlap_safe (mkShared (after_run full_channel) None) Park
    (Ret (mkShared (set_caller Ready (after_run full_channel)) (Some (0%nat, req (str "c"))))))
    as [(s1 & [= <-] & H1) _]; [apply oreach_start, full_channel_reach|exact I|vm_compute; reflexivity|].
  set (s1 := mkShared _ _) in H1.
  destruct (ostep s1 (Inner (ETake 0))) as [[s2|]|] eqn:E2; [|vm_compute in E2; discriminate E2..].
  destruct (posts_overlap_safe s1 (Inner (ETake 0)) (Ret s2)) as [(s2' & [= <-] & H2) _];
    [exact H1|split; exact I|exact E2|].
  destruct (ostep s2 Delivered) as [[s3|]|] eqn:E3.
  - exists s3. split; [|split].
    + change (orun s1 [Inner (ETake 0); Delivered] = Some (Ret s3)). cbn [orun].
      rewrite E2. cbn [mbind option_bind]. rewrite E3. reflexivity.
    + exact (oreach_step s2 Delivered s3 H2 I E3).
    + vm_compute in E2. injection E2 as <-. vm_compute in E3. injection E3 as <-. reflexivity.
  - vm_compute in E2. injection E2 as <-. vm_compute in E3. discriminate E3.
  - vm_compute in E2. injection E2 as <-. vm_compute in E3. discriminate E3.
Defined.

Lemma close_during_post_panics_witness :
  orun (mkShared (after_run full_channel) None) [Park; Inner EClose] = Some (Panic SendOnClosedChannel).
Proof.
  refine (proj1 (close_during_post_panics (after_run full_channel) (req (str "c")) _ _)).
  - exact full_channel_reach.
  - vm_compute. reflexivity.
Defined.
