(* ===== verification/Sandbox.v ===== *)
(** * The sandbox: hooks and the Lua stack (lua/lua.go, lines 173-360)

    How the Go side calls into the script: which values it pushes, which it pops,
    and what a failing script leaves behind.  The Lua machine's calls follow the Lua
    API the sandbox uses ([Call], [ProtectedCall] and the stack operations); what the
    script's functions do is an interface, [Script].  The sandbox is an instance of
    the pipeline's [Collector]. *)

From Stdlib Require Import Floats.SpecFloat.
From S2P Require Import Prelude GoString Log Serialize Parser ParseLines Pipeline LuaValue Builtins.
Open Scope Z_scope.

(** ** Names *)

Definition luaNameLogdModule := str "logd".
Definition luaNameOnLogFn := str "on_log".
Definition luaNameOnErrorFn := str "on_error".
Definition luaNameOnSignalFn := str "on_signal".
Definition luaNameOnTickFn := str "on_tick".
Definition luaNameOnHTTPErrorFn := str "on_http_error".
Definition luaNameOnKafkaReportFn := str "on_kafka_report".

Arguments str : simpl never.
Arguments luaNameLogdModule : simpl never.
Arguments luaNameOnLogFn : simpl never.
Arguments luaNameOnErrorFn : simpl never.
Arguments luaNameOnSignalFn : simpl never.
Arguments luaNameOnTickFn : simpl never.
Arguments luaNameOnHTTPErrorFn : simpl never.
Arguments luaNameOnKafkaReportFn : simpl never.

(** The names of the signals ([signals]); a code without a name gives "". *)
Definition signals : list (Z * gostring) := [
  (6, str "SIGABRT"); (14, str "SIGALRM"); (7, str "SIGBUS"); (17, str "SIGCHLD");
  (18, str "SIGCONT"); (8, str "SIGFPE"); (1, str "SIGHUP"); (4, str "SIGILL");
  (2, str "SIGINT"); (29, str "SIGIO"); (9, str "SIGKILL"); (13, str "SIGPIPE");
  (27, str "SIGPROF"); (30, str "SIGPWR"); (3, str "SIGQUIT"); (11, str "SIGSEGV");
  (16, str "SIGSTKFLT"); (19, str "SIGSTOP"); (31, str "SIGSYS"); (15, str "SIGTERM");
  (5, str "SIGTRAP"); (20, str "SIGTSTP"); (21, str "SIGTTIN"); (22, str "SIGTTOU");
  (23, str "SIGURG"); (10, str "SIGUSR1"); (12, str "SIGUSR2"); (26, str "SIGVTALRM");
  (28, str "SIGWINCH"); (24, str "SIGXCPU"); (25, str "SIGXFSZ")
].

Fixpoint signal_name_in (table : list (Z * gostring)) (code : Z) : gostring :=
  match table with
  | [] => []
  | (c, name) :: table' => if c =? code then name else signal_name_in table' code
  end.

Definition signal_name : Z → gostring := signal_name_in signals.

(** ** The script *)

(** How a Lua call ends: it returns, raises a Lua error, or a builtin panics with a
    Go error. In a protected call the error is what [error_handler] makes of the object
    that was raised. *)
Inductive call_result : Type :=
  | Done
  | LuaError (msg : gostring)
  | GoError (msg : gostring).

(** [luaGoErrorHandler], the message handler of a protected call, on the object that
    was raised: it adds the traceback to a string, and panics on anything else; the
    Lua library turns the panic into the error of the call. *)
Definition error_handler `{LuaNumbers} (traceback : gostring → gostring) (obj : lua_value) : call_result :=
  match ToString obj with
  | Some err => LuaError (traceback err)
  | None => GoError (str "no error in call to system error handler: found " ++ type_name obj)
  end.

(** The hooks a script defines and what they do to its world [W], which includes the
    logs its pointers refer to and the configuration it can change. [place] stores a log in the
    variable whose address the hooks are given. *)
Class Script (W : Type) := {
  defines : gostring → W → bool;
  call_hook : gostring → list lua_value → W → W * call_result;
  protected_mode : W → bool;
  set_protected : bool → W → W;
  place : Log → W → nat * W
}.

Section sandbox.
Context {W : Type} `{Script W}.

(** The values of the Lua stack, the top first. *)
Record sstate : Type := mkS {
  stack : list lua_value;
  script : W
}.

Abbreviation M := (stgo sstate).

(** ** The Lua API *)

(** The module, a hook and the handler, as values. *)
Definition module_value : lua_value := LTable [].
Definition hook_value (name : gostring) (w : W) : lua_value :=
  if defines name w then LFunction 0 else LNil.
Definition luaGoErrorHandler : lua_value := LFunction 1.

Definition push (v : lua_value) : M () := modify (λ s, mkS (v :: stack s) (script s)).
Definition Pop (n : nat) : M () := modify (λ s, mkS (drop n (stack s)) (script s)).
Definition Global_logd : M () := push module_value.
Definition Field (name : gostring) : M () := s ← get; push (hook_value name (script s)).

Definition is_function (v : lua_value) : bool :=
  match v with LFunction _ => true | _ => false end.

(** [l.state.IsFunction(-1)] and [l.state.IsFunction(1)]. *)
Definition IsFunction_top : M bool := s ← get; mret (default false (is_function <$> head (stack s))).
Definition IsFunction_bottom : M bool := s ← get; mret (default false (is_function <$> last (stack s))).

Definition error_text (r : call_result) : option gostring :=
  match r with Done => None | LuaError msg | GoError msg => Some msg end.

(** [l.state.Call(nargs, 0)] on the hook [name] under its arguments: an error
    unwinds the goroutine. *)
Definition Call (name : gostring) (nargs : nat) : M () := λ s,
  let '(w, r) := call_hook name (rev (take nargs (stack s))) (script s) in
  match error_text r with
  | Some msg => Panic (UserPanic msg)
  | None => Ret (tt, mkS (drop (S nargs) (stack s)) w)
  end.

(** [l.state.ProtectedCall(nargs, 0, h)]: an error is returned, and its object takes
    the place of the function and its arguments. *)
Definition ProtectedCall (name : gostring) (nargs : nat) : M call_result := λ s,
  let '(w, r) := call_hook name (rev (take nargs (stack s))) (script s) in
  let rest := drop (S nargs) (stack s) in
  match error_text r with
  | Some msg => Ret (r, mkS (LString msg :: rest) w)
  | None => Ret (r, mkS rest w)
  end.

(** [l.state.PushUserData(lg)]. *)
Definition push_log (lg : nat) : M () := push (LUserData (ULog lg)).

(** The address of a variable that holds a log: the caller's loop variable. *)
Definition address_of (lg : Log) : M nat := λ s,
  let '(loc, w) := place lg (script s) in Ret (loc, mkS (stack s) w).

(** ** Calling the hooks *)

(** [f.push...]: the hook is on the stack, or the error says it is not defined. *)
Definition pushOnTick : M (option error) :=
  _ ← Global_logd;
  _ ← Field luaNameOnTickFn;
  ok ← IsFunction_top;
  if negb ok then
    _ ← Pop 1;
    mret (Some (Err (str "not defined in lua script: function logd.on_tick()")))
  else mret None.

Definition pushOnLog (lg : nat) : M (option error) :=
  _ ← Global_logd;
  _ ← Field luaNameOnLogFn;
  ok ← IsFunction_top;
  if negb ok then
    _ ← Pop 1;
    mret (Some (Err (str "not defined in lua script: function logd.on_log (logptr)")))
  else _ ← push_log lg; mret None.

(** [l.callOnError(lg, err)]. *)
Definition callOnError (lg : nat) (err : gostring) : M () :=
  _ ← Global_logd;
  _ ← Field luaNameOnErrorFn;
  ok ← IsFunction_top;
  if negb ok then
    gopanics (UserPanic (str "runtime error thrown but not defined in lua script: function " ++
      luaNameLogdModule ++ str "." ++ luaNameOnErrorFn ++ str "(logptr, error): " ++ err))
  else
    _ ← push_log lg;
    _ ← push (LString err);
    _ ← Call luaNameOnErrorFn 2;
    Pop 1.

(** [l.callProtected(lg, args, 0, fnName)]; the message of a Lua error is that of
    Go's [RuntimeError]. *)
Definition callProtected (lg : nat) (args : nat) (fnName : gostring) : M (option error) :=
  ok ← IsFunction_bottom;
  if negb ok then
    gopanics (UserPanic (str "could not find system error handler at index 1"))
  else
    r ← ProtectedCall fnName args;
    match r with
    | Done => mret None
    | GoError msg => mret (Some (Err msg))
    | LuaError msg =>
      _ ← callOnError lg (fnName ++ str " : runtime error: " ++ msg);
      mret None
    end.

(** [defer l.state.Pop(1)] around the rest of a function. *)
Definition with_pop {A} (m : M A) : M A := a ← m; _ ← Pop 1; mret a.

Definition callOnTick : M (option error) :=
  err ← pushOnTick;
  with_pop (match err with
            | Some _ => mret err
            | None => _ ← Call luaNameOnTickFn 0; mret None
            end).

Definition callProtectedOnTick : M (option error) :=
  _ ← push luaGoErrorHandler;
  err ← pushOnTick;
  with_pop (match err with
            | Some _ => mret err
            | None => lg ← address_of zeroLog; callProtected lg 0 luaNameOnTickFn
            end).

Definition CallOnLog (lg : nat) : M (option error) :=
  err ← pushOnLog lg;
  with_pop (match err with
            | Some _ => mret err
            | None => _ ← Call luaNameOnLogFn 1; mret None
            end).

Definition ProtectedCallOnLog (lg : nat) : M (option error) :=
  _ ← push luaGoErrorHandler;
  err ← pushOnLog lg;
  with_pop (match err with
            | Some _ => mret err
            | None => callProtected lg 1 luaNameOnLogFn
            end).

Definition CallOnSignal (code : Z) : M () :=
  _ ← Global_logd;
  with_pop (
    _ ← Field luaNameOnSignalFn;
    ok ← IsFunction_top;
    if negb ok then
      gopanics (UserPanic (str "not defined: function " ++ luaNameLogdModule ++ str "." ++
        luaNameOnSignalFn ++ str "(signal)"))
    else
      _ ← push (LString (signal_name code));
      Call luaNameOnSignalFn 1).

(** The asynchronous reports: nothing happens when the hook is not defined. *)
Definition callOnHTTPError (url method err : gostring) : M () :=
  _ ← Global_logd;
  with_pop (
    _ ← Field luaNameOnHTTPErrorFn;
    ok ← IsFunction_top;
    if negb ok then Pop 1
    else
      _ ← push (LString url);
      _ ← push (LString method);
      _ ← push (LString err);
      Call luaNameOnHTTPErrorFn 3).

Definition kafka_report_text (m : Message) (err : gostring) : gostring :=
  str "error when producing message to topic '" ++ msg_topic m ++ str "' at partition " ++
  itoa (msg_partition m) ++ str " with offset " ++ itoa (msg_offset m) ++ str ": " ++ err.

Definition callOnKafkaReport (m : Message) (err : option gostring) : M () :=
  _ ← Global_logd;
  with_pop (
    _ ← Field luaNameOnKafkaReportFn;
    ok ← IsFunction_top;
    if negb ok then Pop 1
    else
      _ ← push (LUserData (UMessage m));
      _ ← push (match err with None => LNil | Some e => LString (kafka_report_text m e) end);
      Call luaNameOnKafkaReportFn 2).

Definition hookDefined (name : gostring) : M bool :=
  _ ← Global_logd;
  _ ← Field name;
  ok ← IsFunction_top;
  _ ← Pop 2;
  mret ok.

Definition errorHandlerDefined : M bool := hookDefined luaNameOnErrorFn.
Definition SignalHandlerDefined : M bool := hookDefined luaNameOnSignalFn.

Definition setProtected (enabled : bool) : M (option error) :=
  missing ← (if enabled then ok ← errorHandlerDefined; mret (negb ok) else mret false);
  if missing : bool then
    mret (Some (Err (str "protected mode set but not defined: function " ++ luaNameLogdModule ++
      str "." ++ luaNameOnErrorFn ++ str " (logptr, error)")))
  else
    _ ← modify (λ s, mkS (stack s) (set_protected enabled (script s)));
    mret None.

(** [l.ProtectedMode()]. *)
Definition SandboxProtectedMode (s : sstate) : bool := protected_mode (script s).

(** What [tick] calls when its timer fires: the error is a panic. *)
Definition tick_fires : M () :=
  s ← get;
  err ← (if SandboxProtectedMode s then callProtectedOnTick else callOnTick);
  match err with
  | Some (Err msg) => gopanics (UserPanic msg)
  | Some EOF => gopanics (UserPanic (str "EOF"))
  | None => mret tt
  end.

(** [l.loadUserScript()]: [lua.DoFile] leaves on the stack whatever the script
    returns, or the object of the error it fails with. *)
Definition loadUserScript (outcome : list lua_value + gostring) : M (option error) :=
  match outcome with
  | inl values => _ ← modify (λ s, mkS (rev values ++ stack s) (script s)); mret None
  | inr msg =>
    _ ← push (LString msg);
    mret (Some (Err (str "there was an error when loading script: " ++ msg)))
  end.

(** The sandbox is what the pipeline runs against: each call is given the address of
    the loop variable. *)
#[global] Instance sandbox_collector : Collector sstate := {|
  Pipeline.ProtectedMode := SandboxProtectedMode;
  Pipeline.CallOnLog lg := loc ← address_of lg; CallOnLog loc;
  Pipeline.ProtectedCallOnLog lg := loc ← address_of lg; ProtectedCallOnLog loc
|}.
End sandbox.

Arguments sstate : clear implicits.

(** ** What the calls do, on every branch *)

Section lemmas.
Context {W : Type} `{Script W}.
Implicit Types s : sstate W.

Definition no_on_log : error := Err (str "not defined in lua script: function logd.on_log (logptr)").

Lemma pushOnLog_eq lg s :
  pushOnLog lg s =
    if defines luaNameOnLogFn (script s)
    then Ret (None, mkS (LUserData (ULog lg) :: hook_value luaNameOnLogFn (script s) ::
                         module_value :: stack s) (script s))
    else Ret (Some no_on_log, mkS (module_value :: stack s) (script s)).
Proof.
  unfold pushOnLog, Global_logd, Field, IsFunction_top, push_log, Pop, push, modify, get.
  unfold mbind, stgo_bind. cbn. unfold hook_value.
  by destruct (defines luaNameOnLogFn (script s)).
Qed.

Lemma CallOnLog_eq lg s :
  CallOnLog lg s =
    if defines luaNameOnLogFn (script s) then
      let '(w, r) := call_hook luaNameOnLogFn [LUserData (ULog lg)] (script s) in
      match error_text r with
      | Some msg => Panic (UserPanic msg)
      | None => Ret (None, mkS (stack s) w)
      end
    else Ret (Some no_on_log, s).
Proof.
  unfold CallOnLog. unfold mbind at 1, stgo_bind at 1. rewrite pushOnLog_eq.
  destruct (defines luaNameOnLogFn (script s)); cbn; [|by destruct s].
  unfold with_pop, Call, Pop, modify, mbind, stgo_bind. cbn.
  destruct (call_hook luaNameOnLogFn [LUserData (ULog lg)] (script s)) as [w r].
  by destruct (error_text r).
Qed.

(** What a protected call leaves on the stack: the error handler, and the module
    under the error when there was one. *)
Definition handled_error (lg : nat) (fn msg : gostring) : gostring :=
  fn ++ str " : runtime error: " ++ msg.

Lemma callOnError_eq lg err s :
  callOnError lg err s =
    if defines luaNameOnErrorFn (script s) then
      let '(w, r) := call_hook luaNameOnErrorFn [LUserData (ULog lg); LString err] (script s) in
      match error_text r with
      | Some msg => Panic (UserPanic msg)
      | None => Ret (tt, mkS (stack s) w)
      end
    else Panic (UserPanic (str "runtime error thrown but not defined in lua script: function " ++
           luaNameLogdModule ++ str "." ++ luaNameOnErrorFn ++ str "(logptr, error): " ++ err)).
Proof.
  unfold callOnError, Global_logd, Field, IsFunction_top, push_log, Pop, push, modify, get, Call.
  unfold mbind, stgo_bind. cbn. unfold hook_value.
  destruct (defines luaNameOnErrorFn (script s)); cbn; [|done].
  destruct (call_hook luaNameOnErrorFn [LUserData (ULog lg); LString err] (script s)) as [w r].
  by destruct (error_text r).
Qed.

(** [callProtected] pops a function and its arguments, and pushes the error of a call
    that fails. *)
Lemma callProtected_eq lg name fn args rest w :
  (∃ v, last rest = Some v ∧ is_function v = true) →
  callProtected lg (length args) name (mkS (rev args ++ fn :: rest) w) =
    let '(w1, r) := call_hook name args w in
    match r with
    | Done => Ret (None, mkS rest w1)
    | GoError msg => Ret (Some (Err msg), mkS (LString msg :: rest) w1)
    | LuaError msg =>
        (_ ← callOnError lg (handled_error lg name msg); mret None)
          (mkS (LString msg :: rest) w1)
    end.
Proof.
  intros (v & Hv & Hfn).
  assert (IsFunction_bottom (mkS (rev args ++ fn :: rest) w) =
          Ret (true, mkS (rev args ++ fn :: rest) w)) as Hbottom.
  { unfold IsFunction_bottom, mbind, stgo_bind, get. cbn [mbind go_bind stack].
    rewrite last_app_cons. destruct rest as [|u rest]; [done|]. rewrite last_cons_cons, Hv.
    cbn. by rewrite Hfn. }
  unfold callProtected. unfold mbind at 1, stgo_bind at 1. rewrite Hbottom.
  cbn [mbind go_bind negb]. unfold ProtectedCall. unfold mbind at 1, stgo_bind at 1.
  cbn [stack script].
  rewrite <- (length_rev args), take_app_length, rev_involutive.
  replace (drop (S (length (rev args))) (rev args ++ fn :: rest)) with rest.
  - destruct (call_hook name args w) as [w1 [|msg|msg]]; reflexivity.
  - by rewrite <- Nat.add_1_r, drop_app_add.
Qed.

Definition bottom_ok (st : list lua_value) : Prop :=
  st = [] ∨ ∃ v, last st = Some v ∧ is_function v = true.

Lemma handler_bottom st : bottom_ok st →
  ∃ v, last (module_value :: luaGoErrorHandler :: st) = Some v ∧ is_function v = true.
Proof.
  intros [->|(v & Hv & Hf)]; [by eexists|]. exists v. split; [|done].
  rewrite last_cons_cons. destruct st; [done|]. by rewrite last_cons_cons.
Qed.

Lemma ProtectedCallOnLog_eq lg s :
  bottom_ok (stack s) →
  ProtectedCallOnLog lg s =
    if defines luaNameOnLogFn (script s) then
      let '(w, r) := call_hook luaNameOnLogFn [LUserData (ULog lg)] (script s) in
      match r with
      | Done => Ret (None, mkS (luaGoErrorHandler :: stack s) w)
      | GoError msg => Ret (Some (Err msg), mkS (module_value :: luaGoErrorHandler :: stack s) w)
      | LuaError msg =>
          '(_, s') ← callOnError lg (handled_error lg luaNameOnLogFn msg)
                       (mkS (LString msg :: module_value :: luaGoErrorHandler :: stack s) w);
          Ret (None, mkS (module_value :: luaGoErrorHandler :: stack s) (script s'))
      end
    else Ret (Some no_on_log, mkS (luaGoErrorHandler :: stack s) (script s)).
Proof.
  intros Hb. unfold ProtectedCallOnLog. unfold mbind at 1 2, stgo_bind at 1 2.
  change (push luaGoErrorHandler s) with (Ret (tt, mkS (luaGoErrorHandler :: stack s) (script s))).
  cbn [mbind go_bind]. rewrite pushOnLog_eq. cbn [stack script].
  destruct (defines luaNameOnLogFn (script s)); [|done]. cbn [mbind go_bind].
  unfold with_pop. unfold mbind at 1, stgo_bind at 1.
  pose proof (callProtected_eq lg luaNameOnLogFn (hook_value luaNameOnLogFn (script s))
    [LUserData (ULog lg)] (module_value :: luaGoErrorHandler :: stack s) (script s)
    (handler_bottom _ Hb)) as Hcall.
  cbn [rev app length] in Hcall. rewrite Hcall. clear Hcall.
  destruct (call_hook luaNameOnLogFn [LUserData (ULog lg)] (script s)) as [w [|msg|msg]];
    [done| |done].
  cbn [mbind go_bind]. unfold mbind, stgo_bind. rewrite !callOnError_eq. cbn [script stack].
  destruct (defines luaNameOnErrorFn w); [|done].
  destruct (call_hook luaNameOnErrorFn _ w) as [w2 r2]. by destruct (error_text r2).
Qed.
End lemmas.

Section consequences.
Context {W : Type} `{Script W}.
Implicit Types s : sstate W.

(** A protected call that returns leaves one or two values behind. *)
Lemma ProtectedCallOnLog_leak lg s e s' :
  bottom_ok (stack s) → ProtectedCallOnLog lg s = Ret (e, s') →
  (stack s' = luaGoErrorHandler :: stack s ∨
   stack s' = module_value :: luaGoErrorHandler :: stack s).
Proof.
  intros Hb. rewrite ProtectedCallOnLog_eq by done.
  destruct (defines luaNameOnLogFn (script s)); [|intros [= _ <-]; by left].
  destruct (call_hook luaNameOnLogFn _ (script s)) as [w [|msg|msg]].
  - intros [= _ <-]. by left.
  - destruct (callOnError _ _ _) as [[[] s1]|]; cbn; [|done]. intros [= _ <-]. by right.
  - intros [= _ <-]. by right.
Qed.

Lemma bottom_ok_cons v st : bottom_ok st → st ≠ [] ∨ is_function v = true → bottom_ok (v :: st).
Proof.
  intros [->|(u & Hu & Hf)] Hv; right.
  - exists v. by destruct Hv.
  - exists u. destruct st; [done|]. by rewrite last_cons_cons.
Qed.

Lemma leak_bottom s s' :
  bottom_ok (stack s) →
  stack s' = luaGoErrorHandler :: stack s ∨
  stack s' = module_value :: luaGoErrorHandler :: stack s → bottom_ok (stack s').
Proof.
  intros Hb [-> | ->]; [by apply bottom_ok_cons; [|right]|].
  apply bottom_ok_cons; [|by left]. by apply bottom_ok_cons; [|right].
Qed.

Lemma ProtectedCallOnLog_not_EOF lg e s s' :
  bottom_ok (stack s) → ProtectedCallOnLog lg s = Ret (Some e, s') → e ≠ EOF.
Proof.
  intros Hb. rewrite ProtectedCallOnLog_eq by done.
  destruct (defines luaNameOnLogFn (script s)); [|by intros [= <- _]].
  destruct (call_hook luaNameOnLogFn _ (script s)) as [w [|msg|msg]]; [done| |by intros [= <- _]].
  by destruct (callOnError _ _ _) as [[[] s1]|].
Qed.

(** The same for the pipeline's call. *)
Lemma collector_call_leak l e s s1 :
  bottom_ok (stack s) → Pipeline.ProtectedCallOnLog l s = Ret (e, s1) →
  bottom_ok (stack s1) ∧ (length (stack s) + 1 <= length (stack s1))%nat.
Proof.
  intros Hb. cbn. unfold mbind, stgo_bind, address_of.
  destruct (place l (script s)) as [loc w]. cbn. intros E.
  pose proof (ProtectedCallOnLog_leak loc (mkS (stack s) w) e s1 Hb E) as Hleak.
  split; [by apply (leak_bottom (mkS (stack s) w))|].
  destruct Hleak as [-> | ->]; cbn; lia.
Qed.

(** Delivering logs in protected mode. *)
Lemma deliver_protected_leak logs : ∀ s s',
  bottom_ok (stack s) → deliver Pipeline.ProtectedCallOnLog logs s = Ret (None, s') →
  (length (stack s) + length logs <= length (stack s'))%nat.
Proof.
  induction logs as [|l logs IH]; intros s s' Hb; cbn [deliver].
  { intros [= <-]. cbn. lia. }
  unfold and_then, mbind, stgo_bind.
  destruct (Pipeline.ProtectedCallOnLog l s) as [[[e|] s1]|] eqn:E; cbn; try done.
  destruct (collector_call_leak l None s s1 Hb E) as [Hb1 Hl1].
  intros Hd. specialize (IH s1 s' Hb1 Hd). lia.
Qed.

Lemma deliver_protected_error logs : ∀ s s' e,
  bottom_ok (stack s) → deliver Pipeline.ProtectedCallOnLog logs s = Ret (Some e, s') → e ≠ EOF.
Proof.
  induction logs as [|l logs IH]; intros s s' e Hb; cbn [deliver]; [done|].
  unfold and_then, mbind, stgo_bind.
  destruct (Pipeline.ProtectedCallOnLog l s) as [[[e1|] s1]|] eqn:E; cbn; try done.
  - intros [= <- _]. revert E. cbn. unfold mbind, stgo_bind, address_of.
    destruct (place l (script s)) as [loc w]. cbn.
    by apply (ProtectedCallOnLog_not_EOF loc e1 (mkS (stack s) w)).
  - apply IH. by destruct (collector_call_leak l None s s1 Hb E).
Qed.
End consequences.

(** ** Properties *)

Section properties.
Context {W : Type} `{Script W}.
Implicit Types s : sstate W.

(** A plain call of [on_log] gives the hook the pointer and leaves the stack as it
    was: it returns no error when the hook returns, an error and no change when the
    hook is not defined, and an error of the script is a panic. *)
Theorem call_on_log_outcomes (lg : nat) s :
  CallOnLog lg s =
    if defines luaNameOnLogFn (script s) then
      let '(w, r) := call_hook luaNameOnLogFn [LUserData (ULog lg)] (script s) in
      match error_text r with
      | Some msg => Panic (UserPanic msg)
      | None => Ret (None, mkS (stack s) w)
      end
    else Ret (Some no_on_log, s).
Proof. apply CallOnLog_eq. Qed.

(** C14: In protected mode a Lua error of [on_log] does not reach the pipeline: it is
    handed to [on_error] with the same log pointer, and the call returns no error. *)
Theorem protected_error_is_handled (lg : nat) (msg : gostring) s (w w' : W)
    (Hbottom : bottom_ok (stack s))
    (Hlog : defines luaNameOnLogFn (script s) = true)
    (Hfails : call_hook luaNameOnLogFn [LUserData (ULog lg)] (script s) = (w, LuaError msg))
    (Herror : defines luaNameOnErrorFn w = true)
    (Hhandled : call_hook luaNameOnErrorFn
       [LUserData (ULog lg); LString (str "on_log : runtime error: " ++ msg)] w = (w', Done)) :
  ∃ s', ProtectedCallOnLog lg s = Ret (None, s') ∧ script s' = w'.
Proof.
  rewrite ProtectedCallOnLog_eq, Hlog, Hfails by done. rewrite callOnError_eq. cbn [script stack].
  rewrite Herror. unfold handled_error.
  replace (luaNameOnLogFn ++ str " : runtime error: " ++ msg)
    with (str "on_log : runtime error: " ++ msg) by done.
  rewrite Hhandled. by eexists.
Qed.

(** The error of a builtin called with the wrong arguments is not a Lua error:
    even in protected mode [on_error] is not called, and the error ends the
    pipeline. *)
Theorem builtin_error_not_handled (lg : nat) (msg : gostring) s (w : W)
    (Hbottom : bottom_ok (stack s))
    (Hlog : defines luaNameOnLogFn (script s) = true)
    (Hfails : call_hook luaNameOnLogFn [LUserData (ULog lg)] (script s) = (w, GoError msg)) :
  ∃ s', ProtectedCallOnLog lg s = Ret (Some (Err msg), s') ∧ script s' = w.
Proof. rewrite ProtectedCallOnLog_eq, Hlog, Hfails by done. by eexists. Qed.

(** A script that raises a table is not given to [on_error] either: the handler of the
    protected call wants a string. *)
Theorem raised_table_not_handled `{LuaNumbers} (lg : nat) (traceback : gostring → gostring)
    (entries : list (lua_value * lua_value)) s (w : W)
    (Hbottom : bottom_ok (stack s))
    (Hlog : defines luaNameOnLogFn (script s) = true)
    (Hfails : call_hook luaNameOnLogFn [LUserData (ULog lg)] (script s) =
      (w, error_handler traceback (LTable entries))) :
  ∃ s', ProtectedCallOnLog lg s =
          Ret (Some (Err (str "no error in call to system error handler: found table")), s') ∧
    script s' = w.
Proof. rewrite ProtectedCallOnLog_eq, Hlog, Hfails by done. by eexists. Qed.

(** C39: The Lua stack grows for ever in protected mode: every log delivered leaves the
    error handler on it, and a handled error leaves the module as well. *)
Theorem protected_pipeline_leaks (chunks : list gostring) (q : Parser) (logs : list Log) s s'
    (Hmode : SandboxProtectedMode s = true) (Hbottom : bottom_ok (stack s))
    (Hparse : parse_chunks NewParser chunks [] = Ret (q, logs))
    (Hrun : runPipeline (source chunks) s = Ret (Exited None, s')) :
  (length (stack s) + length logs <= length (stack s'))%nat.
Proof.
  revert Hrun. unfold runPipeline. unfold mbind at 1, stgo_bind at 1, get. cbn [mbind go_bind].
  change (Pipeline.ProtectedMode s) with (SandboxProtectedMode s). rewrite Hmode.
  rewrite (read_loop_batch _ _ _ _ _ _ Hparse). unfold mbind, stgo_bind.
  destruct (deliver Pipeline.ProtectedCallOnLog logs s) as [[[e|] s1]|] eqn:E; cbn; try done.
  - intros [= He _]. apply deliver_protected_error in E; [|done]. by destruct e.
  - intros [= <-]. by eapply deliver_protected_leak.
Qed.

(** A script that ends with a [return] of something else than a function breaks
    protected mode: the value stays at the bottom of the stack, where the error
    handler is looked for, and the first log is a panic. *)
Theorem returning_script_breaks_protected (v : lua_value) (lg : nat) s s1
    (Hempty : stack s = [])
    (Hv : is_function v = false)
    (Hload : loadUserScript (inl [v]) s = Ret (None, s1))
    (Hlog : defines luaNameOnLogFn (script s) = true) :
  ProtectedCallOnLog lg s1 = Panic (UserPanic (str "could not find system error handler at index 1")).
Proof.
  revert Hload. unfold loadUserScript, modify, mbind, stgo_bind. cbn. intros [= <-].
  rewrite Hempty. cbn [app]. unfold ProtectedCallOnLog. unfold mbind at 1 2, stgo_bind at 1 2.
  unfold push at 1, modify at 1. cbn [mbind go_bind stack script]. rewrite pushOnLog_eq.
  cbn [stack script]. rewrite Hlog. cbn [mbind go_bind].
  unfold with_pop, callProtected. unfold mbind at 1 2, stgo_bind at 1 2.
  unfold IsFunction_bottom, mbind, stgo_bind, get. cbn. by rewrite Hv.
Qed.

(** The mode can be turned on only by a script that defines [on_error], turning it
    off always works, and asking leaves no trace on the stack. *)
Theorem set_protected_outcomes (enabled : bool) s :
  setProtected enabled s =
    if enabled && negb (defines luaNameOnErrorFn (script s))
    then Ret (Some (Err (str "protected mode set but not defined: function " ++ luaNameLogdModule ++
           str "." ++ luaNameOnErrorFn ++ str " (logptr, error)")), s)
    else Ret (None, mkS (stack s) (set_protected enabled (script s))).
Proof.
  unfold setProtected, errorHandlerDefined, hookDefined, Global_logd, Field, IsFunction_top,
    push, Pop, modify, get. unfold mbind, stgo_bind. cbn. unfold hook_value.
  destruct s as [st w]. destruct enabled; cbn; [|done].
  by destruct (defines luaNameOnErrorFn w).
Qed.

(** A script without [on_tick] cannot let the timer fire, in either mode. *)
Theorem tick_without_hook_panics s
    (Htick : defines luaNameOnTickFn (script s) = false) :
  tick_fires s = Panic (UserPanic (str "not defined in lua script: function logd.on_tick()")).
Proof.
  unfold tick_fires. unfold mbind at 1, stgo_bind at 1, get. cbn [mbind go_bind].
  unfold callProtectedOnTick, callOnTick, pushOnTick, with_pop, Global_logd, Field,
    IsFunction_top, push, Pop, modify, get, mbind, stgo_bind, hook_value.
  destruct (SandboxProtectedMode s); cbn; by rewrite Htick.
Qed.
End properties.

(** [on_signal] is given the name of the signal: different signals have different
    names, and a code that is not in the table has none. *)
Theorem signal_names_identify (c c' : Z)
    (Hname : signal_name c ≠ []) (Hsame : signal_name c = signal_name c') :
  c = c' ∧ (c, signal_name c) ∈ signals.
Proof.
  assert (∀ code, signal_name code ≠ [] → (code, signal_name code) ∈ signals) as Hin.
  { unfold signal_name. generalize signals as table. induction table as [|[k n] table IH];
      intros code; [done|]. cbn. destruct (Z.eqb_spec k code) as [->|]; [by left|].
    intros Hc. right. by apply IH. }
  pose proof (Hin c Hname) as H1. pose proof (Hin c' ltac:(congruence)) as H2.
  split; [|done]. rewrite <- Hsame in H2.
  assert (NoDup signals.*2) as Hnd by (apply (bool_decide_unpack _); vm_compute; exact I).
  apply list_elem_of_lookup in H1 as [i Hi]. apply list_elem_of_lookup in H2 as [j Hj].
  assert (i = j) as ->.
  { eapply NoDup_lookup; [exact Hnd|..]; rewrite list_lookup_fmap; [by rewrite Hi|by rewrite Hj]. }
  congruence.
Qed.

(** ** A script as a table of reactions *)

(** The world of a simple script: the calls it has had, the mode, and the logs that
    its loop variable has held. Hooks fail on the arguments [fails] says. *)
Module ToyScript.
Record toy : Type := mkToy {
  calls : list (gostring * list lua_value);
  prot : bool;
  logs_seen : list Log
}.

#[export] Instance toy_script (hooks : list gostring) (fails : gostring → call_result) : Script toy := {|
  defines name _ := bool_decide (name ∈ hooks);
  call_hook name args w :=
    (mkToy (calls w ++ [(name, args)]) (prot w) (logs_seen w), fails name);
  protected_mode := prot;
  set_protected b w := mkToy (calls w) b (logs_seen w);
  place lg w := (0%nat, mkToy (calls w) (prot w) (logs_seen w ++ [lg]))
|}.

Definition hooks : list gostring := [luaNameOnLogFn; luaNameOnErrorFn].

(** [on_log] raises an error. *)
Definition broken (r : call_result) : gostring → call_result :=
  λ name, if decide (name = luaNameOnLogFn) then r else Done.

Definition start (b : bool) : sstate toy := mkS [] (mkToy [] b []).
End ToyScript.

Section witnesses.
Import ToyScript.

Lemma protected_error_is_handled_witness :
  let script := toy_script hooks (broken (LuaError (str "boom"))) in
  ∃ s', @ProtectedCallOnLog toy script 0 (start true) = Ret (None, s') ∧
    calls (Sandbox.script s') =
      [(luaNameOnLogFn, [LUserData (ULog 0)]);
       (luaNameOnErrorFn, [LUserData (ULog 0); LString (str "on_log : runtime error: boom")])].
Proof.
  cbv zeta.
  edestruct (@protected_error_is_handled toy (toy_script hooks (broken (LuaError (str "boom"))))
    0 (str "boom") (start true)) as (s' & Hs & Hw).
  - by left.
  - vm_compute. reflexivity.
  - vm_compute. reflexivity.
  - vm_compute. reflexivity.
  - vm_compute. reflexivity.
  - exists s'. split; [exact Hs|]. rewrite Hw. vm_compute. reflexivity.
Defined.

Lemma raised_table_not_handled_witness :
  let script := toy_script hooks (broken (error_handler id (LTable []))) in
  ∃ s', @ProtectedCallOnLog toy script 0 (start true) =
          Ret (Some (Err (str "no error in call to system error handler: found table")), s').
Proof.
  cbv zeta.
  edestruct (@raised_table_not_handled toy (toy_script hooks (broken (error_handler id (LTable []))))
    Builtins.ToyNumbers.toy_numbers 0 id [] (start true)) as (s' & Hs & _).
  - by left.
  - vm_compute. reflexivity.
  - vm_compute. reflexivity.
  - exists s'. exact Hs.
Defined.

Lemma builtin_error_not_handled_witness :
  let script := toy_script hooks (broken (GoError (str "2 argument must be a string"))) in
  ∃ s', @ProtectedCallOnLog toy script 0 (start true) =
          Ret (Some (Err (str "2 argument must be a string")), s').
Proof.
  cbv zeta.
  edestruct (@builtin_error_not_handled toy
    (toy_script hooks (broken (GoError (str "2 argument must be a string"))))
    0 (str "2 argument must be a string") (start true)) as (s' & Hs & _).
  - by left.
  - vm_compute. reflexivity.
  - vm_compute. reflexivity.
  - exists s'. exact Hs.
Defined.

Lemma protected_pipeline_leaks_witness :
  ∃ s', @runPipeline _ (@sandbox_collector toy (toy_script hooks (broken (LuaError (str "boom")))))
          (source [Tests.log1 ++ Tests.log3]) (start true) = Ret (Exited None, s') ∧
    (2 <= length (stack s'))%nat.
Proof.
  match goal with |- ∃ s', ?run = _ ∧ _ =>
    assert (match run with Ret (Exited None, _) => true | _ => false end = true) as Hok
      by (vm_compute; reflexivity);
    destruct run as [[[[e|]|p] s']|] eqn:Hrun; [discriminate Hok| |discriminate Hok..]
  end.
  exists s'. split; [reflexivity|].
  refine (@protected_pipeline_leaks toy (toy_script hooks (broken (LuaError (str "boom"))))
    [Tests.log1 ++ Tests.log3] NewParser [Tests.expected1; Tests.expected3] (start true) s'
    eq_refl (or_introl eq_refl) _ Hrun).
  vm_compute. reflexivity.
Defined.

Lemma returning_script_breaks_protected_witness :
  @ProtectedCallOnLog toy (toy_script hooks (λ _, Done)) 0
    (mkS [LTable []] (mkToy [] true [])) =
  Panic (UserPanic (str "could not find system error handler at index 1")).
Proof.
  apply (returning_script_breaks_protected (LTable []) 0 (start true)); reflexivity.
Defined.

Lemma tick_without_hook_panics_witness :
  @tick_fires toy (toy_script hooks (λ _, Done)) (start false) =
  Panic (UserPanic (str "not defined in lua script: function logd.on_tick()")).
Proof. apply tick_without_hook_panics. vm_compute. reflexivity. Defined.

Lemma signal_names_identify_witness :
  10 = 10 ∧ (10, signal_name 10) ∈ signals.
Proof. apply signal_names_identify; [vm_compute; discriminate|reflexivity]. Defined.
End witnesses.
