(* ===== verification/SandboxConfig.v ===== *)
(** * Configuration and HTTP builtins (lua/builtin.go, lines 185-214; lua/http.go)

    [config_set] dispatches on its key to the setters of the sandbox, and
    [http_post] creates the HTTP client at its first call.  The sandbox's resources
    are the part of [lua.Sandbox] these builtins touch; the calls of the HTTP client
    are those of HttpClient.v, which may leave the caller waiting. *)

From Stdlib Require Import Floats.SpecFloat.
From stdpp Require Import gmap.
From S2P Require Import Prelude GoString Log Serialize LuaValue Builtins Kafka HttpClient.
Open Scope Z_scope.

(** ** The sandbox's resources *)

(** [restarts] counts the goroutines [setTick] starts to restart the ticker. *)
Record sandbox : Type := mkSandbox {
  tick : Z;
  protected : bool;
  on_error_defined : bool;
  httpConfig : Config;
  http : option client;
  kafkaConfig : ConfigMap;
  restarts : nat
}.

Definition with_tick t s := mkSandbox t (protected s) (on_error_defined s) (httpConfig s) (http s) (kafkaConfig s) (S (restarts s)).
Definition with_protected b s := mkSandbox (tick s) b (on_error_defined s) (httpConfig s) (http s) (kafkaConfig s) (restarts s).
Definition with_httpConfig c s := mkSandbox (tick s) (protected s) (on_error_defined s) c (http s) (kafkaConfig s) (restarts s).
Definition with_http c s := mkSandbox (tick s) (protected s) (on_error_defined s) (httpConfig s) c (kafkaConfig s) (restarts s).
Definition with_kafkaConfig m s := mkSandbox (tick s) (protected s) (on_error_defined s) (httpConfig s) (http s) m (restarts s).

(** How a builtin ends: it returns, raises a Lua error, or waits for the HTTP client. *)
Inductive builtin_result : Type :=
  | Returns
  | Raises (msg : gostring)
  | Waits.

(** [config_set]'s keys. *)
Definition luaNameConfigFn := str "config_set".
Definition luaConfigTick := str "tick".
Definition luaConfigProtected := str "protected".
Definition luaConfigHTTPConcurrency := str "http.concurrency".
Definition luaConfigHTTPTimeout := str "http.timeout".
Definition luaConfigHTTPChannelBuffer := str "http.channel_buffer".

Definition availableConfigKeys : list gostring :=
  [luaConfigTick; luaConfigProtected; luaConfigHTTPConcurrency; luaConfigHTTPTimeout;
   luaConfigHTTPChannelBuffer].

(** The [%v] of a slice of strings. *)
Definition slice_text (ss : list gostring) : gostring := str "[" ++ Join ss " "%byte ++ str "]".

Definition error_message (e : error) : gostring := match e with EOF => str "EOF" | Err m => m end.

(** The end of a builtin that returns an error of its own. *)
Definition ends (fn : gostring) (err : option error) : builtin_result :=
  match err with
  | None => Returns
  | Some e => Raises (fn ++ str ": " ++ error_message e)
  end.

(** What a call of the client means for the builtin that makes it. *)
Definition client_result (fn : gostring) (c : client) : builtin_result :=
  match caller c with Ready => ends fn (result c) | _ => Waits end.

Section config.
(** [time.ParseDuration]: nanoseconds, or an error. *)
Context `{LuaNumbers} (ParseDuration : gostring → Z + error).

Definition missing_on_error : error :=
  Err (str "protected mode set but not defined: function logd.on_error (logptr, error)").

Definition setProtected (enabled : bool) (s : sandbox) : option error * sandbox :=
  if enabled && negb (on_error_defined s) then (Some missing_on_error, s)
  else (None, with_protected enabled s).

(** [l.setTick(tick)]: the ticker is restarted by a goroutine of its own. *)
Definition setTick (t : Z) (s : sandbox) : sandbox := with_tick t s.

Definition setHTTPTimeout (timeoutStr : gostring) (s : sandbox) : option error * sandbox :=
  match ParseDuration timeoutStr with
  | inr e => (Some e, s)
  | inl t => (None, with_httpConfig (mkConfig (Concurrency (httpConfig s)) (ChanBuffer (httpConfig s)) t) s)
  end.

(** The common part of [setHTTPChannelBuffer] and [setHTTPConcurrency]: the client, if
    there is one, is initialized again, with the sandbox's lock held. *)
Definition reinit (fn : gostring) (s : sandbox) : go (builtin_result * sandbox) :=
  match http s with
  | None => Ret (Returns, s)
  | Some c =>
    c ← HttpClient.Init (Some (httpConfig s)) true c;
    Ret (client_result fn c, with_http (Some c) s)
  end.

Definition setHTTPChannelBuffer (b : Z) (s : sandbox) : go (builtin_result * sandbox) :=
  reinit luaNameConfigFn
    (with_httpConfig (mkConfig (Concurrency (httpConfig s)) b (Timeout (httpConfig s))) s).

Definition setHTTPConcurrency (n : Z) (s : sandbox) : go (builtin_result * sandbox) :=
  reinit luaNameConfigFn
    (with_httpConfig (mkConfig n (ChanBuffer (httpConfig s)) (Timeout (httpConfig s))) s).

Definition unknown_key (k : gostring) : error :=
  Err (str "unknown config key in call to `" ++ luaNameConfigFn ++ str "`: '" ++ k ++
       str "'. Available keys: " ++ slice_text availableConfigKeys).

(** The name of the builtin in the panics for a bad value. *)
Definition config_fn (k : gostring) : gostring := luaNameConfigFn ++ str "#" ++ k.

Definition luaSetConfig (l : args) (s : sandbox) : go (builtin_result * sandbox) :=
  k ← getArgString l 1 luaNameConfigFn;
  if decide (k = luaConfigProtected) then
    b ← getArgBool l 2 (config_fn k);
    let '(err, s) := setProtected b s in Ret (ends luaNameConfigFn err, s)
  else if decide (k = luaConfigTick) then
    t ← getArgInt l 2 (config_fn k);
    Ret (Returns, setTick t s)
  else if decide (k = luaConfigHTTPConcurrency) then
    n ← getArgInt l 2 (config_fn k);
    setHTTPConcurrency n s
  else if decide (k = luaConfigHTTPTimeout) then
    t ← getArgString l 2 (config_fn k);
    let '(err, s) := setHTTPTimeout t s in Ret (ends luaNameConfigFn err, s)
  else if decide (k = luaConfigHTTPChannelBuffer) then
    b ← getArgInt l 2 (config_fn k);
    setHTTPChannelBuffer b s
  else
    m ← setKafkaConfig k (ToValue (arg l 2)) (kafkaConfig s);
    match m with
    | Some m => Ret (Returns, with_kafkaConfig m s)
    | None => Ret (ends luaNameConfigFn (Some (unknown_key k)), s)
    end.

(** ** The HTTP builtin *)

Definition luaNameHTTPPostFn := str "http_post".

(** [l.initHTTP()]: the goroutine that polls the errors is part of the client. *)
Definition initHTTP (s : sandbox) : go (option error * sandbox) :=
  '(c, err) ← NewClient (Some (httpConfig s)) true;
  Ret (err, with_http c s).

(** [http_post(url, payload, contentType, affinity)]; [bad_request] is the error of
    [http.NewRequest] on the URL. *)
Definition luaHTTPPost (bad_request : gostring → option error) (l : args) (s : sandbox) :
    go (builtin_result * sandbox) :=
  u ← getArgString l 1 luaNameHTTPPostFn;
  body ← getArgString l 2 luaNameHTTPPostFn;
  ct ← getArgString l 3 luaNameHTTPPostFn;
  let affinity := getOptionalArgInt l 4 (-1) in
  '(err, s) ← match http s with Some _ => Ret (None, s) | None => initHTTP s end;
  match err, http s with
  | Some e, _ => Ret (Raises (str "http initialization error: " ++ error_message e), s)
  | None, None => Panic NilDereference
  | None, Some c =>
    c ← Post (mkRequest u ct body) affinity (bad_request u) c;
    let r := match caller c, result c with
             | Ready, None => Returns
             | Ready, Some e => Raises (error_message e)
             | _, _ => Waits
             end in
    Ret (r, with_http (Some c) s)
  end.
End config.

(** ** Properties *)

Section properties.
Context `{LuaNumbers} (ParseDuration : gostring → Z + error).

(** [config_set] refuses a key it does not know and changes nothing; any key that
    starts with ["kafka."] is one it knows, whatever the option is called. *)
Theorem config_set_unknown_key (k : gostring) (v : lua_value) (s : sandbox)
    (Hk : k ∉ availableConfigKeys) :
  (HasPrefix k kafka_prefix = false →
   luaSetConfig ParseDuration [LString k; v] s =
     Ret (Raises (luaNameConfigFn ++ str ": " ++ error_message (unknown_key k)), s)) ∧
  (HasPrefix k kafka_prefix = true →
   ∀ m', SetKey (TrimLeft k kafka_prefix) (normalizeKafkaValue (ToValue v)) (kafkaConfig s) = Ret m' →
   luaSetConfig ParseDuration [LString k; v] s = Ret (Returns, with_kafkaConfig m' s)).
Proof.
  unfold availableConfigKeys in Hk. rewrite !not_elem_of_cons in Hk.
  destruct Hk as (H1 & H2 & H3 & H4 & H5 & _).
  assert (luaSetConfig ParseDuration [LString k; v] s =
    m ← setKafkaConfig k (ToValue v) (kafkaConfig s);
    match m with
    | Some m => Ret (Returns, with_kafkaConfig m s)
    | None => Ret (ends luaNameConfigFn (Some (unknown_key k)), s)
    end) as Heq.
  { unfold luaSetConfig, getArgString. cbn [mbind go_bind arg ToString].
    change (arg [LString k; v] 1) with (LString k). cbn [ToString mbind go_bind].
    by rewrite !decide_False. }
  rewrite Heq. unfold setKafkaConfig. split; intros Hp; rewrite Hp; cbn [negb mbind go_bind].
  - done.
  - intros m' ->. done.
Qed.

(** Before the first request nothing checks the number of channels or their size:
    any value is accepted, and a bad one is found by the first [http_post], which
    raises an error at every call until it is mended. *)
Theorem http_config_checked_late (n : Z) (f : spec_float) (s : sandbox)
    (bad_request : gostring → option error) (u body ct : gostring)
    (Hhttp : http s = None) (Hf : int_of_float f = n) (Hn : n < 1) :
  ∃ s', luaSetConfig ParseDuration [LString luaConfigHTTPConcurrency; LNumber f] s = Ret (Returns, s') ∧
    http s' = None ∧
    luaHTTPPost bad_request [LString u; LString body; LString ct] s' =
      Ret (Raises (str "http initialization error: config error: min http concurrency is 1"), s').
Proof.
  eexists. split.
  { unfold luaSetConfig, getArgString, getArgInt, setHTTPConcurrency, reinit. cbn.
    rewrite Hhttp, Hf. reflexivity. }
  split; [done|]. unfold luaHTTPPost, getArgString. cbn. rewrite Hhttp. cbn.
  unfold initHTTP, NewClient, HttpClient.Init, init_workers_from, validateConfiguration. cbn.
  rewrite (proj2 (Z.ltb_lt n 1)) by done. cbn. destruct s. cbn in *. by subst.
Qed.

(** The first [http_post] of a script with a valid configuration creates the client
    and leaves its request in the first channel. *)
Theorem first_http_post (s : sandbox) (bad_request : gostring → option error) (u body ct : gostring)
    (Hhttp : http s = None) (Hurl : bad_request u = None)
    (Hn : 1 <= Concurrency (httpConfig s)) (Hb : 1 <= ChanBuffer (httpConfig s)) :
  ∃ s' c w, luaHTTPPost bad_request [LString u; LString body; LString ct] s = Ret (Returns, s') ∧
    http s' = Some c ∧ get_worker 0 c = Some w ∧ inbox w = [mkRequest u ct body] ∧
    sent w = [mkRequest u ct body].
Proof.
  unfold luaHTTPPost, getArgString. cbn. rewrite Hhttp. cbn.
  unfold initHTTP, NewClient, HttpClient.Init, init_workers_from, validateConfiguration. cbn.
  rewrite (proj2 (Z.ltb_ge (Concurrency (httpConfig s)) 1)),
    (proj2 (Z.ltb_ge (ChanBuffer (httpConfig s)) 1)) by done. cbn.
  unfold initWorkers. cbn.
  rewrite (proj2 (Z.ltb_ge (Concurrency (httpConfig s)) 0)) by lia. cbn.
  unfold Post. cbn. rewrite (proj2 (Z.ltb_ge (Concurrency (httpConfig s) - 1) (-1))) by lia.
  rewrite Hurl. destruct (Z.to_nat (Concurrency (httpConfig s))) as [|n] eqn:En; [lia|].
  assert (len (@nil request) <? ChanBuffer (httpConfig s) = true) as Hroom
    by (apply Z.ltb_lt; unfold len; cbn; lia).
  cbn. unfold has_room. cbn. rewrite Hroom.
  unfold send, get_worker. cbn. unfold has_room. cbn. rewrite Hroom. cbn.
  eexists _, _, _. split; [reflexivity|]. done.
Qed.
End properties.

Definition fresh_sandbox : sandbox :=
  mkSandbox 0 false false DefaultConfig None ∅ 0.

Lemma config_set_unknown_key_witness :
  luaSetConfig (λ _, inr EOF) [LString (str "http.timeouts"); LNil] fresh_sandbox =
    Ret (Raises (luaNameConfigFn ++ str ": " ++ error_message (unknown_key (str "http.timeouts"))),
         fresh_sandbox).
Proof.
  refine (proj1 (config_set_unknown_key (λ _, inr EOF) (str "http.timeouts") LNil fresh_sandbox _) _).
  - by apply (bool_decide_unpack _).
  - reflexivity.
Defined.

Lemma http_config_checked_late_witness :
  ∃ s', luaSetConfig (λ _, inr EOF)
          [LString luaConfigHTTPConcurrency; LNumber (ToyNumbers.number 0)] fresh_sandbox
          = Ret (Returns, s') ∧ http s' = None.
Proof.
  destruct (http_config_checked_late (λ _, inr EOF) 0 (ToyNumbers.number 0) fresh_sandbox
    (λ _, None) [] [] []) as (s' & Hs & Hh & _); [reflexivity|reflexivity|lia|].
  exists s'. split; [exact Hs|exact Hh].
Defined.

Lemma first_http_post_witness :
  ∃ s' c w, luaHTTPPost (λ _, None) [LString (str "http://h/"); LString (str "p"); LString (str "t")]
              fresh_sandbox = Ret (Returns, s') ∧
    http s' = Some c ∧ get_worker 0 c = Some w ∧
    inbox w = [mkRequest (str "http://h/") (str "t") (str "p")].
Proof.
  destruct (first_http_post fresh_sandbox (λ _, None) (str "http://h/") (str "p") (str "t"))
    as (s' & c & w & H1 & H2 & H3 & H4 & _); [reflexivity|reflexivity|vm_compute; discriminate..|].
  exists s', c, w. split; [exact H1|]. split; [exact H2|]. split; [exact H3|exact H4].
Defined.
