(* ===== verification/HttpGet.v ===== *)
(** * The synchronous HTTP builtin (lua/http.go, lines 16-60)

    [http_get(url, [headers])] builds a request from its arguments, sends it and
    reads the answer.  The HTTP library is an interface: the error of
    [http.NewRequest] on a URL, and what [client.Do] comes back with for a request
    with the given headers. *)

From Stdlib Require Import Floats.SpecFloat.
From stdpp Require Import gmap.
From S2P Require Import Prelude GoString Log Serialize LuaValue Builtins HttpClient SandboxConfig.
Open Scope Z_scope.

Definition luaNameHTTPGetFn := str "http_get".

(** The headers, in the order they are added. *)
Abbreviation headers := (list (gostring * gostring)).

Section get.
Context `{LuaNumbers} (NewRequest : gostring → option error) (Do : gostring → headers → response).

(** How a builtin that returns values ends. *)
Inductive get_result : Type :=
  | Values (vs : list lua_value)
  | LuaRaises.

(** The loop over the table of headers.  [CheckString] converts a number on the stack
    in place, so the traversal cannot go on from a numeric key, and raises a Lua error
    for a value of another type. *)
Fixpoint get_headers (fuel : nat) (table : list (lua_value * lua_value)) (k : option lua_value)
    (hs : headers) : go (option headers) :=
  match fuel with
  | O => Panic OutOfFuel
  | S fuel =>
    e ← Next table k;
    match e with
    | None => Ret (Some hs)
    | Some (k, v) =>
      match ToString k, ToString v with
      | Some k, Some v => get_headers fuel table (Some (LString k)) (hs ++ [(k, v)])
      | _, _ => Ret None
      end
    end
  end.

(** [errh]: nil and the text of the error. *)
Definition get_error (e : error) : get_result := Values [LNil; LString (error_message e)].

(** What follows the request: the body is read before the status is looked at. *)
Definition get_answer (u : gostring) (res : response) : get_result :=
  match res with
  | Failed err => get_error err
  | Answered code status body read_err =>
    match read_err with
    | Some err => get_error err
    | None =>
      if (code <? 200) || (300 <=? code)
      then get_error (Err (str "request to '" ++ u ++ str "' status: " ++ status))
      else Values [LString body; LNil]
    end
  end.

Definition luaHTTPGet (l : args) : go get_result :=
  u ← getArgString l 1 luaNameHTTPGetFn;
  match NewRequest u with
  | Some err => Ret (get_error err)
  | None =>
    match arg l 2 with
    | LNone | LNil | LUserData UNil => Ret (get_answer u (Do u []))
    | LTable entries =>
      hs ← get_headers (S (length entries)) entries None [];
      match hs with
      | None => Ret LuaRaises
      | Some hs => Ret (get_answer u (Do u hs))
      end
    | _ => Panic TypeAssertion
    end
  end.

(** ** Lemmas *)

(** A table with string keys and values. *)
Definition header_table (hs : headers) : list (lua_value * lua_value) :=
  string_table (prod_map id LString <$> hs).

Lemma header_keys (hs : headers) : (prod_map id LString <$> hs).*1 = hs.*1.
Proof. induction hs as [|[k v] hs IH]; [done|]. cbn. by rewrite IH. Qed.

Lemma Next_header_table (pre post : headers) :
  NoDup (pre ++ post).*1 →
  Next (header_table (pre ++ post)) (last_key (prod_map id LString <$> pre)) =
    Ret (head (header_table post)).
Proof.
  intros Hnd. unfold header_table. rewrite fmap_app. apply Next_string_table.
  by rewrite <- fmap_app, header_keys.
Qed.

Lemma get_headers_ok (post : headers) : ∀ pre fuel,
  NoDup (pre ++ post).*1 → (length post < fuel)%nat →
  get_headers fuel (header_table (pre ++ post)) (last_key (prod_map id LString <$> pre)) pre =
    Ret (Some (pre ++ post)).
Proof.
  induction post as [|[k v] post IH]; intros pre fuel Hnd Hf;
    (destruct fuel as [|fuel]; [cbn in Hf; lia|]); cbn [get_headers];
    rewrite Next_header_table by done; cbn [mbind go_bind].
  - by rewrite app_nil_r.
  - cbn [head header_table string_table fmap list_fmap prod_map ToString id].
    replace (pre ++ (k, v) :: post) with ((pre ++ [(k, v)]) ++ post) in * by by rewrite <- app_assoc.
    cbn [fst snd].
    replace (Some (LString k)) with (last_key (prod_map id LString <$> pre ++ [(k, v)])).
    + apply IH; [done|cbn in Hf; lia].
    + unfold last_key. rewrite fmap_app. cbn [fmap list_fmap]. by rewrite last_snoc.
Qed.

(** C38: [http_get] with a table of string headers always returns two values, and the
    request has every header of the table: the first is the body exactly when the
    request was made, its whole body was read and the status is a 2XX; otherwise it is
    nil, and the second is the text of the first error. *)
Theorem http_get_outcomes (u : gostring) (hs : headers) (Hhs : NoDup hs.*1) :
  luaHTTPGet [LString u; LTable (header_table hs)] =
    Ret (Values
      match NewRequest u, Do u hs with
      | Some err, _ | None, Failed err | None, Answered _ _ _ (Some err) =>
        [LNil; LString (error_message err)]
      | None, Answered code status body None =>
        if (200 <=? code) && (code <? 300) then [LString body; LNil]
        else [LNil; LString (str "request to '" ++ u ++ str "' status: " ++ status)]
      end).
Proof.
  unfold luaHTTPGet. change (getArgString [LString u; LTable (header_table hs)] 1 luaNameHTTPGetFn)
    with (Ret u : go gostring).
  change (arg [LString u; LTable (header_table hs)] 2) with (LTable (header_table hs)).
  cbn [mbind go_bind]. destruct (NewRequest u) as [err|]; [done|].
  rewrite (get_headers_ok hs [] _ Hhs) by
    (unfold header_table, string_table; rewrite !length_fmap; lia).
  cbn [mbind go_bind app]. unfold get_answer.
  destruct (Do u hs) as [err|code status body [err|]]; [done..|].
  destruct (Z.ltb_spec code 200), (Z.leb_spec 300 code), (Z.leb_spec 200 code), (Z.ltb_spec code 300);
    try lia; done.
Qed.
End get.

Lemma http_get_outcomes_witness :
  @luaHTTPGet ToyNumbers.toy_numbers (λ _, None) (λ _ hs, Answered 200 (str "200 OK") (default [] (snd <$> head hs)) None)
    [LString (str "http://h/"); LTable (header_table [(str "Accept", str "text/plain")])] =
  Ret (Values [LString (str "text/plain"); LNil]).
Proof.
  refine (@http_get_outcomes ToyNumbers.toy_numbers (λ _, None)
    (λ _ hs, Answered 200 (str "200 OK") (default [] (snd <$> head hs)) None)
    (str "http://h/") [(str "Accept", str "text/plain")] _).
  apply (bool_decide_unpack _). vm_compute. exact I.
Defined.
