(* ===== verification/Lifecycle.v ===== *)
(** * The life of a sandbox (lua/lua.go, lines 164-171, 343-350, 362-447; lua/kafka.go, lines 80-97)

    [Init] closes a sandbox that is in use, gives it fresh HTTP and Kafka
    configurations and loads the script; [Close] flushes and releases what the script
    has created: the Kafka producer, which the first [kafka_produce] makes, and the
    HTTP client.  The settings [tick] and [protected] belong to the sandbox and not to
    the script: they survive a reload.

    The producer is an interface.  [Flush] and [Close] wait until the HTTP client has done
    its: the client of HttpClient.v runs to the end of the call, with the events of
    a schedule, which says what its workers and the servers do meanwhile.  The ticker's goroutines
    are those of Ticker.v: here only the restarts are counted. *)

From Stdlib Require Import Floats.SpecFloat.
From stdpp Require Import gmap.
From S2P Require Import Prelude GoString Log Serialize LuaValue Builtins Kafka HttpClient SandboxConfig.
Open Scope Z_scope.

(** What the sandbox needs of a [*kafka.Producer]: [NewProducer], a send on its
    produce channel, and [Flush], which returns what is left after the timeout. *)
Class Producer (P : Type) := {
  NewProducer : ConfigMap → P + error;
  produce : Message → P → P;
  producer_Flush : Z → P → P * Z
}.

Section lifecycle.
Context `{LuaNumbers} {P : Type} `{Producer P}.

(** What happens while a call of the client waits. *)
Context (schedule : client → list HttpClient.event).

(** [loaded] is [l.state != nil], [httpErrors] is [l.httpErrors != nil]. *)
Record resources : Type := mkResources {
  box : sandbox;
  loaded : bool;
  kafka : option P;
  httpErrors : bool
}.

Definition with_box b r := mkResources b (loaded r) (kafka r) (httpErrors r).
Definition with_kafka k r := mkResources (box r) (loaded r) k (httpErrors r).

(** ** Kafka *)

(** [l.initKafka()]; the poller of the events is Kafka.v's. *)
Definition initKafka (r : resources) : option error * resources :=
  match NewProducer (kafkaConfig (box r)) with
  | inr err => (Some err, with_kafka None r)
  | inl p => (None, with_kafka (Some p) r)
  end.

(** [kafka_produce(msgptr)]; the send may have to wait, with the lock released. *)
Definition luaKafkaProduce (l : args) (r : resources) : go resources :=
  message ← getArgKafkaMessage l 1 luaNameKafkaProduceFn;
  let '(err, r) := match kafka r with Some _ => (None, r) | None => initKafka r end in
  match err, kafka r with
  | Some err, _ => Panic (UserPanic (str "error initializing kafka resources: " ++ error_message err))
  | None, None => Panic NilDereference
  | None, Some p => Ret (with_kafka (Some (produce message p)) r)
  end.

(** [l.flushKafka()]. *)
Definition flush_producer (p : P) (r : resources) : go resources :=
  timeout ← getFlushTimeout (kafkaConfig (box r));
  _ ← flushKafka (λ t, (producer_Flush t p).2) (kafkaConfig (box r));
  Ret (with_kafka (Some (producer_Flush timeout p).1) r).

(** ** HTTP *)

(** [http_post]: the first one makes the channel of the errors, even if it fails to
    make the client. *)
Definition http_post (bad_request : gostring → option error) (l : args) (r : resources) :
    go (builtin_result * resources) :=
  '(res, b) ← luaHTTPPost bad_request l (box r);
  let first := match http (box r) with None => true | Some _ => false end in
  Ret (res, mkResources b (loaded r) (kafka r) (httpErrors r || first)).

(** ** Flush and Close *)

(** The rest of a call of the client. *)
Definition wait (c : client) : go client :=
  if is_ready (caller c) then Ret c
  else match run c (schedule c) with
       | Some (Ret c') => if is_ready (caller c') then Ret c' else Panic OutOfFuel
       | Some (Panic e) => Panic e
       | None => Panic OutOfFuel
       end.

Definition Flush (r : resources) : go resources :=
  r ← match kafka r with Some p => flush_producer p r | None => Ret r end;
  match http (box r) with
  | Some c => c ← HttpClient.Flush c; c ← wait c; Ret (with_box (with_http (Some c) (box r)) r)
  | None => Ret r
  end.

Definition Close (r : resources) : go resources :=
  r ← match kafka r with
      | Some p => r ← flush_producer p r; Ret (with_kafka None r)
      | None => Ret r
      end;
  (* l.stopTicker() *)
  r ← match http (box r) with
      | Some c =>
        c ← HttpClient.Close c;
        _ ← wait c;
        if httpErrors r
        then Ret (mkResources (with_http None (box r)) (loaded r) (kafka r) false)
        else Panic CloseOfNilChannel
      | None => Ret r
      end;
  Ret (mkResources (box r) false (kafka r) (httpErrors r)).

(** ** Init *)

(** The configurations of a new script; [on_error] is not defined yet. *)
Definition fresh_box (m : ConfigMap) (b : sandbox) : sandbox :=
  mkSandbox (tick b) (protected b) false DefaultConfig (http b) m (restarts b).

Definition load_error (e : error) : error :=
  Err (str "there was an error when loading script: " ++ error_message e).

(** [l.Init(scriptPath)]; [getwd] is the error of [os.Getwd], for a relative path, and
    [script] what loading the script does to the sandbox. *)
Definition Init (getwd : option error) (script : resources → go (option error * resources))
    (r : resources) : go (option error * resources) :=
  r ← if loaded r then Close r else Ret r;
  m ← setSaneKafkaDefaults ∅;
  let r := mkResources (fresh_box m (box r)) true (kafka r) (httpErrors r) in
  match getwd with
  | Some err => Ret (Some err, r)
  | None =>
    '(err, r) ← script r;
    match err with
    | Some err => Ret (Some (load_error err), r)
    | None =>
      let '(err, b) := if protected (box r) then setProtected (protected (box r)) (box r)
                       else (None, box r) in
      let r := with_box b r in
      match err with
      | Some err => Ret (Some err, r)
      | None => Ret (None, with_box (mkSandbox (tick b) (protected b) (on_error_defined b)
                         (httpConfig b) (http b) (kafkaConfig b) (S (restarts b))) r)
      end
    end
  end.

(** [new(Sandbox)]; its configurations are nil until [Init]. *)
Definition zero_resources : resources :=
  mkResources (mkSandbox 0 false false DefaultConfig None ∅ 0) false None false.

(** [NewSandbox(scriptPath)]. *)
Definition NewSandbox (getwd : option error) (script : resources → go (option error * resources)) :
    go (option resources * option error) :=
  '(err, r) ← Init getwd script zero_resources;
  match err with Some e => Ret (None, Some e) | None => Ret (Some r, None) end.

(** ** Lemmas *)

Lemma flush_producer_frame p r r' :
  flush_producer p r = Ret r' → box r' = box r ∧ loaded r' = loaded r ∧ httpErrors r' = httpErrors r ∧
  is_Some (kafka r').
Proof.
  unfold flush_producer. intros Hf. apply go_bind_inv in Hf as (t & _ & Hf).
  apply go_bind_inv in Hf as (? & _ & Hf). injection Hf as <-. eauto.
Qed.

Lemma Close_result r r' :
  Close r = Ret r' →
  r' = mkResources (with_http None (box r)) false None
         (match http (box r) with Some _ => false | None => httpErrors r end).
Proof.
  unfold Close. intros Hc.
  apply go_bind_inv in Hc as (r1 & H1 & Hc). apply go_bind_inv in Hc as (r2 & H2 & Hc).
  injection Hc as <-.
  assert (box r1 = box r ∧ kafka r1 = None ∧ httpErrors r1 = httpErrors r) as (Hb & Hk & He).
  { destruct (kafka r) as [p|] eqn:Ek; [|by injection H1 as <-].
    apply go_bind_inv in H1 as (r3 & H3 & H1). injection H1 as <-.
    apply flush_producer_frame in H3 as (? & _ & ? & _). done. }
  rewrite Hb in H2. destruct (http (box r)) as [c|] eqn:Eh.
  - apply go_bind_inv in H2 as (c' & _ & H2). apply go_bind_inv in H2 as (c2 & _ & H2).
    destruct (httpErrors r1); [|done].
    injection H2 as <-. cbn. by rewrite Hk.
  - injection H2 as H2. subst r2. rewrite Hb, Hk, He. f_equal. destruct (box r). cbn in *. by subst.
Qed.

(** A client has a channel for its errors, so [Close] does not close a nil channel. *)
Definition errors_open (r : resources) : Prop := is_Some (http (box r)) → httpErrors r = true.

Lemma http_post_errors_open bad_request l r res r' :
  errors_open r → http_post bad_request l r = Ret (res, r') → errors_open r'.
Proof.
  intros Ho Hp. unfold http_post in Hp. apply go_bind_inv in Hp as ([res1 b] & _ & Hp).
  injection Hp as <- <-. intros _. cbn. destruct (http (box r)) as [c|] eqn:E.
  - by rewrite Ho by by rewrite E.
  - apply orb_true_r.
Qed.

(** After [Close] nothing is held any more: there is no producer, no HTTP client
    and no script, another [Close] does nothing and [Flush] neither; the tick and the
    mode stay as they were. *)
Theorem close_releases (r r' : resources) (Hclose : Close r = Ret r') :
  kafka r' = None ∧ http (box r') = None ∧ loaded r' = false ∧
  Close r' = Ret r' ∧ Flush r' = Ret r' ∧
  tick (box r') = tick (box r) ∧ protected (box r') = protected (box r).
Proof. by rewrite (Close_result r r' Hclose). Qed.

(** A call that stops the workers of an open client runs to its end. *)
Lemma stop_call c e k :
  adequate schedule → reach c → reqchan c ≠ None → allowed c e →
  step c e = Some (stop_workers 0 k c) → k = AfterFlush ∨ k = AfterClose →
  ∃ c1 c2, stop_workers 0 k c = Ret c1 ∧ wait c1 = Ret c2 ∧ reach c2 ∧ caller c2 = Ready.
Proof.
  intros Hsched Hreach Hopen Ha Hs Hk. pose proof (reach_inv c Hreach) as Hinv.
  destruct (step_inv_all c e _ Hinv Ha Hs) as (c1 & H1 & _). rewrite H1 in Hs.
  pose proof (reach_step c e c1 Hreach Ha Hs) as Hr1. exists c1. unfold wait.
  destruct (is_ready (caller c1)) eqn:E1; [exists c1; split_and!; try done; by destruct (caller c1)|].
  destruct Hinv as [_ [[ws Hl]|(? & _)]]; [|done].
  assert (holds_lua_lock (caller c1) = false) as Hlock.
  { destruct (stop_workers_outcome 0 k c ws c1 (live_workers _ _ Hl) (live_count _ _ Hl) H1)
      as [([i ->] & _)|(-> & _)]; [|done]. by destruct Hk as [-> | ->]. }
  destruct (Hsched c1 Hr1) as (c2 & Hint & Hrun & Hc2); [by intros E; rewrite E in E1|done|].
  exists c2. rewrite Hrun, Hc2. split_and!; try done. eapply run_reach; [exact Hr1| |exact Hrun].
  eapply Forall_impl; [exact Hint|]. by intros [].
Qed.

(** With a client of the program and any adequate schedule, [Close] and [Flush] come to an
    end: [Flush] leaves the client with its channels open, and [Close] drops it. *)
Theorem close_returns (r : resources) (c : client)
    (Hsched : adequate schedule) (Hkafka : kafka r = None) (Hhttp : http (box r) = Some c)
    (Herrors : errors_open r) (Hreach : reach c) (Hready : caller c = Ready) (Hopen : reqchan c ≠ None) :
  (∃ r', Close r = Ret r') ∧
  (∃ r' c', Flush r = Ret r' ∧ http (box r') = Some c' ∧ reach c' ∧ caller c' = Ready).
Proof.
  assert (allowed c EFlush ∧ allowed c EClose) as [Ha Ha'] by done.
  assert (step c EFlush = Some (HttpClient.Flush c) ∧ step c EClose = Some (HttpClient.Close c)) as [Hf Hc]
    by (cbn; unfold when_ready; by rewrite Hready).
  split.
  - destruct (stop_call c EClose AfterClose Hsched Hreach Hopen Ha' Hc) as (c1 & c2 & H1 & H2 & _);
      [by right|].
    unfold Close. rewrite Hkafka. cbn [mbind go_bind]. rewrite Hhttp.
    unfold HttpClient.Close. rewrite H1. cbn [mbind go_bind]. rewrite H2. cbn [mbind go_bind].
    rewrite Herrors by by rewrite Hhttp. eauto.
  - destruct (stop_call c EFlush AfterFlush Hsched Hreach Hopen Ha Hf) as (c1 & c2 & H1 & H2 & Hr & Hc2);
      [by left|].
    unfold Flush. rewrite Hkafka. cbn [mbind go_bind]. rewrite Hhttp.
    unfold HttpClient.Flush. rewrite H1. cbn [mbind go_bind]. rewrite H2. cbn [mbind go_bind].
    eexists _, c2. by split_and!.
Qed.

(** C37: A reload gives the script default HTTP and Kafka configurations, no producer
    and no client, whatever the one before did - but keeps its tick and its mode, so a
    script without [on_error] cannot be loaded after a protected one. *)
Theorem reload_keeps_mode (r r' : resources) (err : option error)
    (script : resources → go (option error * resources))
    (Hload : loaded r = true)
    (Hscript : ∀ x, script x = Ret (None, x))
    (Hinit : Init None script r = Ret (err, r')) :
  tick (box r') = tick (box r) ∧ protected (box r') = protected (box r) ∧
  httpConfig (box r') = DefaultConfig ∧ http (box r') = None ∧ kafka r' = None ∧
  (setSaneKafkaDefaults ∅ = Ret (kafkaConfig (box r'))) ∧
  err = if protected (box r) then Some missing_on_error else None.
Proof.
  unfold Init in Hinit. rewrite Hload in Hinit.
  apply go_bind_inv in Hinit as (r1 & Hclose & Hinit).
  apply go_bind_inv in Hinit as (m & Hm & Hinit).
  rewrite (Close_result r r1 Hclose) in Hinit. rewrite Hscript in Hinit.
  cbn in Hinit. unfold setProtected in Hinit. cbn in Hinit.
  destruct (protected (box r)) eqn:Ep; cbn in Hinit; injection Hinit as <- <-; cbn;
    rewrite ?Ep; by split_and!.
Qed.

(** The configuration of Kafka counts until the first [kafka_produce]: whatever the
    script sets afterwards, the next message goes to the same producer. *)
Theorem kafka_config_frozen (r r1 : resources) (p : P) (m1 m2 : Message)
    (Hkafka : kafka r = None) (Hnew : NewProducer (kafkaConfig (box r)) = inl p)
    (Hfirst : luaKafkaProduce [LUserData (UMessage m1)] r = Ret r1) :
  kafka r1 = Some (produce m1 p) ∧
  ∀ b', ∃ r2, luaKafkaProduce [LUserData (UMessage m2)] (with_box b' r1) = Ret r2 ∧
    kafka r2 = Some (produce m2 (produce m1 p)) ∧ box r2 = b'.
Proof.
  unfold luaKafkaProduce, getArgKafkaMessage in *. cbn in Hfirst.
  rewrite Hkafka in Hfirst. unfold initKafka in Hfirst. rewrite Hnew in Hfirst. cbn in Hfirst.
  injection Hfirst as <-. split; [done|]. intros b'. eexists. split; [reflexivity|done].
Qed.

(** [Close] loses no message silently: it ends when the producer says that nothing
    is left, and the failure to flush is a panic with the number of messages. *)
Theorem close_flushes_kafka (r : resources) (p : P) (t : Z)
    (Hkafka : kafka r = Some p) (Ht : getFlushTimeout (kafkaConfig (box r)) = Ret t) :
  (∀ r', Close r = Ret r' → (producer_Flush t p).2 <= 0) ∧
  (0 < (producer_Flush t p).2 →
   Close r = Panic (UserPanic (str "failed to flush " ++ itoa (producer_Flush t p).2 ++
                               str " kafka messages"))).
Proof.
  assert (0 < (producer_Flush t p).2 →
   Close r = Panic (UserPanic (str "failed to flush " ++ itoa (producer_Flush t p).2 ++
                               str " kafka messages"))) as Hfail.
  { intros Hp%Z.ltb_lt. unfold Close, flush_producer, flushKafka. rewrite Hkafka, Ht.
    cbn [mbind go_bind]. by rewrite Hp. }
  split; [|done]. intros r' Hc. destruct (Z.le_gt_cases (producer_Flush t p).2 0) as [?|Hp]; [done|].
  rewrite (Hfail Hp) in Hc. done.
Qed.
End lifecycle.

(** ** A producer that keeps its messages *)

Module ToyProducer.
Record toy : Type := mkToy { messages : list Message; delivered : nat }.

#[export] Instance toy_producer : Producer toy := {|
  NewProducer _ := inl (mkToy [] 0);
  produce m p := mkToy (messages p ++ [m]) (delivered p);
  producer_Flush _ p := (mkToy [] (delivered p + length (messages p)), 0)
|}.

(** A producer that cannot deliver. *)
Definition broken_producer : Producer toy := {|
  NewProducer _ := inl (mkToy [] 0);
  produce m p := mkToy (messages p ++ [m]) (delivered p);
  producer_Flush _ p := (p, len (messages p))
|}.
End ToyProducer.

Section witnesses.
Import ToyProducer.
#[local] Existing Instance ToyNumbers.toy_numbers.

Definition a_message : Message := mkMessage (str "t") (-1) 0 None (Some (str "v")).

Definition no_events (c : client) : list HttpClient.event := [].

(** A protected script that has produced a message. *)
Definition in_use : @resources toy :=
  mkResources (mkSandbox 100 true true DefaultConfig None ∅ 1) true (Some (mkToy [a_message] 0)) false.

Lemma close_runs : panics (Close no_events in_use) = false.
Proof. vm_compute. reflexivity. Qed.

Lemma close_releases_witness :
  ∃ r', Close no_events in_use = Ret r' ∧ kafka r' = None ∧ Close no_events r' = Ret r'.
Proof.
  pose proof close_runs as Hr. destruct (Close no_events in_use) as [r'|] eqn:E; [|discriminate Hr].
  destruct (close_releases no_events in_use r' E) as (Hk & _ & _ & Hc & _).
  exists r'. split; [reflexivity|]. split; [exact Hk|exact Hc].
Defined.

Definition empty_script (x : @resources toy) : go (option error * @resources toy) := Ret (None, x).

Lemma reload_runs : panics (Init no_events None empty_script in_use) = false.
Proof. vm_compute. reflexivity. Qed.

Lemma reload_keeps_mode_witness :
  ∃ r', Init no_events None empty_script in_use = Ret (Some missing_on_error, r') ∧ tick (box r') = 100.
Proof.
  pose proof reload_runs as Hr.
  destruct (Init no_events None empty_script in_use) as [[err r']|] eqn:E; [|discriminate Hr].
  destruct (reload_keeps_mode no_events in_use r' err empty_script) as (Ht & _ & _ & _ & _ & _ & ->);
    [reflexivity|reflexivity|exact E|].
  exists r'. split; [reflexivity|exact Ht].
Defined.

Lemma kafka_config_frozen_witness :
  ∃ r1, luaKafkaProduce [LUserData (UMessage a_message)]
          (mkResources fresh_sandbox true None false) = Ret r1 ∧
    kafka r1 = Some (mkToy [a_message] 0).
Proof.
  eexists. split; [reflexivity|].
  exact (proj1 (kafka_config_frozen (mkResources fresh_sandbox true None false) _ (mkToy [] 0)
    a_message a_message eq_refl eq_refl eq_refl)).
Defined.

Lemma close_flushes_kafka_witness :
  @Close toy broken_producer no_events in_use = Panic (UserPanic (str "failed to flush 1 kafka messages")).
Proof.
  refine (proj2 (@close_flushes_kafka toy broken_producer no_events in_use (mkToy [a_message] 0) 20000 _ _) _).
  - reflexivity.
  - vm_compute. reflexivity.
  - reflexivity.
Defined.
(** A sandbox whose client has a request in a channel when it is closed. *)
Definition posting : @resources toy :=
  mkResources (with_http (Some (after_run [EPost (req (str "u")) (-1) None])) fresh_sandbox) true None true.

Lemma close_returns_witness : ∃ r', Close (greedy refused) posting = Ret r'.
Proof.
  refine (proj1 (close_returns (greedy refused) posting (after_run [EPost (req (str "u")) (-1) None])
    (greedy_adequate refused) eq_refl eq_refl _ _ _ _)).
  - intros _. reflexivity.
  - apply small_reach; vm_compute; reflexivity.
  - vm_compute. reflexivity.
  - vm_compute. discriminate.
Defined.
End witnesses.
