(* ===== verification/Ticker.v ===== *)
(** * The goroutines of the sandbox (lua/lua.go, lines 80-100, 138-162, 219-304, 364-447;
    cmd/logd/main.go, lines 98-148, 233-261, 306-357)

    [on_tick] is called by a goroutine that waits for its timer and for a message on
    the sandbox's [quitticker] channel.  [config_set("tick", n)] replaces it: it
    starts a goroutine that stops the running ticker, if [quitticker] says there is
    one, and starts another.  [Init] does the same in the goroutine of the caller, and
    [Close] stops the ticker.  Nothing orders these restarts, and the fields
    [quitticker] and [state] are read and written without a lock, so the model is a
    transition system whose steps are the accesses to the fields and the channel and
    lock operations.

    The goroutines are: [main], which calls [Init] and, when the channel [exit] says that
    all is done, [Close]; the signal handler, which calls [on_signal] and reloads the
    script with [Init] when the signal is SIGUSR1; the pipeline, which calls [on_log] and sends
    on [exit] how it ends; the tickers, the restarts and the pollers of the HTTP errors and
    Kafka reports, which are started by the builtins that set up a client and call
    hooks the way the tickers do.  The hooks of the pipeline, the tickers and the pollers run
    with the sandbox's lock held, [luaLock], and release it while they wait in [http_post] or
    [kafka_produce]; on_signal does not take it, and releases it all the same.

    The process ends with a panic of any goroutine, or with [Exit]: when [os.Exit] is called, or
    some time after [main] has closed the sandbox.

    The timer may fire at any step, and a report may arrive, or a channel of reports be
    closed, whenever its poller waits: the other ends of these channels are the library
    and HttpClient.v.  A signal may arrive and a read may end whenever
    their goroutines wait for them.  The clock, what the Lua code does between two builtins, the
    pprof server, and the [Close] of the reader, which [main] calls before that of the
    sandbox, are not modelled. *)

From S2P Require Import Prelude LuaValue.
Open Scope Z_scope.

(** ** Goroutines *)

(** A goroutine in [stopTicker] or [restartTicker]: what it does next. *)
Inductive ctl : Type :=
  | Check_nil                       (* if l.quitticker == nil *)
  | Send                            (* read l.quitticker to send on it *)
  | Sending (c : option nat)        (* in the send; it blocks forever on a nil channel *)
  | CloseIt                         (* close(l.quitticker) *)
  | Clear                           (* l.quitticker = nil *)
  | Make                            (* runTicker: l.quitticker = make(chan struct{}) *)
  | Spawn                           (* go l.tick() *)
  | Finished.

(** A goroutine in [tick]. *)
Inductive ticker : Type :=
  | TNew                            (* time.NewTicker *)
  | TSelect                         (* read l.quitticker to select on it *)
  | TWait (c : option nat)          (* in the select *)
  | TLock                           (* the timer fired: l.luaLock.Lock() *)
  | THook                           (* in the hook *)
  | TReleased                       (* in a builtin that has released the lock *)
  | TDone.

(** The signals that are handled. *)
Inductive signal : Type := Usr1 | Usr2.

(** [main] or the signal handler, the goroutines that call [Init] and [Close]. *)
Inductive host : Type := Main | Handler.

Inductive host_pc : Type :=
  | HNone                             (* not started *)
  | HIdle                             (* main waits on exit; the handler waits for a signal *)
  | HClosing (c : ctl) (init : bool)  (* in Close, which Init may have called *)
  | HLock                             (* Init: l.luaLock.Lock() *)
  | HLoading                          (* Init: the script is loaded *)
  | HReleased                         (* and waits in a builtin *)
  | HStarting (c : ctl)               (* Init: l.restartTicker() *)
  | HReceived (sig : signal)          (* the handler: l.SignalHandlerDefined() *)
  | HSignal (sig : signal)            (* in on_signal *)
  | HSignalReleased (sig : signal)    (* and waits in a builtin *)
  | HHandle (sig : signal)            (* handleSignal *)
  | HEnded.

(** The goroutine of the pipeline, which calls [on_log]. *)
Inductive pipe_pc : Type :=
  | PNone                             (* not started *)
  | PIdle                             (* reads, or is about to call the hook *)
  | PHook
  | PReleased
  | PSending (failed : bool)          (* exit <- err, or exit <- nil *)
  | PDone.

(** How [on_log] ends: the call returns nil or an error, or the Lua code raises an error,
    which is a panic when the mode is not protected. *)
Inductive hook_end : Type := Returns | Fails | Raises (m : gostring).

(** A goroutine in [pollHTTPErrors] or [pollKafkaEvents]. *)
Inductive poller : Type :=
  | PollReceive                       (* waits for a report *)
  | PollLock                          (* has one: l.luaLock.Lock() *)
  | PollHook                          (* in on_http_error or on_kafka_report *)
  | PollReleased                      (* in a builtin that has released the lock *)
  | PollDone.                         (* the channel was closed *)

#[global] Instance ctl_eq_dec : EqDecision ctl.
Proof. solve_decision. Defined.
#[global] Instance ticker_eq_dec : EqDecision ticker.
Proof. solve_decision. Defined.
#[global] Instance poller_eq_dec : EqDecision poller.
Proof. solve_decision. Defined.

(** ** The sandbox *)

(** A channel is its index in [chans], which says whether it is closed; none has a
    buffer.  [loaded] is [l.state != nil]. *)
Record state : Type := mkState {
  tick : Z;
  quitticker : option nat;
  chans : list bool;
  lock : bool;
  loaded : bool;
  main : host_pc;
  handler : host_pc;
  pipe : pipe_pc;
  restarts : list ctl;
  tickers : list ticker;
  pollers : list poller
}.

Definition new_state : state := mkState 0 None [] false false HNone HNone PNone [] [] [].

Definition with_quit q s := mkState (tick s) q (chans s) (lock s) (loaded s) (main s) (handler s) (pipe s) (restarts s) (tickers s) (pollers s).
Definition with_chans q cs s := mkState (tick s) q cs (lock s) (loaded s) (main s) (handler s) (pipe s) (restarts s) (tickers s) (pollers s).
Definition with_tickers ts s := mkState (tick s) (quitticker s) (chans s) (lock s) (loaded s) (main s) (handler s) (pipe s) (restarts s) ts (pollers s).
Definition with_restarts rs s := mkState (tick s) (quitticker s) (chans s) (lock s) (loaded s) (main s) (handler s) (pipe s) rs (tickers s) (pollers s).
Definition with_pipe p lk s := mkState (tick s) (quitticker s) (chans s) lk (loaded s) (main s) (handler s) p (restarts s) (tickers s) (pollers s).
Definition with_pollers ps s := mkState (tick s) (quitticker s) (chans s) (lock s) (loaded s) (main s) (handler s) (pipe s) (restarts s) (tickers s) ps.
Definition with_lock lk s := mkState (tick s) (quitticker s) (chans s) lk (loaded s) (main s) (handler s) (pipe s) (restarts s) (tickers s) (pollers s).

(** [main] or the handler goes on, with the lock and the script as given. *)
Definition with_host (h : host) pc lk ld s :=
  match h with
  | Main => mkState (tick s) (quitticker s) (chans s) lk ld pc (handler s) (pipe s) (restarts s) (tickers s) (pollers s)
  | Handler => mkState (tick s) (quitticker s) (chans s) lk ld (main s) pc (pipe s) (restarts s) (tickers s) (pollers s)
  end.

Definition host_at (h : host) (s : state) : host_pc := match h with Main => main s | Handler => handler s end.

Definition is_closed (c : nat) (s : state) : bool := default false (chans s !! c).

(** [time.Duration(l.cfg.tick * 1000 * 1000)] *)
Definition interval (tick : Z) : Z := int64 (int64 (tick * 1000) * 1000).

(** [l.setTick(tick)] *)
Definition setTick (t : Z) (s : state) : state :=
  mkState t (quitticker s) (chans s) (lock s) (loaded s) (main s) (handler s) (pipe s) (restarts s ++ [Check_nil]) (tickers s) (pollers s).

(** ** Stopping and starting *)

(** [restartTicker] goes on with [runTicker]; [Close] is done. *)
Definition stopped (restart : bool) : ctl := if restart then Make else Finished.

(** [l.stopTicker()]: one access at a time; [None] when the goroutine is blocked. *)
Definition stopTicker (restart : bool) (pc : ctl) (s : state) : option (go (ctl * state)) :=
  match pc with
  | Check_nil =>
    Some (Ret (match quitticker s with None => stopped restart | Some _ => Send end, s))
  | Send => Some (Ret (Sending (quitticker s), s))
  | Sending (Some c) => if is_closed c s then Some (Panic SendOnClosedChannel) else None
  | CloseIt =>
    Some (match quitticker s with
          | None => Panic CloseOfNilChannel
          | Some c =>
            if is_closed c s then Panic CloseOfClosedChannel
            else Ret (Clear, with_chans (quitticker s) (<[c := true]> (chans s)) s)
          end)
  | Clear => Some (Ret (stopped restart, with_quit None s))
  | _ => None
  end.

(** [l.runTicker()] *)
Definition runTicker (pc : ctl) (s : state) : option (go (ctl * state)) :=
  match pc with
  | Make => Some (Ret (Spawn, with_chans (Some (length (chans s))) (chans s ++ [false]) s))
  | Spawn => Some (Ret (Finished, with_tickers (tickers s ++ [TNew]) s))
  | _ => None
  end.

(** [l.restartTicker()], or [l.stopTicker()] alone. *)
Definition restartTicker (restart : bool) (pc : ctl) (s : state) : option (go (ctl * state)) :=
  match pc with
  | Make | Spawn => runTicker pc s
  | _ => stopTicker restart pc s
  end.

(** ** Which goroutine *)

Inductive who : Type := WHost (h : host) | WGo (j : nat).

#[global] Instance host_eq_dec : EqDecision host.
Proof. solve_decision. Defined.
#[global] Instance who_eq_dec : EqDecision who.
Proof. solve_decision. Defined.

(** Where a host is in a restart, or in [stopTicker] alone. *)
Definition host_ctl (pc : host_pc) : option (bool * ctl) :=
  match pc with
  | HClosing c _ => Some (false, c)
  | HStarting c => Some (true, c)
  | _ => None
  end.

(** Whether the goroutine restarts the ticker, and where it is. *)
Definition controller (w : who) (s : state) : option (bool * ctl) :=
  match w with
  | WHost h => host_ctl (host_at h s)
  | WGo j => pc ← restarts s !! j; Some (true, pc)
  end.

(** The goroutine goes on at [pc]; [Close] and [Init] return when it is done. After its
    [Close], [main] is about to return; [Init] goes on after the one it called. *)
Definition goes_on (w : who) (pc : ctl) (s : state) : state :=
  match w with
  | WHost h =>
    match host_at h s, pc with
    | HClosing _ init, Finished => with_host h (if init then HLock else HEnded) (lock s) false s
    | HClosing _ init, _ => with_host h (HClosing pc init) (lock s) (loaded s) s
    | HStarting _, Finished => with_host h HIdle false (loaded s) s
    | HStarting _, _ => with_host h (HStarting pc) (lock s) (loaded s) s
    | _, _ => s
    end
  | WGo j => with_restarts (<[j := pc]> (restarts s)) s
  end.

Definition set_ticker (i : nat) (t : ticker) (s : state) : state :=
  with_tickers (<[i := t]> (tickers s)) s.

Definition set_poller (i : nat) (p : poller) (s : state) : state :=
  with_pollers (<[i := p]> (pollers s)) s.

(** ** The transition system *)

(** The goroutines that run Lua code. *)
Inductive caller : Type := ByHost (h : host) | ByPipe | ByTicker (i : nat) | ByPoller (i : nat).

#[global] Instance caller_eq_dec : EqDecision caller.
Proof. solve_decision. Defined.

Inductive event : Type :=
  (* the goroutines that stop and start tickers *)
  | ECtl (w : who)
  | EQuit (w : who) (i : nat)
  (* the tickers *)
  | EStart (i : nat)
  | ESelect (i : nat)
  | EFire (i : nat)
  | EDrained (i : nat)
  | ELock (i : nat)
  | EHook (i : nat) (err : option gostring)
  (* the Lua code of a goroutine calls config_set("tick", t) *)
  | ESetTick (g : caller) (t : Z)
  (* and http_post or kafka_produce, which release the lock and take it again *)
  | ERelease (g : caller)
  | EReacquire (g : caller)
  (* main creates the sandbox, and starts the other goroutines *)
  | EInit
  | EPipeline (reader : bool)
  | EHandler
  (* Init, in main or in the handler *)
  | EInitLock (h : host)
  | ELoaded (h : host) (err : option gostring)
  (* the signal handler *)
  | ESignal (sig : signal)
  | EDefined (hook : bool)
  | ESignalEnd (err : option gostring)
  | EHandle
  | EProfile (failed : bool)
  | EHandlerEnd
  (* the pipeline *)
  | EHookCall
  | EHookEnd (r : hook_end)
  | EReadEnd (failed : bool)
  (* main receives from exit, and returns *)
  | EExit
  | EReturn
  (* the Lua code of a goroutine makes http_post or kafka_produce start a poller *)
  | EPoll (g : caller)
  (* the pollers *)
  | EReport (i : nat)
  | EPollLock (i : nat)
  | EPollHook (i : nat) (err : option gostring)
  | EPollEnd (i : nat).

Definition ticker_step (i : nat) (s : state) (f : ticker → option (go state)) : option (go state) :=
  t ← tickers s !! i; f t.

Definition poller_step (i : nat) (s : state) (f : poller → option (go state)) : option (go state) :=
  p ← pollers s !! i; f p.

(** The goroutine runs Lua code. *)
Definition in_script (g : caller) (s : state) : bool :=
  match g with
  | ByHost h => match host_at h s with HLoading | HSignal _ => true | _ => false end
  | ByPipe => match pipe s with PHook => true | _ => false end
  | ByTicker i => bool_decide (tickers s !! i = Some THook)
  | ByPoller i => bool_decide (pollers s !! i = Some PollHook)
  end.

(** [sandbox.luaLock.Unlock()] in a builtin, whoever holds the lock. *)
Definition release (g : caller) (s : state) : go state :=
  if lock s then
    Ret match g with
        | ByHost h =>
          with_host h (match host_at h s with HSignal sig => HSignalReleased sig | _ => HReleased end)
            false (loaded s) s
        | ByPipe => with_pipe PReleased false s
        | ByTicker i => with_lock false (set_ticker i TReleased s)
        | ByPoller i => with_lock false (set_poller i PollReleased s)
        end
  else Panic UnlockOfUnlockedMutex.

(** [sandbox.luaLock.Lock()] when the builtin returns. *)
Definition reacquire (g : caller) (s : state) : option (go state) :=
  if lock s then None else
  match g with
  | ByHost h =>
    match host_at h s with
    | HReleased => Some (Ret (with_host h HLoading true (loaded s) s))
    | HSignalReleased sig => Some (Ret (with_host h (HSignal sig) true (loaded s) s))
    | _ => None
    end
  | ByPipe => match pipe s with PReleased => Some (Ret (with_pipe PHook true s)) | _ => None end
  | ByTicker i =>
    match tickers s !! i with
    | Some TReleased => Some (Ret (with_lock true (set_ticker i THook s)))
    | _ => None
    end
  | ByPoller i =>
    match pollers s !! i with
    | Some PollReleased => Some (Ret (with_lock true (set_poller i PollHook s)))
    | _ => None
    end
  end.

(** [l.Init(script)]: an initialized sandbox is closed first. *)
Definition Init (h : host) (s : state) : state :=
  with_host h (if loaded s then HClosing Check_nil true else HLock) (lock s) (loaded s) s.

(** [exit <- err] with an [err] that is not nil: [main] receives it and exits. [main] closes
    the channel when it stops waiting. *)
Definition exit_error (s : state) : option (go state) :=
  match main s with
  | HIdle => Some (Panic (Exit 1))
  | HClosing _ false | HEnded => Some (Panic SendOnClosedChannel)
  | _ => None
  end.

(** What [main] does: it starts the pipeline, which needs a reader, and then the
    handler, and waits for what the pipeline sends. *)
Definition main_step (s : state) (e : event) : option (go state) :=
  match e, main s with
  | EInit, HNone => Some (Ret (Init Main s))
  | EPipeline reader, HIdle =>
    match pipe s with
    | PNone => Some (if reader : bool then Ret (with_pipe PIdle (lock s) s) else Panic (Exit 1))
    | _ => None
    end
  | EHandler, HIdle =>
    match pipe s, handler s with
    | PNone, _ => None
    | _, HNone => Some (Ret (with_host Handler HIdle (lock s) (loaded s) s))
    | _, _ => None
    end
  | EExit, HIdle =>
    match handler s, pipe s with
    | HNone, _ => None
    | _, PSending true => Some (Panic (Exit 1))
    | _, PSending false =>
      Some (Ret (with_host Main (HClosing Check_nil false) (lock s) (loaded s) (with_pipe PDone (lock s) s)))
    | _, _ => None
    end
  | EReturn, HEnded => Some (Panic (Exit 0))
  | _, _ => None
  end.

(** What [sigHandler] does. A signal that arrives while the handler is busy is dropped;
    [main] closes the channel of the signals when it stops waiting. *)
Definition handler_step (s : state) (e : event) : option (go state) :=
  let goes pc := Ret (with_host Handler pc (lock s) (loaded s) s) in
  match e, handler s with
  | ESignal sig, pc =>
    match main s, pc with
    | HIdle, HIdle => Some (goes (HReceived sig))
    | (HClosing _ false | HEnded), _ => Some (Panic SendOnClosedChannel)
    | _, _ => None
    end
  | EDefined hook, HReceived sig =>
    Some (if loaded s then goes (if hook : bool then HSignal sig else HHandle sig) else Panic NilDereference)
  | ESignalEnd err, HSignal sig =>
    Some (match err with None => goes (HHandle sig) | Some m => Panic (UserPanic m) end)
  | EHandle, HHandle Usr1 => Some (Ret (Init Handler s))
  | EProfile failed, HHandle Usr2 => if failed : bool then exit_error s else Some (goes HIdle)
  | EHandlerEnd, HIdle =>
    match main s with HClosing _ false | HEnded => Some (goes HEnded) | _ => None end
  | _, _ => None
  end.

(** The rest of [Init]: a script that cannot be loaded ends the process. *)
Definition init_step (h : host) (s : state) (e : event) : option (go state) :=
  match e, host_at h s with
  | EInitLock _, HLock => if lock s then None else Some (Ret (with_host h HLoading true true s))
  | ELoaded _ err, HLoading =>
    Some (match err, h with
          | None, _ => Ret (with_host h (HStarting Check_nil) (lock s) (loaded s) s)
          | Some _, Main => Panic (Exit 1)
          | Some m, Handler => Panic (UserPanic m)
          end)
  | _, _ => None
  end.

(** What [runPipeline] does: it calls the hook for every log it has read, and ends with
    the error of the hook or of the reader. *)
Definition pipe_step (s : state) (e : event) : option (go state) :=
  match e, pipe s with
  | EHookCall, PIdle =>
    if lock s then None
    else Some (if loaded s then Ret (with_pipe PHook true s) else Panic NilDereference)
  | EHookEnd r, PHook =>
    Some (match r with
          | Returns => Ret (with_pipe PIdle false s)
          | Fails => Ret (with_pipe (PSending true) false s)
          | Raises m => Panic (UserPanic m)
          end)
  | EReadEnd failed, PIdle => Some (Ret (with_pipe (PSending failed) (lock s) s))
  | _, _ => None
  end.

(** [l.tick()]: a message or a closed channel ends it, the timer calls the hook; an
    error of the hook is a panic. *)
Definition step (s : state) (e : event) : option (go state) :=
  match e with
  | ECtl w =>
    '(restart, pc) ← controller w s;
    r ← restartTicker restart pc s;
    Some ('(pc', s') ← r; Ret (goes_on w pc' s'))
  | EQuit w i =>
    '(restart, pc) ← controller w s;
    t ← tickers s !! i;
    match pc, t with
    | Sending (Some c), TWait (Some d) =>
      if bool_decide (c = d) && negb (is_closed c s)
      then Some (Ret (goes_on w CloseIt (set_ticker i TDone s)))
      else None
    | _, _ => None
    end
  | EStart i => ticker_step i s (λ t, match t with
    | TNew =>
      Some (if interval (tick s) <=? 0 then Panic NonPositiveTicker
            else Ret (set_ticker i TSelect s))
    | _ => None end)
  | ESelect i => ticker_step i s (λ t, match t with
    | TSelect => Some (Ret (set_ticker i (TWait (quitticker s)) s))
    | _ => None end)
  | EFire i => ticker_step i s (λ t, match t with
    | TWait _ => Some (Ret (set_ticker i TLock s))
    | _ => None end)
  | EDrained i => ticker_step i s (λ t, match t with
    | TWait (Some c) => if is_closed c s then Some (Ret (set_ticker i TDone s)) else None
    | _ => None end)
  | ELock i => ticker_step i s (λ t, match t with
    | TLock =>
      if lock s then None
      else Some (if loaded s then Ret (with_lock true (set_ticker i THook s)) else Panic NilDereference)
    | _ => None end)
  | EHook i err => ticker_step i s (λ t, match t with
    | THook => Some (match err with
               | None => Ret (with_lock false (set_ticker i TSelect s))
               | Some m => Panic (UserPanic m)
               end)
    | _ => None end)
  | ESetTick g t => if in_script g s then Some (Ret (setTick t s)) else None
  | ERelease g => if in_script g s then Some (release g s) else None
  | EReacquire g => reacquire g s
  | EInit | EPipeline _ | EHandler | EExit | EReturn => main_step s e
  | EInitLock h | ELoaded h _ => init_step h s e
  | ESignal _ | EDefined _ | ESignalEnd _ | EHandle | EProfile _ | EHandlerEnd => handler_step s e
  | EHookCall | EHookEnd _ | EReadEnd _ => pipe_step s e
  | EPoll g =>
    if in_script g s then Some (Ret (with_pollers (pollers s ++ [PollReceive]) s)) else None
  | EReport i => poller_step i s (λ p, match p with
    | PollReceive => Some (Ret (set_poller i PollLock s))
    | _ => None end)
  | EPollLock i => poller_step i s (λ p, match p with
    | PollLock =>
      if lock s then None
      else Some (if loaded s then Ret (with_lock true (set_poller i PollHook s)) else Panic NilDereference)
    | _ => None end)
  | EPollHook i err => poller_step i s (λ p, match p with
    | PollHook => Some (match err with
               | None => Ret (with_lock false (set_poller i PollReceive s))
               | Some m => Panic (UserPanic m)
               end)
    | _ => None end)
  | EPollEnd i => poller_step i s (λ p, match p with
    | PollReceive => Some (Ret (set_poller i PollDone s))
    | _ => None end)
  end.

(** A schedule: [None] when one of its events cannot happen. *)
Fixpoint run (s : state) (es : list event) : option (go state) :=
  match es with
  | [] => Some (Ret s)
  | e :: es' =>
    match step s e with
    | Some (Ret s') => run s' es'
    | Some (Panic p) => match es' with [] => Some (Panic p) | _ => None end
    | None => None
    end
  end.

(** The states some schedule leads to. *)
Inductive steps (ok : state → event → Prop) : state → state → Prop :=
  | steps_nil s : steps ok s s
  | steps_cons s1 s2 e s3 :
      steps ok s1 s2 → ok s2 e → step s2 e = Some (Ret s3) → steps ok s1 s3.

Definition any_event (s : state) (e : event) : Prop := True.

(** ** Lists of goroutines *)

Section filters.
Context {A : Type} (P : A → bool).

Lemma filter_replace (l : list A) i x :
  l !! i = Some x → ∃ l1 l2, List.filter P l = List.filter P l1 ++ List.filter P [x] ++ List.filter P l2 ∧
    ∀ y, List.filter P (<[i := y]> l) = List.filter P l1 ++ List.filter P [y] ++ List.filter P l2.
Proof.
  intros Hi. destruct (list_elem_of_split_length l i x Hi) as (l1 & l2 & -> & ->).
  exists l1, l2. rewrite <- !List.filter_app. split; [done|]. intros y.
  by rewrite list.insert_app_r_alt, Nat.sub_diag, <- !List.filter_app by done.
Qed.

(** Replacing the only goroutine of interest. *)
Lemma filter_sole (l : list A) i x z :
  List.filter P l = [z] → l !! i = Some x → P x = true →
  z = x ∧ ∀ y, List.filter P (<[i := y]> l) = List.filter P [y].
Proof.
  intros Hl Hi Hx. destruct (filter_replace l i x Hi) as (l1 & l2 & Hf & Hr).
  rewrite Hl in Hf. cbn in Hf. rewrite Hx in Hf.
  destruct (List.filter P l1) as [|? [|]] eqn:E1; cbn in Hf; [|discriminate..].
  injection Hf as -> E2. symmetry in E2. split; [done|].
  intros y. by rewrite Hr, E2, app_nil_r.
Qed.

Lemma filter_nil_lookup (l : list A) i x : List.filter P l = [] → l !! i = Some x → P x = false.
Proof.
  intros Hl Hi. destruct (filter_replace l i x Hi) as (l1 & l2 & Hf & _).
  rewrite Hl in Hf. cbn in Hf. destruct (P x); [|done].
  by destruct (List.filter P l1).
Qed.

Lemma filter_nil_insert (l : list A) i y :
  List.filter P l = [] → (i < length l)%nat → List.filter P (<[i := y]> l) = List.filter P [y].
Proof.
  intros Hl [x Hi]%lookup_lt_is_Some_2. destruct (filter_replace l i x Hi) as (l1 & l2 & Hf & Hr).
  rewrite Hl in Hf. rewrite Hr.
  destruct (List.filter P l1), (List.filter P [x]), (List.filter P l2); try discriminate Hf.
  by rewrite app_nil_r.
Qed.
End filters.

(** ** What a state says of the ticker *)

Definition runs (pc : ctl) : bool := match pc with Finished => false | _ => true end.
Definition live (t : ticker) : bool := match t with TDone => false | _ => true end.

Definition host_runs (h : host) (s : state) : ctl :=
  match host_at h s with HClosing pc _ | HStarting pc => pc | _ => Finished end.

(** The goroutines that are stopping or starting a ticker, and the tickers. *)
Definition controllers (s : state) : list ctl := List.filter runs (host_runs Main s :: host_runs Handler s :: restarts s).
Definition live_tickers (s : state) : list ticker := List.filter live (tickers s).

(** The ticker receives from channel [c], now or at its next select. *)
Definition listens (c : nat) (t : ticker) : bool :=
  match t with TWait d => bool_decide (d = Some c) | TDone => false | _ => true end.

Definition ticking_on (c : nat) (s : state) : Prop :=
  quitticker s = Some c ∧ chans s !! c = Some false ∧
  ∃ t, live_tickers s = [t] ∧ listens c t = true.

Definition stopped_on (c : nat) (s : state) : Prop :=
  quitticker s = Some c ∧ chans s !! c = Some false ∧ live_tickers s = [].

Definition at_rest (s : state) : Prop :=
  quitticker s = None ∧ live_tickers s = [] ∨ ∃ c, ticking_on c s.

(** [goes_on] only moves the controllers and the hosts. *)
Lemma goes_on_tickers w pc s : tickers (goes_on w pc s) = tickers s.
Proof. unfold goes_on. destruct w as [[]|]; [destruct (host_at Main s), pc|destruct (host_at Handler s), pc|]; done. Qed.
Lemma goes_on_quit w pc s : quitticker (goes_on w pc s) = quitticker s.
Proof. unfold goes_on. destruct w as [[]|]; [destruct (host_at Main s), pc|destruct (host_at Handler s), pc|]; done. Qed.
Lemma goes_on_chans w pc s : chans (goes_on w pc s) = chans s.
Proof. unfold goes_on. destruct w as [[]|]; [destruct (host_at Main s), pc|destruct (host_at Handler s), pc|]; done. Qed.

(** The cases of a step of ticker [i], at [t]. *)
Ltac ticker_cases Hstep Hi t :=
  unfold ticker_step in Hstep;
  match type of Hstep with
  | ((tickers ?s !! ?i) ≫= _) = _ => destruct (tickers s !! i) as [t|] eqn:Hi; [|discriminate Hstep]
  end;
  cbn in Hstep; destruct t; try discriminate Hstep.

Ltac poller_cases Hstep Hi p :=
  unfold poller_step in Hstep;
  match type of Hstep with
  | ((pollers ?s !! ?i) ≫= _) = _ => destruct (pollers s !! i) as [p|] eqn:Hi; [|discriminate Hstep]
  end;
  cbn in Hstep; destruct p; try discriminate Hstep.

(** ** The interval *)

(** C27: [time.NewTicker] gets the configured number of milliseconds for every value
    from 1 to 9223372036854, and panics for the values outside of it that the
    conversion to nanoseconds leaves or makes negative: zero, which is the default,
    the small negative ones, and the ones just above the maximum. *)
Theorem ticker_interval t :
  (1 <= t <= 9223372036854 → interval t = t * 1000000 ∧ 0 < interval t) ∧
  (- 9223372036854 <= t <= 0 ∨ 9223372036855 <= t <= 18446744073709 → interval t <= 0) ∧
  (∀ s i, tickers s !! i = Some TNew → tick s = t →
    step s (EStart i) =
    Some (if interval t <=? 0 then Panic NonPositiveTicker else Ret (set_ticker i TSelect s))).
Proof.
  rewrite (and_assoc (_ → _)). split; [|intros s i Hi <-; cbn [step]; unfold ticker_step; by rewrite Hi].
  unfold interval, int64, wrap.
  change (2 ^ (64 - 1)) with 9223372036854775808. change (2 ^ 64) with 18446744073709551616.
  rewrite (Z.mul_comm (_ - _) 1000). split.
  - intros Ht. rewrite (Z.mod_small (t * 1000 + _)) by lia. rewrite Z.mod_small by lia. lia.
  - intros [Ht|Ht].
    + rewrite (Z.mod_small (t * 1000 + _)) by lia. rewrite Z.mod_small by lia. lia.
    + rewrite (Z.mod_small (t * 1000 + _)) by lia.
      replace (1000 * (t * 1000 + 9223372036854775808 - 9223372036854775808) + 9223372036854775808)
        with (t * 1000000 - 9223372036854775808 + 1 * 18446744073709551616) by lia.
      rewrite Z.mod_add by lia. rewrite Z.mod_small by lia. lia.
Qed.

(** ** Schedules, step by step *)

Lemma insert_middle {A} (l1 l2 : list A) x y : <[length l1 := y]> (l1 ++ x :: l2) = l1 ++ y :: l2.
Proof. by rewrite list.insert_app_r_alt, Nat.sub_diag by done. Qed.

Lemma lookup_middle {A} (l1 l2 : list A) x : (l1 ++ x :: l2) !! length l1 = Some x.
Proof. by apply list_lookup_middle. Qed.

(** Two goroutines at the end of the list. *)
Lemma snoc_snoc {A} (l : list A) x y : (l ++ [x]) ++ [y] = l ++ [x; y].
Proof. by rewrite <- app_assoc. Qed.

Lemma lookup_second {A} (l : list A) x y : (l ++ [x; y]) !! S (length l) = Some y.
Proof.
  rewrite lookup_app_r by lia. by replace (S (length l) - length l)%nat with 1%nat by lia.
Qed.

Lemma insert_second {A} (l : list A) x y z : <[S (length l) := z]> (l ++ [x; y]) = l ++ [x; z].
Proof.
  rewrite list.insert_app_r_alt by lia. by replace (S (length l) - length l)%nat with 1%nat by lia.
Qed.

Create Rewrite HintDb middle.
#[export] Hint Rewrite @insert_middle @lookup_middle @snoc_snoc @lookup_second @insert_second : middle.

Lemma run_step s e es s1 r : step s e = Some (Ret s1) → run s1 es = r → run s (e :: es) = r.
Proof. cbn [run]. by intros ->. Qed.

Ltac simpl_state :=
  cbv beta iota zeta delta [step controller mbind option_bind go_bind restartTicker stopTicker runTicker stopped
       main_step handler_step init_step pipe_step exit_error goes_on host_at host_ctl
       tick quitticker chans lock loaded main handler pipe restarts tickers pollers
       with_quit with_chans with_tickers with_pollers set_poller poller_step with_restarts with_host with_lock
       with_pipe set_ticker setTick in_script release reacquire Init andb negb from_option id].

(** Evaluate the next step of a schedule. *)
Ltac do_step :=
  eapply run_step;
  [repeat (progress (unfold ticker_step, is_closed; simpl_state; autorewrite with middle;
                     rewrite ?bool_decide_true by done;
                     repeat match goal with H : ?cs !! ?c = Some false |- _ => rewrite H end));
   reflexivity|];
  repeat (progress (simpl_state; autorewrite with middle)).

(** The ticker starts: [H] says that its interval is positive. *)
Ltac do_start H :=
  eapply run_step;
  [cbn [step]; unfold ticker_step; simpl_state; autorewrite with middle;
   cbn [lookup list_lookup mbind option_bind]; rewrite ?H; reflexivity|];
  repeat (progress (simpl_state; autorewrite with middle)).

(** The script of the README: it sets the tick to 100 ms when it is loaded; the restart
    ends before the script does, and [Init] restarts the ticker once more. *)
Definition readme_load (t : Z) : list event :=
  [EInit; EInitLock Main; ESetTick (ByHost Main) t; ECtl (WGo 0); ECtl (WGo 0); ECtl (WGo 0);
   EStart 0; ESelect 0; ELoaded Main None; ECtl (WHost Main); ECtl (WHost Main); EQuit (WHost Main) 0;
   ECtl (WHost Main); ECtl (WHost Main); ECtl (WHost Main); ECtl (WHost Main); EPipeline true; EHandler;
   EStart 1; ESelect 1; EFire 1; ELock 1].

(** The state it leads to: the pipeline and the handler wait, and the hook of the second
    ticker runs. *)
Definition readme_hook : state :=
  mkState 100 (Some 1%nat) [true; false] true true HIdle HIdle PIdle [Finished] [TDone; THook] [].

Lemma readme_runs : run new_state (readme_load 100) = Some (Ret readme_hook).
Proof. vm_compute. reflexivity. Qed.

(** Every event of a schedule is allowed. *)
Fixpoint run_ok (ok : state → event → bool) (s : state) (es : list event) : bool :=
  match es with
  | [] => true
  | e :: es' => ok s e && match step s e with Some (Ret s') => run_ok ok s' es' | _ => true end
  end.

Lemma run_steps (ok : state → event → Prop) okb s0 es : ∀ s s',
  steps ok s0 s → (∀ s e, okb s e = true → ok s e) →
  run s es = Some (Ret s') → run_ok okb s es = true → steps ok s0 s'.
Proof.
  induction es as [|e es IH]; intros s s' Hs Hok Hr Hb; [by injection Hr as <-|].
  cbn in *. apply andb_true_iff in Hb as [Hb1 Hb2].
  destruct (step s e) as [[s1|]|] eqn:E; [|by destruct es|done].
  apply (IH s1); [|done..]. apply (steps_cons _ _ s e); auto.
Qed.

Lemma ticker_interval_witness : interval 100 = 100000000 ∧ interval 0 <= 0.
Proof.
  split.
  - apply (proj1 (ticker_interval 100)). lia.
  - apply (proj1 (proj2 (ticker_interval 0))). left. lia.
Defined.
