(* ===== verification/Restarts.v ===== *)
(** * Restarts of the ticker

    The theorems on [stopTicker], [runTicker] and [restartTicker] in the goroutines of
    Ticker.v: what holds as long as the restarts do not overlap, what a restart does,
    and what overlapping restarts can do. *)

From S2P Require Import Prelude Ticker.
Open Scope Z_scope.

(** ** One restart at a time *)

(** What holds while at most one goroutine restarts the ticker. *)
Definition serial_inv (s : state) : Prop :=
  match controllers s with
  | [] | [Check_nil] => at_rest s
  | [Send] => ∃ c, ticking_on c s
  | [Sending (Some c)] => ticking_on c s
  | [CloseIt] | [Spawn] => ∃ c, stopped_on c s
  | [Clear] | [Make] => live_tickers s = []
  | _ => False
  end.

(** No restart begins before the one before it is done. *)
Definition one_at_a_time (s : state) (e : event) : Prop :=
  match e with
  | ESetTick _ _ | EExit | EInit | EHandle | ELoaded _ _ => controllers s = []
  | _ => True
  end.

Lemma serial_inv_new : serial_inv new_state.
Proof. left. done. Qed.

(** The goroutines that may be stopping or starting a ticker, each at its place. *)
Definition ctl_list (s : state) : list ctl := host_runs Main s :: host_runs Handler s :: restarts s.

Definition index (w : who) : nat :=
  match w with WHost Main => 0%nat | WHost Handler => 1%nat | WGo j => S (S j) end.

Lemma controller_index w r pc s : controller w s = Some (r, pc) → ctl_list s !! index w = Some pc.
Proof.
  destruct w as [[]|j]; cbn; unfold host_ctl, host_runs; cbn.
  - destruct (main s); by intros [= <- <-].
  - destruct (handler s); by intros [= <- <-].
  - destruct (restarts s !! j); by intros [= _ <-].
Qed.

Lemma goes_on_list w r pc pc' s :
  controller w s = Some (r, pc) → ctl_list (goes_on w pc' s) = <[index w := pc']> (ctl_list s).
Proof.
  destruct w as [[]|j]; cbn; unfold host_ctl, host_runs, ctl_list; cbn.
  - destruct (main s) as [| |c init| | | |c| | | | |] eqn:E; intros [= _ _];
      destruct pc'; try destruct init; cbn; by unfold host_runs; cbn; rewrite ?E.
  - destruct (handler s) as [| |c init| | | |c| | | | |] eqn:E; intros [= _ _];
      destruct pc'; try destruct init; cbn; by unfold host_runs; cbn; rewrite ?E.
  - done.
Qed.

Lemma host_list h pc lk ld s :
  ctl_list (with_host h pc lk ld s) =
  <[index (WHost h) := host_runs h (with_host h pc lk ld s)]> (ctl_list s).
Proof. by destruct h. Qed.

(** The controllers after the only one of them goes on. *)
Lemma goes_on_sole w r pc s z :
  controllers s = [z] → controller w s = Some (r, pc) → runs pc = true →
  z = pc ∧ ∀ pc', controllers (goes_on w pc' s) = List.filter runs [pc'].
Proof.
  intros Hc Hw Hpc.
  destruct (filter_sole runs (ctl_list s) _ _ _ Hc (controller_index w r pc s Hw) Hpc) as [Hz Hf].
  split; [done|]. intros pc'. unfold controllers. fold (ctl_list (goes_on w pc' s)).
  by rewrite (goes_on_list w r pc).
Qed.

Lemma controller_runs w r pc s :
  controllers s = [] → controller w s = Some (r, pc) → runs pc = false.
Proof. intros Hc Hw%controller_index. by apply (filter_nil_lookup runs (ctl_list s) (index w)). Qed.

(** The invariant reads four things of a state. *)
Definition same_view (s s' : state) : Prop :=
  live_tickers s = live_tickers s' ∧ quitticker s = quitticker s' ∧ chans s = chans s'.

Lemma goes_on_view w pc s : same_view (goes_on w pc s) s.
Proof.
  unfold same_view, live_tickers. by rewrite goes_on_tickers, goes_on_quit, goes_on_chans.
Qed.

Lemma ticking_on_view c s s' : same_view s s' → ticking_on c s ↔ ticking_on c s'.
Proof. unfold ticking_on. by intros (-> & -> & ->). Qed.
Lemma stopped_on_view c s s' : same_view s s' → stopped_on c s ↔ stopped_on c s'.
Proof. unfold stopped_on. by intros (-> & -> & ->). Qed.
Lemma at_rest_view s s' : same_view s s' → at_rest s ↔ at_rest s'.
Proof. unfold at_rest, ticking_on. by intros (-> & -> & ->). Qed.

Lemma serial_inv_view s s' :
  controllers s = controllers s' → same_view s s' → serial_inv s ↔ serial_inv s'.
Proof.
  unfold serial_inv, at_rest, ticking_on, stopped_on. by intros -> (-> & -> & ->).
Qed.

(** A ticker moves, and still listens to the channel. *)
Lemma serial_inv_ticker s i t t' :
  serial_inv s → tickers s !! i = Some t → live t = true → live t' = true →
  (∀ c, quitticker s = Some c → listens c t' = true) → serial_inv (set_ticker i t' s).
Proof.
  intros Hinv Hi Ht Ht' Hl.
  assert (∀ c, ticking_on c s → ticking_on c (set_ticker i t' s)) as Hon.
  { intros c (Hq & Hc & z & Hz & _). split; [done|]. split; [done|]. exists t'.
    split; [|by apply Hl]. unfold live_tickers, set_ticker. cbn [tickers with_tickers].
    destruct (filter_sole live _ _ _ _ Hz Hi Ht) as [_ Hf]. rewrite Hf. cbn. by rewrite Ht'. }
  assert (live_tickers s ≠ []) as Hne.
  { intros H. rewrite (filter_nil_lookup live _ _ _ H Hi) in Ht. done. }
  assert (at_rest s → at_rest (set_ticker i t' s)) as Hrest.
  { intros [[_ H]|[c H]]; [done|]. right. eauto. }
  unfold serial_inv in *. change (controllers (set_ticker i t' s)) with (controllers s).
  destruct (controllers s) as [|[| |[c|]| | | | |] [|]]; try done; eauto.
  - destruct Hinv as [c ?]. eauto.
  - by destruct Hinv as (c & _ & _ & ?).
  - by destruct Hinv as (c & _ & _ & ?).
Qed.

Lemma serial_inv_one s :
  serial_inv s → controllers s = [] ∨ ∃ pc, controllers s = [pc].
Proof.
  unfold serial_inv. destruct (controllers s) as [|pc [|]]; eauto.
  by destruct pc as [| |[]| | | | |].
Qed.

Lemma serial_inv_sole s w r pc :
  serial_inv s → controller w s = Some (r, pc) → runs pc = true → controllers s = [pc].
Proof.
  intros [Hc|[z Hc]]%serial_inv_one Hw Hpc.
  - by rewrite (controller_runs w r pc s Hc Hw) in Hpc.
  - rewrite Hc. f_equal. by destruct (goes_on_sole w r pc s z Hc Hw Hpc).
Qed.

(** The goroutine goes on from a state with the same goroutines. *)
Lemma serial_inv_goes_on w r pc pc' s :
  controllers s = [pc] → controller w s = Some (r, pc) → runs pc = true →
  match pc' with
  | Finished | Check_nil => at_rest s
  | Send => ∃ c, ticking_on c s
  | Sending (Some c) => ticking_on c s
  | CloseIt | Spawn => ∃ c, stopped_on c s
  | Clear | Make => live_tickers s = []
  | Sending None => False
  end → serial_inv (goes_on w pc' s).
Proof.
  intros Hc Hw Hpc H. destruct (goes_on_sole w r pc s pc Hc Hw Hpc) as [_ Hg].
  pose proof (goes_on_view w pc' s) as Hv.
  unfold serial_inv. rewrite (Hg pc').
  destruct pc' as [| |[c|]| | | | |]; cbn [List.filter runs]; try done.
  - by apply (at_rest_view _ _ Hv).
  - destruct H as [c ?]. exists c. by apply (ticking_on_view _ _ _ Hv).
  - by apply (ticking_on_view _ _ _ Hv).
  - destruct H as [c ?]. exists c. by apply (stopped_on_view _ _ _ Hv).
  - by rewrite (proj1 Hv).
  - by rewrite (proj1 Hv).
  - destruct H as [c ?]. exists c. by apply (stopped_on_view _ _ _ Hv).
  - by apply (at_rest_view _ _ Hv).
Qed.

(** A step of the only restart does not panic, and keeps the invariant. *)
Lemma serial_inv_ctl s w r pc m :
  serial_inv s → controller w s = Some (r, pc) → restartTicker r pc s = Some m →
  ∃ pc' s', m = Ret (pc', s') ∧ serial_inv (goes_on w pc' s').
Proof.
  intros Hinv Hw Hm.
  destruct (runs pc) eqn:Hpc; [|by destruct pc].
  pose proof (serial_inv_sole s w r pc Hinv Hw Hpc) as Hc.
  unfold serial_inv in Hinv. rewrite Hc in Hinv.
  destruct pc as [| |[c|]| | | | |]; cbn in Hm; try discriminate.
  - injection Hm as <-. eexists _, _. split; [done|].
    apply (serial_inv_goes_on w r Check_nil); [done..|].
    destruct Hinv as [[Hq Hl]|[c Hon]].
    + rewrite Hq. destruct r; cbn; [done|by left].
    + rewrite (proj1 Hon). by exists c.
  - injection Hm as <-. eexists _, _. split; [done|].
    apply (serial_inv_goes_on w r Send); [done..|].
    destruct Hinv as [c Hon]. by rewrite (proj1 Hon).
  - destruct Hinv as (_ & Hcl & _). unfold is_closed in Hm. by rewrite Hcl in Hm.
  - destruct Hinv as (c & Hq & Hcl & Hl). unfold is_closed in Hm. rewrite Hq, Hcl in Hm.
    cbn in Hm. injection Hm as <-. eexists _, _. split; [done|].
    by apply (serial_inv_goes_on w r CloseIt).
  - injection Hm as <-. eexists _, _. split; [done|].
    apply (serial_inv_goes_on w r Clear); [done..|]. destruct r; cbn; [done|by left].
  - injection Hm as <-. eexists _, _. split; [done|].
    apply (serial_inv_goes_on w r Make); [done..|].
    exists (length (chans s)). split; [done|]. split; [|done]. cbn.
    by rewrite lookup_app_r, Nat.sub_diag by done.
  - injection Hm as <-. eexists _, _. split; [done|].
    destruct Hinv as (c & Hq & Hcl & Hl).
    apply (serial_inv_goes_on w r Spawn); [done..|]. right. exists c.
    split; [done|]. split; [done|]. exists TNew. split; [|done].
    unfold live_tickers in *. cbn. by rewrite List.filter_app, Hl.
Qed.

(** The rendezvous of the restart and the ticker. *)
Lemma serial_inv_quit s w r c i :
  serial_inv s → controller w s = Some (r, Sending (Some c)) →
  tickers s !! i = Some (TWait (Some c)) → serial_inv (goes_on w CloseIt (set_ticker i TDone s)).
Proof.
  intros Hinv Hw Hi. pose proof (serial_inv_sole s w r _ Hinv Hw eq_refl) as Hc.
  unfold serial_inv in Hinv. rewrite Hc in Hinv. destruct Hinv as (Hq & Hcl & t & Hl & _).
  apply (serial_inv_goes_on w r (Sending (Some c))); [done|by destruct w|done|].
  exists c. split; [done|]. split; [done|]. unfold live_tickers in *. cbn.
  destruct (filter_sole live _ _ _ _ Hl Hi eq_refl) as [_ Hf]. by rewrite Hf.
Qed.

(** A live ticker listens to the channel of the sandbox, which is open. *)
Lemma serial_inv_live s i t :
  serial_inv s → tickers s !! i = Some t → live t = true →
  ∃ c, ticking_on c s ∧ listens c t = true.
Proof.
  intros Hinv Hi Ht.
  assert (live_tickers s ≠ []) as Hne.
  { intros H. by rewrite (filter_nil_lookup live _ _ _ H Hi) in Ht. }
  assert (∀ c, ticking_on c s → ∃ c, ticking_on c s ∧ listens c t = true) as Hon.
  { intros c Hc. exists c. split; [done|]. destruct Hc as (_ & _ & z & Hz & Hl).
    by destruct (filter_sole live _ _ _ _ Hz Hi Ht) as [-> _]. }
  assert (∀ c, ¬ stopped_on c s) as Hno by by intros c (_ & _ & ?).
  assert (at_rest s → ∃ c, ticking_on c s ∧ listens c t = true) as Hrest.
  { intros [[_ ?]|[c ?]]; [done|]. by apply (Hon c). }
  unfold serial_inv in Hinv.
  destruct (controllers s) as [|[| |[c|]| | | | |] [|]]; try done; eauto;
    destruct Hinv as [c ?]; eauto; by destruct (Hno c).
Qed.

(** A host starts or ends something other than a restart. *)
Lemma controllers_host h pc lk ld s :
  host_runs h s = Finished → host_runs h (with_host h pc lk ld s) = Finished →
  controllers (with_host h pc lk ld s) = controllers s.
Proof.
  intros H H'. unfold controllers. fold (ctl_list (with_host h pc lk ld s)) (ctl_list s).
  rewrite host_list, H'. f_equal. by destruct h; unfold ctl_list; cbn; rewrite H.
Qed.

Lemma serial_inv_host h s pc lk ld :
  serial_inv s → host_runs h s = Finished → host_runs h (with_host h pc lk ld s) = Finished →
  serial_inv (with_host h pc lk ld s).
Proof.
  intros Hinv H H'. apply (serial_inv_view _ s); [by apply controllers_host|by destruct h|done].
Qed.

Lemma serial_inv_rest s : serial_inv s → controllers s = [] → at_rest s.
Proof. unfold serial_inv. intros Hi Hc. by rewrite Hc in Hi. Qed.

Lemma serial_inv_begin h s pc lk ld :
  serial_inv s → controllers s = [] → host_runs h (with_host h pc lk ld s) = Check_nil →
  serial_inv (with_host h pc lk ld s).
Proof.
  intros Hinv Hc H'. unfold serial_inv.
  assert (controllers (with_host h pc lk ld s) = [Check_nil]) as ->.
  { unfold controllers in *. fold (ctl_list (with_host h pc lk ld s)). fold (ctl_list s) in Hc.
    rewrite host_list, H'. apply (filter_nil_insert runs); [done|]. by destruct h; cbn; lia. }
  apply serial_inv_rest in Hinv; [|done]. by apply (at_rest_view _ s); [destruct h|].
Qed.

(** The Lua code of a hook fails, or the script that is reloaded does. *)
Definition script_fails (e : event) (err : gostring) : Prop :=
  (∃ i, e = EHook i (Some err) ∨ e = EPollHook i (Some err)) ∨ e = EHookEnd (Raises err) ∨
  e = ESignalEnd (Some err) ∨ e = ELoaded Handler (Some err).

(** A goroutine other than [Init] starts to use the Lua state. *)
Definition uses_state (e : event) : Prop :=
  e = EHookCall ∨ (∃ i, e = ELock i ∨ e = EPollLock i) ∨ ∃ hook, e = EDefined hook.

(** [main] has closed the channels [signals] and [exit]. *)
Definition main_stopped (s : state) : Prop := main s = HEnded ∨ ∃ c, main s = HClosing c false.
Definition tells_main (e : event) : Prop := e = EProfile true ∨ ∃ sig, e = ESignal sig.

(** [main] returns, or the process is made to exit. *)
Definition ends_process (e : event) : Prop :=
  e = EReturn ∨ e = EExit ∨ e = EPipeline false ∨ e = EProfile true ∨ ∃ m, e = ELoaded Main (Some m).

(** What a step of a serial schedule may do: keep the invariant, or panic for a reason
    that has nothing to do with the channels. *)
Definition serial_outcome (s : state) (e : event) (m : go state) : Prop :=
  match m with
  | Ret s' => serial_inv s'
  | Panic NonPositiveTicker => ∃ i, e = EStart i ∧ interval (tick s) <= 0
  | Panic (UserPanic err) => script_fails e err
  | Panic NilDereference => loaded s = false ∧ uses_state e
  | Panic UnlockOfUnlockedMutex => lock s = false ∧ ∃ g, e = ERelease g
  | Panic SendOnClosedChannel => main_stopped s ∧ tells_main e
  | Panic (Exit _) => ends_process e
  | Panic _ => False
  end.

Lemma serial_ticker_step s e i m :
  serial_inv s → e ∈ [EStart i; ESelect i; EFire i; EDrained i; ELock i] ∨ (∃ err, e = EHook i err) →
  step s e = Some m → serial_outcome s e m.
Proof.
  intros Hinv He Hstep. rewrite !elem_of_cons, elem_of_nil in He.
  destruct He as [[->|[->|[->|[->|[->|[]]]]]]|[err ->]]; cbn [step] in Hstep;
    ticker_cases Hstep Hi t.
  - injection Hstep as <-.
    destruct (Z.leb_spec (interval (tick s)) 0) as [H|H]; [by exists i|].
    by eapply serial_inv_ticker.
  - injection Hstep as <-. eapply serial_inv_ticker; [done..|].
    intros c ->. by apply bool_decide_eq_true.
  - injection Hstep as <-. by eapply serial_inv_ticker.
  - destruct c as [c|]; [|done]. destruct (is_closed c s) eqn:Hcl; [|done].
    destruct (serial_inv_live s i _ Hinv Hi eq_refl) as (c' & (_ & Hop & _) & Hlis).
    cbn in Hlis. apply bool_decide_eq_true in Hlis as [= ->].
    unfold is_closed in Hcl. by rewrite Hop in Hcl.
  - destruct (lock s); [done|]. injection Hstep as <-.
    destruct (loaded s) eqn:Eld; [|cbn; unfold uses_state; eauto 10].
    apply (serial_inv_view _ (set_ticker i THook s)); [done|done|].
    by eapply serial_inv_ticker.
  - injection Hstep as <-. destruct err as [err|]; [left; eauto|].
    apply (serial_inv_view _ (set_ticker i TSelect s)); [done|done|].
    by eapply serial_inv_ticker.
Qed.

Lemma serial_ctl_step s e m :
  serial_inv s → (∃ w, e = ECtl w) ∨ (∃ w i, e = EQuit w i) → step s e = Some m →
  serial_outcome s e m.
Proof.
  intros Hinv He Hstep. destruct He as [[w ->]|(w & i & ->)]; cbn [step] in Hstep;
    (destruct (controller w s) as [[r pc]|] eqn:Hw; [|done]); cbn in Hstep.
  - destruct (restartTicker r pc s) as [r'|] eqn:Hr; [|done]. cbn in Hstep.
    destruct (serial_inv_ctl s w r pc r' Hinv Hw Hr) as (pc' & s' & -> & Hs').
    by injection Hstep as <-.
  - destruct (tickers s !! i) as [t|] eqn:Hi; [|done]. cbn in Hstep.
    destruct pc as [| |[c|]| | | | |]; try done. destruct t as [| |[d|]| | | |]; try done.
    destruct (bool_decide (c = d) && negb (is_closed c s)) eqn:E; [|done].
    injection Hstep as <-. apply andb_true_iff in E as [E _].
    apply bool_decide_eq_true in E as <-. by apply (serial_inv_quit s w r c i).
Qed.

Lemma serial_set_tick s t : serial_inv s → controllers s = [] → serial_inv (setTick t s).
Proof.
  intros Hinv Hc. unfold serial_inv.
  assert (controllers (setTick t s) = [Check_nil]) as ->.
  { unfold controllers in *. fold (ctl_list s) in Hc. fold (ctl_list (setTick t s)).
    change (ctl_list (setTick t s)) with (ctl_list s ++ [Check_nil]).
    by rewrite List.filter_app, Hc. }
  apply serial_inv_rest in Hinv; [|done]. by apply (at_rest_view _ s).
Qed.

Lemma serial_inv_lock_ticker s i t t' lk :
  serial_inv s → tickers s !! i = Some t → live t = true → live t' = true →
  (∀ c, quitticker s = Some c → listens c t' = true) → serial_inv (with_lock lk (set_ticker i t' s)).
Proof.
  intros. apply (serial_inv_view _ (set_ticker i t' s)); [done|done|]. by eapply serial_inv_ticker.
Qed.

Lemma serial_inv_pipe s p lk : serial_inv s → serial_inv (with_pipe p lk s).
Proof. by apply serial_inv_view. Qed.

Lemma serial_inv_pollers s ps lk : serial_inv s → serial_inv (with_lock lk (with_pollers ps s)).
Proof. by apply serial_inv_view. Qed.

Lemma serial_poller_step s e i m :
  serial_inv s → e ∈ [EReport i; EPollLock i; EPollEnd i] ∨ (∃ err, e = EPollHook i err) →
  step s e = Some m → serial_outcome s e m.
Proof.
  intros Hinv He Hstep. rewrite !elem_of_cons, elem_of_nil in He.
  assert (∀ p lk, serial_inv (with_lock lk (set_poller i p s))) as Hset
    by (intros; by apply serial_inv_pollers).
  destruct He as [[->|[->|[->|[]]]]|[err ->]]; cbn [step] in Hstep; poller_cases Hstep Hi p.
  - injection Hstep as <-. exact (Hset PollLock (lock s)).
  - destruct (lock s); [done|]. injection Hstep as <-.
    destruct (loaded s) eqn:Eld; [apply Hset|cbn; unfold uses_state; eauto 10].
  - injection Hstep as <-. exact (Hset PollDone (lock s)).
  - injection Hstep as <-. destruct err as [err|]; [left; eauto|apply Hset].
Qed.

(** The builtins that release the lock do not move the restarts or stop a ticker. *)
Lemma serial_lock_step s e g m :
  serial_inv s → e = ERelease g ∨ e = EReacquire g → step s e = Some m → serial_outcome s e m.
Proof.
  intros Hinv He Hstep. destruct He as [->| ->]; cbn [step] in Hstep.
  - destruct (in_script g s) eqn:Hg; [|done]. injection Hstep as <-. unfold release.
    destruct (lock s) eqn:El; [|cbn; eauto]. destruct g as [h| |i|i]; cbn [in_script] in Hg.
    + apply serial_inv_host; [done|unfold host_runs; by destruct (host_at h s)|].
      unfold host_runs. destruct h; cbn in *; [by destruct (main s)|by destruct (handler s)].
    + by apply serial_inv_pipe.
    + apply bool_decide_eq_true in Hg. by eapply serial_inv_lock_ticker.
    + by apply serial_inv_pollers.
  - unfold reacquire in Hstep. destruct (lock s); [done|]. destruct g as [h| |i|i].
    + destruct (host_at h s) eqn:Hm; try done; injection Hstep as <-; apply serial_inv_host; try done;
        unfold host_runs; [by rewrite Hm|by destruct h|by rewrite Hm|by destruct h].
    + destruct (pipe s); try done. injection Hstep as <-. by apply serial_inv_pipe.
    + destruct (tickers s !! i) as [[]|] eqn:Hi; try done. injection Hstep as <-.
      by eapply serial_inv_lock_ticker.
    + destruct (pollers s !! i) as [[]|] eqn:Hi; try done. injection Hstep as <-.
      by apply serial_inv_pollers.
Qed.

(** The events of [main], the handler and the pipeline. *)
Lemma serial_main_step s e m :
  serial_inv s → one_at_a_time s e → main_step s e = Some m → serial_outcome s e m.
Proof.
  intros Hinv Hone Hstep.
  assert (host_runs Main s = match main s with HClosing pc _ | HStarting pc => pc | _ => Finished end)
    as Hf by done.
  assert (host_runs Handler s = match handler s with HClosing pc _ | HStarting pc => pc | _ => Finished end)
    as Hf' by done.
  destruct e; try discriminate Hstep; cbn [main_step] in Hstep; cbn [one_at_a_time] in Hone; destruct (main s) eqn:Hm; try discriminate Hstep.
  - injection Hstep as <-. unfold Init. cbn [serial_outcome]. destruct (loaded s).
    + by apply (serial_inv_begin Main s).
    + by apply (serial_inv_host Main s).
  - destruct (pipe s); try discriminate Hstep. injection Hstep as <-.
    destruct reader; [by apply serial_inv_pipe|]. cbn. unfold ends_process. auto.
  - destruct (pipe s), (handler s) eqn:Hh; try discriminate Hstep; injection Hstep as <-;
      by apply (serial_inv_host Handler s).
  - destruct (handler s) eqn:Hh, (pipe s) as [| | | |[]|]; try discriminate Hstep; injection Hstep as <-;
      first [cbn; unfold ends_process; by auto|apply (serial_inv_begin Main (with_pipe PDone (lock s) s)); [by apply serial_inv_pipe|done|done]].
  - injection Hstep as <-. cbn. unfold ends_process. auto.
Qed.

Lemma serial_init_step s e h m :
  serial_inv s → one_at_a_time s e → e = EInitLock h ∨ (∃ err, e = ELoaded h err) →
  init_step h s e = Some m → serial_outcome s e m.
Proof.
  intros Hinv Hone He Hstep.
  destruct He as [->|[err ->]]; cbn [init_step] in Hstep; cbn [one_at_a_time] in Hone; destruct (host_at h s) eqn:Hh; try discriminate Hstep.
  - destruct (lock s); [done|]. injection Hstep as <-.
    apply serial_inv_host; [done|unfold host_runs; by rewrite Hh|by destruct h].
  - injection Hstep as <-. destruct err as [err|].
    + destruct h; cbn; unfold ends_process, script_fails; eauto 10.
    + apply serial_inv_begin; [done|done|by destruct h].
Qed.

Lemma serial_handler_step s e m :
  serial_inv s → one_at_a_time s e → handler_step s e = Some m → serial_outcome s e m.
Proof.
  intros Hinv Hone Hstep.
  assert (host_runs Handler s = match handler s with HClosing pc _ | HStarting pc => pc | _ => Finished end)
    as Hf by done.
  assert (∀ pc, host_runs Handler s = Finished →
    match pc with HClosing _ _ | HStarting _ => False | _ => True end →
    serial_inv (with_host Handler pc (lock s) (loaded s) s)) as Hgo.
  { intros pc Hn Hpc. apply serial_inv_host; [done|done|]. by destruct pc. }
  destruct e; try discriminate Hstep; cbn [handler_step] in Hstep; cbn [one_at_a_time] in Hone.
  - destruct (main s) as [| |c []| | | | | | | | |] eqn:Hm, (handler s) eqn:Hh; try discriminate Hstep;
      injection Hstep as <-; first [by refine (Hgo _ _ _)|cbn; unfold main_stopped, tells_main; by eauto 10].
  - destruct (handler s) eqn:Hh; try discriminate Hstep. injection Hstep as <-.
    destruct (loaded s) eqn:El; [|cbn; unfold uses_state; by eauto 10].
    destruct hook; by refine (Hgo _ _ _).
  - destruct (handler s) eqn:Hh; try discriminate Hstep. injection Hstep as <-.
    destruct err; [cbn; unfold script_fails; by auto|by refine (Hgo _ _ _)].
  - destruct (handler s) as [| | | | | | | | | |[]|] eqn:Hh; try discriminate Hstep. injection Hstep as <-.
    unfold Init. cbn [serial_outcome]. destruct (loaded s); [by apply (serial_inv_begin Handler s)|by apply (serial_inv_host Handler s)].
  - destruct (handler s) as [| | | | | | | | | |[]|] eqn:Hh; try discriminate Hstep. destruct failed.
    + unfold exit_error in Hstep. destruct (main s) as [| |c []| | | | | | | | |] eqn:Hm;
        try discriminate Hstep; injection Hstep as <-; cbn;
        unfold main_stopped, tells_main, ends_process; eauto 10.
    + injection Hstep as <-. by refine (Hgo _ _ _).
  - destruct (main s) as [| |c []| | | | | | | | |], (handler s) eqn:Hh; try discriminate Hstep;
      injection Hstep as <-; by refine (Hgo _ _ _).
Qed.

Lemma serial_pipe_step s e m :
  serial_inv s → pipe_step s e = Some m → serial_outcome s e m.
Proof.
  intros Hinv Hstep. destruct e; try discriminate Hstep; cbn [pipe_step] in Hstep;
    destruct (pipe s); try discriminate Hstep.
  - destruct (lock s); [done|]. injection Hstep as <-.
    destruct (loaded s) eqn:El; [by apply serial_inv_pipe|cbn; unfold uses_state; auto].
  - injection Hstep as <-. destruct r; [by apply serial_inv_pipe..|cbn; unfold script_fails; auto].
  - injection Hstep as <-. by apply serial_inv_pipe.
Qed.

Lemma serial_step s e m :
  serial_inv s → one_at_a_time s e → step s e = Some m → serial_outcome s e m.
Proof.
  intros Hinv Hone Hstep. destruct e;
    try solve [apply (serial_ctl_step s _ m Hinv); [eauto|exact Hstep]];
    try solve [apply (serial_ticker_step s _ i m Hinv); [set_solver|exact Hstep]];
    try solve [apply (serial_lock_step s _ g m Hinv); [auto|exact Hstep]];
    try solve [apply (serial_poller_step s _ i m Hinv); [set_solver|exact Hstep]];
    try solve [exact (serial_main_step s _ m Hinv Hone Hstep)];
    try solve [exact (serial_handler_step s _ m Hinv Hone Hstep)];
    try solve [exact (serial_pipe_step s _ m Hinv Hstep)];
    try solve [apply (serial_init_step s _ h m Hinv Hone); [eauto|exact Hstep]];
    cbn [step] in Hstep; cbn [one_at_a_time] in Hone;
    (destruct (in_script g s); [|done]); injection Hstep as <-.
  - by apply serial_set_tick.
  - exact (serial_inv_pollers s _ (lock s) Hinv).
Qed.

Lemma serial_inv_at_most_one s : serial_inv s → (length (live_tickers s) <= 1)%nat.
Proof.
  assert (∀ c, ticking_on c s → (length (live_tickers s) <= 1)%nat) as Ht
    by by intros c (_ & _ & t & -> & _).
  assert (live_tickers s = [] → (length (live_tickers s) <= 1)%nat) as H0 by (intros ->; cbn; lia).
  unfold serial_inv, at_rest, stopped_on.
  destruct (controllers s) as [|[| |[c|]| | | | |] [|]]; try done;
    firstorder.
Qed.

(** C4: As long as no restart of the ticker begins before the one before it has ended,
    there is at most one ticker, no goroutine sends on a nil channel, where it would
    block forever, and no operation on the ticker's channels panics: the process ends
    only because the interval is not positive, because the script fails in a hook or when it is
    reloaded, because the script has been closed, because a builtin releases a lock that is not
    held, because a signal or an error of the profile comes after [main] has closed the channels for
    them, or because [main] returns or is told to exit. *)
Theorem serial_restarts_safe s (Hs : steps one_at_a_time new_state s) :
  (length (live_tickers s) <= 1)%nat ∧
  (∀ w r, controller w s ≠ Some (r, Sending None)) ∧
  ∀ e p, one_at_a_time s e → step s e = Some (Panic p) →
    (∃ i, e = EStart i ∧ p = NonPositiveTicker ∧ interval (tick s) <= 0) ∨
    (∃ err, script_fails e err ∧ p = UserPanic err) ∨
    (loaded s = false ∧ p = NilDereference ∧ uses_state e) ∨
    (lock s = false ∧ p = UnlockOfUnlockedMutex ∧ ∃ g, e = ERelease g) ∨
    (main_stopped s ∧ p = SendOnClosedChannel ∧ tells_main e) ∨
    (ends_process e ∧ ∃ status, p = Exit status).
Proof.
  assert (serial_inv s) as Hinv.
  { remember new_state as s0 eqn:E. induction Hs as [|s1 s2 e s3 Hs IH Hone Hstep].
    - subst. apply serial_inv_new.
    - exact (serial_step s2 e (Ret s3) (IH E) Hone Hstep). }
  clear Hs. split; [|split].
  - by apply serial_inv_at_most_one.
  - intros w r Hw. pose proof (serial_inv_sole s w r _ Hinv Hw eq_refl) as Hc.
    unfold serial_inv in Hinv. by rewrite Hc in Hinv.
  - intros e p Hone Hstep. pose proof (serial_step s e (Panic p) Hinv Hone Hstep) as H.
    destruct p; cbn in H; try done.
    + do 2 right. left. tauto.
    + do 4 right. left. tauto.
    + do 3 right. left. tauto.
    + left. destruct H as (i & ? & ?). by exists i.
    + right. left. by exists msg.
    + do 5 right. eauto.
Qed.

(** ** A restart *)

(** [config_set("tick", t)] in the hook of ticker [i]; goroutine [j] restarts it. *)
Definition restart_in_hook (i j : nat) (t : Z) : list event :=
  [ESetTick (ByTicker i) t; ECtl (WGo j); ECtl (WGo j); EHook i None; ESelect i; EQuit (WGo j) i;
   ECtl (WGo j); ECtl (WGo j); ECtl (WGo j); ECtl (WGo j)].

(** C26: A hook that sets the interval and returns has its ticker replaced: the old one
    ends, the new one waits for its timer, with the new interval, on a new channel. *)
Theorem restart_replaces_ticker s c i t
    (Hc : ticking_on c s) (Hi : tickers s !! i = Some THook) (Hrest : controllers s = [])
    (Ht : 0 < interval t) :
  ∃ s' c', run s (restart_in_hook i (length (restarts s)) t ++
             [EStart (length (tickers s)); ESelect (length (tickers s))]) = Some (Ret s') ∧
    c' = length (chans s) ∧ tick s' = t ∧ quitticker s' = Some c' ∧ chans s' !! c = Some true ∧
    live_tickers s' = [TWait (Some c')] ∧ controllers s' = [].
Proof.
  destruct Hc as (Hq & Hop & z & Hl & _).
  destruct (list_elem_of_split_length _ _ _ Hi) as (ts1 & ts2 & Hts & ->).
  destruct s as [tk q cs lk ld m hd pp rs ts ps]. unfold live_tickers, controllers, host_runs in *.
  cbn [tickers restarts chans quitticker main handler host_at] in *. subst q ts.
  replace (length (ts1 ++ THook :: ts2)) with (length (ts1 ++ TDone :: ts2)) by by rewrite !length_app.
  unfold restart_in_hook. cbn [app].
  assert (length cs = length (<[c:=true]> cs)) as Hlen by by rewrite length_insert.
  eexists _, (length cs). split.
  { do 10 do_step.
    eapply run_step; [|].
    { cbn [step]. unfold ticker_step. cbn [tickers]. rewrite lookup_middle. cbn [mbind option_bind tick].
      rewrite (proj2 (Z.leb_gt _ _)) by done. reflexivity. }
    do_step. reflexivity. }
  cbn [tick quitticker chans tickers restarts main handler host_at].
  split; [done|]. split; [done|]. rewrite Hlen. split; [done|].
  split; [rewrite lookup_app_l by (rewrite <- Hlen; by eapply lookup_lt_Some);
          apply list_lookup_insert_eq; by eapply lookup_lt_Some|].
  rewrite !List.filter_app in *. cbn [List.filter live runs] in *.
  destruct (List.filter live ts1) as [|? l]; [|by destruct l].
  destruct (List.filter live ts2); [|done]. split; [done|].
  revert Hrest. cbn. rewrite List.filter_app, app_nil_r. done.
Qed.

(** ** The end of [main] *)

(** When the input ends, [main] closes the channel of the signals that it still gets: from then
    until the process is gone, a signal is a panic, and so is an error of the profile that
    the handler sends. *)
Theorem late_signal_panics s sig
    (Hmain : main s = HIdle) (Hhandler : handler s ≠ HNone) (Hpipe : pipe s = PSending false) :
  run s [EExit; ESignal sig] = Some (Panic SendOnClosedChannel) ∧
  (handler s = HHandle Usr2 → run s [EExit; EProfile true] = Some (Panic SendOnClosedChannel)).
Proof.
  destruct s as [tk q cs lk ld m hd pp rs ts ps]. cbn [main handler pipe] in *. subst.
  split; [by destruct hd|]. by intros ->.
Qed.

(** ** Restarts that overlap *)

#[local] Opaque interval.

(** A script that calls [config_set("tick", t)] is loaded: both goroutines test
    [quitticker] before either has started a ticker. *)
Definition both_start (t : Z) : list event :=
  [EInit; EInitLock Main; ESetTick (ByHost Main) t; ECtl (WGo 0); ELoaded Main None; ECtl (WHost Main);
   ECtl (WGo 0); ECtl (WGo 0); ECtl (WHost Main); ECtl (WHost Main)].

(** A script that sets the interval when it is loaded, as the README's does, races
    with [Init]: both may find that no ticker runs and start one, and both tickers
    then call the hook. *)
Theorem load_race_two_tickers t (Ht : 0 < interval t) :
  ∃ s, (run new_state (both_start t ++ [EStart 0; ESelect 0; EStart 1; ESelect 1]) = Some (Ret s)) ∧
    live_tickers s = [TWait (Some 1%nat); TWait (Some 1%nat)] ∧
    controllers s = [] ∧ main s = HIdle ∧ tick s = t.
Proof.
  assert ((interval t <=? 0) = false) as Hp by (apply Z.leb_gt; lia).
  eexists. split; [|split; [|split; [|split]]].
  - unfold both_start, new_state. cbn [app]. do 10 do_step. do_start Hp. do_step. do_start Hp.
    do_step. reflexivity.
  - reflexivity.
  - reflexivity.
  - reflexivity.
  - reflexivity.
Qed.

(** The goroutine is done, and its ticker fires, before the script is loaded. *)
Definition load_fires (t : Z) : list event :=
  [EInit; EInitLock Main; ESetTick (ByHost Main) t; ECtl (WGo 0); ECtl (WGo 0); ECtl (WGo 0);
   EStart 0; ESelect 0; EFire 0; ELoaded Main None].

Definition stuck (t : Z) : state :=
  mkState t (Some 0%nat) [false] true true (HStarting (Sending (Some 0%nat))) HNone PNone [Finished] [TLock] [].

Lemma stuck_stuck t e : step (stuck t) e = None.
Proof.
  destruct e;
    try match goal with w : who |- _ => destruct w as [[]|[|?]] end;
    try match goal with g : caller |- _ => destruct g as [[]| |[|?]|[|?]] end;
    try match goal with h : host |- _ => destruct h end;
    try match goal with i : nat |- _ => destruct i end; reflexivity.
Qed.

(** C24: The other order ends in a deadlock: the ticker that the goroutine starts fires
    before the script is loaded and waits for the sandbox's lock, which [Init] holds
    when it stops the ticker: no goroutine can make a step any more. *)
Theorem load_restart_deadlock t (Ht : 0 < interval t) :
  ∃ s, (run new_state (load_fires t ++ [ECtl (WHost Main); ECtl (WHost Main)]) = Some (Ret s)) ∧
    main s = HStarting (Sending (Some 0%nat)) ∧ live_tickers s = [TLock] ∧
    ∀ e, step s e = None.
Proof.
  assert ((interval t <=? 0) = false) as Hp by (apply Z.leb_gt; lia).
  exists (stuck t). split; [|split; [done|split; [done|apply stuck_stuck]]].
  cbn. rewrite Hp. reflexivity.
Qed.

(** Moving one goroutine leaves the others where they are. *)
Lemma goes_on_other w w' pc s : w ≠ w' → controller w' (goes_on w pc s) = controller w' s.
Proof.
  intros Hne. destruct w as [[]|j], w' as [[]|j']; try done; cbn [controller goes_on host_at].
  - by destruct (main s) as [| |? []| | | | | | | | |], pc.
  - by destruct (main s) as [| |? []| | | | | | | | |], pc.
  - by destruct (handler s) as [| |? []| | | | | | | | |], pc.
  - by destruct (handler s) as [| |? []| | | | | | | | |], pc.
  - cbn. rewrite list_lookup_insert_ne; [done|congruence].
Qed.

Lemma goes_on_self w pc s r pc' : controller w (goes_on w pc s) = Some (r, pc') → pc' = pc ∨ controller w s = None.
Proof.
  destruct w as [[]|j]; cbn [controller goes_on host_at].
  - destruct (main s) as [| |c []| | | |c| | | | |] eqn:E, pc; cbn; rewrite ?E; cbn; intros; simplify_eq; eauto.
  - destruct (handler s) as [| |c []| | | |c| | | | |] eqn:E, pc; cbn; rewrite ?E; cbn; intros; simplify_eq; eauto.
  - cbn. destruct (restarts s !! j) as [x|] eqn:E; [|by right].
    rewrite list_lookup_insert_eq by by eapply lookup_lt_Some. cbn. intros [= _ <-]. by left.
Qed.

Section doomed.
Context (c j k : nat) (Hjk : j ≠ k).

(** A goroutine that has not yet sent its message, or has nothing to do with it. *)
Definition early (pc : ctl) : bool :=
  match pc with
  | Check_nil | Send | Finished => true
  | Sending d => bool_decide (d = Some c)
  | _ => false
  end.

Definition waits (x : nat) (s : state) : Prop := restarts s !! x = Some (Sending (Some c)).

Definition all_early (but : option who) (s : state) : Prop :=
  ∀ w r pc, Some w ≠ but → controller w s = Some (r, pc) → early pc = true.

Definition on_channel (closed : bool) (s : state) : Prop :=
  quitticker s = Some c ∧ chans s !! c = Some closed.

(** Two restarts send on the channel of the only ticker; one of them is heard; and the
    channel is closed under the other. *)
Inductive doomed (s : state) : Prop :=
  | both_wait :
      on_channel false s → all_early None s → (length (live_tickers s) <= 1)%nat →
      waits j s → waits k s → doomed s
  | one_heard w r :
      on_channel false s → controller w s = Some (r, CloseIt) → all_early (Some w) s →
      live_tickers s = [] → waits j s ∨ waits k s → doomed s
  | channel_closed :
      chans s !! c = Some true → waits j s ∨ waits k s → doomed s.

Lemma early_step r pc s pc' s' :
  quitticker s = Some c → early pc = true → restartTicker r pc s = Some (Ret (pc', s')) →
  s' = s ∧ early pc' = true.
Proof.
  intros Hq He H. destruct pc as [| |[d|]| | | | |]; cbn in *; try done; simplify_eq.
  - by rewrite Hq.
  - split; [done|]. by apply bool_decide_eq_true.
  - by destruct (is_closed d s).
Qed.

Lemma all_early_goes_on but w pc s :
  all_early but s → early pc = true → Some w ≠ but → all_early but (goes_on w pc s).
Proof.
  intros Ha He Hw w' r pc' Hw' Hc. destruct (decide (w = w')) as [<-|Hne].
  - destruct (controller w s) as [[r0 pc0]|] eqn:E.
    + destruct (goes_on_self w pc s r pc' Hc) as [->|?]; [done|congruence].
    + destruct w as [[]|x]; cbn in *.
      * exfalso. by destruct (main s) eqn:Em; cbn in *; rewrite ?Em in Hc.
      * exfalso. by destruct (handler s) eqn:Em; cbn in *; rewrite ?Em in Hc.
      * exfalso. destruct (restarts s !! x) eqn:Ex; [done|].
        rewrite list_insert_ge in Hc by by apply lookup_ge_None. by rewrite Ex in Hc.
  - rewrite goes_on_other in Hc by done. by apply (Ha w' r pc').
Qed.

Lemma waits_open s x : waits x s → controller (WGo x) s = Some (true, Sending (Some c)).
Proof. unfold waits. cbn. by intros ->. Qed.

Lemma waits_goes_on x w pc s : WGo x ≠ w → waits x s → waits x (goes_on w pc s).
Proof.
  unfold waits. intros Hne Hx. destruct w as [[]|y]; cbn [goes_on host_at].
  - by destruct (main s) as [| |? []| | | | | | | | |], pc.
  - by destruct (handler s) as [| |? []| | | | | | | | |], pc.
  - cbn. rewrite list_lookup_insert_ne; [done|congruence].
Qed.

Lemma waits_other pc w s :
  waits j s → waits k s → waits j (goes_on w pc s) ∨ waits k (goes_on w pc s).
Proof.
  intros Hj Hk. destruct (decide (WGo j = w)) as [<-|?].
  - right. apply waits_goes_on; [congruence|done].
  - left. by apply waits_goes_on.
Qed.

(** A controller that is not one of those that wait goes on. *)
Lemma waits_either w pc s :
  (∀ x, WGo x = w → ¬ waits x s) → waits j s ∨ waits k s →
  waits j (goes_on w pc s) ∨ waits k (goes_on w pc s).
Proof.
  intros Hw [H|H]; [left|right]; apply waits_goes_on; try done; intros E; by apply (Hw _ E).
Qed.

Lemma doomed_ctl s w s' : doomed s → step s (ECtl w) = Some (Ret s') → doomed s'.
Proof.
  intros Hd Hstep. cbn [step] in Hstep.
  destruct (controller w s) as [[r pc]|] eqn:Hw; [|done]. cbn in Hstep.
  destruct (restartTicker r pc s) as [[[pc' s1]|]|] eqn:Hr; cbn in Hstep; simplify_eq.
  assert (pc ≠ Sending (Some c)) as Hns.
  { intros ->. cbn in Hr. by destruct (is_closed c s). }
  assert (∀ x, WGo x = w → ¬ waits x s) as Hnw by (intros x <- H%waits_open; congruence).
  destruct Hd as [[Hq Hc] Ha Hl Hj Hk|w0 r0 [Hq Hc] Hw0 Ha Hl Hor|Hc Hor].
  - assert (early pc = true) as He by by apply (Ha w r pc).
    destruct (early_step r pc s pc' s1 Hq He Hr) as [-> He'].
    apply both_wait.
    + unfold on_channel. by rewrite goes_on_quit, goes_on_chans.
    + by apply all_early_goes_on.
    + unfold live_tickers. by rewrite goes_on_tickers.
    + apply waits_goes_on; [|done]. intros E. by apply (Hnw j).
    + apply waits_goes_on; [|done]. intros E. by apply (Hnw k).
  - destruct (decide (w = w0)) as [<-|Hne].
    + rewrite Hw in Hw0. simplify_eq. cbn in Hr. rewrite Hq in Hr. unfold is_closed in Hr.
      rewrite Hc in Hr. cbn in Hr. simplify_eq. apply channel_closed.
      * rewrite goes_on_chans. cbn. apply list_lookup_insert_eq. by eapply lookup_lt_Some.
      * by apply waits_either.
    + assert (early pc = true) as He by (apply (Ha w r pc); [congruence|done]).
      destruct (early_step r pc s pc' s1 Hq He Hr) as [-> He'].
      apply (one_heard _ w0 r0).
      * unfold on_channel. by rewrite goes_on_quit, goes_on_chans.
      * by rewrite goes_on_other.
      * apply all_early_goes_on; [done..|congruence].
      * unfold live_tickers. by rewrite goes_on_tickers.
      * by apply waits_either.
  - assert (chans s1 !! c = Some true ∧ restarts s1 = restarts s) as [Hc1 Hrs].
    { destruct pc as [| |[d|]| | | | |]; cbn in Hr; simplify_eq; try done.
      - by destruct (is_closed d s).
      - destruct (quitticker s) as [d|]; [|done]. destruct (is_closed d s); [done|]. simplify_eq.
        split; [|done]. cbn. destruct (decide (c = d)) as [->|?].
        + apply list_lookup_insert_eq. by eapply lookup_lt_Some.
        + by rewrite list_lookup_insert_ne.
      - split; [|done]. cbn. by apply lookup_app_l_Some. }
    apply channel_closed; [by rewrite goes_on_chans|].
    apply waits_either; unfold waits in *; by rewrite Hrs.
Qed.

Lemma goes_on_at w r pc pc' s :
  controller w s = Some (r, pc) → pc' ≠ Finished → controller w (goes_on w pc' s) = Some (r, pc').
Proof.
  intros Hw Hf. destruct w as [[]|x]; cbn [controller goes_on host_at] in *.
  - destruct (main s) as [| |c0 []| | | |c0| | | | |]; cbn in Hw; simplify_eq; by destruct pc'.
  - destruct (handler s) as [| |c0 []| | | |c0| | | | |]; cbn in Hw; simplify_eq; by destruct pc'.
  - cbn. destruct (restarts s !! x) eqn:E; [|done].
    rewrite list_lookup_insert_eq by by eapply lookup_lt_Some. cbn in *. by simplify_eq.
Qed.

Lemma doomed_quit s w i s' : doomed s → step s (EQuit w i) = Some (Ret s') → doomed s'.
Proof.
  intros Hd Hstep. cbn [step] in Hstep.
  destruct (controller w s) as [[r pc]|] eqn:Hw; [|done]. cbn in Hstep.
  destruct (tickers s !! i) as [t|] eqn:Hi; [|done]. cbn in Hstep.
  destruct pc as [| |[d|]| | | | |]; try done. destruct t as [| |[d'|]| | | |]; try done.
  destruct (bool_decide (d = d') && negb (is_closed d s)) eqn:E; [|done]. injection Hstep as <-.
  apply andb_true_iff in E as [<-%bool_decide_eq_true Hcl%negb_true_iff].
  destruct (filter_replace live _ _ _ Hi) as (l1 & l2 & Hf & Hr). cbn in Hf, Hr.
  destruct Hd as [Hq Ha Hl Hj Hk|w0 r0 Hq Hw0 Ha Hl Hor|Hc Hor].
  - apply (one_heard _ w r).
    + unfold on_channel. by rewrite goes_on_quit, goes_on_chans.
    + eapply goes_on_at; [|done]. by destruct w.
    + intros w' r' pc' Hne Hc. rewrite goes_on_other in Hc by congruence.
      apply (Ha w' r' pc'); [done|]. by destruct w'.
    + unfold live_tickers in *. rewrite goes_on_tickers. cbn. rewrite (Hr TDone). cbn.
      rewrite Hf, length_app in Hl. cbn in Hl.
      by destruct (List.filter live l1), (List.filter live l2); cbn in *; try lia.
    + by apply waits_other.
  - unfold live_tickers in Hl. rewrite Hl in Hf. by destruct (List.filter live l1).
  - unfold is_closed in Hcl. apply channel_closed; [by rewrite goes_on_chans|].
    apply waits_either; [|done]. intros x <- H. change (waits x s) in H. apply waits_open in H.
    assert (d = c) as -> by congruence. by rewrite Hc in Hcl.
Qed.

(** The steps that move no controller. *)
Lemma doomed_frame s s' :
  doomed s → (∀ w, controller w s' = controller w s) → quitticker s' = quitticker s →
  chans s' = chans s → restarts s' = restarts s →
  (length (live_tickers s') <= length (live_tickers s))%nat → doomed s'.
Proof.
  intros Hd Hw Hq Hc Hr Hl.
  assert (∀ x, waits x s → waits x s') as Hx by by unfold waits; rewrite Hr.
  assert (∀ b, on_channel b s → on_channel b s') as Hon by by unfold on_channel; rewrite Hq, Hc.
  assert (∀ but, all_early but s → all_early but s') as Ha
    by by intros but H w r pc; rewrite Hw; apply H.
  destruct Hd as [? ? ? ? ?|w r ? Hw0 ? Hl0 Hor|? Hor].
  - apply both_wait; eauto. lia.
  - apply (one_heard _ w r); eauto; [by rewrite Hw| |by destruct Hor; eauto].
    rewrite Hl0 in Hl. destruct (live_tickers s'); [done|]. cbn in Hl. lia.
  - apply channel_closed; [congruence|by destruct Hor; eauto].
Qed.

Lemma doomed_ticker s i t t' lk :
  doomed s → tickers s !! i = Some t → live t = true →
  doomed (with_lock lk (set_ticker i t' s)).
Proof.
  intros Hd Hi Ht. apply (doomed_frame s); [done|by intros []|done..|].
  unfold live_tickers. cbn. destruct (filter_replace live _ _ _ Hi) as (l1 & l2 & Hf & Hr).
  rewrite Hf, (Hr t'), !length_app. cbn. rewrite Ht. destruct (live t'); cbn; lia.
Qed.

(** A new controller, or another place of the main goroutine, is early. *)
Lemma doomed_new s s' w :
  doomed s → controller w s = None → (∀ w', w' ≠ w → controller w' s' = controller w' s) →
  (∀ r pc, controller w s' = Some (r, pc) → early pc = true) →
  quitticker s' = quitticker s → chans s' = chans s → tickers s' = tickers s → doomed s'.
Proof.
  intros Hd Hw Ho He Hq Hc Ht.
  assert (∀ x, waits x s → waits x s') as Hx.
  { intros x H%waits_open. assert (WGo x ≠ w) as Hne by by intros <-; rewrite Hw in H.
    rewrite <- Ho in H by done. unfold waits. cbn in H.
    destruct (restarts s' !! x); cbn in H; by simplify_eq. }
  assert (∀ b, on_channel b s → on_channel b s') as Hon by by unfold on_channel; rewrite Hq, Hc.
  assert (∀ but, all_early but s → all_early but s') as Ha.
  { intros but H w' r pc Hb Hp. destruct (decide (w' = w)) as [->|Hne]; [by eapply He|].
    rewrite Ho in Hp by done. by apply (H w' r pc). }
  assert (live_tickers s' = live_tickers s) as Hl by by unfold live_tickers; rewrite Ht.
  destruct Hd as [? ? ? ? ?|w0 r ? Hw0 ? Hl0 Hor|? Hor].
  - apply both_wait; eauto. by rewrite Hl.
  - apply (one_heard _ w0 r); eauto; [|by rewrite Hl|by destruct Hor; eauto].
    rewrite Ho; [done|]. congruence.
  - apply channel_closed; [congruence|by destruct Hor; eauto].
Qed.

Lemma doomed_ticker_step s e i s' :
  doomed s → e ∈ [EStart i; ESelect i; EFire i; EDrained i; ELock i] ∨ (∃ err, e = EHook i err) →
  step s e = Some (Ret s') → doomed s'.
Proof.
  intros Hd He Hstep. rewrite !elem_of_cons, elem_of_nil in He.
  assert (∀ t t', tickers s !! i = Some t → live t = true → doomed (set_ticker i t' s)) as Hset.
  { intros t t' Hi Ht. exact (doomed_ticker s i t t' (lock s) Hd Hi Ht). }
  destruct He as [[->|[->|[->|[->|[->|[]]]]]]|[err ->]]; cbn [step] in Hstep;
    ticker_cases Hstep Hi t.
  - destruct (interval (tick s) <=? 0); [done|]. injection Hstep as <-. by eapply Hset.
  - injection Hstep as <-. by eapply Hset.
  - injection Hstep as <-. by eapply Hset.
  - destruct c0 as [d|]; [|done]. destruct (is_closed d s); [|done]. injection Hstep as <-.
    by eapply Hset.
  - destruct (lock s); [done|]. destruct (loaded s); [|done]. injection Hstep as <-.
    by eapply doomed_ticker.
  - destruct err; [done|]. injection Hstep as <-. by eapply doomed_ticker.
Qed.

Lemma doomed_set_tick s t : doomed s → doomed (setTick t s).
Proof.
  intros Hd. apply (doomed_new s _ (WGo (length (restarts s)))); [done|..|done|done|done].
  - cbn. by rewrite lookup_ge_None_2.
  - intros [|x] Hne; [done|]. cbn. destruct (decide (x < length (restarts s))%nat) as [Hx|Hx].
    + by rewrite lookup_app_l.
    + assert (x ≠ length (restarts s)) by congruence.
      rewrite !lookup_ge_None_2; [done|lia|rewrite length_app; cbn; lia].
  - intros r pc. cbn. rewrite lookup_app_r, Nat.sub_diag by done. by intros [= _ <-].
Qed.

Lemma doomed_host h s pc lk ld :
  doomed s → controller (WHost h) s = None →
  (host_runs h (with_host h pc lk ld s) = Check_nil ∨ host_runs h (with_host h pc lk ld s) = Finished) →
  doomed (with_host h pc lk ld s).
Proof.
  intros Hd Hm Hc. apply (doomed_new s _ (WHost h)); [done|done| | |by destruct h..].
  - intros [h'|x] Hne; [|by destruct h]. by destruct h, h'.
  - intros r c'. unfold host_runs in Hc. destruct h; cbn in *; destruct pc; cbn in *; intros [=]; subst;
      by destruct Hc as [->| ->].
Qed.

Lemma doomed_pipe s p lk : doomed s → doomed (with_pipe p lk s).
Proof. intros Hd. by apply (doomed_frame s); [done|intros [[]|]|..]. Qed.

Lemma doomed_pollers s ps lk : doomed s → doomed (with_lock lk (with_pollers ps s)).
Proof. intros Hd. by apply (doomed_frame s); [done|intros [[]|]|..]. Qed.

Lemma doomed_poller_step s e i s' :
  doomed s → e ∈ [EReport i; EPollLock i; EPollEnd i] ∨ (∃ err, e = EPollHook i err) →
  step s e = Some (Ret s') → doomed s'.
Proof.
  intros Hd He Hstep. rewrite !elem_of_cons, elem_of_nil in He.
  assert (∀ p lk, doomed (with_lock lk (set_poller i p s))) as Hset
    by (intros; by apply doomed_pollers).
  destruct He as [[->|[->|[->|[]]]]|[err ->]]; cbn [step] in Hstep; poller_cases Hstep Hi p.
  - injection Hstep as <-. exact (Hset PollLock (lock s)).
  - destruct (lock s); [done|]. destruct (loaded s); [|done]. injection Hstep as <-. apply Hset.
  - injection Hstep as <-. exact (Hset PollDone (lock s)).
  - destruct err; [done|]. injection Hstep as <-. apply Hset.
Qed.

Lemma doomed_lock_step s e g s' :
  doomed s → e = ERelease g ∨ e = EReacquire g → step s e = Some (Ret s') → doomed s'.
Proof.
  intros Hd He Hstep. destruct He as [->| ->]; cbn [step] in Hstep.
  - destruct (in_script g s) eqn:Hg; [|done]. injection Hstep as Hr. unfold release in Hr.
    destruct (lock s); [|done]. injection Hr as <-. destruct g as [h| |i|i]; cbn [in_script] in Hg.
    + apply doomed_host; [done|..].
      * cbn. by destruct (host_at h s).
      * right. unfold host_runs. destruct h; cbn in *; [by destruct (main s)|by destruct (handler s)].
    + by apply doomed_pipe.
    + apply bool_decide_eq_true in Hg. by eapply doomed_ticker.
    + by apply doomed_pollers.
  - unfold reacquire in Hstep. destruct (lock s); [done|]. destruct g as [h| |i|i].
    + destruct (host_at h s) eqn:Hm; try done; injection Hstep as <-;
        apply doomed_host; [done|by cbn; rewrite Hm|by right; destruct h|
                            done|by cbn; rewrite Hm|by right; destruct h].
    + destruct (pipe s); try done. injection Hstep as <-. by apply doomed_pipe.
    + destruct (tickers s !! i) as [[]|] eqn:Hi; try done. injection Hstep as <-.
      by eapply doomed_ticker.
    + destruct (pollers s !! i) as [[]|] eqn:Hi; try done. injection Hstep as <-.
      by apply doomed_pollers.
Qed.

(** The events of [main], the handler and the pipeline. *)
Lemma doomed_main_step s e s' : doomed s → main_step s e = Some (Ret s') → doomed s'.
Proof.
  intros Hd Hstep.
  assert (∀ h, controller (WHost h) s = host_ctl (host_at h s)) as Hw by done.
  destruct e; try discriminate Hstep; cbn [main_step] in Hstep;
    destruct (main s) eqn:Hm; try discriminate Hstep.
  - injection Hstep as <-. refine (doomed_host Main s _ _ _ Hd _ _); [by cbn; rewrite Hm|].
    destruct (loaded s); [by left|by right].
  - destruct (pipe s), reader; try discriminate Hstep. injection Hstep as <-. by apply doomed_pipe.
  - destruct (pipe s), (handler s) eqn:Hh; try discriminate Hstep; injection Hstep as <-;
      (refine (doomed_host Handler s _ _ _ Hd _ _); [by cbn; rewrite Hh|by right]).
  - destruct (handler s) eqn:Hh, (pipe s) as [| | | |[]|]; try discriminate Hstep; injection Hstep as <-;
      (refine (doomed_host Main (with_pipe PDone (lock s) s) _ _ _ _ _ _);
       [by apply doomed_pipe|by cbn; rewrite Hm|by left]).
Qed.

Lemma doomed_init_step s e h s' :
  doomed s → e = EInitLock h ∨ (∃ err, e = ELoaded h err) →
  init_step h s e = Some (Ret s') → doomed s'.
Proof.
  intros Hd He Hstep.
  destruct He as [->|[err ->]]; cbn [init_step] in Hstep; destruct (host_at h s) eqn:Hh; try discriminate Hstep.
  - destruct (lock s); [done|]. injection Hstep as <-.
    apply doomed_host; [done|by cbn; rewrite Hh|by right; destruct h].
  - destruct err; [by destruct h|]. injection Hstep as <-.
    apply doomed_host; [done|by cbn; rewrite Hh|by left; destruct h].
Qed.

Lemma doomed_handler_step s e s' : doomed s → handler_step s e = Some (Ret s') → doomed s'.
Proof.
  intros Hd Hstep.
  assert (∀ pc, host_ctl (handler s) = None →
    match pc with HClosing _ _ | HStarting _ => False | _ => True end →
    doomed (with_host Handler pc (lock s) (loaded s) s)) as Hgo.
  { intros pc Hn Hpc. apply doomed_host; [done|done|]. right. by destruct pc. }
  destruct e; try discriminate Hstep; cbn [handler_step] in Hstep.
  - destruct (main s) as [| |c0 []| | | | | | | | |], (handler s) eqn:Hh; try discriminate Hstep;
      injection Hstep as <-; by refine (Hgo _ _ _).
  - destruct (handler s) eqn:Hh; try discriminate Hstep. destruct (loaded s) eqn:El; [|discriminate Hstep].
    injection Hstep as <-. destruct hook; by refine (Hgo _ _ _).
  - destruct (handler s) eqn:Hh; try discriminate Hstep. destruct err; [discriminate Hstep|].
    injection Hstep as <-. by refine (Hgo _ _ _).
  - destruct (handler s) as [| | | | | | | | | |[]|] eqn:Hh; try discriminate Hstep. injection Hstep as <-.
    refine (doomed_host Handler s _ _ _ Hd _ _); [by cbn; rewrite Hh|].
    destruct (loaded s); [by left|by right].
  - destruct (handler s) as [| | | | | | | | | |[]|] eqn:Hh; try discriminate Hstep. destruct failed.
    + unfold exit_error in Hstep. by destruct (main s) as [| |c0 []| | | | | | | | |].
    + injection Hstep as <-. by refine (Hgo _ _ _).
  - destruct (main s) as [| |c0 []| | | | | | | | |], (handler s) eqn:Hh; try discriminate Hstep;
      injection Hstep as <-; by refine (Hgo _ _ _).
Qed.

Lemma doomed_pipe_step s e s' : doomed s → pipe_step s e = Some (Ret s') → doomed s'.
Proof.
  intros Hd Hstep. destruct e; try discriminate Hstep; cbn [pipe_step] in Hstep;
    destruct (pipe s); try discriminate Hstep.
  - destruct (lock s), (loaded s); try done. injection Hstep as <-. by apply doomed_pipe.
  - destruct r; try discriminate Hstep; injection Hstep as <-; by apply doomed_pipe.
  - injection Hstep as <-. by apply doomed_pipe.
Qed.

Lemma doomed_step s e s' : doomed s → step s e = Some (Ret s') → doomed s'.
Proof.
  intros Hd Hstep. destruct e;
    try solve [by eapply doomed_ctl]; try solve [by eapply doomed_quit];
    try solve [refine (doomed_ticker_step s _ i s' Hd _ Hstep); set_solver];
    try solve [refine (doomed_poller_step s _ i s' Hd _ Hstep); set_solver];
    try solve [refine (doomed_lock_step s _ g s' Hd _ Hstep); auto];
    try solve [exact (doomed_main_step s _ s' Hd Hstep)];
    try solve [exact (doomed_handler_step s _ s' Hd Hstep)];
    try solve [exact (doomed_pipe_step s _ s' Hd Hstep)];
    try solve [refine (doomed_init_step s _ h s' Hd _ Hstep); eauto];
    cbn [step] in Hstep; (destruct (in_script g s); [|done]); injection Hstep as <-.
  - by apply doomed_set_tick.
  - exact (doomed_pollers s _ (lock s) Hd).
Qed.

Lemma doomed_steps s1 s2 : steps any_event s1 s2 → doomed s1 → doomed s2.
Proof.
  induction 1 as [|s1 s2 e s3 _ IH _ Hstep]; [done|]. intros Hd.
  exact (doomed_step s2 e s3 (IH Hd) Hstep).
Qed.

(** One of the two never gets past its send. *)
Lemma doomed_waits s : doomed s → waits j s ∨ waits k s.
Proof. intros [? ? ? ? ?|w r ? ? ? ? ?|? ?]; auto. Qed.
(** The controllers that were done are early, and so are the two new ones. *)
Lemma all_early_two rs m hd pp tk q cs lk ld ts ps t ts' lk' :
  controllers (mkState tk q cs lk ld m hd pp rs ts ps) = [] →
  all_early None (mkState t q cs lk' ld m hd pp (rs ++ [Sending (Some c); Sending (Some c)]) ts' ps).
Proof.
  intros Hrest w r pc _ Hw.
  assert (∀ w r pc, controller w (mkState tk q cs lk ld m hd pp rs ts ps) = Some (r, pc) → early pc = true) as Hold.
  { intros w' r' pc' H. pose proof (controller_runs _ _ _ _ Hrest H). by destruct pc'. }
  destruct w as [h|x]; [apply (Hold (WHost h) r); by destruct h|]. cbn [controller restarts] in Hw.
  destruct ((rs ++ [Sending (Some c); Sending (Some c)]) !! x) as [y|] eqn:E; [|done].
  cbn in Hw. injection Hw as _ <-. apply lookup_app_Some in E as [E|[_ E]].
  - apply (Hold (WGo x) true). cbn. by rewrite E.
  - apply list_elem_of_lookup_2 in E. rewrite !elem_of_cons, elem_of_nil in E.
    by destruct E as [->|[->|[]]]; apply bool_decide_eq_true.
Qed.
End doomed.

(** C5: Two calls of [config_set("tick", …)] in one hook are one too many: once both
    goroutines have seen that a ticker runs, whatever happens next one of them does
    not finish, and nothing prevents the panic it is to cause. *)
Theorem concurrent_restarts_doomed s c i t1 t2
    (Hs : ticking_on c s) (Hi : tickers s !! i = Some THook) (Hrest : controllers s = []) :
  let j := length (restarts s) in let k := S j in
  ∃ s1, (run s [ESetTick (ByTicker i) t1; ESetTick (ByTicker i) t2; ECtl (WGo j); ECtl (WGo j);
               ECtl (WGo k); ECtl (WGo k)] = Some (Ret s1)) ∧
    (∀ s2, steps any_event s1 s2 →
       ¬ (restarts s2 !! j = Some Finished ∧ restarts s2 !! k = Some Finished)) ∧
    run s1 [EHook i None; ESelect i; EQuit (WGo j) i; ECtl (WGo j); ECtl (WGo k)] =
      Some (Panic SendOnClosedChannel).
Proof.
  destruct Hs as (Hq & Hop & z & Hl & _).
  destruct (list_elem_of_split_length _ _ _ Hi) as (ts1 & ts2 & Hts & ->).
  destruct s as [tk q cs lk ld m hd pp rs ts ps]. cbn [tickers restarts chans quitticker main] in *. subst q ts.
  eexists. split; [do 6 do_step; reflexivity|]. split.
  - intros s2 Hs2 [Hj Hk].
    assert (doomed c (length rs) (S (length rs)) s2) as Hd.
    { apply (doomed_steps _ _ _ (n_Sn _) _ _ Hs2). apply both_wait; [done| | |apply lookup_middle|apply lookup_second].
      - by eapply all_early_two.
      - unfold live_tickers in *. cbn in *. by rewrite Hl. }
    destruct (doomed_waits _ _ _ s2 Hd) as [H|H]; unfold waits in H; congruence.
  - do 4 do_step. cbn [run step controller restarts]. rewrite lookup_second.
    cbn [mbind option_bind restartTicker stopTicker]. unfold is_closed. cbn [chans].
    by rewrite list_lookup_insert_eq by by eapply lookup_lt_Some.
Qed.

(** ** Witnesses *)

Definition one_at_a_time_b (s : state) (e : event) : bool :=
  match e with
  | ESetTick _ _ | EExit | EInit | EHandle | ELoaded _ _ =>
    match controllers s with [] => true | _ => false end
  | _ => true
  end.

Lemma one_at_a_time_b_ok s e : one_at_a_time_b s e = true → one_at_a_time s e.
Proof. unfold one_at_a_time_b, one_at_a_time. by destruct e, (controllers s). Qed.

Lemma serial_restarts_safe_witness :
  steps one_at_a_time new_state readme_hook ∧ (length (live_tickers readme_hook) <= 1)%nat.
Proof.
  assert (steps one_at_a_time new_state readme_hook) as Hs.
  { apply (run_steps _ one_at_a_time_b _ (readme_load 100) new_state); [constructor| |apply readme_runs|].
    - apply one_at_a_time_b_ok.
    - vm_compute. reflexivity. }
  split; [exact Hs|]. exact (proj1 (serial_restarts_safe readme_hook Hs)).
Defined.

Lemma readme_ticking : ticking_on 1 readme_hook.
Proof. split; [done|]. split; [done|]. by exists THook. Qed.

Lemma restart_replaces_ticker_witness :
  ∃ s', (run readme_hook (restart_in_hook 1 1 200 ++ [EStart 2; ESelect 2]) = Some (Ret s')) ∧
    tick s' = 200 ∧ live_tickers s' = [TWait (Some 2%nat)].
Proof.
  destruct (restart_replaces_ticker readme_hook 1 1 200) as (s' & c' & Hr & -> & Ht & _ & _ & Hl & _);
    [apply readme_ticking|reflexivity|reflexivity|vm_compute; reflexivity|].
  exists s'. split; [exact Hr|]. split; [exact Ht|exact Hl].
Defined.

Lemma load_race_two_tickers_witness :
  ∃ s, (run new_state (both_start 100 ++ [EStart 0; ESelect 0; EStart 1; ESelect 1]) = Some (Ret s)) ∧
    live_tickers s = [TWait (Some 1%nat); TWait (Some 1%nat)].
Proof.
  destruct (load_race_two_tickers 100) as (s & Hr & Hl & _); [vm_compute; reflexivity|].
  exists s. split; [exact Hr|exact Hl].
Defined.

Lemma load_restart_deadlock_witness :
  ∃ s, (run new_state (load_fires 100 ++ [ECtl (WHost Main); ECtl (WHost Main)]) = Some (Ret s)) ∧
    ∀ e, step s e = None.
Proof.
  destruct (load_restart_deadlock 100) as (s & Hr & _ & _ & He); [vm_compute; reflexivity|].
  exists s. split; [exact Hr|exact He].
Defined.

Lemma concurrent_restarts_doomed_witness :
  ∃ s1, run readme_hook [ESetTick (ByTicker 1) 200; ESetTick (ByTicker 1) 300; ECtl (WGo 1);
           ECtl (WGo 1); ECtl (WGo 2); ECtl (WGo 2)] = Some (Ret s1) ∧
    run s1 [EHook 1 None; ESelect 1; EQuit (WGo 1) 1; ECtl (WGo 1); ECtl (WGo 2)] =
      Some (Panic SendOnClosedChannel).
Proof.
  destruct (concurrent_restarts_doomed readme_hook 1 1 200 300) as (s1 & Hr & _ & Hp);
    [apply readme_ticking|reflexivity|reflexivity|].
  exists s1. split; [exact Hr|exact Hp].
Defined.

Lemma late_signal_panics_witness :
  run (with_pipe (PSending false) true readme_hook) [EExit; ESignal Usr1] =
    Some (Panic SendOnClosedChannel).
Proof.
  refine (proj1 (late_signal_panics (with_pipe (PSending false) true readme_hook) Usr1 _ _ _));
    [reflexivity|discriminate|reflexivity].
Defined.
