(* ===== verification/LuaLock.v ===== *)
(** * The lock of the sandbox

    The theorems on [luaLock] in the goroutines of Ticker.v: which goroutine runs Lua
    code, and what the builtins that release the lock, the signals and a reload do to
    the goroutines that use the Lua state. *)

From S2P Require Import Prelude Ticker.
Open Scope Z_scope.

(** ** The lock *)

Definition in_hook (t : ticker) : bool := match t with THook => true | _ => false end.
Definition in_report (p : poller) : bool := match p with PollHook => true | _ => false end.

(** Whether a host holds the lock: [Init] does, from before it loads the script until it
    has restarted the ticker; [on_signal] does not. *)
Definition host_holds (pc : host_pc) : nat :=
  match pc with HLoading | HStarting _ => 1 | _ => 0 end.
Definition pipe_holds (p : pipe_pc) : nat := match p with PHook => 1 | _ => 0 end.

(** The goroutines that hold the lock. *)
Definition holders (s : state) : nat :=
  (host_holds (main s) + host_holds (handler s) + pipe_holds (pipe s) +
   length (List.filter in_hook (tickers s)) + length (List.filter in_report (pollers s)))%nat.

(** The hosts whose on_signal waits in a builtin that has released the lock. *)
Definition signal_released (pc : host_pc) : nat := match pc with HSignalReleased _ => 1 | _ => 0 end.
Definition signals_released (s : state) : nat := (signal_released (main s) + signal_released (handler s))%nat.

Definition lock_inv (s : state) : Prop :=
  holders s = (if lock s then 1%nat else 0%nat) ∧ signals_released s = 0%nat.

Lemma holders_set_ticker s i t t' :
  tickers s !! i = Some t →
  (holders (set_ticker i t' s) + (if in_hook t then 1 else 0) =
   holders s + (if in_hook t' then 1 else 0))%nat.
Proof.
  intros Hi. unfold holders, set_ticker. cbn [main handler pipe tickers pollers with_tickers].
  destruct (filter_replace in_hook (tickers s) i t Hi) as (l1 & l2 & Hf & Hr).
  rewrite Hf, Hr, !length_app. cbn [List.filter].
  destruct (in_hook t), (in_hook t'); cbn; lia.
Qed.

Lemma holders_set_poller s i p p' :
  pollers s !! i = Some p →
  (holders (set_poller i p' s) + (if in_report p then 1 else 0) =
   holders s + (if in_report p' then 1 else 0))%nat.
Proof.
  intros Hi. unfold holders, set_poller. cbn [main handler pipe tickers pollers with_pollers].
  destruct (filter_replace in_report (pollers s) i p Hi) as (l1 & l2 & Hf & Hr).
  rewrite Hf, Hr, !length_app. cbn [List.filter].
  destruct (in_report p), (in_report p'); cbn; lia.
Qed.

Lemma lock_inv_ticker s i t t' :
  lock_inv s → tickers s !! i = Some t → in_hook t = false → in_hook t' = false →
  lock_inv (set_ticker i t' s).
Proof.
  intros [Hinv Hsig] Hi Ht Ht'. split; [|done]. pose proof (holders_set_ticker s i t t' Hi) as H.
  rewrite Ht, Ht' in H. change (lock (set_ticker i t' s)) with (lock s). lia.
Qed.

Lemma lock_inv_goes_on w r pc pc' s :
  lock_inv s → controller w s = Some (r, pc) → lock_inv (goes_on w pc' s).
Proof.
  unfold lock_inv, holders, signals_released. intros [Hinv Hsig] Hw. destruct w as [h|j]; [|done].
  cbn [controller] in Hw. unfold goes_on.
  assert (∀ n, n = (if lock s then 1 else 0)%nat → (0 < n)%nat → lock s = true) as Hlk
    by (intros n -> ?; destruct (lock s); [done|lia]).
  destruct h; cbn [host_at] in *;
    (match type of Hw with host_ctl ?pc = _ => destruct pc as [| |c []| | | |c| | | | |] eqn:E end);
    try discriminate Hw;
    try (apply Hlk in Hinv as El; [|cbn; lia]; rewrite El in *);
    destruct pc'; cbn in *; rewrite ?E; cbn; split; cbn; lia.
Qed.

(** What [restartTicker] leaves alone. *)
Lemma restartTicker_frame r pc s pc' s' :
  restartTicker r pc s = Some (Ret (pc', s')) →
  main s' = main s ∧ handler s' = handler s ∧ pipe s' = pipe s ∧ lock s' = lock s ∧ restarts s' = restarts s ∧
  pollers s' = pollers s ∧
  List.filter in_hook (tickers s') = List.filter in_hook (tickers s).
Proof.
  destruct pc as [| |[c|]| | | | |]; cbn; intros H; try discriminate; simplify_eq; try done.
  - by destruct (is_closed c s).
  - destruct (quitticker s) as [c|]; [|done]. destruct (is_closed c s); [done|].
    by simplify_eq.
  - cbn. by rewrite List.filter_app, app_nil_r.
Qed.

Lemma lock_inv_take s i t :
  lock_inv s → lock s = false → tickers s !! i = Some t → in_hook t = false →
  lock_inv (with_lock true (set_ticker i THook s)).
Proof.
  intros [Hinv Hsig] El Hi Ht. pose proof (holders_set_ticker s i t THook Hi) as H.
  split; [|done]. rewrite El in Hinv.
  change (holders (with_lock true (set_ticker i THook s))) with (holders (set_ticker i THook s)).
  rewrite Ht in H. cbn [in_hook lock with_lock] in *. lia.
Qed.

Lemma lock_inv_drop s i t :
  lock_inv s → tickers s !! i = Some THook → in_hook t = false →
  lock_inv (with_lock false (set_ticker i t s)).
Proof.
  intros [Hinv Hsig] Hi Ht. pose proof (holders_set_ticker s i _ t Hi) as H. split; [|done].
  change (holders (with_lock false (set_ticker i t s))) with (holders (set_ticker i t s)).
  rewrite Ht in H. cbn [in_hook lock with_lock] in *. destruct (lock s); lia.
Qed.

(** A poller takes the lock for its hook, gives it back, or moves without it. *)
Lemma lock_inv_poller s i p p' :
  lock_inv s → pollers s !! i = Some p → in_report p = false → in_report p' = false →
  lock_inv (set_poller i p' s).
Proof.
  intros [Hinv Hsig] Hi Hp Hp'. split; [|done]. pose proof (holders_set_poller s i p p' Hi) as H.
  rewrite Hp, Hp' in H. change (lock (set_poller i p' s)) with (lock s). lia.
Qed.

Lemma lock_inv_poller_take s i p :
  lock_inv s → lock s = false → pollers s !! i = Some p → in_report p = false →
  lock_inv (with_lock true (set_poller i PollHook s)).
Proof.
  intros [Hinv Hsig] El Hi Hp. pose proof (holders_set_poller s i p PollHook Hi) as H.
  split; [|done]. rewrite El in Hinv.
  change (holders (with_lock true (set_poller i PollHook s))) with (holders (set_poller i PollHook s)).
  rewrite Hp in H. cbn [in_report lock with_lock] in *. lia.
Qed.

Lemma lock_inv_poller_drop s i p :
  lock_inv s → pollers s !! i = Some PollHook → in_report p = false →
  lock_inv (with_lock false (set_poller i p s)).
Proof.
  intros [Hinv Hsig] Hi Hp. pose proof (holders_set_poller s i _ p Hi) as H. split; [|done].
  change (holders (with_lock false (set_poller i p s))) with (holders (set_poller i p s)).
  rewrite Hp in H. cbn [in_report lock with_lock] in *. destruct (lock s); lia.
Qed.

Lemma lock_inv_poller_new s :
  lock_inv s → lock_inv (with_pollers (pollers s ++ [PollReceive]) s).
Proof.
  unfold lock_inv, holders. cbn [main handler pipe tickers pollers lock with_pollers].
  rewrite List.filter_app, length_app. cbn [List.filter in_report length].
  rewrite (Nat.add_0_r (length (List.filter in_report _))). done.
Qed.

Lemma lock_poller_step s e i s' :
  lock_inv s → e ∈ [EReport i; EPollLock i; EPollEnd i] ∨ (∃ err, e = EPollHook i err) →
  step s e = Some (Ret s') → lock_inv s'.
Proof.
  intros Hinv He Hstep. rewrite !elem_of_cons, elem_of_nil in He.
  destruct He as [[->|[->|[->|[]]]]|[err ->]]; cbn [step] in Hstep; poller_cases Hstep Hi p.
  - injection Hstep as <-. by eapply lock_inv_poller.
  - destruct (lock s) eqn:El; [done|]. destruct (loaded s); [|done]. injection Hstep as <-.
    by eapply lock_inv_poller_take.
  - injection Hstep as <-. by eapply lock_inv_poller.
  - destruct err; [done|]. injection Hstep as <-. by eapply lock_inv_poller_drop.
Qed.

Lemma lock_ctl_step s e s' :
  lock_inv s → (∃ w, e = ECtl w) ∨ (∃ w i, e = EQuit w i) → step s e = Some (Ret s') →
  lock_inv s'.
Proof.
  intros Hinv He Hstep. destruct He as [[w ->]|(w & i & ->)]; cbn [step] in Hstep;
    (destruct (controller w s) as [[r pc]|] eqn:Hw; [|done]); cbn in Hstep.
  - destruct (restartTicker r pc s) as [[[pc' s1]|]|] eqn:Hr; cbn in Hstep; simplify_eq.
    destruct (restartTicker_frame _ _ _ _ _ Hr) as (Hm & Hh & Hp & Hl & Hrs & Hps & Ht).
    apply (lock_inv_goes_on w r pc).
    + unfold lock_inv, holders, signals_released in *. by rewrite Hm, Hh, Hp, Hl, Hps, Ht.
    + rewrite <- Hw. unfold controller, host_at. by rewrite Hm, Hh, Hrs.
  - destruct (tickers s !! i) as [t|] eqn:Hi; [|done]. cbn in Hstep.
    destruct pc as [| |[c|]| | | | |]; try done. destruct t as [| |[d|]| | | |]; try done.
    destruct (bool_decide (c = d) && negb (is_closed c s)); [|done]. injection Hstep as <-.
    apply (lock_inv_goes_on w r (Sending (Some c))); [|by destruct w as [[]|]].
    by eapply lock_inv_ticker.
Qed.

Lemma lock_ticker_step s e i s' :
  lock_inv s → e ∈ [EStart i; ESelect i; EFire i; EDrained i; ELock i] ∨ (∃ err, e = EHook i err) →
  step s e = Some (Ret s') → lock_inv s'.
Proof.
  intros Hinv He Hstep. rewrite !elem_of_cons, elem_of_nil in He.
  destruct He as [[->|[->|[->|[->|[->|[]]]]]]|[err ->]]; cbn [step] in Hstep;
    ticker_cases Hstep Hi t.
  - destruct (interval (tick s) <=? 0); [done|]. injection Hstep as <-.
    by eapply lock_inv_ticker.
  - injection Hstep as <-. by eapply lock_inv_ticker.
  - injection Hstep as <-. by eapply lock_inv_ticker.
  - destruct c as [c|]; [|done]. destruct (is_closed c s); [|done].
    injection Hstep as <-. by eapply lock_inv_ticker.
  - destruct (lock s) eqn:El; [done|]. destruct (loaded s); [|done]. injection Hstep as <-.
    by eapply lock_inv_take.
  - destruct err; [done|]. injection Hstep as <-. by eapply lock_inv_drop.
Qed.

Lemma lock_inv_host h s pc (lk : bool) ld :
  lock_inv s → signal_released pc = 0%nat →
  (host_holds (host_at h s) + (if lk then 1 else 0) = host_holds pc + (if lock s then 1 else 0))%nat →
  lock_inv (with_host h pc lk ld s).
Proof.
  unfold lock_inv, holders, signals_released. intros [Hinv Hsig] Hpc Hh.
  destruct h; cbn in *; split; destruct lk, (lock s); lia.
Qed.

Lemma lock_inv_pipe s p (lk : bool) :
  lock_inv s → (pipe_holds (pipe s) + (if lk then 1 else 0) = pipe_holds p + (if lock s then 1 else 0))%nat →
  lock_inv (with_pipe p lk s).
Proof.
  unfold lock_inv, holders, signals_released. intros [Hinv Hsig] Hh.
  cbn in *. split; [|done]. destruct lk, (lock s); lia.
Qed.

(** The Lua code of the goroutine is on_signal. *)
Definition in_signal (g : caller) (s : state) : bool :=
  match g with
  | ByHost h => match host_at h s with HSignal _ | HSignalReleased _ => true | _ => false end
  | _ => false
  end.

Lemma filter_one {A} (P : A → bool) l i x : l !! i = Some x → P x = true → (1 <= length (List.filter P l))%nat.
Proof.
  intros Hi Hx. destruct (filter_replace P l i x Hi) as (l1 & l2 & -> & _).
  rewrite !length_app. cbn. rewrite Hx. cbn. lia.
Qed.

Lemma filter_two {A} (P : A → bool) l i j x y :
  l !! i = Some x → l !! j = Some y → i ≠ j → P x = true → P y = true →
  (2 <= length (List.filter P l))%nat.
Proof.
  revert i j. induction l as [|z l IH]; intros i j Hi Hj Hne Hx Hy; [done|].
  destruct i as [|i], j as [|j]; cbn in *; simplify_eq.
  - rewrite Hx. pose proof (filter_one P l j y Hj Hy). cbn. lia.
  - rewrite Hy. pose proof (filter_one P l i x Hi Hx). cbn. lia.
  - specialize (IH i j Hi Hj ltac:(congruence) Hx Hy). destruct (P z); cbn; lia.
Qed.

(** A goroutine that runs Lua code other than on_signal is one of the holders, and two
    of them are two. *)
Lemma one_holder s g : in_script g s = true → in_signal g s = false → (1 <= holders s)%nat.
Proof.
  unfold holders. intros Hg Hn. destruct g as [[]| |i|i]; cbn [in_script in_signal host_at] in *.
  - destruct (main s); try done. cbn. lia.
  - destruct (handler s); try done. cbn. lia.
  - destruct (pipe s); try done. cbn. lia.
  - apply bool_decide_eq_true in Hg. pose proof (filter_one in_hook _ _ _ Hg eq_refl). lia.
  - apply bool_decide_eq_true in Hg. pose proof (filter_one in_report _ _ _ Hg eq_refl). lia.
Qed.

Lemma two_holders s g g' :
  in_script g s = true → in_script g' s = true → in_signal g s = false → in_signal g' s = false →
  g ≠ g' → (2 <= holders s)%nat.
Proof.
  unfold holders. intros Hg Hg' Hn Hn' Hne.
  assert (∀ h, in_script (ByHost h) s = true → in_signal (ByHost h) s = false →
    host_holds (host_at h s) = 1%nat) as Hh.
  { intros h Ha Hb. cbn in *. by destruct (host_at h s). }
  assert (in_script ByPipe s = true → pipe_holds (pipe s) = 1%nat) as Hp
    by (cbn; by destruct (pipe s)).
  assert (∀ i, in_script (ByTicker i) s = true → tickers s !! i = Some THook) as Ht
    by (intros i ?%bool_decide_eq_true; done).
  assert (∀ i, in_script (ByPoller i) s = true → pollers s !! i = Some PollHook) as Hq
    by (intros i ?%bool_decide_eq_true; done).
  destruct g as [h| |i|i], g' as [h'| |i'|i'];
    repeat match goal with
    | H : in_script (ByHost _) s = true |- _ => apply Hh in H; [|done]
    | H : in_script ByPipe s = true |- _ => apply Hp in H
    | H : in_script (ByTicker _) s = true |- _ => apply Ht in H
    | H : in_script (ByPoller _) s = true |- _ => apply Hq in H
    end;
    try match goal with
    | H : tickers s !! ?i = _, H' : tickers s !! ?j = _ |- _ =>
      pose proof (filter_two in_hook _ _ _ _ _ H H' ltac:(congruence) eq_refl eq_refl)
    | H : tickers s !! ?i = _ |- _ => pose proof (filter_one in_hook _ _ _ H eq_refl)
    end;
    try match goal with
    | H : pollers s !! ?i = _, H' : pollers s !! ?j = _ |- _ =>
      pose proof (filter_two in_report _ _ _ _ _ H H' ltac:(congruence) eq_refl eq_refl)
    | H : pollers s !! ?i = _ |- _ => pose proof (filter_one in_report _ _ _ H eq_refl)
    end;
    try (destruct h); try (destruct h'); cbn [host_at] in *; try congruence; lia.
Qed.

(** The builtins of on_signal are left out. *)
Definition no_signal_builtin (s : state) (e : event) : Prop :=
  ∀ g, e = ERelease g → in_signal g s = false.

Lemma lock_release_step s e g s' :
  lock_inv s → no_signal_builtin s e → e = ERelease g ∨ e = EReacquire g →
  step s e = Some (Ret s') → lock_inv s'.
Proof.
  intros Hinv Hok He Hstep. destruct He as [->| ->]; cbn [step] in *.
  - specialize (Hok g eq_refl).
    destruct (in_script g s) eqn:Hg; [|done]. injection Hstep as Hr. unfold release in Hr.
    destruct (lock s) eqn:El; [|done]. injection Hr as <-.
    destruct g as [h| |i|i]; cbn [in_script in_signal] in Hg, Hok.
    + apply lock_inv_host; [done|by destruct (host_at h s)|]. rewrite El. by destruct (host_at h s).
    + apply lock_inv_pipe; [done|]. rewrite El. by destruct (pipe s).
    + apply bool_decide_eq_true in Hg. by eapply lock_inv_drop.
    + apply bool_decide_eq_true in Hg. by eapply lock_inv_poller_drop.
  - unfold reacquire in Hstep. destruct (lock s) eqn:El; [done|]. destruct g as [h| |i|i].
    + destruct (host_at h s) eqn:Hm; try done; injection Hstep as <-.
      * apply lock_inv_host; [done|done|]. by rewrite El, Hm.
      * exfalso. destruct Hinv as [_ Hsig]. unfold signals_released in Hsig.
        destruct h; cbn in *; rewrite Hm in Hsig; cbn in Hsig; lia.
    + destruct (pipe s) eqn:Hp; try done. injection Hstep as <-. apply lock_inv_pipe; [done|].
      by rewrite El, Hp.
    + destruct (tickers s !! i) as [[]|] eqn:Hi; try done. injection Hstep as <-.
      by eapply lock_inv_take.
    + destruct (pollers s !! i) as [[]|] eqn:Hi; try done. injection Hstep as <-.
      by eapply lock_inv_poller_take.
Qed.

(** The events of [main], the handler and the pipeline. *)
Lemma lock_main_step s e s' : lock_inv s → main_step s e = Some (Ret s') → lock_inv s'.
Proof.
  intros Hinv Hstep. destruct e; try discriminate Hstep; cbn [main_step] in Hstep;
    destruct (main s) eqn:Hm; try discriminate Hstep.
  - injection Hstep as <-. refine (lock_inv_host Main s _ _ _ Hinv _ _); [by destruct (loaded s)|].
    cbn. rewrite Hm. by destruct (loaded s).
  - destruct (pipe s) eqn:Hp, reader; try discriminate Hstep. injection Hstep as <-.
    apply lock_inv_pipe; [done|]. by rewrite Hp.
  - destruct (pipe s), (handler s) eqn:Hh; try discriminate Hstep; injection Hstep as <-;
      (refine (lock_inv_host Handler s _ _ _ Hinv _ _); [done|]; cbn; by rewrite Hh).
  - destruct (handler s) eqn:Hh, (pipe s) as [| | | |[]|] eqn:Hp; try discriminate Hstep;
      injection Hstep as <-;
      (refine (lock_inv_host Main (with_pipe PDone (lock s) s) _ _ _ _ _ _);
       [apply lock_inv_pipe; [done|by rewrite Hp]|done|cbn; by rewrite Hm]).
Qed.

Lemma lock_init_step s e h s' :
  lock_inv s → e = EInitLock h ∨ (∃ err, e = ELoaded h err) →
  init_step h s e = Some (Ret s') → lock_inv s'.
Proof.
  intros Hinv He Hstep.
  destruct He as [->|[err ->]]; cbn [init_step] in Hstep; destruct (host_at h s) eqn:Hh; try discriminate Hstep.
  - destruct (lock s) eqn:El; [done|]. injection Hstep as <-.
    apply lock_inv_host; [done|done|]. by rewrite Hh, El.
  - destruct err; [by destruct h|]. injection Hstep as <-.
    apply lock_inv_host; [done|done|]. by rewrite Hh.
Qed.

Lemma lock_handler_step s e s' : lock_inv s → handler_step s e = Some (Ret s') → lock_inv s'.
Proof.
  intros Hinv Hstep.
  assert (∀ pc, host_holds (handler s) = host_holds pc → signal_released pc = 0%nat →
    lock_inv (with_host Handler pc (lock s) (loaded s) s)) as Hgo.
  { intros pc Hn Hpc. apply lock_inv_host; [done|done|]. cbn. by rewrite Hn. }
  destruct e; try discriminate Hstep; cbn [handler_step] in Hstep.
  - destruct (main s) as [| |c []| | | | | | | | |], (handler s) eqn:Hh; try discriminate Hstep;
      injection Hstep as <-; by refine (Hgo _ _ _).
  - destruct (handler s) eqn:Hh; try discriminate Hstep. destruct (loaded s) eqn:El; [|discriminate Hstep].
    injection Hstep as <-. destruct hook; by refine (Hgo _ _ _).
  - destruct (handler s) eqn:Hh; try discriminate Hstep. destruct err; [discriminate Hstep|].
    injection Hstep as <-. by refine (Hgo _ _ _).
  - destruct (handler s) as [| | | | | | | | | |[]|] eqn:Hh; try discriminate Hstep. injection Hstep as <-.
    refine (lock_inv_host Handler s _ _ _ Hinv _ _); [by destruct (loaded s)|].
    cbn. rewrite Hh. by destruct (loaded s).
  - destruct (handler s) as [| | | | | | | | | |[]|] eqn:Hh; try discriminate Hstep. destruct failed.
    + unfold exit_error in Hstep. by destruct (main s) as [| |c []| | | | | | | | |].
    + injection Hstep as <-. by refine (Hgo _ _ _).
  - destruct (main s) as [| |c []| | | | | | | | |], (handler s) eqn:Hh; try discriminate Hstep;
      injection Hstep as <-; by refine (Hgo _ _ _).
Qed.

Lemma lock_pipe_step s e s' : lock_inv s → pipe_step s e = Some (Ret s') → lock_inv s'.
Proof.
  intros Hinv Hstep. destruct e; try discriminate Hstep; cbn [pipe_step] in Hstep;
    destruct (pipe s) eqn:Hp; try discriminate Hstep.
  - destruct (lock s) eqn:El, (loaded s); try done. injection Hstep as <-.
    apply lock_inv_pipe; [done|]. by rewrite Hp, El.
  - pose proof (proj1 Hinv) as Hh. unfold holders in Hh. rewrite Hp in Hh. cbn in Hh.
    destruct r; try discriminate Hstep; injection Hstep as <-;
      (apply lock_inv_pipe; [done|]; rewrite Hp; cbn; destruct (lock s); lia).
  - injection Hstep as <-. apply lock_inv_pipe; [done|]. by rewrite Hp.
Qed.

Lemma lock_step s e s' :
  lock_inv s → no_signal_builtin s e → step s e = Some (Ret s') → lock_inv s'.
Proof.
  intros Hinv Hok Hstep. destruct e;
    try solve [refine (lock_ctl_step s _ s' Hinv _ Hstep); eauto];
    try solve [refine (lock_ticker_step s _ i s' Hinv _ Hstep); set_solver];
    try solve [refine (lock_poller_step s _ i s' Hinv _ Hstep); set_solver];
    try solve [refine (lock_release_step s _ g s' Hinv Hok _ Hstep); auto];
    try solve [exact (lock_main_step s _ s' Hinv Hstep)];
    try solve [exact (lock_handler_step s _ s' Hinv Hstep)];
    try solve [exact (lock_pipe_step s _ s' Hinv Hstep)];
    try solve [refine (lock_init_step s _ h s' Hinv _ Hstep); eauto];
    cbn [step] in Hstep; (destruct (in_script g s); [|done]); injection Hstep as <-.
  - exact Hinv.
  - by apply lock_inv_poller_new.
Qed.

(** C22: What the lock of the sandbox guards, however the restarts interleave and whatever
    the script does, but for builtins that release the lock in on_signal: the
    goroutines that hold it - the pipeline in [on_log], the tickers in [on_tick], the pollers in
    their hooks, and [Init] from before it loads the script until it has restarted
    the ticker - are at most one, and one exactly when it is locked; no two
    goroutines run Lua code, on_signal apart, and the builtins they call find the lock locked.
    The hook of the signals is not excluded: it takes no lock, and starts while the code of any
    other goroutine runs. *)
Theorem hooks_exclusive s (Hs : steps no_signal_builtin new_state s) :
  holders s = (if lock s then 1%nat else 0%nat) ∧
  (∀ g g', in_script g s = true → in_script g' s = true →
     in_signal g s = false → in_signal g' s = false → g = g') ∧
  (∀ g, in_script g s = true → in_signal g s = false →
     lock s = true ∧ release g s ≠ Panic UnlockOfUnlockedMutex) ∧
  (∀ sig, main s = HIdle → handler s = HIdle → loaded s = true →
     ∃ s', run s [ESignal sig; EDefined true] = Some (Ret s') ∧
       in_script (ByHost Handler) s' = true ∧ ∀ g, in_script g s = true → in_script g s' = true).
Proof.
  assert (lock_inv s) as [Hinv _].
  { remember new_state as s0 eqn:E.
    induction Hs as [|s1 s2 e s3 Hs IH Hok Hstep]; [by subst|].
    exact (lock_step s2 e s3 (IH E) Hok Hstep). }
  assert (∀ g, in_script g s = true → in_signal g s = false → lock s = true) as Hlock.
  { intros g Hg Hn. pose proof (one_holder s g Hg Hn). destruct (lock s); [done|lia]. }
  split_and!; [done|..].
  - intros g g' Hg Hg' Hn Hn'. destruct (decide (g = g')) as [|Hne]; [done|].
    pose proof (two_holders s g g' Hg Hg' Hn Hn' Hne). destruct (lock s); lia.
  - intros g Hg Hn. pose proof (Hlock g Hg Hn) as El. split; [done|]. unfold release. by rewrite El.
  - intros sig Hm Hh Hl. eexists. split.
    { cbn [run step handler_step]. rewrite Hm, Hh. cbn [handler with_host loaded]. rewrite Hl. reflexivity. }
    split; [done|]. intros g Hg. by destruct g as [[]| |i|i].
Qed.

(** ** What the lock does not exclude *)

(** The hook of a goroutine is in progress: it runs, or waits in a builtin. *)
Definition in_progress (g : caller) (s : state) : bool :=
  match g with
  | ByHost h =>
    match host_at h s with HLoading | HReleased | HSignal _ | HSignalReleased _ => true | _ => false end
  | ByPipe => match pipe s with PHook | PReleased => true | _ => false end
  | ByTicker i => match tickers s !! i with Some (THook | TReleased) => true | _ => false end
  | ByPoller i => match pollers s !! i with Some (PollHook | PollReleased) => true | _ => false end
  end.

(** C23: While [on_log] waits in [http_post] or [kafka_produce], which release the lock,
    [on_tick] runs on the same Lua state: two hooks are in progress at once, and
    either may end first. *)
Theorem hooks_overlap s i
    (Hpipe : pipe s = PHook) (Hlock : lock s = true) (Hload : loaded s = true)
    (Hi : tickers s !! i = Some TLock) :
  ∃ s', (run s [ERelease ByPipe; ELock i] = Some (Ret s')) ∧
    in_progress ByPipe s' = true ∧ in_progress (ByTicker i) s' = true ∧
    (∃ s1, (run s' [EHook i None; EReacquire ByPipe; EHookEnd Returns] = Some (Ret s1)) ∧ pipe s1 = PIdle) ∧
    (∃ s2, (run s' [ERelease (ByTicker i); EReacquire ByPipe; EHookEnd Returns] = Some (Ret s2)) ∧
       pipe s2 = PIdle ∧ in_progress (ByTicker i) s2 = true).
Proof.
  destruct (list_elem_of_split_length _ _ _ Hi) as (ts1 & ts2 & Hts & ->).
  destruct s as [tk q cs lk ld m hd pp rs ts ps]. cbn [tickers pipe lock loaded] in *. subst.
  eexists. split; [do 2 do_step; reflexivity|]. cbn [in_progress pipe tickers].
  rewrite lookup_middle. split; [done|]. split; [done|]. split; eexists.
  - split; [do 3 do_step; reflexivity|reflexivity].
  - split; [do 3 do_step; reflexivity|]. cbn [pipe tickers in_progress].
    by rewrite lookup_middle.
Qed.

(** [on_signal] runs without the lock.  If it calls [http_post], the builtin
    releases the lock of whatever hook holds it, or, when nobody does, ends the
    process; and if it goes well the lock is held for ever after the hook. *)
Theorem signal_hook_breaks_lock s sig
    (Hmain : main s = HIdle) (Hhandler : handler s = HIdle) (Hload : loaded s = true) :
  (lock s = false →
   run s [ESignal sig; EDefined true; ERelease (ByHost Handler)] = Some (Panic UnlockOfUnlockedMutex)) ∧
  (lock s = true → pipe s = PHook →
   ∃ s', (run s [ESignal sig; EDefined true; ERelease (ByHost Handler)] = Some (Ret s')) ∧
     lock s' = false ∧ pipe s' = PHook ∧
     (∃ s2, (run s' [EReacquire (ByHost Handler); ESignalEnd None] = Some (Ret s2)) ∧
        lock s2 = true ∧ handler s2 = HHandle sig)).
Proof.
  destruct s as [tk q cs lk ld m hd pp rs ts ps]. cbn [main handler loaded lock pipe] in *. subst. split.
  - intros ->. reflexivity.
  - intros -> ->. eexists. split; [reflexivity|]. split; [done|]. split; [done|].
    eexists. split; [reflexivity|done].
Qed.

(** C25: A reload closes the script without the lock and creates the new one later: a
    log that arrives in between is given to a nil Lua state, and so is an HTTP error or
    a Kafka report that its poller has received by then; the process dies. *)
Theorem reload_drops_state s c i
    (Hmain : main s = HIdle) (Hhandler : handler s = HIdle) (Hload : loaded s = true)
    (Hlock : lock s = false)
    (Hpipe : pipe s = PIdle) (Hquit : quitticker s = Some c) (Hc : chans s !! c = Some false)
    (Hi : tickers s !! i = Some (TWait (Some c))) :
  let reload := [ESignal Usr1; EDefined false; EHandle; ECtl (WHost Handler); ECtl (WHost Handler);
    EQuit (WHost Handler) i; ECtl (WHost Handler); ECtl (WHost Handler)] in
  run s (reload ++ [EHookCall]) = Some (Panic NilDereference) ∧
  ∀ x, pollers s !! x = Some PollReceive →
    run s (reload ++ [EReport x; EPollLock x]) = Some (Panic NilDereference).
Proof.
  destruct (list_elem_of_split_length _ _ _ Hi) as (ts1 & ts2 & Hts & ->).
  destruct s as [tk q cs lk ld m hd pp rs ts ps].
  cbn [main handler loaded lock pipe quitticker chans tickers pollers app] in *. subst. split.
  - do 8 do_step. reflexivity.
  - intros x (ps1 & ps2 & -> & ->)%list_elem_of_split_length. do 9 do_step.
    cbn [run step]. unfold poller_step. cbn [pollers]. by rewrite lookup_middle.
Qed.

(** ** Witnesses *)

Definition no_signal_builtin_b (s : state) (e : event) : bool :=
  match e with ERelease g => negb (in_signal g s) | _ => true end.

Lemma no_signal_builtin_b_ok s e : no_signal_builtin_b s e = true → no_signal_builtin s e.
Proof. intros H g ->. by apply negb_true_iff. Qed.

Lemma hooks_exclusive_witness :
  steps no_signal_builtin new_state readme_hook ∧ holders readme_hook = 1%nat ∧
  ∃ s', run readme_hook [ESignal Usr2; EDefined true] = Some (Ret s') ∧
    in_script (ByHost Handler) s' = true ∧ in_script (ByTicker 1) s' = true.
Proof.
  assert (steps no_signal_builtin new_state readme_hook) as Hs.
  { apply (run_steps _ no_signal_builtin_b _ (readme_load 100) new_state);
      [constructor|apply no_signal_builtin_b_ok|apply readme_runs|].
    vm_compute. reflexivity. }
  destruct (hooks_exclusive readme_hook Hs) as (Hh & _ & _ & Hsig).
  split; [exact Hs|]. split; [exact Hh|].
  destruct (Hsig Usr2) as (s' & Hr & H1 & H2); [reflexivity..|].
  exists s'. split; [exact Hr|]. split; [exact H1|]. apply H2. reflexivity.
Defined.

(** The pipeline has started, and calls [on_log] while the ticker's timer fires. *)
Definition both_hooks : state :=
  mkState 100 (Some 1%nat) [true; false] true true HIdle HIdle PHook [Finished] [TDone; TLock] [].

Lemma hooks_overlap_witness :
  ∃ s', (run both_hooks [ERelease ByPipe; ELock 1] = Some (Ret s')) ∧
    in_progress ByPipe s' = true ∧ in_progress (ByTicker 1) s' = true.
Proof.
  destruct (hooks_overlap both_hooks 1) as (s' & Hr & H1 & H2 & _); [reflexivity..|].
  exists s'. split; [exact Hr|]. split; [exact H1|exact H2].
Defined.

Lemma signal_hook_breaks_lock_witness :
  run (with_pipe PIdle false both_hooks) [ESignal Usr2; EDefined true; ERelease (ByHost Handler)] =
    Some (Panic UnlockOfUnlockedMutex).
Proof.
  refine (proj1 (signal_hook_breaks_lock (with_pipe PIdle false both_hooks) Usr2 _ _ _) _); reflexivity.
Defined.

(** Between two logs and two ticks. *)
Definition between_logs : state :=
  mkState 100 (Some 1%nat) [true; false] false true HIdle HIdle PIdle [Finished] [TDone; TWait (Some 1%nat)]
    [PollReceive].

Lemma reload_drops_state_witness :
  let reload := [ESignal Usr1; EDefined false; EHandle; ECtl (WHost Handler); ECtl (WHost Handler);
    EQuit (WHost Handler) 1; ECtl (WHost Handler); ECtl (WHost Handler)] in
  run between_logs (reload ++ [EHookCall]) = Some (Panic NilDereference) ∧
  run between_logs (reload ++ [EReport 0; EPollLock 0]) = Some (Panic NilDereference).
Proof.
  destruct (reload_drops_state between_logs 1 1) as [H1 H2]; [reflexivity..|].
  split; [exact H1|]. apply (H2 0%nat). reflexivity.
Defined.
