(* ===== verification/Main.v ===== *)
(** * The program (cmd/logd/main.go; cmd/logd/bench.go, lines 19-31)

    The command line, the choice of the mode and of the reader, the signals, how the
    process ends, and the formatter of the log that logd itself writes.  The sandbox
    as the signal handler sees it is an interface, [Host], of which the hooks of
    Sandbox.v give an instance. *)

From Stdlib Require Import Floats.SpecFloat.
From S2P Require Import DirReader.
From S2P Require Import Prelude GoString Log Serialize Parser ParseLines TokenMachine RoundTrip.
From S2P Require Import Pipeline LuaValue Builtins Sandbox.
Open Scope Z_scope.

(** ** Flags *)

Record Flags : Type := mkFlags {
  scriptFlag : gostring;
  benchFlag : gostring;
  fullBenchFlag : gostring;
  fileFlag : gostring;
  dirFlag : list gostring
}.

(** The [flag.Value] of [-r], which may be repeated. *)
Definition dirFlagType_String (d : list gostring) : gostring := fold_left (λ s v, s ++ v) d [].
Definition dirFlagType_Set (v : gostring) (d : list gostring) : option error * list gostring :=
  (None, d ++ [v]).

(** The script, or the error the process ends with after the usage text. *)
Definition validateFlags (f : Flags) : gostring + error :=
  if bool_decide (scriptFlag f = []) && bool_decide (benchFlag f = []) && bool_decide (fullBenchFlag f = [])
  then inr (Err (str "no lua script provided"))
  else if (nonempty (scriptFlag f) && nonempty (benchFlag f)) ||
          (nonempty (fullBenchFlag f) && nonempty (benchFlag f)) ||
          (nonempty (fullBenchFlag f) && nonempty (scriptFlag f))
  then inr (Err (str "only one mode is allowed"))
  else if nonempty (scriptFlag f) then inl (scriptFlag f)
  else if nonempty (fullBenchFlag f) then inl (fullBenchFlag f)
  else inl (benchFlag f).

(** What [main] starts. *)
Inductive mode : Type := RunPipeline | RunLuaBench | RunFullBench.

Definition start_mode (f : Flags) : mode :=
  if nonempty (scriptFlag f) then RunPipeline
  else if nonempty (benchFlag f) then RunLuaBench
  else RunFullBench.

(** ** The usage text *)

(** [strings.Contains(s, sub)]. *)
Fixpoint Contains (s sub : gostring) : bool :=
  HasPrefix s sub || match s with [] => false | _ :: s' => Contains s' sub end.

Record flag_info : Type := mkFlag {
  flag_name : gostring;
  value_name : gostring;  (* of flag.UnquoteUsage *)
  usage : gostring;
  DefValue : gostring
}.

Definition printFlag (f : flag_info) : gostring :=
  let s := [x09] ++ str "-" ++ flag_name f in
  let s := if nonempty (value_name f) then s ++ str " <" ++ value_name f ++ str ">" else s in
  let s := s ++ [x0a; x09; x09] in
  let s := s ++ usage f in
  let s := if nonempty (DefValue f) then s ++ str " [default: " ++ DefValue f ++ str "]" else s in
  s ++ [x0a].

Definition is_command (name : gostring) : bool :=
  bool_decide (name = str "F") || bool_decide (name = str "B") || bool_decide (name = str "R").

Definition printOptions (f : flag_info) : gostring :=
  if Contains (flag_name f) (str "test") then []
  else if is_command (flag_name f) then []
  else printFlag f.

Definition printCommands (f : flag_info) : gostring :=
  if negb (is_command (flag_name f)) then [] else printFlag f.

(** ** The reader *)

Section get_reader.
Context {W FD Info : Type} `{DirReader.OS W FD Info}.

Inductive source_reader : Type :=
  | DirSource
  | FileSource
  | NoReader (e : error)   (* getReader returns the error *)
  | ExitError (e : error). (* exitError ends the process *)

Fixpoint watch_all (dirs : list gostring) : stgo (DirReader.dstate W FD Info) source_reader :=
  match dirs with
  | [] => mret DirSource
  | d :: dirs' =>
    err ← DirReader.Watch d;
    match err with Some e => mret (NoReader e) | None => watch_all dirs' end
  end.

(** [getReader()]; the error of [NewReader] is a panic. *)
Definition getReader (f : Flags) (new_watcher open_file : option error) :
    stgo (DirReader.dstate W FD Info) source_reader :=
  match dirFlag f with
  | [] => mret (match open_file with Some e => ExitError e | None => FileSource end)
  | dirs =>
    err ← DirReader.Init new_watcher;
    match err with
    | Some EOF => gopanics (UserPanic (str "EOF"))
    | Some (Err m) => gopanics (UserPanic m)
    | None => watch_all dirs
    end
  end.
End get_reader.

(** ** Signals *)

Definition SIGUSR1 : Z := 10.
Definition SIGUSR2 : Z := 12.

(** What the signal handler does to the rest of the program: [Init] of the sandbox,
    the profile of the heap, and the channel [main] waits on. *)
Class Host (S : Type) := {
  hook_defined : stgo S bool;
  call_on_signal : Z → stgo S ();
  sandbox_init : stgo S (option error);
  (* [None] when no profile is asked for *)
  heap_profile : stgo S (option (option error));
  send_exit : option error → stgo S ()
}.

Section signals.
Context {S : Type} `{Host S}.

Definition error_text (e : error) : gostring := match e with EOF => str "EOF" | Err m => m end.

Definition handleSignal (sig : Z) : stgo S () :=
  if sig =? SIGUSR2 then
    p ← heap_profile;
    match p with
    | Some (Some err) => send_exit (Some err)
    | _ => mret tt
    end
  else if sig =? SIGUSR1 then
    err ← sandbox_init;
    match err with
    | Some e => gopanics (UserPanic (error_text e))
    | None => mret tt
    end
  else send_exit None.

(** The loop of [sigHandler] over the signals that arrive. *)
Fixpoint sigHandler (sigs : list Z) : stgo S () :=
  match sigs with
  | [] => mret tt
  | sig :: sigs' =>
    ok ← hook_defined;
    _ ← (if ok : bool then call_on_signal sig else mret tt);
    _ ← handleSignal sig;
    sigHandler sigs'
  end.
End signals.

(** [main], up to where it waits: it ends with status 1 after a usage error, when the
    sandbox cannot be made or when there is no reader, and otherwise starts a mode. *)
Inductive started : Type :=
  | ExitStatus1 (e : error)
  | Started (script : gostring) (m : mode).

Definition main_starts (f : Flags) (new_sandbox : gostring → option error) (reader : option error) : started :=
  match validateFlags f with
  | inr e => ExitStatus1 e
  | inl script =>
    match new_sandbox script, reader with
    | Some e, _ => ExitStatus1 e
    | None, Some e => ExitStatus1 e
    | None, None => Started script (start_mode f)
    end
  end.

(** The end of [main], when [err] arrives on the channel: the exit status, and
    whether the deferred [Close] of the sandbox runs. *)
Definition main_ends (err : option error) : Z * bool :=
  match err with
  | Some _ => (1, false) (* os.Exit does not run deferred calls *)
  | None => (0, true)
  end.

(** ** The log logd writes *)

(** A [logrus.Entry]: [Time] and the values of [Data] are rendered, [Data] is in the
    order of the iteration over the map. *)
Record Entry : Type := mkEntry {
  e_message : gostring;
  e_level : gostring;
  e_time : gostring;
  e_data : list (gostring * gostring)
}.

Definition entry_log (e : Entry) : go Log :=
  '(l, _) ← Set_ KeyTimestamp (e_time e) (set_Level (e_level e) (set_Message (e_message e) NewLog));
  foldM (λ l '(k, v), '(l', _) ← Set_ k v l; Ret l') l (e_data e).

(** [logFormatter.Format]. *)
Definition Format (e : Entry) : go gostring :=
  l ← entry_log e;
  Ret (String l ++ [x0a]).

(** ** Benchmarks *)

(** [getTimeOp(res)], of [res.NsPerOp()]. *)
Definition getTimeOp (ns : Z) : Z * gostring :=
  if 1000000 <=? ns then (Z.quot ns 1000000, str "ms/iter")
  else if 1000 <=? ns then (Z.quot ns 1000, str "us/iter")
  else (ns, str "ns/iter").

(** ** Properties *)

(** A command line is accepted exactly when it gives one mode; the script is the
    argument of that mode, and it is the mode that runs. *)
Theorem validate_one_mode (f : Flags) (script : gostring) :
  validateFlags f = inl script ↔
  script ≠ [] ∧
  match start_mode f with
  | RunPipeline => scriptFlag f = script ∧ benchFlag f = [] ∧ fullBenchFlag f = []
  | RunLuaBench => benchFlag f = script ∧ scriptFlag f = [] ∧ fullBenchFlag f = []
  | RunFullBench => fullBenchFlag f = script ∧ scriptFlag f = [] ∧ benchFlag f = []
  end.
Proof.
  unfold validateFlags, start_mode, nonempty. destruct f as [s b g fl d].
  cbn [scriptFlag benchFlag fullBenchFlag].
  destruct s, b, g; cbn; naive_solver.
Qed.

(** Every flag whose name does not contain ["test"] is in the usage text once,
    under the commands or under the options. *)
Theorem usage_lists_flag_once (f : flag_info) (Hname : Contains (flag_name f) (str "test") = false) :
  (printCommands f = printFlag f ∧ printOptions f = []) ∨
  (printCommands f = [] ∧ printOptions f = printFlag f).
Proof.
  unfold printCommands, printOptions. rewrite Hname. destruct (is_command (flag_name f)); auto.
Qed.

(** The unit of a benchmark's time: the number printed is below 1000 unless the
    unit is milliseconds, and the time is at least that many units and less than one
    more. *)
Theorem time_op_units (ns : Z) (Hns : 0 <= ns) :
  ∃ unit, (unit = 1 ∧ (getTimeOp ns).2 = str "ns/iter" ∨
           unit = 1000 ∧ (getTimeOp ns).2 = str "us/iter" ∨
           unit = 1000000 ∧ (getTimeOp ns).2 = str "ms/iter") ∧
    (getTimeOp ns).1 * unit <= ns < ((getTimeOp ns).1 + 1) * unit ∧
    (unit < 1000000 → (getTimeOp ns).1 < 1000).
Proof.
  unfold getTimeOp.
  destruct (Z.leb_spec 1000000 ns) as [H1|H1]; [|destruct (Z.leb_spec 1000 ns) as [H2|H2]];
    cbn [fst snd].
  - exists 1000000. split; [auto|]. Z.to_euclidean_division_equations. lia.
  - exists 1000. split; [auto|]. Z.to_euclidean_division_equations. lia.
  - exists 1. split; [auto|]. lia.
Qed.

(** ** The signal handler and the sandbox *)

Section hosting.
Context {W : Type} `{Script W} (init : sstate W → option error * sstate W)
  (profile : option (option error)).

Record host : Type := mkHost {
  sandbox : sstate W;
  reloads : nat;
  exits : list (option error)
}.

(** A call of the sandbox. *)
Definition on_sandbox {A} (m : stgo (sstate W) A) : stgo host A := λ h,
  '(a, s) ← m (sandbox h); Ret (a, mkHost s (reloads h) (exits h)).

(** [init] is what [Init] does to the sandbox; the sends are recorded in order. *)
Definition sandbox_host : Host host := {|
  hook_defined := on_sandbox SignalHandlerDefined;
  call_on_signal sig := on_sandbox (CallOnSignal sig);
  sandbox_init := λ h, let '(err, s) := init (sandbox h) in
    Ret (err, mkHost s (S (reloads h)) (exits h));
  heap_profile := mret profile;
  send_exit e := modify (λ h, mkHost (sandbox h) (reloads h) (exits h ++ [e]))
|}.
#[local] Existing Instance sandbox_host.

(** What a signal makes [main] receive. *)
Definition sends (sig : Z) : list (option error) :=
  if sig =? SIGUSR2 then match profile with Some (Some e) => [Some e] | _ => [] end
  else if sig =? SIGUSR1 then []
  else [None].

Lemma on_sandbox_frame {A} (m : stgo (sstate W) A) h a h' :
  on_sandbox m h = Ret (a, h') → reloads h' = reloads h ∧ exits h' = exits h.
Proof. unfold on_sandbox. destruct (m (sandbox h)) as [[a' s]|]; cbn; intros; by simplify_eq. Qed.

Lemma handleSignal_effect sig h u h' :
  handleSignal sig h = Ret (u, h') →
  reloads h' = (reloads h + if (sig =? SIGUSR1)%Z then 1 else 0)%nat ∧ exits h' = exits h ++ sends sig.
Proof.
  unfold handleSignal, sends. destruct (Z.eqb_spec sig SIGUSR2) as [->|H2].
  - change (SIGUSR2 =? SIGUSR1) with false. rewrite Nat.add_0_r. cbn.
    destruct profile as [[e|]|]; cbn; intros [= <- <-]; by rewrite ?app_nil_r.
  - destruct (Z.eqb_spec sig SIGUSR1) as [->|H1].
    + unfold mbind, stgo_bind. cbn. destruct (init (sandbox h)) as [[e|] s]; cbn; [done|].
      intros [= <- <-]. cbn. rewrite app_nil_r. split; [lia|done].
    + cbn. intros [= <- <-]. by rewrite Nat.add_0_r.
Qed.

(** Whatever the script's [on_signal] does short of a panic, every SIGUSR1
    reloads the script: the hook runs first and cannot take its place.  A SIGUSR2
    sends at most the error of the profile, and any other signal ends the program. *)
Theorem signals_always_handled (sigs : list Z) (h h' : host) (u : ())
    (Hrun : sigHandler sigs h = Ret (u, h')) :
  reloads h' = (reloads h + length (List.filter (λ sig, sig =? SIGUSR1)%Z sigs))%nat ∧
  exits h' = exits h ++ flat_map sends sigs.
Proof.
  revert h Hrun. induction sigs as [|sig sigs IH]; intros h Hrun.
  { injection Hrun as <- <-. cbn. rewrite app_nil_r. split; [lia|done]. }
  cbn [sigHandler] in Hrun.
  apply stgo_bind_inv in Hrun as (ok & h1 & E1%on_sandbox_frame & Hrun).
  apply stgo_bind_inv in Hrun as (u2 & h2 & E2 & Hrun).
  apply stgo_bind_inv in Hrun as (u3 & h3 & E3 & Hrun).
  assert (reloads h2 = reloads h1 ∧ exits h2 = exits h1) as [Hr2 He2].
  { destruct ok; [by apply on_sandbox_frame in E2|by injection E2 as <- <-]. }
  destruct E1 as [Hr1 He1].
  apply handleSignal_effect in E3 as [Hr3 He3].
  destruct (IH h3 Hrun) as [Hr He]. cbn [List.filter flat_map].
  rewrite He, He3, He2, He1, <- app_assoc. split; [|done].
  rewrite Hr, Hr3, Hr2, Hr1. destruct (sig =? SIGUSR1); cbn; lia.
Qed.
End hosting.

(** ** The log of logd *)

Lemma Set_returns k v l : k ≠ KeyTimestamp → ∃ l' up, Set_ k v l = Ret (l', up).
Proof.
  intros Hk. destruct (decide (k ∈ reserved)) as [Hr|Hr].
  - destruct (Set_reserved k v l Hr Hk) as (l' & H & _). eauto.
  - rewrite Set_prop by done. eauto.
Qed.

Lemma Set_timestamp_ok v l : timestamp_ok v = true → ∃ l' up, Set_ KeyTimestamp v l = Ret (l', up).
Proof.
  unfold timestamp_ok, Set_. rewrite orb_true_iff, !bool_decide_eq_true.
  rewrite (decide_True (P := KeyTimestamp = KeyTimestamp)) by done. intros Hv.
  case_decide; [eauto|]. destruct Hv as [?|Hv]; [done|].
  destruct (Split v " "%byte) as [|? [|? [|]]]; cbn in *; try lia; eauto.
Qed.

Lemma Set_timestamp_bad v l :
  timestamp_ok v = false →
  Set_ KeyTimestamp v l = Panic (UserPanic (str "invalid timestamp format: " ++ v)).
Proof.
  unfold timestamp_ok, Set_. rewrite orb_false_iff, !bool_decide_eq_false. intros [Hv Hl].
  rewrite decide_True, decide_False by done.
  destruct (Split v " "%byte) as [|? [|? [|]]]; cbn in *; congruence.
Qed.

Abbreviation set_field := (λ (l : Log) '(k, v), '(l', _) ← Set_ k v l; Ret l').

Lemma set_fields_return kvs : ∀ l, KeyTimestamp ∉ kvs.*1 → ∃ l', foldM set_field l kvs = Ret l'.
Proof.
  induction kvs as [|[k v] kvs IH]; intros l Hk; [eauto|]. cbn in Hk.
  apply not_elem_of_cons in Hk as [Hne Hk]. cbn [foldM].
  destruct (Set_returns k v l) as (l1 & up & ->); [congruence|]. cbn. by apply IH.
Qed.






(** A script whose [debug] table has a field called ["timestamp"] that is not two
    words brings the program down: the formatter's [Set] panics, whatever the other
    fields are and in whatever order the map gives them. *)
Theorem debug_timestamp_panics `{LuaNumbers} (render : lua_value → gostring)
    (kvs : list (gostring * lua_value)) (data : list (gostring * gostring)) (time : gostring)
    (v : lua_value) (Hkeys : NoDup kvs.*1) (Hts : (KeyTimestamp, v) ∈ kvs)
    (Hv : timestamp_ok (render v) = false) (Htime : timestamp_ok time = true)
    (Hdata : data ≡ₚ prod_map id render <$> kvs) :
  luaDebug [LTable (string_table kvs)] = Ret (DebugFields kvs) ∧
  Format (mkEntry [] (str "info") time data) =
    Panic (UserPanic (str "invalid timestamp format: " ++ render v)).
Proof.
  split.
  { unfold luaDebug. change (arg [LTable (string_table kvs)] 1) with (LTable (string_table kvs)).
    cbn iota. rewrite (debug_fields_ok kvs [] _ Hkeys); [done|]. unfold string_table.
    rewrite length_fmap. lia. }
  assert (NoDup data.*1) as Hnd.
  { rewrite Hdata. by rewrite <- list_fmap_compose. }
  assert ((KeyTimestamp, render v) ∈ data) as Hin.
  { rewrite Hdata. apply list_elem_of_fmap. by exists (KeyTimestamp, v). }
  apply list_elem_of_split in Hin as (d1 & d2 & ->).
  rewrite fmap_app in Hnd. apply list.NoDup_app in Hnd as (_ & Hd1 & _).
  unfold Format, entry_log. cbn [e_time e_level e_message e_data].
  destruct (Set_timestamp_ok time (set_Level (str "info") (set_Message [] NewLog)) Htime)
    as (l0 & up & ->).
  cbn [mbind go_bind]. rewrite foldM_app.
  destruct (set_fields_return d1 l0) as (l1 & ->).
  { intros Hk. apply (Hd1 _ Hk). by left. }
  cbn [mbind go_bind foldM]. by rewrite Set_timestamp_bad.
Qed.

(** ** Witnesses *)

Definition run_flags : Flags := mkFlags (str "collector.lua") [] [] (str "/dev/stdin") [].

Lemma usage_lists_flag_once_witness :
  printCommands (mkFlag (str "R") (str "string") (str "Run") []) =
    [x09] ++ str "-R <string>" ++ [x0a; x09; x09] ++ str "Run" ++ [x0a].
Proof.
  destruct (usage_lists_flag_once (mkFlag (str "R") (str "string") (str "Run") [])) as [[H _]|[H _]];
    [vm_compute; reflexivity|rewrite H; vm_compute; reflexivity|vm_compute in H; discriminate H].
Defined.

Lemma time_op_units_witness : (getTimeOp 1234567).1 * 1000000 <= 1234567.
Proof.
  destruct (time_op_units 1234567) as (unit & Hu & Hb & _); [lia|].
  destruct Hu as [[_ Hu]|[[_ Hu]|[-> _]]]; [vm_compute in Hu; discriminate Hu..|exact (proj1 Hb)].
Defined.

(** A script that handles signals, and two SIGUSR1 around a SIGUSR2. *)
Definition signal_script : Script ToyScript.toy :=
  ToyScript.toy_script [luaNameOnSignalFn] (λ _, Done).

Definition reloaded (s : @sstate ToyScript.toy) : option error * @sstate ToyScript.toy := (None, s).

#[local] Instance signal_host : Host (@host ToyScript.toy) :=
  @sandbox_host _ signal_script reloaded (Some (Some (Err (str "disk full")))).

Definition signal_start : @host ToyScript.toy := mkHost (ToyScript.start false) 0 [].

Lemma signals_run : panics (sigHandler [SIGUSR1; SIGUSR2; SIGUSR1] signal_start) = false.
Proof. vm_compute. reflexivity. Qed.

Lemma signals_always_handled_witness :
  ∃ u h', sigHandler [SIGUSR1; SIGUSR2; SIGUSR1] signal_start = Ret (u, h') ∧
    reloads h' = 2%nat ∧ exits h' = [Some (Err (str "disk full"))].
Proof.
  pose proof signals_run as Hr.
  destruct (sigHandler _ signal_start) as [[u h']|] eqn:E; [|discriminate Hr].
  exists u, h'. split; [reflexivity|].
  exact (signals_always_handled reloaded (Some (Some (Err (str "disk full")))) _ _ h' u E).
Defined.



(** [logd.debug({ msg = "hi", timestamp = "now" })]. *)
Definition debug_call : list (gostring * lua_value) :=
  [(KeyMessage, LString (str "hi")); (KeyTimestamp, LString (str "now"))].

Definition render_string (v : lua_value) : gostring := match v with LString s => s | _ => [] end.

Lemma debug_timestamp_panics_witness :
  Format (mkEntry [] (str "info") (str "2018-06-05 10:11:12.013")
      [(KeyTimestamp, str "now"); (KeyMessage, str "hi")]) =
    Panic (UserPanic (str "invalid timestamp format: now")).
Proof.
  refine (proj2 (@debug_timestamp_panics ToyNumbers.toy_numbers render_string debug_call
    [(KeyTimestamp, str "now"); (KeyMessage, str "hi")] (str "2018-06-05 10:11:12.013")
    (LString (str "now")) _ _ _ _ _)).
  - apply (bool_decide_unpack _). vm_compute. exact I.
  - right. left.
  - vm_compute. reflexivity.
  - vm_compute. reflexivity.
  - apply Permutation_swap.
Defined.
